(** * TraderCo: a shallow embedding of the trading platform's core

    The development follows the layout of the repository:

    - [Common]            traderco/common/types.h
    - [LL]                llbase/mempool.h, llbase/lfqueue.h
    - [Sequencer]         traderco/exchange/networking/fifo_sequencer.h
    - [Exchange]          traderco/exchange/orders/ome_order_book.{h,cpp}
    - [Consumer]          traderco/client/data/market_data_consumer.cpp
    - [Replica]           traderco/client/orders/te_order_book.cpp
    - [Positions]         traderco/client/trading/position_manager.h
    - [Orders]            traderco/client/trading/order_manager.{h,cpp},
                          traderco/client/trading/risk_manager.h

    Conventions.  Fixed-width integers are [Z] with the wrap-around written
    out where the source computes; [double] is the kernel's binary64
    ([PrimFloat.float]); a pointer into a [MemPool] is the index of its block
    and [nullptr] is [None]; a fixed-size array is a finite map holding the
    entries written so far together with the array's size, every other entry
    holding the value the array was initialised with. *)

From Stdlib Require Import ZArith NArith List Bool Lia Permutation Sorted.
From Stdlib Require Import Floats.PrimFloat Floats.FloatOps Floats.SpecFloat.
From stdpp Require Import base option list gmap.

Open Scope Z_scope.
Set Warnings "-clear-no-such-hyp".

(** * Part I: the embedding *)

(** ** traderco/common/types.h *)

Module Common.

(** [Exchange::Limits].  [IS_TEST_SUITE] is defined by types.h itself, so
    [OME_SIZE] is 16. *)
Definition OME_SIZE : Z := 16.
Definition MAX_TICKERS : Z := 8.
Definition MAX_CLIENT_UPDATES : Z := OME_SIZE * 1024.
Definition MAX_MARKET_UPDATES : Z := OME_SIZE * 1024.
Definition MAX_N_CLIENTS : Z := OME_SIZE.
Definition MAX_ORDER_IDS : Z := 1024 * 1024.
Definition MAX_PRICE_LEVELS : Z := OME_SIZE.
Definition MAX_PENDING_ORDER_REQUESTS : Z := 1024.

(** Two's complement wrap-around of the fixed-width types. *)
Definition wrap_u32 (z : Z) : Z := z mod 2 ^ 32.
Definition wrap_u64 (z : Z) : Z := z mod 2 ^ 64.
Definition wrap_i32 (z : Z) : Z := (z + 2 ^ 31) mod 2 ^ 32 - 2 ^ 31.
Definition wrap_i64 (z : Z) : Z := (z + 2 ^ 63) mod 2 ^ 64 - 2 ^ 63.

(** [std::abs] on an [int]: the negation of [INT_MIN] wraps, so that
    [INT_MIN] is kept. *)
Definition abs_i32 (z : Z) : Z := wrap_i32 (Z.abs z).

(** [using OrderID = uint64_t] and friends; [ID_INVALID<T>] is
    [numeric_limits<T>::max()]. *)
Definition OrderID := Z.
Definition TickerID := Z.
Definition ClientID := Z.
Definition Price := Z.
Definition Qty := Z.
Definition Priority := Z.

Definition OrderID_INVALID : OrderID := 2 ^ 64 - 1.
Definition TickerID_INVALID : TickerID := 2 ^ 32 - 1.
Definition ClientID_INVALID : ClientID := 2 ^ 32 - 1.
Definition Price_INVALID : Price := 2 ^ 63 - 1.
Definition Qty_INVALID : Qty := 2 ^ 32 - 1.
Definition Priority_INVALID : Priority := 2 ^ 64 - 1.

(** [enum class Side : int8_t]. *)
Inductive Side := Side_INVALID | BUY | SELL | Side_MAX.

#[global] Instance Side_eq_dec : EqDecision Side.
Proof. solve_decision. Defined.

(** [side_to_value]: [static_cast<int>(side)]. *)
Definition side_to_value (s : Side) : Z :=
  match s with Side_INVALID => 0 | BUY => 1 | SELL => -1 | Side_MAX => 2 end.

(** [side_to_index]: [static_cast<size_t>(side) + 1]; for [SELL] the cast
    gives [2^64 - 1] and the addition wraps to 0. *)
Definition side_to_index (s : Side) : Z := wrap_u64 (wrap_u64 (side_to_value s) + 1).

(** Conversion of an integer to [double], rounding to nearest even. *)
Definition to_double (z : Z) : float := SF2Prim (binary_normalize 53 1024 z 0 false).

End Common.

(** ** traderco/exchange/data/ome_client_response.h *)

Module Response.
Import Common.

Inductive Type_ := INVALID | ACCEPTED | CANCELLED | FILLED | CANCEL_REJECTED.

#[global] Instance Type_eq_dec : EqDecision Type_.
Proof. solve_decision. Defined.

Record OMEClientResponse := mkResponse {
  type : Type_;
  client_id : ClientID;
  ticker_id : TickerID;
  client_order_id : OrderID;
  market_order_id : OrderID;
  side : Side;
  price : Price;
  qty_exec : Qty;
  qty_remain : Qty
}.

(** The default member initialisers of the struct. *)
Definition default : OMEClientResponse :=
  mkResponse INVALID ClientID_INVALID TickerID_INVALID OrderID_INVALID
             OrderID_INVALID Side_INVALID Price_INVALID Qty_INVALID Qty_INVALID.

End Response.

(** ** traderco/client/trading/position_manager.h *)

Module Positions.
Import Common.

(** [class Position]; [vwap_open] is
    [std::array<double, side_to_index(Side::MAX) + 1>], four doubles, read
    and written here with [operator[]]. *)
Record Position := mkPosition {
  position : Z;               (* int32_t *)
  pnl_real : float;
  pnl_unreal : float;
  pnl_total : float;
  vwap_open : list float;
  volume : Qty
}.

Definition Position_default : Position :=
  mkPosition 0 0%float 0%float 0%float (replicate 4 0%float) 0.

Definition vwap_at (v : list float) (i : Z) : float := nth (Z.to_nat i) v 0%float.
Definition vwap_set (v : list float) (i : Z) (x : float) : list float :=
  <[Z.to_nat i := x]> v.

(** [Position::add_fill].  Signed overflow is modelled as wrap-around. *)
Definition add_fill (p : Position) (response : Response.OMEClientResponse) : Position :=
  let position_old := position p in
  let i_side := side_to_index (Response.side response) in
  let i_side_opposite :=
    side_to_index (if decide (Response.side response = BUY) then SELL else BUY) in
  let side_value := side_to_value (Response.side response) in
  let position' :=
    wrap_i32 (position_old + wrap_i32 (wrap_i32 (Response.qty_exec response) * side_value)) in
  let volume' := wrap_u32 (volume p + Response.qty_exec response) in
  let postion_opened_or_increased := 0 <=? wrap_i32 (position_old * side_value) in
  let '(vwap1, pnl_real1) :=
    if postion_opened_or_increased then
      (vwap_set (vwap_open p) i_side
         (vwap_at (vwap_open p) i_side
          + to_double (wrap_i64 (Response.price response * Response.qty_exec response))),
       pnl_real p)
    else
      let vwap_opposite :=
        (vwap_at (vwap_open p) i_side_opposite / to_double (abs_i32 position_old))%float in
      let v1 := vwap_set (vwap_open p) i_side_opposite
                         (vwap_opposite * to_double (abs_i32 position'))%float in
      let real1 :=
        (pnl_real p
         + to_double (wrap_i32 (Z.min (wrap_i32 (Response.qty_exec response))
                                      (abs_i32 position_old) * side_value))
           * (vwap_opposite - to_double (Response.price response)))%float in
      if wrap_i32 (position' * position_old) <? 0 then
        (vwap_set
           (vwap_set v1 i_side
                     (to_double (Response.price response) * to_double (abs_i32 position'))%float)
           i_side_opposite 0%float,
         real1)
      else (v1, real1) in
  let '(vwap2, pnl_unreal2) :=
    if position' =? 0 then
      (vwap_set (vwap_set vwap1 (side_to_index SELL) 0%float) (side_to_index BUY) 0%float,
       0%float)
    else if 0 <? position' then
      (vwap1,
       ((to_double (Response.price response)
         - vwap_at vwap1 (side_to_index BUY) / to_double (abs_i32 position'))
        * to_double (abs_i32 position'))%float)
    else
      (vwap1,
       ((vwap_at vwap1 (side_to_index SELL) / to_double (abs_i32 position')
         - to_double (Response.price response))
        * to_double (abs_i32 position'))%float) in
  mkPosition position' pnl_real1 pnl_unreal2 (pnl_unreal2 + pnl_real1)%float vwap2 volume'.

(** A [FILLED] response as the position tests build it: only the side, the
    price and the executed quantity are read by [add_fill]. *)
Definition fill (s : Side) (q : Qty) (p : Price) : Response.OMEClientResponse :=
  Response.mkResponse Response.FILLED 0 0 0 OrderID_INVALID s p q Qty_INVALID.

End Positions.

(** ** Outcomes of a call

    The functions of the repository that can stop the process do so in one
    of a few ways: an [ASSERT]/[FATAL] of llbase/macros.h (which prints and
    calls [exit]), a [std::out_of_range] thrown by [std::array::at] inside a
    [noexcept] function (which calls [std::terminate]), or the dereference of
    a null pointer.  [Out_of_fuel] is an artefact of the embedding: loops are
    run on a fuel that the proofs show to be sufficient. *)

Module Run.

Inductive Stop :=
  | Exit_pool_block_not_free     (* "<MemPool> object block at index .. is not free" *)
  | Exit_pool_overrun            (* "<MemPool> memory pool overrun" *)
  | Exit_pool_foreign_object     (* ".. does not belong to this pool" *)
  | Exit_pool_not_in_use         (* ".. free a pool object which is NOT in use" *)
  | Exit_too_many_pending        (* "<FIFOSequencer> too many pending requests!" *)
  | Terminate_out_of_range       (* std::array::at threw under noexcept *)
  | Null_dereference
  | Out_of_fuel.

Inductive Result (A : Type) :=
  | Ok (a : A)
  | Stopped (s : Stop).
Arguments Ok {A} a.
Arguments Stopped {A} s.

#[global] Instance Result_ret : MRet Result := fun A a => Ok a.
#[global] Instance Result_bind : MBind Result := fun A B k m =>
  match m with
  | Ok a => k a
  | Stopped s => Stopped s
  end.
#[global] Instance Result_fmap : FMap Result := fun A B f m =>
  match m with
  | Ok a => Ok (f a)
  | Stopped s => Stopped s
  end.

(** Dereference of a possibly null pointer. *)
Definition deref {A} (p : option A) : Result A :=
  match p with
  | Some a => Ok a
  | None => Stopped Null_dereference
  end.

End Run.

(** ** llbase/mempool.h and llbase/lfqueue.h *)

Module LL.
Import Run.

(** [T{}]: the value-initialised object a container is filled with. *)
Class DefaultInit (T : Type) := default_init : T.

Section MemPool.
Context {T : Type} `{!DefaultInit T}.

(** [struct Block { T object; bool is_free{ true }; }]. *)
Record Block := mkBlock {
  object : T;
  is_free : bool
}.

(** [class MemPool]: [blocks] is a [std::vector<Block>] of [n_blocks]
    elements, every one [{ T{}, true }] at construction; [stored] holds the
    blocks written since. *)
Record MemPool := mkMemPool {
  stored : gmap N Block;
  n_blocks : N;
  i_next_free : N
}.

Definition MemPool_new (n : N) : MemPool := mkMemPool ∅ n 0%N.

(** [blocks[i]]. *)
Definition block_at (p : MemPool) (i : N) : Block :=
  default (mkBlock default_init true) (stored p !! i).

Definition set_block (p : MemPool) (i : N) (b : Block) : MemPool :=
  mkMemPool (<[i := b]> (stored p)) (n_blocks p) (i_next_free p).

(** The loop of [update_next_free_index], entered with the cursor at [cur]
    and [i] the index it started from. *)
Fixpoint scan_next_free (fuel : nat) (p : MemPool) (i cur : N) : Result N :=
  if is_free (block_at p cur) then Ok cur
  else match fuel with
       | O => Stopped Out_of_fuel
       | S fuel' =>
           let cur1 := (cur + 1)%N in
           let cur2 := if (cur1 =? n_blocks p)%N then 0%N else cur1 in
           if (i =? cur2)%N then Stopped Exit_pool_overrun
           else scan_next_free fuel' p i cur2
       end.

(** [MemPool::update_next_free_index]. *)
Definition update_next_free_index (p : MemPool) : Result MemPool :=
  j ← scan_next_free (N.to_nat (n_blocks p)) p (i_next_free p) (i_next_free p);
  Ok (mkMemPool (stored p) (n_blocks p) j).

(** [MemPool::allocate(args...)]: the object is built from the arguments
    by placement [new]; the pointer returned is the index of its block. *)
Definition allocate (p : MemPool) (obj : T) : Result (N * MemPool) :=
  let i := i_next_free p in
  if is_free (block_at p i) then
    p' ← update_next_free_index (set_block p i (mkBlock obj false));
    Ok (i, p')
  else Stopped Exit_pool_block_not_free.

(** [MemPool::deallocate(object)]; the object stays in its block. *)
Definition deallocate (p : MemPool) (i_object : N) : Result MemPool :=
  if (i_object <? n_blocks p)%N then
    if is_free (block_at p i_object) then Stopped Exit_pool_not_in_use
    else Ok (set_block p i_object (mkBlock (object (block_at p i_object)) true))
  else Stopped Exit_pool_foreign_object.

(** Reading and writing the object a pointer refers to. *)
Definition read (p : MemPool) (i : N) : T := object (block_at p i).

Definition write (p : MemPool) (i : N) (obj : T) : MemPool :=
  set_block p i (mkBlock obj (is_free (block_at p i))).

(** The blocks in use; [get_n_blocks_used] counts them and
    [get_n_blocks_free] is the rest of the vector. *)
Definition used (p : MemPool) : gset N :=
  dom (filter (fun kb => is_free (snd kb) = false) (stored p)).

Definition get_n_blocks_used (p : MemPool) : N := N.of_nat (size (used p)).
Definition get_n_blocks_free (p : MemPool) : N := (n_blocks p - get_n_blocks_used p)%N.

(** A client of the pool: a sequence of [allocate] and [deallocate] calls,
    run until one of them stops the process. *)
Inductive PoolOp :=
  | Alloc (obj : T)
  | Dealloc (i_object : N).

Fixpoint run_ops (ops : list PoolOp) (p : MemPool) : Result MemPool :=
  match ops with
  | [] => Ok p
  | Alloc obj :: ops' => '(_, p') ← allocate p obj; run_ops ops' p'
  | Dealloc i :: ops' => p' ← deallocate p i; run_ops ops' p'
  end.

(** The number of live objects (allocated and not yet deallocated) stays at
    or below [k] along the sequence, [live] being their number before it. *)
Fixpoint live_never_exceeds (k live : Z) (ops : list PoolOp) : Prop :=
  match ops with
  | [] => True
  | Alloc _ :: ops' => live + 1 <= k /\ live_never_exceeds k (live + 1) ops'
  | Dealloc _ :: ops' => live_never_exceeds k (live - 1) ops'
  end.

End MemPool.

Arguments Block T : clear implicits.
Arguments MemPool T : clear implicits.
Arguments PoolOp T : clear implicits.

Section LFQueue.
Context {T : Type} `{!DefaultInit T}.

(** [class LFQueue]: a ring of [q_size] slots ([blocks.size()]). *)
Record LFQueue := mkLFQueue {
  slots : gmap Z T;
  q_size : Z;
  q_n_blocks : Z;
  i_write : Z;
  i_read : Z
}.

Definition LFQueue_new (n : Z) : LFQueue := mkLFQueue ∅ n 0 0 0.

Definition slot_at (q : LFQueue) (i : Z) : T := default default_init (slots q !! i).

(** [*q.get_next_to_write() = x; q.increment_write_index();]. *)
Definition push (q : LFQueue) (x : T) : LFQueue :=
  mkLFQueue (<[i_write q := x]> (slots q)) (q_size q)
            (Common.wrap_u64 (q_n_blocks q + 1))
            ((i_write q + 1) mod q_size q) (i_read q).

(** [get_next_to_read]. *)
Definition get_next_to_read (q : LFQueue) : option T :=
  if q_n_blocks q =? 0 then None else Some (slot_at q (i_read q)).

(** [increment_read_index]; [None] when the [ASSERT] on [n_blocks] fails
    and the process exits. *)
Definition increment_read_index (q : LFQueue) : option LFQueue :=
  if q_n_blocks q =? 0 then None
  else Some (mkLFQueue (slots q) (q_size q) (q_n_blocks q - 1) (i_write q)
                       ((i_read q + 1) mod q_size q)).

End LFQueue.

Arguments LFQueue T : clear implicits.

End LL.

(** ** traderco/exchange/data/ome_client_request.h *)

Module Request.
Import Common.

Inductive Type_ := INVALID | NEW | CANCEL.

#[global] Instance Type_eq_dec : EqDecision Type_.
Proof. solve_decision. Defined.

Record OMEClientRequest := mkRequest {
  type : Type_;
  client_id : ClientID;
  ticker_id : TickerID;
  order_id : OrderID;
  side : Side;
  price : Price;
  qty : Qty
}.

Definition default : OMEClientRequest :=
  mkRequest INVALID ClientID_INVALID TickerID_INVALID OrderID_INVALID
            Side_INVALID Price_INVALID Qty_INVALID.

End Request.

(** ** traderco/exchange/data/ome_market_update.h *)

Module Update.
Import Common.

Inductive Type_ :=
  | INVALID | CLEAR | ADD | MODIFY | CANCEL | TRADE | SNAPSHOT_START | SNAPSHOT_END.

#[global] Instance Type_eq_dec : EqDecision Type_.
Proof. solve_decision. Defined.

Record OMEMarketUpdate := mkUpdate {
  type : Type_;
  order_id : OrderID;
  ticker_id : TickerID;
  side : Side;
  price : Price;
  qty : Qty;
  priority : Priority
}.

Definition default : OMEMarketUpdate :=
  mkUpdate INVALID OrderID_INVALID TickerID_INVALID Side_INVALID Price_INVALID
           Qty_INVALID Priority_INVALID.

(** [struct MDPMarketUpdate]: an update with its sequence number. *)
Record MDPMarketUpdate := mkMDP {
  n_seq : Z;                              (* size_t *)
  ome_update : OMEMarketUpdate
}.

End Update.

(** ** traderco/exchange/networking/fifo_sequencer.h *)

Module Sequencer.
Import Common Run LL.

#[global] Instance Request_default : DefaultInit Request.OMEClientRequest := Request.default.

(** [struct PendingClientRequest]; [operator<] compares [t_rx]. *)
Record PendingClientRequest := mkPending {
  t_rx : Z;                              (* LL::Nanos, int64_t *)
  request : Request.OMEClientRequest
}.

Definition pending_lt (a b : PendingClientRequest) : Prop := t_rx a < t_rx b.

(** What [std::sort] promises for a range compared with [operator<]: the
    result is a rearrangement of the range in which no element is less than
    one before it.  The algorithm itself belongs to the C++ library. *)
Definition sorts (std_sort : list PendingClientRequest -> list PendingClientRequest) : Prop :=
  forall l, Permutation (std_sort l) l
            /\ StronglySorted (fun a b => ~ pending_lt b a) (std_sort l).

(** [class FIFOSequencer]; [pending_requests] is a [std::array] of
    [MAX_PENDING_ORDER_REQUESTS] elements. *)
Record FIFOSequencer := mkSequencer {
  rx_requests : LFQueue Request.OMEClientRequest;
  pending_requests : list PendingClientRequest;
  n_pending_requests : Z
}.

Definition FIFOSequencer_new (q : LFQueue Request.OMEClientRequest) : FIFOSequencer :=
  mkSequencer q (replicate (Z.to_nat MAX_PENDING_ORDER_REQUESTS) (mkPending 0 Request.default)) 0.

(** [FIFOSequencer::push_client_request]. *)
Definition push_client_request (fs : FIFOSequencer) (req : Request.OMEClientRequest) (t : Z)
  : Result FIFOSequencer :=
  if Z.of_nat (length (pending_requests fs)) <=? n_pending_requests fs
  then Stopped Exit_too_many_pending
  else Ok (mkSequencer (rx_requests fs)
             (<[Z.to_nat (n_pending_requests fs) := mkPending t req]> (pending_requests fs))
             (n_pending_requests fs + 1)).

(** The [for] loop of [sequence_and_publish]: [pending_requests.at(i)] is
    written to the queue for [i] from 0 up to [n_pending_requests]. *)
Definition publish_at (pending : list PendingClientRequest)
    (acc : Result (LFQueue Request.OMEClientRequest)) (i : nat)
  : Result (LFQueue Request.OMEClientRequest) :=
  q ← acc;
  match pending !! i with
  | Some req => Ok (push q (request req))
  | None => Stopped Terminate_out_of_range
  end.

(** [FIFOSequencer::sequence_and_publish]. *)
Definition sequence_and_publish
    (std_sort : list PendingClientRequest -> list PendingClientRequest)
    (fs : FIFOSequencer) : Result FIFOSequencer :=
  if n_pending_requests fs =? 0 then Ok fs
  else
    let n := Z.to_nat (n_pending_requests fs) in
    let pending := std_sort (take n (pending_requests fs)) ++ drop n (pending_requests fs) in
    q ← foldl (publish_at pending) (Ok (rx_requests fs)) (seq 0 n);
    Ok (mkSequencer q pending 0).

End Sequencer.

(** ** traderco/exchange/orders/ome_order.h *)

Module Order.
Import Common.

(** [class OMEOrder]; [prev] and [next] point into the book's order pool. *)
Record OMEOrder := mk {
  ticker_id : TickerID;
  client_id : ClientID;
  client_order_id : OrderID;
  market_order_id : OrderID;
  side : Side;
  price : Price;
  qty : Qty;
  priority : Priority;
  prev : option N;
  next : option N
}.

#[global] Instance default : LL.DefaultInit OMEOrder :=
  mk TickerID_INVALID ClientID_INVALID OrderID_INVALID OrderID_INVALID Side_INVALID
     Price_INVALID Qty_INVALID Priority_INVALID None None.

Definition with_qty (o : OMEOrder) (q : Qty) : OMEOrder :=
  mk (ticker_id o) (client_id o) (client_order_id o) (market_order_id o) (side o)
     (price o) q (priority o) (prev o) (next o).
Definition with_prev (o : OMEOrder) (p : option N) : OMEOrder :=
  mk (ticker_id o) (client_id o) (client_order_id o) (market_order_id o) (side o)
     (price o) (qty o) (priority o) p (next o).
Definition with_next (o : OMEOrder) (p : option N) : OMEOrder :=
  mk (ticker_id o) (client_id o) (client_order_id o) (market_order_id o) (side o)
     (price o) (qty o) (priority o) (prev o) p.

End Order.

Module Level.
Import Common.

(** [class OMEOrdersAtPrice]; [order_0] points into the order pool, [prev]
    and [next] into the pool of price levels. *)
Record OMEOrdersAtPrice := mk {
  side : Side;
  price : Price;
  order_0 : option N;
  prev : option N;
  next : option N
}.

#[global] Instance default : LL.DefaultInit OMEOrdersAtPrice :=
  mk Side_INVALID Price_INVALID None None None.

Definition with_order_0 (l : OMEOrdersAtPrice) (p : option N) : OMEOrdersAtPrice :=
  mk (side l) (price l) p (prev l) (next l).
Definition with_prev (l : OMEOrdersAtPrice) (p : option N) : OMEOrdersAtPrice :=
  mk (side l) (price l) (order_0 l) p (next l).
Definition with_next (l : OMEOrdersAtPrice) (p : option N) : OMEOrdersAtPrice :=
  mk (side l) (price l) (order_0 l) (prev l) p.

End Level.

(** ** traderco/exchange/orders/ome_order_book.{h,cpp} *)

Module Exchange.
Import Common Run LL.

(** [class OMEOrderBook].  [map_client_id_to_order] is the
    [MAX_N_CLIENTS] x [MAX_ORDER_IDS] table of order pointers and
    [map_price_to_price_level] the table of [MAX_PRICE_LEVELS] level
    pointers; an absent key is a null entry.  [tx_responses] and
    [tx_market_updates] are the values written to the two outbound rings of
    the [OrderMatchingEngine] by [send_client_response] and
    [send_market_update], oldest first. *)
Record OMEOrderBook := mkBook {
  assigned_ticker : TickerID;
  map_client_id_to_order : gmap (Z * Z) N;
  orders_at_price_pool : MemPool Level.OMEOrdersAtPrice;
  bids_by_price : option N;
  asks_by_price : option N;
  map_price_to_price_level : gmap Z N;
  order_pool : MemPool Order.OMEOrder;
  client_response : Response.OMEClientResponse;
  market_update : Update.OMEMarketUpdate;
  next_market_oid : OrderID;
  tx_responses : list Response.OMEClientResponse;
  tx_market_updates : list Update.OMEMarketUpdate
}.

Definition OMEOrderBook_new (ticker : TickerID) : OMEOrderBook :=
  mkBook ticker ∅ (MemPool_new (Z.to_N MAX_PRICE_LEVELS)) None None ∅
         (MemPool_new (Z.to_N MAX_ORDER_IDS)) Response.default Update.default 1 [] [].

(** Assignments to the members. *)
Definition set_client_map (b : OMEOrderBook) (m : gmap (Z * Z) N) : OMEOrderBook :=
  mkBook (assigned_ticker b) m (orders_at_price_pool b) (bids_by_price b)
         (asks_by_price b) (map_price_to_price_level b) (order_pool b)
         (client_response b) (market_update b) (next_market_oid b)
         (tx_responses b) (tx_market_updates b).
Definition set_level_pool (b : OMEOrderBook) (p : MemPool Level.OMEOrdersAtPrice)
  : OMEOrderBook :=
  mkBook (assigned_ticker b) (map_client_id_to_order b) p (bids_by_price b)
         (asks_by_price b) (map_price_to_price_level b) (order_pool b)
         (client_response b) (market_update b) (next_market_oid b)
         (tx_responses b) (tx_market_updates b).
Definition set_bids (b : OMEOrderBook) (l : option N) : OMEOrderBook :=
  mkBook (assigned_ticker b) (map_client_id_to_order b) (orders_at_price_pool b) l
         (asks_by_price b) (map_price_to_price_level b) (order_pool b)
         (client_response b) (market_update b) (next_market_oid b)
         (tx_responses b) (tx_market_updates b).
Definition set_asks (b : OMEOrderBook) (l : option N) : OMEOrderBook :=
  mkBook (assigned_ticker b) (map_client_id_to_order b) (orders_at_price_pool b)
         (bids_by_price b) l (map_price_to_price_level b) (order_pool b)
         (client_response b) (market_update b) (next_market_oid b)
         (tx_responses b) (tx_market_updates b).
Definition set_price_map (b : OMEOrderBook) (m : gmap Z N) : OMEOrderBook :=
  mkBook (assigned_ticker b) (map_client_id_to_order b) (orders_at_price_pool b)
         (bids_by_price b) (asks_by_price b) m (order_pool b)
         (client_response b) (market_update b) (next_market_oid b)
         (tx_responses b) (tx_market_updates b).
Definition set_order_pool (b : OMEOrderBook) (p : MemPool Order.OMEOrder) : OMEOrderBook :=
  mkBook (assigned_ticker b) (map_client_id_to_order b) (orders_at_price_pool b)
         (bids_by_price b) (asks_by_price b) (map_price_to_price_level b) p
         (client_response b) (market_update b) (next_market_oid b)
         (tx_responses b) (tx_market_updates b).
Definition set_next_market_oid (b : OMEOrderBook) (oid : OrderID) : OMEOrderBook :=
  mkBook (assigned_ticker b) (map_client_id_to_order b) (orders_at_price_pool b)
         (bids_by_price b) (asks_by_price b) (map_price_to_price_level b) (order_pool b)
         (client_response b) (market_update b) oid
         (tx_responses b) (tx_market_updates b).

(** [client_response = r; ome.send_client_response(&client_response);]. *)
Definition send_client_response (b : OMEOrderBook) (r : Response.OMEClientResponse)
  : OMEOrderBook :=
  mkBook (assigned_ticker b) (map_client_id_to_order b) (orders_at_price_pool b)
         (bids_by_price b) (asks_by_price b) (map_price_to_price_level b) (order_pool b)
         r (market_update b) (next_market_oid b)
         (tx_responses b ++ [r]) (tx_market_updates b).

(** [market_update = u], without sending it yet. *)
Definition set_market_update (b : OMEOrderBook) (u : Update.OMEMarketUpdate) : OMEOrderBook :=
  mkBook (assigned_ticker b) (map_client_id_to_order b) (orders_at_price_pool b)
         (bids_by_price b) (asks_by_price b) (map_price_to_price_level b) (order_pool b)
         (client_response b) u (next_market_oid b)
         (tx_responses b) (tx_market_updates b).

(** [ome.send_market_update(&market_update);]. *)
Definition send_market_update (b : OMEOrderBook) : OMEOrderBook :=
  mkBook (assigned_ticker b) (map_client_id_to_order b) (orders_at_price_pool b)
         (bids_by_price b) (asks_by_price b) (map_price_to_price_level b) (order_pool b)
         (client_response b) (market_update b) (next_market_oid b)
         (tx_responses b) (tx_market_updates b ++ [market_update b]).

(** The objects pointers refer to, and assignments through pointers. *)
Definition order (b : OMEOrderBook) (p : N) : Order.OMEOrder := read (order_pool b) p.
Definition level (b : OMEOrderBook) (p : N) : Level.OMEOrdersAtPrice :=
  read (orders_at_price_pool b) p.

Definition set_order (b : OMEOrderBook) (p : N) (o : Order.OMEOrder) : OMEOrderBook :=
  set_order_pool b (write (order_pool b) p o).
Definition set_level (b : OMEOrderBook) (p : N) (l : Level.OMEOrdersAtPrice) : OMEOrderBook :=
  set_level_pool b (write (orders_at_price_pool b) p l).

Definition set_order_prev b p v := set_order b p (Order.with_prev (order b p) v).
Definition set_order_next b p v := set_order b p (Order.with_next (order b p) v).
Definition set_order_qty b p v := set_order b p (Order.with_qty (order b p) v).
Definition set_level_prev b p v := set_level b p (Level.with_prev (level b p) v).
Definition set_level_next b p v := set_level b p (Level.with_next (level b p) v).
Definition set_level_order_0 b p v := set_level b p (Level.with_order_0 (level b p) v).

(** [(side == Side::BUY ? bids_by_price : asks_by_price)], read and
    assigned. *)
Definition side_head (b : OMEOrderBook) (s : Side) : option N :=
  if decide (s = BUY) then bids_by_price b else asks_by_price b.
Definition set_side_head (b : OMEOrderBook) (s : Side) (l : option N) : OMEOrderBook :=
  if decide (s = BUY) then set_bids b l else set_asks b l.

(** [price_to_index]: [price % MAX_PRICE_LEVELS] is computed in [size_t],
    to which the signed price is converted first. *)
Definition price_to_index (price : Price) : Z := wrap_u64 price mod MAX_PRICE_LEVELS.

(** [get_level_for_price]; the index is below the size of the table, so
    [at] does not throw. *)
Definition get_level_for_price (b : OMEOrderBook) (price : Price) : option N :=
  map_price_to_price_level b !! price_to_index price.

Definition set_level_for_price (b : OMEOrderBook) (price : Price) (l : option N)
  : OMEOrderBook :=
  set_price_map b (match l with
                   | Some p => <[price_to_index price := p]> (map_price_to_price_level b)
                   | None => delete (price_to_index price) (map_price_to_price_level b)
                   end).

(** [map_client_id_to_order.at(client).at(oid)], read and assigned. *)
Definition client_order_in_range (client : ClientID) (oid : OrderID) : bool :=
  (0 <=? client) && (client <? MAX_N_CLIENTS) && (0 <=? oid) && (oid <? MAX_ORDER_IDS).

Definition client_order_at (b : OMEOrderBook) (client : ClientID) (oid : OrderID)
  : Result (option N) :=
  if client_order_in_range client oid then Ok (map_client_id_to_order b !! (client, oid))
  else Stopped Terminate_out_of_range.

Definition set_client_order_at (b : OMEOrderBook) (client : ClientID) (oid : OrderID)
    (p : option N) : Result OMEOrderBook :=
  if client_order_in_range client oid then
    Ok (set_client_map b (match p with
                          | Some o => <[(client, oid) := o]> (map_client_id_to_order b)
                          | None => delete (client, oid) (map_client_id_to_order b)
                          end))
  else Stopped Terminate_out_of_range.

(** [get_new_market_order_id]: [return next_market_oid++]. *)
Definition get_new_market_order_id (b : OMEOrderBook) : OrderID * OMEOrderBook :=
  (next_market_oid b, set_next_market_oid b (wrap_u64 (next_market_oid b + 1))).

(** [get_next_priority]. *)
Definition get_next_priority (b : OMEOrderBook) (price : Price) : Result Priority :=
  match get_level_for_price b price with
  | None => Ok 1
  | Some orders_at_price =>
      first ← deref (Level.order_0 (level b orders_at_price));
      last ← deref (Order.prev (order b first));
      Ok (wrap_u64 (Order.priority (order b last) + 1))
  end.

(** The test [add_price_level] applies to [target] three times over. *)
Definition less_aggressive (new_level target : Level.OMEOrdersAtPrice) : bool :=
  (bool_decide (Level.side new_level = SELL) && (Level.price target <? Level.price new_level))
  || (bool_decide (Level.side new_level = BUY) && (Level.price new_level <? Level.price target)).

(** The [while] loop of [add_price_level]. *)
Fixpoint find_insertion (fuel : nat) (b : OMEOrderBook) (new_level : Level.OMEOrdersAtPrice)
    (best target : N) (should_add_after : bool) : Result (N * bool) :=
  if should_add_after && negb (bool_decide (target = best)) then
    match fuel with
    | O => Stopped Out_of_fuel
    | S fuel' =>
        if less_aggressive new_level (level b target) then
          target' ← deref (Level.next (level b target));
          find_insertion fuel' b new_level best target' true
        else find_insertion fuel' b new_level best target false
    end
  else Ok (target, should_add_after).

(** [OMEOrderBook::add_price_level]. *)
Definition add_price_level (b : OMEOrderBook) (new_orders_at_price : N)
  : Result OMEOrderBook :=
  let new_level := level b new_orders_at_price in
  let side := Level.side new_level in
  let b := set_level_for_price b (Level.price new_level) (Some new_orders_at_price) in
  match side_head b side with
  | None =>
      let b := set_side_head b side (Some new_orders_at_price) in
      let b := set_level_next b new_orders_at_price (Some new_orders_at_price) in
      Ok (set_level_prev b new_orders_at_price (Level.next (level b new_orders_at_price)))
  | Some best =>
      '(target, should_add_after) ←
        (if less_aggressive new_level (level b best) then
           target ← deref (Level.next (level b best));
           Ok (target, less_aggressive new_level (level b target))
         else Ok (best, false));
      '(target, should_add_after) ←
        find_insertion (S (size (stored (orders_at_price_pool b)))) b new_level
                       best target should_add_after;
      if (should_add_after : bool) then
        target ← (if bool_decide (target = best) then deref (Level.prev (level b best))
                  else Ok target);
        let b := set_level_prev b new_orders_at_price (Some target) in
        after ← deref (Level.next (level b target));
        let b := set_level_prev b after (Some new_orders_at_price) in
        let b := set_level_next b new_orders_at_price (Level.next (level b target)) in
        Ok (set_level_next b target (Some new_orders_at_price))
      else
        let b := set_level_prev b new_orders_at_price (Level.prev (level b target)) in
        let b := set_level_next b new_orders_at_price (Some target) in
        before ← deref (Level.prev (level b target));
        let b := set_level_next b before (Some new_orders_at_price) in
        let b := set_level_prev b target (Some new_orders_at_price) in
        let new_level := level b new_orders_at_price in
        if (bool_decide (Level.side new_level = BUY)
            && (Level.price (level b best) <? Level.price new_level))
           || (bool_decide (Level.side new_level = SELL)
               && (Level.price new_level <? Level.price (level b best)))
        then
          let b :=
            set_level_next b target
              (if bool_decide (Level.next (level b target) = Some best)
               then Some new_orders_at_price else Level.next (level b target)) in
          Ok (set_side_head b (Level.side new_level) (Some new_orders_at_price))
        else Ok b
  end.

(** [OMEOrderBook::remove_price_level]. *)
Definition remove_price_level (b : OMEOrderBook) (side : Side) (price : Price)
  : Result OMEOrderBook :=
  let best_orders_by_price := side_head b side in
  orders_at_price ← deref (get_level_for_price b price);
  b ← (if bool_decide (Level.next (level b orders_at_price) = Some orders_at_price) then
         Ok (set_side_head b side None)
       else
         before ← deref (Level.prev (level b orders_at_price));
         let b := set_level_next b before (Level.next (level b orders_at_price)) in
         after ← deref (Level.next (level b orders_at_price));
         let b := set_level_prev b after (Level.prev (level b orders_at_price)) in
         let b :=
           if bool_decide (Some orders_at_price = best_orders_by_price)
           then set_side_head b side (Level.next (level b orders_at_price)) else b in
         let b := set_level_next b orders_at_price None in
         Ok (set_level_prev b orders_at_price None));
  let b := set_level_for_price b price None in
  pool ← deallocate (orders_at_price_pool b) orders_at_price;
  Ok (set_level_pool b pool).

(** [OMEOrderBook::add_order_to_book]. *)
Definition add_order_to_book (b : OMEOrderBook) (o : N) : Result OMEOrderBook :=
  b ← match get_level_for_price b (Order.price (order b o)) with
      | None =>
          let b := set_order_prev b o (Some o) in
          let b := set_order_next b o (Order.prev (order b o)) in
          '(new_price_level, pool) ←
            allocate (orders_at_price_pool b)
                     (Level.mk (Order.side (order b o)) (Order.price (order b o)) (Some o)
                               None None);
          add_price_level (set_level_pool b pool) new_price_level
      | Some price_level =>
          first_order ← deref (Level.order_0 (level b price_level));
          last ← deref (Order.prev (order b first_order));
          let b := set_order_next b last (Some o) in
          let b := set_order_prev b o (Order.prev (order b first_order)) in
          let b := set_order_next b o (Some first_order) in
          Ok (set_order_prev b first_order (Some o))
      end;
  set_client_order_at b (Order.client_id (order b o)) (Order.client_order_id (order b o))
                      (Some o).

(** [OMEOrderBook::remove_order_from_book]. *)
Definition remove_order_from_book (b : OMEOrderBook) (o : N) : Result OMEOrderBook :=
  let orders_at_price := get_level_for_price b (Order.price (order b o)) in
  b ← (if bool_decide (Order.prev (order b o) = Some o) then
         remove_price_level b (Order.side (order b o)) (Order.price (order b o))
       else
         let order_before := Order.prev (order b o) in
         let order_after := Order.next (order b o) in
         before ← deref order_before;
         let b := set_order_next b before order_after in
         after ← deref order_after;
         let b := set_order_prev b after order_before in
         lp ← deref orders_at_price;
         let b :=
           if bool_decide (Level.order_0 (level b lp) = Some o)
           then set_level_order_0 b lp order_after else b in
         let b := set_order_next b o None in
         Ok (set_order_prev b o None));
  b ← set_client_order_at b (Order.client_id (order b o))
                          (Order.client_order_id (order b o)) None;
  pool ← deallocate (order_pool b) o;
  Ok (set_order_pool b pool).

(** [OMEOrderBook::match]; [*qty_remains] comes back as the first
    component. *)
Definition match_ (b : OMEOrderBook) (ticker_id : TickerID) (client_id : ClientID)
    (side : Side) (client_oid new_market_oid : OrderID) (order_matched : N)
    (qty_remains : Qty) : Result (Qty * OMEOrderBook) :=
  let o := order_matched in
  let order_qty := Order.qty (order b o) in
  let fill_qty := Z.min qty_remains order_qty in
  let qty_remains := wrap_u32 (qty_remains - fill_qty) in
  let b := set_order_qty b o (wrap_u32 (Order.qty (order b o) - fill_qty)) in
  let b := send_client_response b
             (Response.mkResponse Response.FILLED client_id ticker_id client_oid
                new_market_oid side (Order.price (order b o)) fill_qty qty_remains) in
  let b := send_client_response b
             (Response.mkResponse Response.FILLED (Order.client_id (order b o)) ticker_id
                (Order.client_order_id (order b o)) (Order.market_order_id (order b o))
                (Order.side (order b o)) (Order.price (order b o)) fill_qty
                (Order.qty (order b o))) in
  let b := send_market_update
             (set_market_update b
                (Update.mkUpdate Update.TRADE OrderID_INVALID ticker_id side
                   (Order.price (order b o)) fill_qty Priority_INVALID)) in
  if Order.qty (order b o) =? 0 then
    let b := send_market_update
               (set_market_update b
                  (Update.mkUpdate Update.CANCEL (Order.market_order_id (order b o))
                     ticker_id (Order.side (order b o)) (Order.price (order b o))
                     order_qty Priority_INVALID)) in
    b ← remove_order_from_book b o;
    Ok (qty_remains, b)
  else
    Ok (qty_remains,
        send_market_update
          (set_market_update b
             (Update.mkUpdate Update.MODIFY (Order.market_order_id (order b o)) ticker_id
                (Order.side (order b o)) (Order.price (order b o)) (Order.qty (order b o))
                (Order.priority (order b o))))).

(** One of the two [while] loops of [find_match]: the one over the asks
    for [side = BUY], the one over the bids for [side = SELL]. *)
Fixpoint find_match_loop (fuel : nat) (b : OMEOrderBook) (client_id : ClientID)
    (client_oid : OrderID) (ticker_id : TickerID) (side : Side) (price : Price)
    (new_market_oid : OrderID) (qty_remains : Qty) : Result (Qty * OMEOrderBook) :=
  match fuel with
  | O => Stopped Out_of_fuel
  | S fuel' =>
      if qty_remains =? 0 then Ok (qty_remains, b)
      else
        match (if decide (side = BUY) then asks_by_price b else bids_by_price b) with
        | None => Ok (qty_remains, b)
        | Some best =>
            head ← deref (Level.order_0 (level b best));
            if (if decide (side = BUY) then price <? Order.price (order b head)
                else Order.price (order b head) <? price)
            then Ok (qty_remains, b)
            else
              '(qty_remains, b) ←
                match_ b ticker_id client_id side client_oid new_market_oid head
                       qty_remains;
              find_match_loop fuel' b client_id client_oid ticker_id side price
                              new_market_oid qty_remains
        end
  end.

(** [OMEOrderBook::find_match]. *)
Definition find_match (b : OMEOrderBook) (client_id : ClientID) (client_oid : OrderID)
    (ticker_id : TickerID) (side : Side) (price : Price) (qty : Qty)
    (new_market_oid : OrderID) : Result (Qty * OMEOrderBook) :=
  if decide (side = BUY \/ side = SELL) then
    find_match_loop (S (size (stored (order_pool b)))) b client_id client_oid ticker_id
                    side price new_market_oid qty
  else Ok (qty, b).

(** [OMEOrderBook::add]. *)
Definition add (b : OMEOrderBook) (client_id : ClientID) (client_oid : OrderID)
    (ticker_id : TickerID) (side : Side) (price : Price) (qty : Qty)
  : Result OMEOrderBook :=
  let '(new_market_oid, b) := get_new_market_order_id b in
  let b := send_client_response b
             (Response.mkResponse Response.ACCEPTED client_id ticker_id client_oid
                new_market_oid side price 0 qty) in
  '(qty_remains, b) ← find_match b client_id client_oid ticker_id side price qty
                                 new_market_oid;
  if qty_remains =? 0 then Ok b
  else
    priority ← get_next_priority b price;
    '(o, pool) ← allocate (order_pool b)
                          (Order.mk ticker_id client_id client_oid new_market_oid side
                                    price qty_remains priority None None);
    b ← add_order_to_book (set_order_pool b pool) o;
    Ok (send_market_update
          (set_market_update b
             (Update.mkUpdate Update.ADD new_market_oid ticker_id side price qty_remains
                              priority))).

(** [OMEOrderBook::cancel]. *)
Definition cancel (b : OMEOrderBook) (client_id : ClientID) (order_id : OrderID)
    (ticker_id : TickerID) : Result OMEOrderBook :=
  exchange_order ←
    (if client_id <? MAX_N_CLIENTS then client_order_at b client_id order_id
     else Ok None);
  match exchange_order with
  | None =>
      Ok (send_client_response b
            (Response.mkResponse Response.CANCEL_REJECTED client_id ticker_id order_id
               OrderID_INVALID Side_INVALID Price_INVALID Qty_INVALID Qty_INVALID))
  | Some o =>
      let response :=
        Response.mkResponse Response.CANCELLED client_id ticker_id order_id
          (Order.market_order_id (order b o)) (Order.side (order b o))
          (Order.price (order b o)) Qty_INVALID (Order.qty (order b o)) in
      let b := set_market_update b
                 (Update.mkUpdate Update.CANCEL (Order.market_order_id (order b o))
                    ticker_id (Order.side (order b o)) (Order.price (order b o)) 0
                    (Order.priority (order b o))) in
      b ← remove_order_from_book b o;
      let b := send_market_update b in
      Ok (send_client_response b response)
  end.

End Exchange.

(** ** traderco/client/orders/te_order.h, te_order_book.{h,cpp} *)

Module TEOrder.
Import Common.

(** [class TEOrder]. *)
Record TEOrder := mk {
  id : OrderID;
  side : Side;
  price : Price;
  qty : Qty;
  priority : Priority;
  prev : option N;
  next : option N
}.

#[global] Instance default : LL.DefaultInit TEOrder :=
  mk OrderID_INVALID Side_INVALID Price_INVALID Qty_INVALID Priority_INVALID None None.

Definition with_qty (o : TEOrder) (q : Qty) : TEOrder :=
  mk (id o) (side o) (price o) q (priority o) (prev o) (next o).
Definition with_prev (o : TEOrder) (p : option N) : TEOrder :=
  mk (id o) (side o) (price o) (qty o) (priority o) p (next o).
Definition with_next (o : TEOrder) (p : option N) : TEOrder :=
  mk (id o) (side o) (price o) (qty o) (priority o) (prev o) p.

End TEOrder.

Module Replica.
Import Common Run LL.

(** [struct BBO]. *)
Record BBO := mkBBO {
  bid : Price;
  ask : Price;
  bid_qty : Qty;
  ask_qty : Qty
}.

Definition BBO_default : BBO := mkBBO Price_INVALID Price_INVALID Qty_INVALID Qty_INVALID.

(** [class TEOrderBook].  [TEOrdersAtPrice] has the members of
    [OMEOrdersAtPrice] and shares its record; [id_to_order] is the table of
    [MAX_ORDER_IDS] order pointers.  The book is taken without a trading
    engine attached ([engine] null), so that no callback runs. *)
Record TEOrderBook := mkBook {
  ticker : TickerID;
  id_to_order : gmap Z N;
  orders_at_price_pool : MemPool Level.OMEOrdersAtPrice;
  bids_by_price : option N;
  asks_by_price : option N;
  map_price_to_price_level : gmap Z N;
  order_pool : MemPool TEOrder.TEOrder;
  bbo : BBO
}.

Definition TEOrderBook_new (t : TickerID) : TEOrderBook :=
  mkBook t ∅ (MemPool_new (Z.to_N MAX_PRICE_LEVELS)) None None ∅
         (MemPool_new (Z.to_N MAX_ORDER_IDS)) BBO_default.

Definition set_id_to_order (b : TEOrderBook) (m : gmap Z N) : TEOrderBook :=
  mkBook (ticker b) m (orders_at_price_pool b) (bids_by_price b) (asks_by_price b)
         (map_price_to_price_level b) (order_pool b) (bbo b).
Definition set_level_pool (b : TEOrderBook) (p : MemPool Level.OMEOrdersAtPrice)
  : TEOrderBook :=
  mkBook (ticker b) (id_to_order b) p (bids_by_price b) (asks_by_price b)
         (map_price_to_price_level b) (order_pool b) (bbo b).
Definition set_bids (b : TEOrderBook) (l : option N) : TEOrderBook :=
  mkBook (ticker b) (id_to_order b) (orders_at_price_pool b) l (asks_by_price b)
         (map_price_to_price_level b) (order_pool b) (bbo b).
Definition set_asks (b : TEOrderBook) (l : option N) : TEOrderBook :=
  mkBook (ticker b) (id_to_order b) (orders_at_price_pool b) (bids_by_price b) l
         (map_price_to_price_level b) (order_pool b) (bbo b).
Definition set_price_map (b : TEOrderBook) (m : gmap Z N) : TEOrderBook :=
  mkBook (ticker b) (id_to_order b) (orders_at_price_pool b) (bids_by_price b)
         (asks_by_price b) m (order_pool b) (bbo b).
Definition set_order_pool (b : TEOrderBook) (p : MemPool TEOrder.TEOrder) : TEOrderBook :=
  mkBook (ticker b) (id_to_order b) (orders_at_price_pool b) (bids_by_price b)
         (asks_by_price b) (map_price_to_price_level b) p (bbo b).
Definition set_bbo (b : TEOrderBook) (x : BBO) : TEOrderBook :=
  mkBook (ticker b) (id_to_order b) (orders_at_price_pool b) (bids_by_price b)
         (asks_by_price b) (map_price_to_price_level b) (order_pool b) x.

Definition order (b : TEOrderBook) (p : N) : TEOrder.TEOrder := read (order_pool b) p.
Definition level (b : TEOrderBook) (p : N) : Level.OMEOrdersAtPrice :=
  read (orders_at_price_pool b) p.

Definition set_order (b : TEOrderBook) (p : N) (o : TEOrder.TEOrder) : TEOrderBook :=
  set_order_pool b (write (order_pool b) p o).
Definition set_level (b : TEOrderBook) (p : N) (l : Level.OMEOrdersAtPrice) : TEOrderBook :=
  set_level_pool b (write (orders_at_price_pool b) p l).

Definition set_order_prev b p v := set_order b p (TEOrder.with_prev (order b p) v).
Definition set_order_next b p v := set_order b p (TEOrder.with_next (order b p) v).
Definition set_order_qty b p v := set_order b p (TEOrder.with_qty (order b p) v).
Definition set_level_prev b p v := set_level b p (Level.with_prev (level b p) v).
Definition set_level_next b p v := set_level b p (Level.with_next (level b p) v).
Definition set_level_order_0 b p v := set_level b p (Level.with_order_0 (level b p) v).

Definition side_head (b : TEOrderBook) (s : Side) : option N :=
  if decide (s = BUY) then bids_by_price b else asks_by_price b.
Definition set_side_head (b : TEOrderBook) (s : Side) (l : option N) : TEOrderBook :=
  if decide (s = BUY) then set_bids b l else set_asks b l.

(** [TEOrderBook::price_to_index] and [get_level_for_price]. *)
Definition price_to_index (price : Price) : Z := wrap_u64 price mod MAX_PRICE_LEVELS.

Definition get_level_for_price (b : TEOrderBook) (price : Price) : option N :=
  map_price_to_price_level b !! price_to_index price.

Definition set_level_for_price (b : TEOrderBook) (price : Price) (l : option N)
  : TEOrderBook :=
  set_price_map b (match l with
                   | Some p => <[price_to_index price := p]> (map_price_to_price_level b)
                   | None => delete (price_to_index price) (map_price_to_price_level b)
                   end).

(** [id_to_order.at(id)], read and assigned. *)
Definition order_at (b : TEOrderBook) (id : OrderID) : Result (option N) :=
  if (0 <=? id) && (id <? MAX_ORDER_IDS) then Ok (id_to_order b !! id)
  else Stopped Terminate_out_of_range.

Definition set_order_at (b : TEOrderBook) (id : OrderID) (p : option N)
  : Result TEOrderBook :=
  if (0 <=? id) && (id <? MAX_ORDER_IDS) then
    Ok (set_id_to_order b (match p with
                           | Some o => <[id := o]> (id_to_order b)
                           | None => delete id (id_to_order b)
                           end))
  else Stopped Terminate_out_of_range.

Definition less_aggressive (new_level target : Level.OMEOrdersAtPrice) : bool :=
  (bool_decide (Level.side new_level = SELL) && (Level.price target <? Level.price new_level))
  || (bool_decide (Level.side new_level = BUY) && (Level.price new_level <? Level.price target)).

(** The [while] loop of [add_price_level]. *)
Fixpoint find_insertion (fuel : nat) (b : TEOrderBook) (new_level : Level.OMEOrdersAtPrice)
    (best target : N) (should_add_after : bool) : Result (N * bool) :=
  if should_add_after && negb (bool_decide (target = best)) then
    match fuel with
    | O => Stopped Out_of_fuel
    | S fuel' =>
        if less_aggressive new_level (level b target) then
          target' ← deref (Level.next (level b target));
          find_insertion fuel' b new_level best target' true
        else find_insertion fuel' b new_level best target false
    end
  else Ok (target, should_add_after).

(** [TEOrderBook::add_price_level]. *)
Definition add_price_level (b : TEOrderBook) (new_orders_at_price : N)
  : Result TEOrderBook :=
  let new_level := level b new_orders_at_price in
  let side := Level.side new_level in
  let b := set_level_for_price b (Level.price new_level) (Some new_orders_at_price) in
  match side_head b side with
  | None =>
      let b := set_side_head b side (Some new_orders_at_price) in
      let b := set_level_next b new_orders_at_price (Some new_orders_at_price) in
      Ok (set_level_prev b new_orders_at_price (Level.next (level b new_orders_at_price)))
  | Some best =>
      '(target, should_add_after) ←
        (if less_aggressive new_level (level b best) then
           target ← deref (Level.next (level b best));
           Ok (target, less_aggressive new_level (level b target))
         else Ok (best, false));
      '(target, should_add_after) ←
        find_insertion (S (size (stored (orders_at_price_pool b)))) b new_level
                       best target should_add_after;
      if (should_add_after : bool) then
        target ← (if bool_decide (target = best) then deref (Level.prev (level b best))
                  else Ok target);
        let b := set_level_prev b new_orders_at_price (Some target) in
        after ← deref (Level.next (level b target));
        let b := set_level_prev b after (Some new_orders_at_price) in
        let b := set_level_next b new_orders_at_price (Level.next (level b target)) in
        Ok (set_level_next b target (Some new_orders_at_price))
      else
        let b := set_level_prev b new_orders_at_price (Level.prev (level b target)) in
        let b := set_level_next b new_orders_at_price (Some target) in
        before ← deref (Level.prev (level b target));
        let b := set_level_next b before (Some new_orders_at_price) in
        let b := set_level_prev b target (Some new_orders_at_price) in
        let new_level := level b new_orders_at_price in
        if (bool_decide (Level.side new_level = BUY)
            && (Level.price (level b best) <? Level.price new_level))
           || (bool_decide (Level.side new_level = SELL)
               && (Level.price new_level <? Level.price (level b best)))
        then
          let b :=
            set_level_next b target
              (if bool_decide (Level.next (level b target) = Some best)
               then Some new_orders_at_price else Level.next (level b target)) in
          Ok (set_side_head b (Level.side new_level) (Some new_orders_at_price))
        else Ok b
  end.

(** [TEOrderBook::remove_price_level]. *)
Definition remove_price_level (b : TEOrderBook) (side : Side) (price : Price)
  : Result TEOrderBook :=
  let best_orders_by_price := side_head b side in
  orders_at_price ← deref (get_level_for_price b price);
  b ← (if bool_decide (Level.next (level b orders_at_price) = Some orders_at_price) then
         Ok (set_side_head b side None)
       else
         before ← deref (Level.prev (level b orders_at_price));
         let b := set_level_next b before (Level.next (level b orders_at_price)) in
         after ← deref (Level.next (level b orders_at_price));
         let b := set_level_prev b after (Level.prev (level b orders_at_price)) in
         let b :=
           if bool_decide (Some orders_at_price = best_orders_by_price)
           then set_side_head b side (Level.next (level b orders_at_price)) else b in
         let b := set_level_next b orders_at_price None in
         Ok (set_level_prev b orders_at_price None));
  let b := set_level_for_price b price None in
  pool ← deallocate (orders_at_price_pool b) orders_at_price;
  Ok (set_level_pool b pool).

(** [TEOrderBook::add_order]. *)
Definition add_order (b : TEOrderBook) (o : N) : Result TEOrderBook :=
  b ← match get_level_for_price b (TEOrder.price (order b o)) with
      | None =>
          let b := set_order_prev b o (Some o) in
          let b := set_order_next b o (TEOrder.prev (order b o)) in
          '(new_price_level, pool) ←
            allocate (orders_at_price_pool b)
                     (Level.mk (TEOrder.side (order b o)) (TEOrder.price (order b o))
                               (Some o) None None);
          add_price_level (set_level_pool b pool) new_price_level
      | Some price_level =>
          first_order ← deref (Level.order_0 (level b price_level));
          last ← deref (TEOrder.prev (order b first_order));
          let b := set_order_next b last (Some o) in
          let b := set_order_prev b o (TEOrder.prev (order b first_order)) in
          let b := set_order_next b o (Some first_order) in
          Ok (set_order_prev b first_order (Some o))
      end;
  set_order_at b (TEOrder.id (order b o)) (Some o).

(** [TEOrderBook::remove_order]. *)
Definition remove_order (b : TEOrderBook) (o : N) : Result TEOrderBook :=
  let orders_at_price := get_level_for_price b (TEOrder.price (order b o)) in
  b ← (if bool_decide (TEOrder.prev (order b o) = Some o) then
         remove_price_level b (TEOrder.side (order b o)) (TEOrder.price (order b o))
       else
         let order_before := TEOrder.prev (order b o) in
         let order_after := TEOrder.next (order b o) in
         before ← deref order_before;
         let b := set_order_next b before order_after in
         after ← deref order_after;
         let b := set_order_prev b after order_before in
         lp ← deref orders_at_price;
         let b :=
           if bool_decide (Level.order_0 (level b lp) = Some o)
           then set_level_order_0 b lp order_after else b in
         let b := set_order_next b o None in
         Ok (set_order_prev b o None));
  b ← set_order_at b (TEOrder.id (order b o)) None;
  pool ← deallocate (order_pool b) o;
  Ok (set_order_pool b pool).

(** The walk of [clear_entire_book] over one side's levels after the
    head: [for (l = head->next; l != head; l = l->next) deallocate(l)]. *)
Fixpoint deallocate_levels (fuel : nat) (pool : MemPool Level.OMEOrdersAtPrice)
    (head : N) (cur : option N) : Result (MemPool Level.OMEOrdersAtPrice) :=
  if bool_decide (cur = Some head) then Ok pool
  else match fuel with
       | O => Stopped Out_of_fuel
       | S fuel' =>
           l ← deref cur;
           pool' ← deallocate pool l;
           deallocate_levels fuel' pool' head (Level.next (read pool' l))
       end.

Definition deallocate_side (b : TEOrderBook) (head : option N) : Result TEOrderBook :=
  match head with
  | None => Ok b
  | Some h =>
      pool ← deallocate_levels (S (size (stored (orders_at_price_pool b))))
                               (orders_at_price_pool b) h (Level.next (level b h));
      pool ← deallocate pool h;
      Ok (set_level_pool b pool)
  end.

(** [TEOrderBook::clear_entire_book]; the non-null entries of
    [id_to_order] are deallocated one after the other. *)
Definition clear_entire_book (b : TEOrderBook) : Result TEOrderBook :=
  pool ← foldl (fun acc kv => pool ← acc; deallocate pool (snd kv))
               (Ok (order_pool b)) (map_to_list (id_to_order b));
  let b := set_id_to_order (set_order_pool b pool) ∅ in
  b ← deallocate_side b (bids_by_price b);
  b ← deallocate_side b (asks_by_price b);
  Ok (set_asks (set_bids b None) None).

(** The [for] loop of [update_bbo] that adds up the quantities of the
    orders after the first. *)
Fixpoint accumulate_qty (fuel : nat) (b : TEOrderBook) (first : N) (cur : option N)
    (acc : Qty) : Result Qty :=
  if bool_decide (cur = Some first) then Ok acc
  else match fuel with
       | O => Stopped Out_of_fuel
       | S fuel' =>
           o ← deref cur;
           accumulate_qty fuel' b first (TEOrder.next (order b o))
                          (wrap_u32 (acc + TEOrder.qty (order b o)))
       end.

(** One side of [update_bbo]: the price and quantity to store. *)
Definition best_of (b : TEOrderBook) (head : option N) : Result (Price * Qty) :=
  match head with
  | Some l =>
      first ← deref (Level.order_0 (level b l));
      q ← accumulate_qty (S (size (stored (order_pool b)))) b first
                         (TEOrder.next (order b first)) (TEOrder.qty (order b first));
      Ok (Level.price (level b l), q)
  | None => Ok (Price_INVALID, Qty_INVALID)
  end.

(** [TEOrderBook::update_bbo]. *)
Definition update_bbo (b : TEOrderBook) (should_update_bid should_update_ask : bool)
  : Result TEOrderBook :=
  b ← (if should_update_bid then
         '(p, q) ← best_of b (bids_by_price b);
         Ok (set_bbo b (mkBBO p (ask (bbo b)) q (ask_qty (bbo b))))
       else Ok b);
  if should_update_ask then
    '(p, q) ← best_of b (asks_by_price b);
    Ok (set_bbo b (mkBBO (bid (bbo b)) p (bid_qty (bbo b)) q))
  else Ok b.

(** [TEOrderBook::on_market_update]. *)
Definition on_market_update (b : TEOrderBook) (update : Update.OMEMarketUpdate)
  : Result TEOrderBook :=
  let bid_is_updated :=
    match bids_by_price b with
    | Some l => bool_decide (Update.side update = BUY)
                && (Level.price (level b l) <=? Update.price update)
    | None => false
    end in
  let ask_is_updated :=
    match asks_by_price b with
    | Some l => bool_decide (Update.side update = SELL)
                && (Update.price update <=? Level.price (level b l))
    | None => false
    end in
  match Update.type update with
  | Update.ADD =>
      '(o, pool) ← allocate (order_pool b)
                            (TEOrder.mk (Update.order_id update) (Update.side update)
                                        (Update.price update) (Update.qty update)
                                        (Update.priority update) None None);
      b ← add_order (set_order_pool b pool) o;
      update_bbo b bid_is_updated ask_is_updated
  | Update.MODIFY =>
      entry ← order_at b (Update.order_id update);
      o ← deref entry;
      update_bbo (set_order_qty b o (Update.qty update)) bid_is_updated ask_is_updated
  | Update.CANCEL =>
      entry ← order_at b (Update.order_id update);
      o ← deref entry;
      b ← remove_order b o;
      update_bbo b bid_is_updated ask_is_updated
  | Update.TRADE => Ok b
  | Update.CLEAR =>
      b ← clear_entire_book b;
      update_bbo b bid_is_updated ask_is_updated
  | Update.INVALID | Update.SNAPSHOT_START | Update.SNAPSHOT_END =>
      update_bbo b bid_is_updated ask_is_updated
  end.

End Replica.

(** ** traderco/client/data/market_data_consumer.{h,cpp} *)

Module Consumer.
Import Common.

(** [QueuedMarketUpdates = std::map<size_t, OMEMarketUpdate>]: the entries
    in the order the map iterates them, by increasing key. *)
Definition QueuedMarketUpdates := list (Z * Update.OMEMarketUpdate).

(** [m.find(k) != m.end()]. *)
Definition contains (m : QueuedMarketUpdates) (k : Z) : bool :=
  existsb (fun kv => fst kv =? k) m.

(** [m[k] = v]. *)
Fixpoint assign (m : QueuedMarketUpdates) (k : Z) (v : Update.OMEMarketUpdate)
  : QueuedMarketUpdates :=
  match m with
  | [] => [(k, v)]
  | (k', v') :: m' =>
      if k <? k' then (k, v) :: m
      else if k =? k' then (k, v) :: m'
      else (k', v') :: assign m' k v
  end.

(** [class MarketDataConsumer].  [tx_updates] is the sequence of updates
    written to the trading engine's queue, oldest first; [snapshot_joined]
    is the membership of [socket_snapshot] in the snapshot group. *)
Record MarketDataConsumer := mkConsumer {
  n_seq_inc_next : Z;                     (* size_t *)
  tx_updates : list Update.OMEMarketUpdate;
  is_in_recovery : bool;
  snapshot_joined : bool;
  queued_incremental_updates : QueuedMarketUpdates;
  queued_snapshot_updates : QueuedMarketUpdates
}.

Definition MarketDataConsumer_new : MarketDataConsumer :=
  mkConsumer 1 [] false false [] [].

(** The test both loops apply before [updates_to_process.push_back]. *)
Definition is_sentinel (u : Update.OMEMarketUpdate) : bool :=
  bool_decide (Update.type u = Update.SNAPSHOT_START)
  || bool_decide (Update.type u = Update.SNAPSHOT_END).

Definition push_back_unless_sentinel (updates : list Update.OMEMarketUpdate)
    (u : Update.OMEMarketUpdate) : list Update.OMEMarketUpdate :=
  if is_sentinel u then updates else updates ++ [u].

(** The loop over [queued_snapshot_updates]: [None] when a key is not the
    next snapshot sequence number ([snapshot_is_complete = false]). *)
Fixpoint scan_snapshot (m : QueuedMarketUpdates) (n_seq_snapshot_next : Z)
    (updates_to_process : list Update.OMEMarketUpdate)
  : option (list Update.OMEMarketUpdate) :=
  match m with
  | [] => Some updates_to_process
  | (k, u) :: m' =>
      if k =? n_seq_snapshot_next then
        scan_snapshot m' (wrap_u64 (n_seq_snapshot_next + 1))
                      (push_back_unless_sentinel updates_to_process u)
      else None
  end.

(** The loop over [queued_incremental_updates].  It advances the member
    [n_seq_inc_next] as it goes; the result is [incremental_is_complete],
    the value [n_seq_inc_next] is left with, and [updates_to_process]. *)
Fixpoint scan_incremental (m : QueuedMarketUpdates) (n_seq_inc_next : Z)
    (updates_to_process : list Update.OMEMarketUpdate)
  : bool * Z * list Update.OMEMarketUpdate :=
  match m with
  | [] => (true, n_seq_inc_next, updates_to_process)
  | (k, u) :: m' =>
      if k <? n_seq_inc_next then scan_incremental m' n_seq_inc_next updates_to_process
      else if k =? n_seq_inc_next then
        scan_incremental m' (wrap_u64 (n_seq_inc_next + 1))
                         (push_back_unless_sentinel updates_to_process u)
      else (false, n_seq_inc_next, updates_to_process)
  end.

Definition clear_snapshot (c : MarketDataConsumer) : MarketDataConsumer :=
  mkConsumer (n_seq_inc_next c) (tx_updates c) (is_in_recovery c) (snapshot_joined c)
             (queued_incremental_updates c) [].

(** [MarketDataConsumer::snapshot_sync_check]. *)
Definition snapshot_sync_check (c : MarketDataConsumer) : MarketDataConsumer :=
  match queued_snapshot_updates c with
  | [] => c
  | (_, snapshot_0) :: _ =>
      if negb (bool_decide (Update.type snapshot_0 = Update.SNAPSHOT_START))
      then clear_snapshot c
      else
        match scan_snapshot (queued_snapshot_updates c) 0 [] with
        | None => clear_snapshot c
        | Some updates_to_process =>
            let last_snapshot :=
              snd (List.last (queued_snapshot_updates c) (0, snapshot_0)) in
            if negb (bool_decide (Update.type last_snapshot = Update.SNAPSHOT_END))
            then c
            else
              let '(incremental_is_complete, next, updates) :=
                scan_incremental (queued_incremental_updates c)
                                 (wrap_u64 (Update.order_id last_snapshot + 1))
                                 updates_to_process in
              if incremental_is_complete then
                mkConsumer next (tx_updates c ++ updates) false false [] []
              else
                mkConsumer next (tx_updates c) (is_in_recovery c) (snapshot_joined c)
                           (queued_incremental_updates c) []
        end
  end.

(** [MarketDataConsumer::queue_update]. *)
Definition queue_update (c : MarketDataConsumer) (is_snapshot : bool)
    (update : Update.MDPMarketUpdate) : MarketDataConsumer :=
  let c1 :=
    if is_snapshot then
      let snap :=
        if contains (queued_snapshot_updates c) (Update.n_seq update)
        then [] else queued_snapshot_updates c in
      mkConsumer (n_seq_inc_next c) (tx_updates c) (is_in_recovery c) (snapshot_joined c)
                 (queued_incremental_updates c)
                 (assign snap (Update.n_seq update) (Update.ome_update update))
    else
      mkConsumer (n_seq_inc_next c) (tx_updates c) (is_in_recovery c) (snapshot_joined c)
                 (assign (queued_incremental_updates c) (Update.n_seq update)
                         (Update.ome_update update))
                 (queued_snapshot_updates c) in
  snapshot_sync_check c1.

(** [MarketDataConsumer::snapshot_sync_start]; the socket is taken to
    come up and join the group (the source asserts that it does). *)
Definition snapshot_sync_start (c : MarketDataConsumer) : MarketDataConsumer :=
  mkConsumer (n_seq_inc_next c) (tx_updates c) (is_in_recovery c) true [] [].

(** The body of the loop of [rx_callback] for one message, received on the
    snapshot socket ([is_snapshot]) or on the incremental one. *)
Definition rx_message (is_snapshot : bool) (c : MarketDataConsumer)
    (request : Update.MDPMarketUpdate) : MarketDataConsumer :=
  let already_in_recovery := is_in_recovery c in
  let in_recovery :=
    already_in_recovery || negb (Update.n_seq request =? n_seq_inc_next c) in
  let c1 := mkConsumer (n_seq_inc_next c) (tx_updates c) in_recovery (snapshot_joined c)
                       (queued_incremental_updates c) (queued_snapshot_updates c) in
  if in_recovery then
    queue_update (if already_in_recovery then c1 else snapshot_sync_start c1)
                 is_snapshot request
  else if negb is_snapshot then
    mkConsumer (wrap_u64 (n_seq_inc_next c + 1))
               (tx_updates c ++ [Update.ome_update request])
               in_recovery (snapshot_joined c)
               (queued_incremental_updates c) (queued_snapshot_updates c)
  else c1.

(** [MarketDataConsumer::rx_callback] on the whole messages found in the
    socket's receive buffer. *)
Definition rx_callback (c : MarketDataConsumer) (is_snapshot : bool)
    (received : list Update.MDPMarketUpdate) : MarketDataConsumer :=
  if is_snapshot && negb (is_in_recovery c) then c
  else foldl (rx_message is_snapshot) c received.

End Consumer.

(** ** traderco/client/trading/risk_manager.h, om_order.h, order_manager.{h,cpp} *)

Module Orders.
Import Common Run.

(** [struct RiskConf] of common/types.h. *)
Record RiskConf := mkRiskConf {
  size_max : Qty;
  position_max : Qty;
  loss_max : float
}.

Inductive RiskResult :=
  | Risk_INVALID | SIZE_TOO_LARGE | POSITION_TOO_LARGE | LOSS_TOO_LARGE | ALLOWED.

#[global] Instance RiskResult_eq_dec : EqDecision RiskResult.
Proof. solve_decision. Defined.

(** [class Risk]; the [Position*] it holds is read through, so the record
    carries the position it points to. *)
Record Risk := mkRisk {
  risk_position : Positions.Position;
  conf : RiskConf
}.

(** [Risk::get_trade_risk]. *)
Definition Risk_get_trade_risk (r : Risk) (side : Side) (qty : Qty) : RiskResult :=
  if size_max (conf r) <? qty then SIZE_TOO_LARGE
  else if wrap_i32 (position_max (conf r))
          <? abs_i32 (wrap_i32 (Positions.position (risk_position r)
                                + wrap_i32 (side_to_value side * wrap_i32 qty)))
       then POSITION_TOO_LARGE
  else if (Positions.pnl_total (risk_position r) <? loss_max (conf r))%float
       then LOSS_TOO_LARGE
  else ALLOWED.

(** [RiskByTicker = std::array<Risk, MAX_TICKERS>], read with [at]. *)
Definition RiskManager := list Risk.

Definition get_trade_risk (rm : RiskManager) (ticker : TickerID) (side : Side) (qty : Qty)
  : Result RiskResult :=
  match rm !! Z.to_nat ticker with
  | Some r => Ok (Risk_get_trade_risk r side qty)
  | None => Stopped Terminate_out_of_range
  end.

Inductive State := State_INVALID | PENDING_NEW | LIVE | PENDING_CANCEL | DEAD.

#[global] Instance State_eq_dec : EqDecision State.
Proof. solve_decision. Defined.

Record OMOrder := mkOMOrder {
  ticker : TickerID;
  id : OrderID;
  side : Side;
  price : Price;
  qty : Qty;
  state : State
}.

Definition OMOrder_default : OMOrder :=
  mkOMOrder TickerID_INVALID OrderID_INVALID Side_INVALID Price_INVALID Qty_INVALID
            State_INVALID.

(** [class OrderManager].  [ticker_to_order_by_side] is
    [std::array<std::array<OMOrder, 4>, MAX_TICKERS>]; [tx_requests] is the
    sequence of requests handed to
    [TradingEngine::send_order_request_to_exchange], oldest first. *)
Record OrderManager := mkOrderManager {
  engine_client_id : ClientID;
  tx_requests : list Request.OMEClientRequest;
  risk_manager : RiskManager;
  ticker_to_order_by_side : gmap (Z * Z) OMOrder;
  next_oid : OrderID
}.

Definition OrderManager_new (client : ClientID) (rm : RiskManager) : OrderManager :=
  mkOrderManager client [] rm ∅ 1.

(** [ticker_to_order_by_side.at(ticker).at(i)]. *)
Definition order_at (om : OrderManager) (ticker i : Z) : Result OMOrder :=
  if (0 <=? ticker) && (ticker <? MAX_TICKERS) && (0 <=? i) && (i <? 4)
  then Ok (default OMOrder_default (ticker_to_order_by_side om !! (ticker, i)))
  else Stopped Terminate_out_of_range.

Definition send_order_request_to_exchange (om : OrderManager) (req : Request.OMEClientRequest)
  : OrderManager :=
  mkOrderManager (engine_client_id om) (tx_requests om ++ [req]) (risk_manager om)
                 (ticker_to_order_by_side om) (next_oid om).

(** [OrderManager::request_new_order]; the order is passed by reference and
    comes back as the first component. *)
Definition request_new_order (om : OrderManager) (order : OMOrder)
    (ticker : TickerID) (price : Price) (side : Side) (qty : Qty) : OMOrder * OrderManager :=
  let req := Request.mkRequest Request.NEW (engine_client_id om) ticker (next_oid om)
                               side price qty in
  let om1 := send_order_request_to_exchange om req in
  let order' := mkOMOrder ticker (next_oid om) side price qty PENDING_NEW in
  (order',
   mkOrderManager (engine_client_id om1) (tx_requests om1) (risk_manager om1)
                  (ticker_to_order_by_side om1) (wrap_u64 (next_oid om1 + 1))).

(** [OrderManager::request_cancel_order]. *)
Definition request_cancel_order (om : OrderManager) (order : OMOrder) : OMOrder * OrderManager :=
  let req := Request.mkRequest Request.CANCEL (engine_client_id om) (ticker order) (id order)
                               (side order) (price order) (qty order) in
  (mkOMOrder (ticker order) (id order) (side order) (price order) (qty order) PENDING_CANCEL,
   send_order_request_to_exchange om req).

(** [OrderManager::manage_order(OMOrder& order, ...)]. *)
Definition manage_order (om : OrderManager) (order : OMOrder)
    (ticker : TickerID) (price : Price) (side : Side) (qty : Qty)
  : Result (OMOrder * OrderManager) :=
  match state order with
  | LIVE =>
      if decide (Orders.price order = price) then Ok (order, om)
      else Ok (request_cancel_order om order)
  | State_INVALID | DEAD =>
      if decide (price = Price_INVALID) then Ok (order, om)
      else
        risk ← get_trade_risk (risk_manager om) ticker side qty;
        if decide (risk = ALLOWED) then Ok (request_new_order om order ticker price side qty)
        else Ok (order, om)
  | PENDING_NEW | PENDING_CANCEL => Ok (order, om)
  end.

(** [OrderManager::manage_orders].  The source binds the two tracked orders
    with [auto], not [auto&]: [bid_order] and [ask_order] are copies, and
    what [manage_order] writes into them is dropped when they go out of
    scope. *)
Definition manage_orders (om : OrderManager) (ticker : TickerID) (bid ask : Price)
    (trade_size : Qty) : Result OrderManager :=
  bid_order ← order_at om ticker (side_to_index BUY);
  '(_, om1) ← manage_order om bid_order ticker bid BUY trade_size;
  ask_order ← order_at om1 ticker (side_to_index SELL);
  '(_, om2) ← manage_order om1 ask_order ticker ask SELL trade_size;
  Ok om2.

(** [OrderManager::on_order_response]; here the tracked order is bound by
    reference ([auto&]) and the writes reach the table. *)
Definition on_order_response (om : OrderManager) (response : Response.OMEClientResponse)
  : Result OrderManager :=
  let i := side_to_index (Response.side response) in
  order ← order_at om (Response.ticker_id response) i;
  let order' :=
    match Response.type response with
    | Response.ACCEPTED =>
        mkOMOrder (ticker order) (id order) (side order) (price order) (qty order) LIVE
    | Response.CANCELLED =>
        mkOMOrder (ticker order) (id order) (side order) (price order) (qty order) DEAD
    | Response.FILLED =>
        mkOMOrder (ticker order) (id order) (side order) (price order)
                  (Response.qty_remain response)
                  (if Response.qty_remain response =? 0 then DEAD else state order)
    | Response.CANCEL_REJECTED | Response.INVALID => order
    end in
  Ok (mkOrderManager (engine_client_id om) (tx_requests om) (risk_manager om)
        (<[(Response.ticker_id response, i) := order']> (ticker_to_order_by_side om))
        (next_oid om)).

End Orders.

(** * Part II: the properties *)

Section PositionsProofs.
Import Common Positions.

(** The four fills of the sign-flip scenario. *)
Definition S6_before_last : Position :=
  add_fill (add_fill (add_fill Position_default (fill BUY 10 100)) (fill BUY 10 90))
           (fill SELL 10 92).

Definition S6_final : Position := add_fill S6_before_last (fill SELL 20 97).

(** C4.  From a flat position the fills BUY 10@100, BUY 10@90, SELL 10@92,
    SELL 20@97 leave position -10, vwap_open[BUY] = 0, realized PnL -10,
    unrealized PnL 0 and total PnL -10.  The last fill flips the sign of the
    position (10 before, -10 after), so the sign-flip rule sets
    vwap_open[SELL] to 97 * |-10| and zeroes vwap_open[BUY]. *)
Theorem C4_pnl_sign_flip :
  position S6_final = -10
  /\ vwap_at (vwap_open S6_final) (side_to_index BUY) = 0%float
  /\ pnl_real S6_final = (-10)%float
  /\ pnl_unreal S6_final = 0%float
  /\ pnl_total S6_final = (-10)%float
  /\ position S6_before_last = 10
  /\ wrap_i32 (position S6_final * position S6_before_last) < 0
  /\ vwap_at (vwap_open S6_final) (side_to_index SELL)
     = (to_double 97 * to_double (Z.abs (position S6_final)))%float.
Proof. vm_compute. repeat split; reflexivity. Qed.

End PositionsProofs.

Section OrdersProofs.
Import Common Run Orders.

(** The risk configuration of the order-manager tests, on flat positions. *)
Definition permissive_risk : RiskManager :=
  replicate 8 (mkRisk Positions.Position_default
                      (mkRiskConf 1000 1000 (-1000)%float)).

Definition om0 : OrderManager := OrderManager_new 1 permissive_risk.

(** [manage_orders] never writes the table of tracked orders, whatever it
    sends. *)
Lemma manage_orders_keeps_table om ticker bid ask trade_size om' :
  manage_orders om ticker bid ask trade_size = Ok om' ->
  ticker_to_order_by_side om' = ticker_to_order_by_side om.
Proof.
  unfold manage_orders, manage_order, order_at.
  intros H.
  repeat match type of H with
  | context [if ?c then _ else _] => destruct c; simpl in H; try discriminate
  | context [match state ?o with _ => _ end] => destruct (state o); simpl in H
  | context [get_trade_risk ?a ?b ?c ?d] =>
      destruct (get_trade_risk a b c d); simpl in H; try discriminate
  end;
  inversion H; reflexivity.
Qed.

(** C6 (the code departs from the claim).  On a fresh manager whose risk
    check allows the trade, [manage_orders 4 100 110 20] sends a NEW request
    for each side, yet the orders tracked for (4, BUY) and (4, SELL) stay in
    state INVALID, and a second call with the same arguments sends two more
    NEW requests. *)
Theorem C6_manage_orders_drops_pending_new :
  exists om1 om2,
    manage_orders om0 4 100 110 20 = Ok om1
    /\ get_trade_risk (risk_manager om0) 4 BUY 20 = Ok ALLOWED
    /\ map Request.type (tx_requests om1) = [Request.NEW; Request.NEW]
    /\ map Request.side (tx_requests om1) = [BUY; SELL]
    /\ (state <$> order_at om0 4 (side_to_index BUY)) = Ok State_INVALID
    /\ order_at om1 4 (side_to_index BUY) = Ok OMOrder_default
    /\ order_at om1 4 (side_to_index SELL) = Ok OMOrder_default
    /\ manage_orders om1 4 100 110 20 = Ok om2
    /\ map Request.type (tx_requests om2)
       = [Request.NEW; Request.NEW; Request.NEW; Request.NEW]
    /\ map Request.side (tx_requests om2) = [BUY; SELL; BUY; SELL].
Proof.
  eexists _, _. split; [vm_compute; reflexivity|].
  split; [vm_compute; reflexivity|].
  repeat split; vm_compute; reflexivity.
Qed.

End OrdersProofs.

(** ** The pooled allocator *)

Section MemPoolProofs.
Import Run LL.
Context {T : Type} `{!DefaultInit T}.
Implicit Types (p : MemPool T) (i j k cur : N).

Local Open Scope N_scope.

Definition busy p i : Prop := is_free (block_at p i) = false.

(** The representation invariant of a pool: the cursor rests on a free
    block of the vector, and every block in use lies in the vector. *)
Record pool_wf p : Prop := {
  wf_size : 0 < n_blocks p;
  wf_cursor : i_next_free p < n_blocks p;
  wf_cursor_free : is_free (block_at p (i_next_free p)) = true;
  wf_busy_in_range : forall i, busy p i -> i < n_blocks p
}.

Lemma elem_of_used p i : i ∈ used p <-> busy p i.
Proof.
  unfold used, busy, block_at. rewrite elem_of_dom. split.
  - intros [b Hb]. apply map_lookup_filter_Some in Hb as [Hb Hf]. by rewrite Hb.
  - destruct (stored p !! i) as [b|] eqn:E; simpl; [|done].
    intros Hf. exists b. by apply map_lookup_filter_Some.
Qed.

Lemma block_at_set_block p i b j :
  block_at (set_block p i b) j = if decide (i = j) then b else block_at p j.
Proof.
  unfold block_at, set_block; simpl. rewrite lookup_insert.
  by destruct (decide (i = j)).
Qed.

(** The indices of a vector of [n] blocks. *)
Definition indices (n : N) : gset N := list_to_set (N.of_nat <$> seq 0 (N.to_nat n)).

Lemma elem_of_indices n i : i ∈ indices n <-> i < n.
Proof.
  unfold indices. rewrite elem_of_list_to_set, list_elem_of_fmap. split.
  - intros (m & -> & Hm). apply elem_of_seq in Hm. lia.
  - intros Hi. exists (N.to_nat i). split; [lia|]. apply elem_of_seq. lia.
Qed.

Lemma size_indices n : size (indices n) = N.to_nat n.
Proof.
  unfold indices. rewrite size_list_to_set.
  - by rewrite length_fmap, length_seq.
  - apply NoDup_fmap_2; [|apply NoDup_seq]. intros x y Hxy. lia.
Qed.

Lemma used_subseteq_indices p : pool_wf p -> used p ⊆ indices (n_blocks p).
Proof.
  intros Hwf i Hi. apply elem_of_indices, (wf_busy_in_range p Hwf), elem_of_used, Hi.
Qed.

(** Steps from [a] forward, around the end of the vector, to [b]. *)
Definition ahead (n a b : N) : N := if a <=? b then b - a else b + n - a.

Lemma scan_next_free_stops fuel p i cur s :
  scan_next_free fuel p i cur = Stopped s -> s = Out_of_fuel \/ s = Exit_pool_overrun.
Proof.
  revert cur. induction fuel as [|fuel IH]; intros cur; simpl.
  - destruct (is_free _); [discriminate|]. intros ?; simplify_eq. by left.
  - destruct (is_free _); [discriminate|].
    destruct (i =? _); [intros ?; simplify_eq; by right|]. apply IH.
Qed.

Lemma scan_next_free_found fuel p i cur j :
  cur < n_blocks p ->
  scan_next_free fuel p i cur = Ok j ->
  is_free (block_at p j) = true /\ j < n_blocks p.
Proof.
  revert cur. induction fuel as [|fuel IH]; intros cur Hcur; simpl.
  - destruct (is_free (block_at p cur)) eqn:E; [|discriminate].
    intros ?; simplify_eq; auto.
  - destruct (is_free (block_at p cur)) eqn:E; [intros ?; simplify_eq; auto|].
    destruct (i =? _); [discriminate|].
    apply IH. destruct (N.eqb_spec (cur + 1) (n_blocks p)); lia.
Qed.

Lemma scan_next_free_enough_fuel fuel p i cur :
  cur < n_blocks p -> i < n_blocks p -> cur <> i ->
  (N.to_nat (ahead (n_blocks p) cur i) <= fuel)%nat ->
  scan_next_free fuel p i cur <> Stopped Out_of_fuel.
Proof.
  revert cur. induction fuel as [|fuel IH]; intros cur Hcur Hi Hne Hfuel; simpl.
  - unfold ahead in Hfuel. destruct (N.leb_spec cur i); lia.
  - destruct (is_free _); [discriminate|].
    destruct (N.eqb_spec i (if cur + 1 =? n_blocks p then 0 else cur + 1)) as [|Hne'];
      [discriminate|].
    apply IH; try done.
    + destruct (N.eqb_spec (cur + 1) (n_blocks p)); lia.
    + unfold ahead in *.
      destruct (N.eqb_spec (cur + 1) (n_blocks p)), (N.leb_spec cur i);
        repeat match goal with |- context [?a <=? ?b] => destruct (N.leb_spec a b) end; lia.
Qed.

Lemma scan_next_free_overrun fuel p i cur :
  cur < n_blocks p -> i < n_blocks p -> cur <> i ->
  scan_next_free fuel p i cur = Stopped Exit_pool_overrun ->
  forall k, k < n_blocks p ->
            ahead (n_blocks p) cur k < ahead (n_blocks p) cur i -> busy p k.
Proof.
  revert cur. induction fuel as [|fuel IH]; intros cur Hcur Hi Hne; simpl.
  - destruct (is_free _); discriminate.
  - destruct (is_free _) eqn:Hbusy; [discriminate|].
    destruct (N.eqb_spec i (if cur + 1 =? n_blocks p then 0 else cur + 1)) as [Heq|Hne'].
    + intros _ k Hk Hlt.
      assert (k = cur) as ->; [|done].
      unfold ahead in Hlt.
      destruct (N.eqb_spec (cur + 1) (n_blocks p)), (N.leb_spec cur i), (N.leb_spec cur k);
        lia.
    + intros Hscan k Hk Hlt.
      destruct (decide (k = cur)) as [->|Hkc]; [done|].
      eapply IH; [| done | | apply Hscan | done |]; try done.
      * destruct (N.eqb_spec (cur + 1) (n_blocks p)); lia.
      * unfold ahead in *.
        destruct (N.eqb_spec (cur + 1) (n_blocks p)), (N.leb_spec cur i), (N.leb_spec cur k);
          repeat match goal with |- context [?a <=? ?b] => destruct (N.leb_spec a b) end;
          lia.
Qed.

(** The scan after an allocation at [i]: it wraps back to [i] exactly when
    no other block of the vector is free. *)
Lemma update_next_free_index_spec p :
  0 < n_blocks p -> i_next_free p < n_blocks p -> busy p (i_next_free p) ->
  (exists j, update_next_free_index p = Ok (mkMemPool (stored p) (n_blocks p) j)
             /\ is_free (block_at p j) = true /\ j < n_blocks p)
  \/ (update_next_free_index p = Stopped Exit_pool_overrun
      /\ forall k, k < n_blocks p -> busy p k).
Proof.
  intros Hn Hi Hbusy. unfold update_next_free_index.
  set (i := i_next_free p) in *.
  destruct (scan_next_free (N.to_nat (n_blocks p)) p i i) as [j|s] eqn:Hscan.
  - left. exists j. split; [done|]. by eapply scan_next_free_found.
  - right.
    destruct (N.to_nat (n_blocks p)) as [|fuel] eqn:Hfuel; [lia|].
    simpl in Hscan. unfold busy in Hbusy. rewrite Hbusy in Hscan.
    set (c := if i + 1 =? n_blocks p then 0 else i + 1) in *.
    assert (c < n_blocks p) as Hc.
    { unfold c. destruct (N.eqb_spec (i + 1) (n_blocks p)); lia. }
    destruct (N.eqb_spec i c) as [Heq|Hne].
    + injection Hscan as <-. split; [done|].
      intros k Hk. assert (k = i) as ->; [|done].
      unfold c in Heq. destruct (N.eqb_spec (i + 1) (n_blocks p)); lia.
    + destruct (scan_next_free_stops _ _ _ _ _ Hscan) as [->| ->].
      * exfalso. revert Hscan. apply scan_next_free_enough_fuel; try done.
        unfold ahead, c. destruct (N.eqb_spec (i + 1) (n_blocks p));
          repeat match goal with |- context [?a <=? ?b] => destruct (N.leb_spec a b) end; lia.
      * split; [done|]. intros k Hk.
        destruct (decide (k = i)) as [->|Hki]; [done|].
        eapply scan_next_free_overrun; [| | | apply Hscan | done |]; try done.
        unfold ahead, c. destruct (N.eqb_spec (i + 1) (n_blocks p));
          repeat match goal with |- context [?a <=? ?b] => destruct (N.leb_spec a b) end; lia.
Qed.


Lemma used_set_block_busy p i obj :
  used (set_block p i (mkBlock obj false)) = used p ∪ {[i]}.
Proof.
  apply set_eq. intros k. rewrite elem_of_union, elem_of_singleton, !elem_of_used.
  unfold busy. rewrite block_at_set_block.
  destruct (decide (i = k)); simpl; intuition congruence.
Qed.

Lemma used_set_block_free p i obj :
  used (set_block p i (mkBlock obj true)) = used p ∖ {[i]}.
Proof.
  apply set_eq. intros k. rewrite elem_of_difference, elem_of_singleton, !elem_of_used.
  unfold busy. rewrite block_at_set_block.
  destruct (decide (i = k)); simpl; intuition congruence.
Qed.

Lemma used_cursor p j : used (mkMemPool (stored p) (n_blocks p) j) = used p.
Proof. done. Qed.

(** [allocate] on a well-formed pool: it hands out the block under the
    cursor, unless that block is the last free one, in which case the scan
    for the next free block wraps and the process exits. *)
Lemma allocate_spec p obj :
  pool_wf p ->
  (exists p', allocate p obj = Ok (i_next_free p, p')
              /\ pool_wf p'
              /\ n_blocks p' = n_blocks p
              /\ stored p' = <[i_next_free p := mkBlock obj false]> (stored p)
              /\ used p' = used p ∪ {[i_next_free p]}
              /\ (size (used p) + 1 < N.to_nat (n_blocks p))%nat)
  \/ (allocate p obj = Stopped Exit_pool_overrun
      /\ (size (used p) + 1 = N.to_nat (n_blocks p))%nat).
Proof.
  intros Hwf. unfold allocate. rewrite (wf_cursor_free p Hwf).
  set (i := i_next_free p). set (p1 := set_block p i (mkBlock obj false)).
  assert (busy p1 i) as Hbusy1.
  { unfold busy, p1. rewrite block_at_set_block. by rewrite decide_True. }
  assert (i ∉ used p) as Hfresh.
  { rewrite elem_of_used. unfold busy, i. by rewrite (wf_cursor_free p Hwf). }
  assert (used p1 = used p ∪ {[i]}) as Hused1 by apply used_set_block_busy.
  assert (used p1 ⊆ indices (n_blocks p)) as Hsub.
  { rewrite Hused1. intros k [Hk|Hk]%elem_of_union.
    - by apply used_subseteq_indices.
    - apply elem_of_singleton in Hk. subst k.
      apply elem_of_indices, (wf_cursor p Hwf). }
  assert (size (used p1) = S (size (used p))) as Hsize1.
  { rewrite Hused1, size_union, size_singleton; [lia|].
    by apply disjoint_singleton_r. }
  destruct (update_next_free_index_spec p1) as [(j & Hupd & Hfree & Hj)|[Hupd Hall]];
    [apply (wf_size p Hwf) | apply (wf_cursor p Hwf) | done | |].
  - left. eexists. rewrite Hupd. simpl. split; [done|].
    assert (j ∉ used p1) as Hj1.
    { rewrite elem_of_used. unfold busy. by rewrite Hfree. }
    repeat split; simpl; try done.
    + apply (wf_size p Hwf).
    + intros k Hk. apply elem_of_indices, Hsub, elem_of_used, Hk.
    + assert (used p1 ⊆ indices (n_blocks p) ∖ {[j]}) as Hsub'.
      { intros k Hk. apply elem_of_difference. split; [by apply Hsub|].
        intros ->%elem_of_singleton. done. }
      apply subseteq_size in Hsub'.
      rewrite size_difference, size_indices, size_singleton in Hsub'.
      * assert (0 < N.to_nat (n_blocks p))%nat by (pose proof (wf_size p Hwf); lia). lia.
      * apply singleton_subseteq_l, elem_of_indices, Hj.
  - right. rewrite Hupd. split; [done|].
    assert (indices (n_blocks p) ⊆ used p1) as Hsup.
    { intros k Hk%elem_of_indices. apply elem_of_used, Hall, Hk. }
    apply subseteq_size in Hsub, Hsup. rewrite size_indices in *. lia.
Qed.

(** [deallocate] on a well-formed pool frees a block in use and leaves the
    object in it. *)
Lemma deallocate_spec p i :
  pool_wf p ->
  (busy p i
   /\ exists p', deallocate p i = Ok p'
                 /\ pool_wf p'
                 /\ n_blocks p' = n_blocks p
                 /\ i_next_free p' = i_next_free p
                 /\ stored p' = <[i := mkBlock (read p i) true]> (stored p)
                 /\ used p' = used p ∖ {[i]})
  \/ (~ busy p i
      /\ (deallocate p i = Stopped Exit_pool_not_in_use
          \/ deallocate p i = Stopped Exit_pool_foreign_object)).
Proof.
  intros Hwf. unfold deallocate, busy.
  destruct (N.ltb_spec i (n_blocks p)) as [Hi|Hi].
  - destruct (is_free (block_at p i)) eqn:Hfree.
    + right. split; [done|]. by left.
    + left. split; [done|]. eexists. split; [done|].
      repeat split; simpl; try done.
      * apply (wf_size p Hwf).
      * apply (wf_cursor p Hwf).
      * rewrite block_at_set_block.
        destruct (decide (i = i_next_free p)); [done|apply (wf_cursor_free p Hwf)].
      * intros k. unfold busy. rewrite block_at_set_block.
        destruct (decide (i = k)); [done|apply (wf_busy_in_range p Hwf)].
      * apply used_set_block_free.
  - right. split; [|by right].
    intros Hb. apply (wf_busy_in_range p Hwf) in Hb. lia.
Qed.

Lemma MemPool_new_wf (n : N) : 1 <= n -> pool_wf (MemPool_new n : MemPool T).
Proof.
  intros Hn. split; simpl; try lia; try done.
Qed.

Lemma used_MemPool_new (n : N) : used (MemPool_new n : MemPool T) = ∅.
Proof. unfold used. simpl. by rewrite map_filter_empty, dom_empty_L. Qed.

(** Along a run the pool stays well-formed and the number of blocks in use
    is the number of live objects. *)
Lemma run_ops_invariant ops p live :
  pool_wf p -> Z.of_nat (size (used p)) = live ->
  live_never_exceeds (Z.of_N (n_blocks p) - 1) live ops ->
  match run_ops ops p with
  | Ok p' => pool_wf p' /\ n_blocks p' = n_blocks p
  | Stopped s => s = Exit_pool_not_in_use \/ s = Exit_pool_foreign_object
  end.
Proof.
  revert p live. induction ops as [|[obj|i] ops IH]; intros p live Hwf Hlive Hpeak; simpl.
  - done.
  - destruct Hpeak as [Hle Hpeak].
    destruct (allocate_spec p obj Hwf) as [(p' & -> & Hwf' & Hn' & _ & Hused & _)|[_ Hfull]];
      [|lia].
    simpl. specialize (IH p' (live + 1)%Z Hwf').
    rewrite Hn' in IH. apply IH; [|done].
    rewrite Hused, size_union, size_singleton; [lia|].
    apply disjoint_singleton_r. rewrite elem_of_used. unfold busy.
    by rewrite (wf_cursor_free p Hwf).
  - simpl in Hpeak.
    destruct (deallocate_spec p i Hwf)
      as [[Hb (p' & -> & Hwf' & Hn' & _ & _ & Hused)]|[_ [-> | ->]]];
      simpl; [|by left|by right].
    specialize (IH p' (live - 1)%Z Hwf'). rewrite Hn' in IH. apply IH; [|done].
    rewrite Hused, size_difference, size_singleton;
      [|by apply singleton_subseteq_l, elem_of_used].
    assert (0 < size (used p))%nat; [|lia].
    apply elem_of_used in Hb. destruct (size (used p)) eqn:E; [|lia].
    apply size_empty_iff in E. apply E in Hb. by apply not_elem_of_empty in Hb.
Qed.

Lemma run_ops_wf ops p p' :
  pool_wf p -> run_ops ops p = Ok p' -> pool_wf p' /\ n_blocks p' = n_blocks p.
Proof.
  revert p. induction ops as [|[obj|i] ops IH]; intros p Hwf; simpl.
  - intros ?; by simplify_eq.
  - destruct (allocate_spec p obj Hwf) as [(p1 & -> & Hwf1 & Hn1 & _)|[-> _]]; [|done].
    simpl. intros Hrun. destruct (IH _ Hwf1 Hrun). split; [done|congruence].
  - destruct (deallocate_spec p i Hwf) as [[_ (p1 & -> & Hwf1 & Hn1 & _)]|[_ [-> | ->]]];
      [|done..].
    simpl. intros Hrun. destruct (IH _ Hwf1 Hrun). split; [done|congruence].
Qed.

(** C9, as the code has it.  In a pool of [n] blocks, a run of [allocate]
    and [deallocate] calls in which the number of live objects never
    exceeds [n - 1] never reaches the overrun assertion (it can only stop
    on a [deallocate] of an object that is not live); and after any
    completed run, [allocate] stops the process if and only if [n - 1]
    blocks are in use when it is called, that is when it would take the last
    free block: the scan for the next free block then wraps back to the
    cursor.  No other assertion of [allocate] can fail. *)
Theorem C9_pool_overrun_at_last_free_block (n : N) (ops : list (PoolOp T)) :
  1 <= n ->
  (live_never_exceeds (Z.of_N n - 1) 0 ops ->
   match run_ops ops (MemPool_new n) with
   | Ok _ => True
   | Stopped s => s = Exit_pool_not_in_use \/ s = Exit_pool_foreign_object
   end)
  /\ (forall p obj,
        run_ops ops (MemPool_new n) = Ok p ->
        (allocate p obj = Stopped Exit_pool_overrun <-> get_n_blocks_used p + 1 = n)
        /\ (forall s, allocate p obj = Stopped s -> s = Exit_pool_overrun)).
Proof.
  intros Hn. split.
  - intros Hpeak.
    pose proof (run_ops_invariant ops (MemPool_new n) 0 (MemPool_new_wf n Hn)) as H.
    rewrite used_MemPool_new, size_empty in H. specialize (H eq_refl Hpeak).
    destruct (run_ops ops (MemPool_new n)); [done|apply H].
  - intros p obj Hrun.
    destruct (run_ops_wf _ _ _ (MemPool_new_wf n Hn) Hrun) as [Hwf Hsize].
    simpl in Hsize. unfold get_n_blocks_used.
    destruct (allocate_spec p obj Hwf) as [(p' & -> & _ & _ & _ & _ & Hlt)|[-> Hfull]].
    + split; [split; [done|lia]|done].
    + split; [split; [lia|done]|]. intros s ?; by simplify_eq.
Qed.

End MemPoolProofs.

#[local] Instance Z_default_init : LL.DefaultInit Z := 0.

(** C9, as stated, fails: a pool of one block stops on its first
    [allocate], although one live object does not exceed its capacity and
    no block was in use when the allocation was requested. *)
Lemma C9_counterexample :
  LL.live_never_exceeds 1 0 [LL.Alloc 7]
  /\ LL.get_n_blocks_used (LL.MemPool_new 1 : LL.MemPool Z) = 0%N
  /\ LL.run_ops [LL.Alloc 7] (LL.MemPool_new 1) = Run.Stopped Run.Exit_pool_overrun.
Proof. split; [simpl; lia|]. split; vm_compute; reflexivity. Qed.

Lemma C9_witness :
  (1 <= 3)%N
  /\ LL.live_never_exceeds (Z.of_N 3 - 1) 0
       [LL.Alloc 1; LL.Alloc 2; LL.Dealloc 0%N; LL.Alloc 3]
  /\ match LL.run_ops [LL.Alloc 1; LL.Alloc 2; LL.Dealloc 0%N; LL.Alloc 3]
                      (LL.MemPool_new 3) with
     | Run.Ok _ => True
     | Run.Stopped s => s = Run.Exit_pool_not_in_use \/ s = Run.Exit_pool_foreign_object
     end.
Proof.
  split; [lia|]. split; [simpl; lia|].
  apply (C9_pool_overrun_at_last_free_block 3
           [LL.Alloc 1; LL.Alloc 2; LL.Dealloc 0%N; LL.Alloc 3]); [lia | simpl; lia].
Defined.

(** ** The FIFO sequencer *)

Section SequencerProofs.
Import Common Run LL Sequencer.

(** A ring in a state its operations keep: a positive number of slots and
    the write cursor on one of them. *)
Definition queue_wf {T} (q : LFQueue T) : Prop := 0 <= i_write q < q_size q.

(** The sequencer's pending count stays within its array. *)
Definition sequencer_wf (fs : FIFOSequencer) : Prop :=
  0 <= n_pending_requests fs <= Z.of_nat (length (pending_requests fs)).

(** The pending set: the first [n_pending_requests] slots of the array. *)
Definition pending (fs : FIFOSequencer) : list PendingClientRequest :=
  take (Z.to_nat (n_pending_requests fs)) (pending_requests fs).

Lemma ring_step (size i j : Z) :
  0 <= i < size -> 0 <= j < size ->
  (i + j) mod size = if i + j <? size then i + j else i + j - size.
Proof.
  intros Hi Hj. destruct (Z.ltb_spec (i + j) size).
  - apply Z.mod_small. lia.
  - symmetry. apply (Z.mod_unique_pos _ _ 1). lia. lia.
Qed.

Section Ring.
Context {T : Type} `{!DefaultInit T}.

Lemma push_wf (q : LFQueue T) x : queue_wf q -> queue_wf (push q x).
Proof.
  unfold queue_wf. simpl. intros H. apply Z.mod_pos_bound. lia.
Qed.

Lemma foldl_push_size (q : LFQueue T) xs : q_size (foldl push q xs) = q_size q.
Proof. revert q. induction xs as [|x xs IH]; intros q; simpl; [done|by rewrite IH]. Qed.

Lemma foldl_push_i_read (q : LFQueue T) xs : i_read (foldl push q xs) = i_read q.
Proof. revert q. induction xs as [|x xs IH]; intros q; simpl; [done|by rewrite IH]. Qed.

Lemma foldl_push_i_write (q : LFQueue T) xs :
  queue_wf q ->
  i_write (foldl push q xs) = (i_write q + Z.of_nat (length xs)) mod q_size q.
Proof.
  revert q. induction xs as [|x xs IH]; intros q Hq; simpl foldl.
  - rewrite Z.add_0_r, Z.mod_small; done.
  - rewrite IH by by apply push_wf. simpl.
    rewrite Zplus_mod_idemp_l. f_equal. simpl length. lia.
Qed.

Lemma foldl_push_n_blocks (q : LFQueue T) xs :
  q_n_blocks (foldl push q xs) = wrap_u64 (q_n_blocks q + Z.of_nat (length xs))
  \/ xs = [].
Proof.
  revert q. induction xs as [|x xs IH]; intros q; [by right|left].
  simpl foldl. destruct (IH (push q x)) as [->| ->]; simpl.
  - unfold wrap_u64. rewrite Zplus_mod_idemp_l. f_equal. lia.
  - done.
Qed.

(** Slots the pushes do not reach keep their content. *)
Lemma foldl_push_slot_other (q : LFQueue T) xs i :
  queue_wf q -> Z.of_nat (length xs) <= q_size q ->
  (forall k, 0 <= k < Z.of_nat (length xs) -> (i_write q + k) mod q_size q <> i) ->
  slot_at (foldl push q xs) i = slot_at q i.
Proof.
  revert q. induction xs as [|x xs IH]; intros q Hq Hlen Hi; simpl foldl; [done|].
  rewrite length_cons in Hlen, Hi.
  rewrite IH.
  - unfold slot_at, push. simpl. rewrite lookup_insert_ne; [done|].
    specialize (Hi 0). rewrite Z.add_0_r, Z.mod_small in Hi by done. apply Hi. lia.
  - by apply push_wf.
  - simpl. lia.
  - intros k Hk. simpl. rewrite Zplus_mod_idemp_l.
    replace (i_write q + 1 + k) with (i_write q + (k + 1)) by lia. apply Hi. lia.
Qed.

(** After [n] pushes into a ring of at least [n] slots, the [k]-th slot
    from the old write cursor holds the [k]-th value pushed. *)
Lemma foldl_push_slot (q : LFQueue T) xs k x :
  queue_wf q -> Z.of_nat (length xs) <= q_size q ->
  xs !! k = Some x ->
  slot_at (foldl push q xs) ((i_write q + Z.of_nat k) mod q_size q) = x.
Proof.
  revert q k. induction xs as [|y xs IH]; intros q k Hq Hlen Hk; [done|].
  rewrite length_cons in Hlen. simpl foldl. destruct k as [|k].
  - simpl in Hk. injection Hk as ->.
    rewrite Z.add_0_r, Z.mod_small by done.
    rewrite foldl_push_slot_other.
    + unfold slot_at, push. simpl. by rewrite lookup_insert_eq.
    + by apply push_wf.
    + simpl. lia.
    + intros j Hj. simpl. rewrite Zplus_mod_idemp_l.
      unfold queue_wf in Hq.
      replace (i_write q + 1 + j) with (i_write q + (j + 1)) by lia.
      rewrite ring_step by lia. destruct (Z.ltb_spec (i_write q + (j + 1)) (q_size q)); lia.
  - simpl in Hk. specialize (IH (push q y) k (push_wf q y Hq)).
    simpl in IH. rewrite Zplus_mod_idemp_l in IH.
    replace (i_write q + Z.of_nat (S k)) with (i_write q + 1 + Z.of_nat k) by lia.
    apply IH; [lia|done].
Qed.

End Ring.

(** The publishing loop over the (sorted) prefix of the array is the
    sequence of pushes of its requests. *)
Lemma foldl_publish_at pre l post q :
  foldl (publish_at (pre ++ l ++ post)) (Ok q) (seq (length pre) (length l))
  = Ok (foldl push q (request <$> l)).
Proof.
  revert pre q. induction l as [|x l IH]; intros pre q; [done|].
  simpl. rewrite lookup_app_r, Nat.sub_diag by lia. simpl.
  specialize (IH (pre ++ [x]) (push q (request x))).
  rewrite <- !app_assoc, length_app in IH. simpl in IH.
  replace (length pre + 1)%nat with (S (length pre)) in IH by lia. apply IH.
Qed.

Lemma StronglySorted_weaken {A} (R R' : A -> A -> Prop) l :
  (forall a b, R a b -> R' a b) -> StronglySorted R l -> StronglySorted R' l.
Proof.
  intros HR Hl. induction Hl as [|x l Hl IH Hx]; constructor; [done|].
  eapply Forall_impl; [apply Hx|]. intros y. apply HR.
Qed.

Lemma sequence_and_publish_spec std_sort fs :
  sorts std_sort -> sequencer_wf fs ->
  exists fs',
    sequence_and_publish std_sort fs = Ok fs'
    /\ rx_requests fs' = foldl push (rx_requests fs) (request <$> std_sort (pending fs))
    /\ n_pending_requests fs' = 0
    /\ length (pending_requests fs') = length (pending_requests fs).
Proof.
  intros Hsort Hwf. unfold sequence_and_publish, pending.
  destruct (Z.eqb_spec (n_pending_requests fs) 0) as [Hz|Hnz].
  - exists fs. rewrite Hz. simpl. rewrite take_0.
    destruct (Hsort []) as [Hperm _]. symmetry in Hperm.
    apply Permutation_nil in Hperm. by rewrite Hperm.
  - set (n := Z.to_nat (n_pending_requests fs)).
    set (sorted := std_sort (take n (pending_requests fs))).
    destruct (Hsort (take n (pending_requests fs))) as [Hperm _]. fold sorted in Hperm.
    assert (length sorted = n) as Hlen.
    { rewrite (Permutation_length Hperm), length_take. unfold sequencer_wf in Hwf. lia. }
    pose proof (foldl_publish_at [] sorted (drop n (pending_requests fs)) (rx_requests fs))
      as Hfold.
    simpl in Hfold. rewrite Hlen in Hfold. rewrite Hfold. simpl.
    eexists. split; [done|]. simpl. repeat split.
    rewrite length_app, Hlen, length_drop. unfold sequencer_wf in Hwf. lia.
Qed.

(** C8.  With [n] requests pending, one call of [sequence_and_publish]
    pushes exactly [n] requests onto the matching engine's inbound ring, and
    they are the requests of a rearrangement of the pending set that is
    nondecreasing in [t_rx]; the ring's count grows by [n] and, the ring
    having room for them, its slots from the old write cursor on hold them in
    that order.  The pending count is zero afterwards, so a second call
    without a push in between leaves the sequencer and the ring as they
    are. *)
Theorem C8_sequence_and_publish std_sort fs :
  sorts std_sort -> sequencer_wf fs -> queue_wf (rx_requests fs) ->
  exists fs' sorted,
    sequence_and_publish std_sort fs = Ok fs'
    /\ Permutation sorted (pending fs)
    /\ StronglySorted (fun a b => t_rx a <= t_rx b) sorted
    /\ Z.of_nat (length sorted) = n_pending_requests fs
    /\ rx_requests fs' = foldl push (rx_requests fs) (request <$> sorted)
    /\ (0 < n_pending_requests fs ->
        q_n_blocks (rx_requests fs')
        = wrap_u64 (q_n_blocks (rx_requests fs) + n_pending_requests fs))
    /\ (n_pending_requests fs <= q_size (rx_requests fs) ->
        forall k r, sorted !! k = Some r ->
          slot_at (rx_requests fs')
                  ((i_write (rx_requests fs) + Z.of_nat k) mod q_size (rx_requests fs))
          = request r)
    /\ n_pending_requests fs' = 0
    /\ sequence_and_publish std_sort fs' = Ok fs'.
Proof.
  intros Hsort Hwf Hq.
  destruct (sequence_and_publish_spec std_sort fs Hsort Hwf) as (fs' & Hrun & Hrx & Hn & Hlen).
  destruct (Hsort (pending fs)) as [Hperm Hsorted].
  assert (Z.of_nat (length (std_sort (pending fs))) = n_pending_requests fs) as Hcount.
  { rewrite (Permutation_length Hperm). unfold pending. rewrite length_take.
    unfold sequencer_wf in Hwf. lia. }
  exists fs', (std_sort (pending fs)). repeat split; try done.
  - eapply StronglySorted_weaken; [|apply Hsorted].
    intros a b. unfold pending_lt. lia.
  - intros Hpos. rewrite Hrx.
    destruct (foldl_push_n_blocks (rx_requests fs) (request <$> std_sort (pending fs)))
      as [->|Hnil].
    + by rewrite length_fmap, Hcount.
    + apply fmap_nil_inv in Hnil. rewrite Hnil in Hcount. simpl in Hcount. lia.
  - intros Hroom k r Hk. rewrite Hrx. apply foldl_push_slot; [done| |].
    + rewrite length_fmap. lia.
    + by rewrite list_lookup_fmap, Hk.
  - unfold sequence_and_publish. by rewrite Hn.
Qed.

End SequencerProofs.

(** Insertion by [t_rx], a sort that keeps [std::sort]'s promise. *)
Fixpoint insert_by_t_rx (x : Sequencer.PendingClientRequest)
    (l : list Sequencer.PendingClientRequest) : list Sequencer.PendingClientRequest :=
  match l with
  | [] => [x]
  | y :: l' =>
      if Sequencer.t_rx x <=? Sequencer.t_rx y then x :: l
      else y :: insert_by_t_rx x l'
  end.

Definition insertion_sort (l : list Sequencer.PendingClientRequest)
  : list Sequencer.PendingClientRequest := foldr insert_by_t_rx [] l.

Lemma insertion_sort_sorts : Sequencer.sorts insertion_sort.
Proof.
  assert (forall x l, Permutation (insert_by_t_rx x l) (x :: l)) as Hperm.
  { intros x l. induction l as [|y l IH]; simpl; [done|].
    destruct (_ <=? _); [done|]. rewrite IH. apply perm_swap. }
  assert (forall x l,
             StronglySorted (fun a b => ~ Sequencer.pending_lt b a) l ->
             StronglySorted (fun a b => ~ Sequencer.pending_lt b a) (insert_by_t_rx x l))
    as Hsorted.
  { intros x l Hl. induction Hl as [|y l Hl IH Hy]; simpl.
    - repeat constructor.
    - destruct (Z.leb_spec (Sequencer.t_rx x) (Sequencer.t_rx y)).
      + constructor; [by constructor|]. constructor.
        * unfold Sequencer.pending_lt. lia.
        * eapply Forall_impl; [apply Hy|]. unfold Sequencer.pending_lt.
          intros z Hz. simpl in Hz. lia.
      + constructor; [done|]. rewrite (Hperm x l). constructor; [|done].
        unfold Sequencer.pending_lt. lia. }
  intros l. induction l as [|x l [IHp IHs]]; simpl.
  - split; [done|constructor].
  - split; [by rewrite Hperm, IHp|by apply Hsorted].
Qed.

(** Three requests pushed with receive times 30, 10, 20. *)
Definition three_pending : Sequencer.FIFOSequencer :=
  let q := LL.LFQueue_new Common.MAX_CLIENT_UPDATES in
  let r (oid : Z) := Request.mkRequest Request.NEW 1 0 oid Common.BUY 100 10 in
  Sequencer.mkSequencer q
    (<[2%nat := Sequencer.mkPending 20 (r 3)]>
       (<[1%nat := Sequencer.mkPending 10 (r 2)]>
          (<[0%nat := Sequencer.mkPending 30 (r 1)]>
             (Sequencer.pending_requests (Sequencer.FIFOSequencer_new q)))))
    3.

Lemma C8_witness :
  exists fs' sorted,
    Sequencer.sequence_and_publish insertion_sort three_pending = Run.Ok fs'
    /\ Permutation sorted (pending three_pending)
    /\ Z.of_nat (length sorted) = 3
    /\ Sequencer.n_pending_requests fs' = 0.
Proof.
  destruct (C8_sequence_and_publish insertion_sort three_pending insertion_sort_sorts)
    as (fs' & sorted & H1 & H2 & _ & H4 & _ & _ & _ & H8 & _).
  - unfold sequencer_wf. vm_compute. split; discriminate.
  - unfold queue_wf. vm_compute. split; [discriminate|reflexivity].
  - exists fs', sorted. auto.
Defined.

(** ** The market-data consumer's recovery *)

Section ConsumerProofs.
Import Common Consumer.

Definition keys (m : QueuedMarketUpdates) : list Z := fst <$> m.

(** What [std::map<size_t, _>] guarantees of its iteration: keys of the
    key type, strictly increasing. *)
Definition map_wf (m : QueuedMarketUpdates) : Prop :=
  StronglySorted Z.lt (keys m) /\ Forall (fun k => 0 <= k < 2 ^ 64) (keys m).

(** The updates of a buffer that are not START/END sentinels, in key
    order. *)
Definition body (m : QueuedMarketUpdates) : list Update.OMEMarketUpdate :=
  filter (fun u => is_sentinel u = false) (snd <$> m).

(** The buffered incrementals from [splice] on. *)
Definition tail_from (splice : Z) (m : QueuedMarketUpdates) : QueuedMarketUpdates :=
  filter (fun kv => splice <= fst kv) m.

(** The buffered snapshot is complete: dense keys from 0, START first,
    END last. *)
Definition snapshot_complete (snap : QueuedMarketUpdates) (end_ : Update.OMEMarketUpdate)
  : Prop :=
  keys snap = seqZ 0 (Z.of_nat (length snap))
  /\ (exists start, snd <$> head snap = Some start
                    /\ Update.type start = Update.SNAPSHOT_START)
  /\ snd <$> last snap = Some end_
  /\ Update.type end_ = Update.SNAPSHOT_END.

Definition splice_of (end_ : Update.OMEMarketUpdate) : Z :=
  wrap_u64 (Update.order_id end_ + 1).

(** The buffered incrementals from [splice] on are dense from [splice]. *)
Definition tail_dense (splice : Z) (inc : QueuedMarketUpdates) : Prop :=
  keys (tail_from splice inc) = seqZ splice (Z.of_nat (length (tail_from splice inc))).

(** What the specification has the consumer forward: the snapshot body,
    then every buffered incremental from [splice] on. *)
Definition forwarded_by_spec (c : MarketDataConsumer) (splice : Z)
  : list Update.OMEMarketUpdate :=
  body (queued_snapshot_updates c)
  ++ (snd <$> tail_from splice (queued_incremental_updates c)).

Lemma push_back_unless_sentinel_filter acc u :
  push_back_unless_sentinel acc u
  = acc ++ filter (fun u => is_sentinel u = false) [u].
Proof.
  unfold push_back_unless_sentinel. rewrite filter_cons, filter_nil.
  destruct (is_sentinel u) eqn:E.
  - rewrite decide_False by done. by rewrite app_nil_r.
  - by rewrite decide_True.
Qed.

Lemma seqZ_cons_inv (k : Z) (ks : list Z) (m : Z) (n : nat) :
  k :: ks = seqZ m (Z.of_nat n) ->
  k = m /\ exists n', n = S n' /\ ks = seqZ (m + 1) (Z.of_nat n').
Proof.
  destruct n as [|n']; [done|].
  rewrite seqZ_cons by lia. intros [= -> ->]. split; [done|].
  exists n'. split; [done|]. f_equal; lia.
Qed.

Lemma scan_snapshot_dense m next acc :
  keys m = seqZ next (Z.of_nat (length m)) ->
  Forall (fun k => 0 <= k < 2 ^ 64) (keys m) ->
  scan_snapshot m next acc = Some (acc ++ body m).
Proof.
  unfold body, keys.
  revert next acc. induction m as [|[k u] m IH]; intros next acc Hkeys Hrange.
  - simpl. by rewrite filter_nil, app_nil_r.
  - rewrite fmap_cons in Hkeys, Hrange. simpl fst in *. simpl length in Hkeys.
    apply seqZ_cons_inv in Hkeys as [-> (n' & Hn' & Hkeys)].
    injection Hn' as <-. cbn [scan_snapshot]. rewrite Z.eqb_refl.
    apply Forall_cons in Hrange as [Hk Hrange].
    rewrite fmap_cons, filter_cons. simpl snd.
    rewrite push_back_unless_sentinel_filter.
    destruct m as [|[k' u'] m'].
    + simpl. by rewrite filter_cons, !filter_nil.
    + assert (wrap_u64 (next + 1) = next + 1) as ->.
      { rewrite fmap_cons in Hkeys, Hrange. simpl length in Hkeys. apply seqZ_cons_inv in Hkeys as [Hk' _].
        apply Forall_cons in Hrange as [Hk'' _]. apply Z.mod_small. simpl in *. lia. }
      rewrite (IH (next + 1)) by done.
      f_equal. rewrite <- app_assoc. f_equal.
      rewrite (filter_cons _ u), filter_nil. by destruct (decide _).
Qed.

Lemma scan_incremental_skip low m next acc :
  Forall (fun kv => fst kv < next) low ->
  scan_incremental (low ++ m) next acc = scan_incremental m next acc.
Proof.
  induction 1 as [|[k u] low Hk Hlow IH]; [done|].
  simpl in *. destruct (Z.ltb_spec k next); [done|lia].
Qed.

Lemma scan_incremental_dense m next acc :
  keys m = seqZ next (Z.of_nat (length m)) ->
  Forall (fun k => 0 <= k < 2 ^ 64) (keys m) ->
  scan_incremental m next acc
  = (true, (if m is [] then next else wrap_u64 (next + Z.of_nat (length m))),
     acc ++ body m).
Proof.
  unfold body, keys.
  revert next acc. induction m as [|[k u] m IH]; intros next acc Hkeys Hrange.
  - simpl. by rewrite filter_nil, app_nil_r.
  - rewrite fmap_cons in Hkeys, Hrange. simpl fst in *. simpl length in Hkeys.
    apply seqZ_cons_inv in Hkeys as [-> (n' & Hn' & Hkeys)].
    injection Hn' as <-. cbn [scan_incremental].
    rewrite Z.ltb_irrefl, Z.eqb_refl.
    apply Forall_cons in Hrange as [Hk Hrange].
    rewrite fmap_cons, filter_cons. simpl snd.
    rewrite push_back_unless_sentinel_filter.
    destruct m as [|[k' u'] m'].
    + simpl. by rewrite filter_cons, !filter_nil.
    + assert (wrap_u64 (next + 1) = next + 1) as ->.
      { rewrite fmap_cons in Hkeys, Hrange. simpl length in Hkeys.
        apply seqZ_cons_inv in Hkeys as [Hk' _].
        apply Forall_cons in Hrange as [Hk'' _]. apply Z.mod_small. simpl in *. lia. }
      rewrite (IH (next + 1)) by done.
      f_equal; [f_equal|].
      * f_equal. simpl length. lia.
      * rewrite <- app_assoc. f_equal.
        rewrite (filter_cons _ u), filter_nil. by destruct (decide _).
Qed.

(** In a sorted buffer the entries below [splice] come first. *)
Lemma sorted_split splice (m : QueuedMarketUpdates) :
  StronglySorted Z.lt (keys m) ->
  exists low, m = low ++ tail_from splice m /\ Forall (fun kv => fst kv < splice) low.
Proof.
  unfold tail_from, keys. induction m as [|[k u] m IH]; intros Hs.
  - by exists [].
  - rewrite fmap_cons in Hs. apply StronglySorted_inv in Hs as [Hs Hk].
    rewrite (filter_cons _ (k, u)). simpl fst in *.
    destruct (decide (splice <= k)) as [Hle|Hlt].
    + exists []. split; [|done]. simpl. f_equal.
      rewrite Forall_fmap in Hk. clear IH Hs.
      induction Hk as [|[k' u'] m Hk' Hk IH]; [done|].
      simpl in Hk'. rewrite filter_cons_True by (simpl; lia). by f_equal.
    + destruct (IH Hs) as (low & Heq & Hlow).
      exists ((k, u) :: low). split; [simpl; by f_equal|].
      constructor; [simpl; lia|done].
Qed.

(** The check on complete buffers, whatever the types of the buffered
    incrementals: it forwards the non-sentinel snapshot entries in key
    order, then the non-sentinel buffered incrementals with key at least
    [splice = END.order_id + 1] in key order, and nothing else; the next
    expected incremental sequence number is [splice] advanced by the number
    of buffered incrementals from [splice] on; both buffers are empty, the
    snapshot group is left and the consumer is live again. *)
Lemma snapshot_sync_check_complete (c : MarketDataConsumer) (end_ : Update.OMEMarketUpdate) :
  map_wf (queued_snapshot_updates c) ->
  map_wf (queued_incremental_updates c) ->
  snapshot_complete (queued_snapshot_updates c) end_ ->
  tail_dense (splice_of end_) (queued_incremental_updates c) ->
  let tail := tail_from (splice_of end_) (queued_incremental_updates c) in
  snapshot_sync_check c
  = mkConsumer
      (if tail is [] then splice_of end_
       else wrap_u64 (splice_of end_ + Z.of_nat (length tail)))
      (tx_updates c ++ body (queued_snapshot_updates c) ++ body tail)
      false false [] [].
Proof.
  intros [_ Hsrange] [Hisorted Hirange] (Hdense & (start & Hhead & Hstart) & Hlast & Hend) Htail
         tail.
  unfold snapshot_sync_check.
  destruct (queued_snapshot_updates c) as [|[k0 u0] snap'] eqn:Hsnap; [done|].
  simpl in Hhead. injection Hhead as ->.
  rewrite Hstart, bool_decide_eq_true_2 by done. simpl negb. cbv iota.
  rewrite (scan_snapshot_dense _ 0 []) by done. simpl app.
  assert (snd (List.last ((k0, start) :: snap') (0, start)) = end_) as Hl.
  { destruct (last ((k0, start) :: snap')) as [[kl ul]|] eqn:El; [|done].
    simpl in Hlast. injection Hlast as ->.
    apply last_Some in El as (pre & ->). by rewrite List.last_last. }
  cbv zeta. rewrite Hl. simpl in Hl. rewrite Hl.
  rewrite Hend, bool_decide_eq_true_2 by done. simpl negb. cbv iota.
  fold (splice_of end_).
  destruct (sorted_split (splice_of end_) _ Hisorted) as (low & Hsplit & Hlow).
  fold tail in Hsplit. rewrite Hsplit at 1.
  rewrite scan_incremental_skip by done.
  rewrite scan_incremental_dense.
  - done.
  - apply Htail.
  - unfold keys, tail, tail_from in *.
    rewrite Forall_fmap in *. rewrite Forall_forall in *.
    intros x [_ Hx]%list_elem_of_filter. by apply Hirange.
Qed.

(** The incremental stream carries the updates of the order books only:
    no buffered incremental is a START or END sentinel. *)
Definition no_sentinel (m : QueuedMarketUpdates) : Prop :=
  Forall (fun kv => is_sentinel (snd kv) = false) m.

Lemma body_no_sentinel (m : QueuedMarketUpdates) : no_sentinel m -> body m = snd <$> m.
Proof.
  unfold body, no_sentinel. induction 1 as [|[k u] m Hu Hm IH]; [done|].
  rewrite fmap_cons, filter_cons_True by done. by rewrite IH.
Qed.

Lemma last_seqZ (m : Z) (n : nat) : last (seqZ m (Z.of_nat (S n))) = Some (m + Z.of_nat n).
Proof.
  replace (Z.of_nat (S n)) with (Z.of_nat n + 1) by lia.
  rewrite seqZ_app by lia. rewrite last_app. cbn. f_equal; lia.
Qed.

(** C3.  In the recovery state, with no sentinel among the buffered
    incrementals: when the buffered snapshot is complete (keys dense from
    0, START first, END last) and the buffered incrementals with key at
    least [splice = END.order_id + 1] are dense from [splice], the check
    forwards, in order, exactly the non-sentinel snapshot entries in key
    order followed by the buffered incrementals with key at least [splice]
    in key order, so that no buffered incremental below [splice] is
    forwarded; the next expected incremental sequence number is one past
    the last forwarded incremental ([splice] when there is none); both
    buffers are cleared, the snapshot group is left and the consumer is
    live again. *)
Theorem C3_snapshot_splice (c : MarketDataConsumer) (end_ : Update.OMEMarketUpdate) :
  map_wf (queued_snapshot_updates c) ->
  map_wf (queued_incremental_updates c) ->
  no_sentinel (queued_incremental_updates c) ->
  snapshot_complete (queued_snapshot_updates c) end_ ->
  tail_dense (splice_of end_) (queued_incremental_updates c) ->
  snapshot_sync_check c
  = mkConsumer
      (match last (tail_from (splice_of end_) (queued_incremental_updates c)) with
       | Some (k, _) => wrap_u64 (k + 1)
       | None => splice_of end_
       end)
      (tx_updates c ++ forwarded_by_spec c (splice_of end_))
      false false [] [].
Proof.
  intros Hs Hi Hns Hc Ht.
  rewrite (snapshot_sync_check_complete c end_ Hs Hi Hc Ht). cbv zeta.
  unfold forwarded_by_spec.
  set (tail := tail_from (splice_of end_) (queued_incremental_updates c)).
  assert (no_sentinel tail) as Hnt.
  { unfold tail, tail_from, no_sentinel in *. rewrite Forall_forall in *.
    intros x [_ Hx]%list_elem_of_filter. by apply Hns. }
  rewrite (body_no_sentinel tail Hnt). f_equal.
  unfold tail_dense in Ht. fold tail in Ht.
  destruct (last tail) as [[k u]|] eqn:El.
  - assert (fst <$> last tail = Some k) as Hk by (by rewrite El).
    rewrite <- fmap_last in Hk. fold (keys tail) in Hk. rewrite Ht in Hk.
    destruct tail as [|x tail']; [done|].
    cbn [length] in Hk. rewrite last_seqZ in Hk. injection Hk as <-.
    f_equal. rewrite length_cons. lia.
  - apply last_None in El. by rewrite El.
Qed.

End ConsumerProofs.

(** The scenario of the recovery test: incrementals 1 and 2 were seen, 3 was
    lost, 4 arrived and started the recovery; the snapshot is consistent with
    incremental 6 and incremental 7 arrived after it. *)
Definition upd (t : Update.Type_) (oid : Z) : Update.OMEMarketUpdate :=
  Update.mkUpdate t oid 0 Common.BUY 100 10 1.

Definition recovering : Consumer.MarketDataConsumer :=
  Consumer.mkConsumer 3 [upd Update.ADD 1; upd Update.ADD 2] true true
    [(4, upd Update.ADD 4); (7, upd Update.MODIFY 3); (8, upd Update.CANCEL 3)]
    [(0, upd Update.SNAPSHOT_START 6); (1, upd Update.CLEAR 0);
     (2, upd Update.ADD 3); (3, upd Update.SNAPSHOT_END 6)].

Lemma C3_witness :
  Consumer.snapshot_sync_check recovering
  = Consumer.mkConsumer 9
      [upd Update.ADD 1; upd Update.ADD 2; upd Update.CLEAR 0; upd Update.ADD 3;
       upd Update.MODIFY 3; upd Update.CANCEL 3]
      false false [] [].
Proof.
  rewrite (C3_snapshot_splice recovering (upd Update.SNAPSHOT_END 6)).
  - vm_compute. reflexivity.
  - split; simpl.
    + repeat (constructor; [|repeat (constructor; [lia|]); try constructor]); constructor.
    + repeat (constructor; [lia|]). constructor.
  - split; simpl.
    + repeat (constructor; [|repeat (constructor; [lia|]); try constructor]); constructor.
    + repeat (constructor; [lia|]). constructor.
  - repeat (constructor; [reflexivity|]). constructor.
  - split; [reflexivity|]. split; [|split; reflexivity].
    eexists. split; reflexivity.
  - vm_compute. reflexivity.
Defined.

(** The same buffers, except that the incremental numbered 8 carries the
    type SNAPSHOT_END, which the publisher does not send on the incremental
    stream. *)
Definition recovering_sentinel : Consumer.MarketDataConsumer :=
  Consumer.mkConsumer 3 [] true true
    [(4, upd Update.ADD 4); (7, upd Update.MODIFY 3); (8, upd Update.SNAPSHOT_END 3)]
    [(0, upd Update.SNAPSHOT_START 6); (1, upd Update.CLEAR 0);
     (2, upd Update.ADD 3); (3, upd Update.SNAPSHOT_END 6)].

(** Why the buffered incrementals are required to hold no sentinel: the
    check applies the test for sentinels to them as well, so that one
    carrying a sentinel type would be dropped rather than forwarded. *)
Lemma sentinel_incremental_dropped :
  snapshot_complete (Consumer.queued_snapshot_updates recovering_sentinel)
                    (upd Update.SNAPSHOT_END 6)
  /\ tail_dense (splice_of (upd Update.SNAPSHOT_END 6))
                (Consumer.queued_incremental_updates recovering_sentinel)
  /\ forwarded_by_spec recovering_sentinel (splice_of (upd Update.SNAPSHOT_END 6))
     = [upd Update.CLEAR 0; upd Update.ADD 3; upd Update.MODIFY 3;
        upd Update.SNAPSHOT_END 3]
  /\ Consumer.tx_updates (Consumer.snapshot_sync_check recovering_sentinel)
     = [upd Update.CLEAR 0; upd Update.ADD 3; upd Update.MODIFY 3]
  /\ Consumer.tx_updates (Consumer.snapshot_sync_check recovering_sentinel)
     <> Consumer.tx_updates recovering_sentinel
        ++ forwarded_by_spec recovering_sentinel (splice_of (upd Update.SNAPSHOT_END 6)).
Proof.
  split; [|split; [|split; [|split]]].
  - split; [reflexivity|]. split; [|split; reflexivity].
    eexists. split; reflexivity.
  - vm_compute. reflexivity.
  - vm_compute. reflexivity.
  - vm_compute. reflexivity.
  - vm_compute. discriminate.
Qed.

(** ** Circular doubly linked lists

    Both the price levels of a side and the orders of a level are rings:
    [next] of the last node is the first and [prev] of the first is the
    last.  [chain nxt prv x l z] says that the nodes [x], then [l], then [z]
    are linked in this order, forwards by [nxt] and backwards by [prv]. *)

Section Rings.
Implicit Types (nxt prv : N -> option N) (x y z n : N) (l : list N).

Fixpoint chain nxt prv x l z : Prop :=
  match l with
  | [] => nxt x = Some z /\ prv z = Some x
  | y :: l' => nxt x = Some y /\ prv y = Some x /\ chain nxt prv y l' z
  end.

Definition ring nxt prv l : Prop :=
  match l with
  | [] => False
  | h :: t => chain nxt prv h t h
  end.

Lemma chain_app nxt prv x l1 y l2 z :
  chain nxt prv x (l1 ++ y :: l2) z <-> chain nxt prv x l1 y /\ chain nxt prv y l2 z.
Proof.
  revert x. induction l1 as [|a l1 IH]; intros x; simpl.
  - tauto.
  - rewrite IH. tauto.
Qed.

Lemma chain_snoc nxt prv x l y z :
  chain nxt prv x (l ++ [y]) z
  <-> chain nxt prv x l y /\ nxt y = Some z /\ prv z = Some y.
Proof. apply chain_app. Qed.

(** A chain depends on [nxt] at its nodes but the last and on [prv] at
    its nodes but the first. *)
Lemma chain_ext nxt prv nxt' prv' x l z :
  (forall p, p ∈ x :: l -> nxt' p = nxt p) ->
  (forall p, p ∈ l ++ [z] -> prv' p = prv p) ->
  chain nxt prv x l z -> chain nxt' prv' x l z.
Proof.
  revert x. induction l as [|y l IH]; intros x Hn Hp; simpl.
  - intros [H1 H2]. rewrite Hn, Hp by set_solver. done.
  - intros (H1 & H2 & H3). rewrite Hn, Hp by set_solver.
    repeat split; try done. apply IH; [| |done]; intros p Hin; [apply Hn|apply Hp];
      set_solver.
Qed.

Lemma chain_next_in nxt prv x l z p :
  chain nxt prv x l z -> p ∈ x :: l -> exists q, nxt p = Some q /\ q ∈ l ++ [z].
Proof.
  revert x. induction l as [|y l IH]; intros x; simpl.
  - intros [H1 _] ->%list_elem_of_singleton. exists z. split; [done|set_solver].
  - intros (H1 & _ & H3) [->|Hin]%elem_of_cons.
    + exists y. split; [done|set_solver].
    + destruct (IH _ H3 Hin) as (q & ? & ?). exists q. split; [done|set_solver].
Qed.

Lemma chain_prev_in nxt prv x l z p :
  chain nxt prv x l z -> p ∈ l ++ [z] -> exists q, prv p = Some q /\ q ∈ x :: l.
Proof.
  revert x. induction l as [|y l IH]; intros x; simpl.
  - intros [_ H2] ->%list_elem_of_singleton. exists x. split; [done|set_solver].
  - intros (_ & H2 & H3) [->|Hin]%elem_of_cons.
    + exists x. split; [done|set_solver].
    + destruct (IH _ H3 Hin) as (q & ? & ?). exists q. split; [done|set_solver].
Qed.

(** A ring read from another of its nodes. *)
Lemma ring_rotate nxt prv l1 l2 :
  l1 <> [] -> l2 <> [] -> ring nxt prv (l1 ++ l2) -> ring nxt prv (l2 ++ l1).
Proof.
  destruct l1 as [|h t1]; [done|]. destruct l2 as [|m t2]; [done|]. intros _ _.
  simpl. rewrite !chain_app. tauto.
Qed.

Lemma ring_prev_first nxt prv h t :
  ring nxt prv (h :: t) -> prv h = Some (List.last t h).
Proof.
  simpl. destruct (decide (t = [])) as [->|Hne]; [by intros [_ ?]|].
  destruct (exists_last Hne) as (t' & e & ->).
  rewrite chain_snoc, List.last_last. tauto.
Qed.

Lemma ring_next_last nxt prv h t :
  ring nxt prv (h :: t) -> nxt (List.last t h) = Some h.
Proof.
  simpl. destruct (decide (t = [])) as [->|Hne]; [by intros [? _]|].
  destruct (exists_last Hne) as (t' & e & ->).
  rewrite chain_snoc, List.last_last. tauto.
Qed.

Lemma ring_next_first nxt prv h t :
  ring nxt prv (h :: t) -> nxt h = Some (List.hd h t).
Proof. simpl. destruct t; simpl; tauto. Qed.

(** Linking a new node [n] between the last node of a ring and its first
    appends it to the ring. *)
Lemma ring_append nxt prv nxt' prv' h t n :
  NoDup (h :: t) -> n ∉ h :: t ->
  ring nxt prv (h :: t) ->
  nxt' (List.last t h) = Some n -> prv' n = Some (List.last t h) ->
  nxt' n = Some h -> prv' h = Some n ->
  (forall p, p <> List.last t h -> p <> n -> nxt' p = nxt p) ->
  (forall p, p <> h -> p <> n -> prv' p = prv p) ->
  ring nxt' prv' (h :: t ++ [n]).
Proof.
  intros Hnd Hn Hring He1 He2 Hn1 Hn2 Hnxt Hprv. simpl in *.
  destruct (decide (t = [])) as [->|Hne]; [simpl in *; tauto|].
  destruct (exists_last Hne) as (t' & e & ->).
  rewrite List.last_last in *. rewrite chain_snoc in Hring.
  destruct Hring as (Hch & _ & _).
  rewrite <- app_assoc. simpl. rewrite chain_app. simpl. repeat split; try done.
  apply NoDup_cons in Hnd as [Hh Hnd]. apply NoDup_app in Hnd as (_ & Hdisj & _).
  eapply chain_ext; [| |apply Hch].
  - intros p Hp. apply Hnxt.
    + intros ->. apply elem_of_cons in Hp as [->|Hp]; [set_solver|].
      apply (Hdisj e Hp). set_solver.
    + intros ->. set_solver.
  - intros p Hp. apply Hprv.
    + intros ->. set_solver.
    + intros ->. set_solver.
Qed.

(** Unlinking the first node of a ring of two nodes or more. *)
Lemma ring_remove_first nxt prv nxt' prv' x a r :
  NoDup (x :: a :: r) ->
  ring nxt prv (x :: a :: r) ->
  nxt' (List.last r a) = Some a -> prv' a = Some (List.last r a) ->
  (forall p, p <> List.last r a -> p <> x -> nxt' p = nxt p) ->
  (forall p, p <> a -> p <> x -> prv' p = prv p) ->
  ring nxt' prv' (a :: r).
Proof.
  intros Hnd Hring He1 He2 Hnxt Hprv. simpl in *.
  destruct Hring as (_ & _ & Hch).
  destruct (decide (r = [])) as [->|Hne]; [simpl in *; tauto|].
  destruct (exists_last Hne) as (r' & e & ->).
  rewrite List.last_last in *. rewrite chain_snoc in *.
  destruct Hch as (Hch & _ & _). repeat split; try done.
  apply NoDup_cons in Hnd as [Hx Hnd]. apply NoDup_cons in Hnd as [Ha Hnd].
  apply NoDup_app in Hnd as (_ & Hdisj & _).
  eapply chain_ext; [| |apply Hch].
  - intros p Hp. apply Hnxt.
    + intros ->. apply elem_of_cons in Hp as [->|Hp]; [set_solver|].
      apply (Hdisj e Hp). set_solver.
    + intros ->. set_solver.
  - intros p Hp. apply Hprv.
    + intros ->. set_solver.
    + intros ->. set_solver.
Qed.

Lemma last_cons_default (a d : N) (r : list N) : List.last (a :: r) d = List.last r a.
Proof.
  revert a d. induction r as [|c r IH]; intros a d; [done|].
  change (List.last (a :: c :: r) d) with (List.last (c :: r) d).
  rewrite (IH c d), (IH c a). done.
Qed.

(** Unlinking any node [x] of a ring of two nodes or more: its
    predecessor [e] and successor [a] get linked to each other. *)
Lemma ring_remove nxt prv l1 x l2 :
  NoDup (l1 ++ x :: l2) -> l1 ++ l2 <> [] ->
  ring nxt prv (l1 ++ x :: l2) ->
  exists a e,
    head (l2 ++ l1) = Some a /\ last (l2 ++ l1) = Some e
    /\ nxt x = Some a /\ prv x = Some e
    /\ forall nxt' prv',
         nxt' e = Some a -> prv' a = Some e ->
         (forall p, p <> e -> p <> x -> nxt' p = nxt p) ->
         (forall p, p <> a -> p <> x -> prv' p = prv p) ->
         ring nxt' prv' (l1 ++ l2).
Proof.
  intros Hnd Hne Hring.
  assert (ring nxt prv (x :: l2 ++ l1)) as Hrot.
  { destruct l1 as [|h1 t1]; [by rewrite app_nil_r|].
    by apply (ring_rotate nxt prv (h1 :: t1) (x :: l2)). }
  assert (NoDup (x :: l2 ++ l1)) as Hnd'.
  { eapply NoDup_Permutation_proper; [|apply Hnd].
    rewrite <- Permutation_middle. constructor. apply Permutation_app_comm. }
  destruct (l2 ++ l1) as [|a r] eqn:Hl21.
  { apply app_eq_nil in Hl21 as [-> ->]. done. }
  exists a, (List.last r a). split; [done|]. split.
  { rewrite last_cons. destruct (last r) eqn:E.
    - apply last_Some in E as (r' & ->). by rewrite List.last_last.
    - apply last_None in E as ->. done. }
  split; [by apply (ring_next_first nxt prv x (a :: r))|].
  split.
  { rewrite <- (last_cons_default a x r). by apply (ring_prev_first nxt prv x (a :: r)). }
  intros nxt' prv' H1 H2 H3 H4.
  assert (ring nxt' prv' (a :: r)) as Hnew by by eapply ring_remove_first.
  rewrite <- Hl21 in Hnew.
  destruct l1 as [|h1 t1]; [by rewrite app_nil_r in Hnew|].
  destruct l2 as [|h2 t2]; [by rewrite app_nil_r|].
  by apply (ring_rotate nxt' prv' (h2 :: t2) (h1 :: t1)).
Qed.

(** Linking a new node [n] between a node [e] of a ring and its
    successor [h]. *)
Lemma ring_insert nxt prv nxt' prv' l1 l2 n h e :
  NoDup (l1 ++ l2) -> n ∉ l1 ++ l2 ->
  ring nxt prv (l1 ++ l2) ->
  head (l2 ++ l1) = Some h -> last (l2 ++ l1) = Some e ->
  nxt' e = Some n -> prv' n = Some e -> nxt' n = Some h -> prv' h = Some n ->
  (forall p, p <> e -> p <> n -> nxt' p = nxt p) ->
  (forall p, p <> h -> p <> n -> prv' p = prv p) ->
  ring nxt' prv' (l1 ++ n :: l2).
Proof.
  intros Hnd Hn Hring Hh He H1 H2 H3 H4 H5 H6.
  assert (ring nxt prv (l2 ++ l1)) as Hrot.
  { destruct l1 as [|h1 t1]; [by rewrite app_nil_r|].
    destruct l2 as [|h2 t2]; [by rewrite app_nil_r in Hring|].
    by apply (ring_rotate nxt prv (h1 :: t1) (h2 :: t2)). }
  destruct (l2 ++ l1) as [|h' t] eqn:Hl21; [done|].
  simpl in Hh. injection Hh as ->.
  assert (List.last t h = e) as Hlast.
  { rewrite last_cons in He. destruct (last t) eqn:E.
    - apply last_Some in E as (r' & ->). rewrite List.last_last. congruence.
    - apply last_None in E as ->. simpl. congruence. }
  assert (ring nxt' prv' (h :: t ++ [n])) as Hnew.
  { eapply ring_append; try apply Hrot; rewrite ?Hlast; try done.
    - rewrite <- Hl21. eapply NoDup_Permutation_proper; [|apply Hnd].
      apply Permutation_app_comm.
    - rewrite <- Hl21. intros Hin. apply Hn. set_solver. }
  change (h :: t ++ [n]) with ((h :: t) ++ [n]) in Hnew. rewrite <- Hl21 in Hnew.
  destruct l2 as [|h2 t2].
  - simpl in Hnew. done.
  - rewrite <- app_assoc in Hnew.
    apply (ring_rotate nxt' prv' (h2 :: t2) (l1 ++ [n])) in Hnew; [|done|by destruct l1].
    by rewrite <- app_assoc in Hnew.
Qed.

(** A ring of one node, and rings of several. *)
Lemma ring_singleton nxt prv x : ring nxt prv [x] <-> nxt x = Some x /\ prv x = Some x.
Proof. done. Qed.

Lemma ring_prev_self nxt prv l x :
  NoDup l -> ring nxt prv l -> x ∈ l -> prv x = Some x -> l = [x].
Proof.
  intros Hnd Hring Hx Hprv.
  apply list_elem_of_split in Hx as (l1 & l2 & ->).
  destruct (decide (l1 ++ l2 = [])) as [Hnil|Hne].
  { apply app_eq_nil in Hnil as [-> ->]. done. }
  destruct (ring_remove _ _ _ _ _ Hnd Hne Hring) as (a & e & _ & He & _ & Hp & _).
  assert (e = x) as -> by congruence.
  exfalso. apply last_Some_elem_of in He.
  apply NoDup_app in Hnd as (_ & Hd & Hnd2). apply NoDup_cons in Hnd2 as [Hx2 _].
  apply elem_of_app in He as [He|He]; [done|]. apply (Hd x He). set_solver.
Qed.

Lemma ring_next_self nxt prv l x :
  NoDup l -> ring nxt prv l -> x ∈ l -> nxt x = Some x -> l = [x].
Proof.
  intros Hnd Hring Hx Hnxt.
  apply list_elem_of_split in Hx as (l1 & l2 & ->).
  destruct (decide (l1 ++ l2 = [])) as [Hnil|Hne].
  { apply app_eq_nil in Hnil as [-> ->]. done. }
  destruct (ring_remove _ _ _ _ _ Hnd Hne Hring) as (a & e & Ha & _ & Hn & _ & _).
  assert (a = x) as -> by congruence.
  exfalso. apply head_Some_elem_of in Ha.
  apply NoDup_app in Hnd as (_ & Hd & Hnd2). apply NoDup_cons in Hnd2 as [Hx2 _].
  apply elem_of_app in Ha as [Ha|Ha]; [done|]. apply (Hd x Ha). set_solver.
Qed.

End Rings.

(** ** Reading and writing pool objects *)

Section PoolAccess.
Import Run LL.
Context {T : Type} `{!DefaultInit T}.
Implicit Types (p : MemPool T) (i j : N).

Lemma read_write p i obj j :
  read (write p i obj) j = if decide (i = j) then obj else read p j.
Proof.
  unfold read, write. rewrite block_at_set_block. by destruct (decide (i = j)).
Qed.

Lemma is_free_write p i obj j :
  is_free (block_at (write p i obj) j) = is_free (block_at p j).
Proof.
  unfold write. rewrite block_at_set_block. by destruct (decide (i = j)) as [->|].
Qed.

Lemma used_write p i obj : used (write p i obj) = used p.
Proof.
  apply set_eq. intros k. rewrite !elem_of_used. unfold busy. by rewrite is_free_write.
Qed.

Lemma pool_wf_write p i obj : pool_wf p -> pool_wf (write p i obj).
Proof.
  intros [H1 H2 H3 H4]. split; simpl; try done.
  - by rewrite is_free_write.
  - intros k. unfold busy. rewrite is_free_write. apply H4.
Qed.

Lemma n_blocks_write p i obj : n_blocks (write p i obj) = n_blocks p.
Proof. done. Qed.

Lemma used_subseteq_stored p : used p ⊆ dom (stored p).
Proof. unfold used. apply dom_filter_subseteq. Qed.

Lemma size_used_le_stored p : (size (used p) <= size (stored p))%nat.
Proof. rewrite <- size_dom. apply subseteq_size, used_subseteq_stored. Qed.

Lemma size_stored_write p i obj : (size (stored p) <= size (stored (write p i obj)))%nat.
Proof.
  unfold write, set_block. simpl. rewrite <- !size_dom, dom_insert_L.
  apply subseteq_size. set_solver.
Qed.

(** What [allocate] and [deallocate] leave in the blocks. *)
Lemma read_allocated p p' obj j :
  stored p' = <[i_next_free p := mkBlock obj false]> (stored p) ->
  read p' j = if decide (i_next_free p = j) then obj else read p j.
Proof.
  intros Hs. unfold read, block_at. rewrite Hs, lookup_insert.
  by destruct (decide (i_next_free p = j)).
Qed.

Lemma read_deallocated p p' i j :
  stored p' = <[i := mkBlock (read p i) true]> (stored p) ->
  read p' j = read p j.
Proof.
  intros Hs. unfold read, block_at. rewrite Hs, lookup_insert.
  by destruct (decide (i = j)) as [->|].
Qed.

End PoolAccess.

(** ** The exchange order book: representation *)

Section BookShape.
Import Common Run LL Exchange.

Implicit Types (b : OMEOrderBook) (s : Side) (o l : N).
Implicit Types (lpool : MemPool Level.OMEOrdersAtPrice) (opool : MemPool Order.OMEOrder).

(** A side of the book, as the pointers that make it up: its levels from
    the most aggressive on, each with its orders from the first in the
    queue on. *)
Definition Levels := list (N * list N).

Definition level_ptrs (g : Levels) : list N := g.*1.
Definition order_ptrs (g : Levels) : list N := concat g.*2.

Definition onext opool (p : N) : option N := Order.next (read opool p).
Definition oprev opool (p : N) : option N := Order.prev (read opool p).
Definition lnext lpool (p : N) : option N := Level.next (read lpool p).
Definition lprev lpool (p : N) : option N := Level.prev (read lpool p).

(** [p] comes before [q] on side [s]: higher bids first, lower asks
    first. *)
Definition before s (p q : Price) : Prop := if decide (s = BUY) then q < p else p < q.

Definition opposite s : Side := if decide (s = BUY) then SELL else BUY.

Definition order_ok opool s (price : Price) (o : N) : Prop :=
  Order.side (read opool o) = s
  /\ Order.price (read opool o) = price
  /\ 0 <= Order.qty (read opool o) < 2 ^ 32
  /\ client_order_in_range (Order.client_id (read opool o))
                           (Order.client_order_id (read opool o)) = true.

Definition level_ok lpool opool s (lv : N * list N) : Prop :=
  Level.side (read lpool lv.1) = s
  /\ Level.order_0 (read lpool lv.1) = head lv.2
  /\ ring (onext opool) (oprev opool) lv.2
  /\ Forall (order_ok opool s (Level.price (read lpool lv.1))) lv.2.

Definition prices lpool (g : Levels) : list Price :=
  (fun lv => Level.price (read lpool lv.1)) <$> g.

Definition side_ok lpool opool s (hd : option N) (g : Levels) : Prop :=
  hd = head (level_ptrs g)
  /\ (g <> [] -> ring (lnext lpool) (lprev lpool) (level_ptrs g))
  /\ Forall (level_ok lpool opool s) g
  /\ StronglySorted (before s) (prices lpool g).

(** The representation invariant of the book: [bids] and [asks] are the
    two sides; every level and every order is in a block in use of its
    pool and nowhere twice; the price table holds exactly the levels,
    each at the index of its price; every entry of the client table is a
    resting order of that client with that id; and no bid level is at or
    above an ask level. *)
Record Shape b (bids asks : Levels) : Prop := {
  sh_bids : side_ok (orders_at_price_pool b) (order_pool b) BUY (bids_by_price b) bids;
  sh_asks : side_ok (orders_at_price_pool b) (order_pool b) SELL (asks_by_price b) asks;
  sh_levels_nodup : NoDup (level_ptrs (bids ++ asks));
  sh_orders_nodup : NoDup (order_ptrs (bids ++ asks));
  sh_price_map : forall idx l,
    map_price_to_price_level b !! idx = Some l
    <-> l ∈ level_ptrs (bids ++ asks)
        /\ price_to_index (Level.price (read (orders_at_price_pool b) l)) = idx;
  sh_level_pool : pool_wf (orders_at_price_pool b)
                  /\ used (orders_at_price_pool b) = list_to_set (level_ptrs (bids ++ asks));
  sh_order_pool : pool_wf (order_pool b)
                  /\ used (order_pool b) = list_to_set (order_ptrs (bids ++ asks));
  sh_client_map : forall c oid o,
    map_client_id_to_order b !! (c, oid) = Some o ->
    o ∈ order_ptrs (bids ++ asks)
    /\ Order.client_id (read (order_pool b) o) = c
    /\ Order.client_order_id (read (order_pool b) o) = oid;
  sh_uncrossed : forall p q,
    p ∈ prices (orders_at_price_pool b) bids -> q ∈ prices (orders_at_price_pool b) asks ->
    p < q
}.

Lemma Shape_new ticker : Shape (OMEOrderBook_new ticker) [] [].
Proof.
  split; simpl.
  - repeat split; try done; constructor.
  - repeat split; try done; constructor.
  - constructor.
  - constructor.
  - intros idx l. rewrite lookup_empty. split; [done|]. intros [Hl _]. by apply elem_of_nil in Hl.
  - split; [by apply MemPool_new_wf|]. by rewrite used_MemPool_new.
  - split; [by apply MemPool_new_wf|]. by rewrite used_MemPool_new.
  - intros c oid o. by rewrite lookup_empty.
  - intros p q Hp. by apply elem_of_nil in Hp.
Qed.

End BookShape.

(** ** The exchange order book: the invariant seen from one side *)

Section BookSided.
Import Common Run LL Exchange.

Implicit Types (b : OMEOrderBook) (s : Side) (o l : N) (g mine theirs : Levels).

(** [Shape] with the roles of the sides abstracted: [mine] is side [s],
    [theirs] the opposite one.  [xo] are orders in blocks in use that are
    in no level: the order the book is about to link in, or the one it has
    just taken out and is about to deallocate. *)
Record Sided b s mine theirs (xo : list N) : Prop := {
  sd_mine : side_ok (orders_at_price_pool b) (order_pool b) s (side_head b s) mine;
  sd_theirs : side_ok (orders_at_price_pool b) (order_pool b) (opposite s)
                      (side_head b (opposite s)) theirs;
  sd_levels_nodup : NoDup (level_ptrs (mine ++ theirs));
  sd_orders_nodup : NoDup (order_ptrs (mine ++ theirs) ++ xo);
  sd_price_map : forall idx l,
    map_price_to_price_level b !! idx = Some l
    <-> l ∈ level_ptrs (mine ++ theirs)
        /\ price_to_index (Level.price (read (orders_at_price_pool b) l)) = idx;
  sd_level_pool : pool_wf (orders_at_price_pool b)
                  /\ used (orders_at_price_pool b) = list_to_set (level_ptrs (mine ++ theirs));
  sd_order_pool : pool_wf (order_pool b)
                  /\ used (order_pool b) = list_to_set (order_ptrs (mine ++ theirs) ++ xo);
  sd_client_map : forall c oid o,
    map_client_id_to_order b !! (c, oid) = Some o ->
    o ∈ order_ptrs (mine ++ theirs) ++ xo
    /\ Order.client_id (read (order_pool b) o) = c
    /\ Order.client_order_id (read (order_pool b) o) = oid;
  sd_uncrossed : forall p q,
    p ∈ prices (orders_at_price_pool b) mine ->
    q ∈ prices (orders_at_price_pool b) theirs ->
    before s q p
}.

Lemma level_ptrs_app g1 g2 : level_ptrs (g1 ++ g2) = level_ptrs g1 ++ level_ptrs g2.
Proof. unfold level_ptrs. apply fmap_app. Qed.

Lemma order_ptrs_app g1 g2 : order_ptrs (g1 ++ g2) = order_ptrs g1 ++ order_ptrs g2.
Proof. unfold order_ptrs. by rewrite fmap_app, concat_app. Qed.

Lemma order_ptrs_cons lv g : order_ptrs (lv :: g) = lv.2 ++ order_ptrs g.
Proof. done. Qed.

Lemma level_ptrs_cons lv g : level_ptrs (lv :: g) = lv.1 :: level_ptrs g.
Proof. done. Qed.

Lemma Shape_Sided b bids asks : Shape b bids asks <-> Sided b BUY bids asks [].
Proof.
  split; intros [H1 H2 H3 H4 H5 H6 H7 H8 H9]; split; rewrite ?app_nil_r in *; done.
Qed.

Lemma opposite_involutive s : s = BUY \/ s = SELL -> opposite (opposite s) = s.
Proof. by intros [-> | ->]. Qed.

Lemma Sided_swap b s mine theirs xo :
  s = BUY \/ s = SELL -> Sided b s mine theirs xo -> Sided b (opposite s) theirs mine xo.
Proof.
  intros Hs [H1 H2 H3 H4 H5 H6 H7 H8 H9].
  assert (level_ptrs (theirs ++ mine) ≡ₚ level_ptrs (mine ++ theirs)) as Hl.
  { rewrite !level_ptrs_app. apply Permutation_app_comm. }
  assert (order_ptrs (theirs ++ mine) ++ xo ≡ₚ order_ptrs (mine ++ theirs) ++ xo) as Ho.
  { rewrite !order_ptrs_app. apply Permutation_app_tail, Permutation_app_comm. }
  split; rewrite ?opposite_involutive by done; try done.
  - by rewrite Hl.
  - by rewrite Ho.
  - intros idx l. rewrite Hl. apply H5.
  - destruct H6 as [? Hu]. split; [done|]. rewrite Hu. apply set_eq. intros x.
    rewrite !elem_of_list_to_set. by rewrite Hl.
  - destruct H7 as [? Hu]. split; [done|]. rewrite Hu. apply set_eq. intros x.
    rewrite !elem_of_list_to_set. by rewrite Ho.
  - intros c oid o Hc. rewrite Ho. by apply H8.
  - intros p q Hp Hq. specialize (H9 q p Hq Hp). unfold before in *.
    destruct Hs as [-> | ->]; simpl in *; lia.
Qed.

Lemma Shape_Sided_SELL b bids asks : Shape b bids asks <-> Sided b SELL asks bids [].
Proof.
  rewrite Shape_Sided. split; intros H.
  - by apply (Sided_swap b BUY); [left|].
  - by apply (Sided_swap b SELL asks bids); [right|].
Qed.

End BookSided.

(** * The replica book and its BBO *)

(** Running a sequence of binds to its result: the first computation of
    the sequence returned, since the whole did. *)
Ltac bind_head m :=
  lazymatch m with
  | mbind _ ?m' => bind_head m'
  | _ => m
  end.

Ltac run_step H :=
  lazymatch type of H with
  | ?m = Run.Ok _ =>
      let h := bind_head m in
      let E := fresh "E" in
      destruct h eqn:E; [|discriminate H];
      cbn [mbind Run.Result_bind Run.deref] in H
  end.

Ltac destruct_pair :=
  repeat match goal with p : (_ * _)%type |- _ => destruct p end.

Section ReplicaProofs.
Import Common Run LL Replica.

(** [update_bbo(false, false)] leaves the book as it is. *)
Lemma update_bbo_false_false b : update_bbo b false false = Ok b.
Proof. reflexivity. Qed.

(** With both flags set and both heads walked, the BBO is the pair
    [best_of] computes on each side. *)
Lemma update_bbo_true_true b pb qb pa qa :
  best_of b (bids_by_price b) = Ok (pb, qb) ->
  best_of b (asks_by_price b) = Ok (pa, qa) ->
  exists b', update_bbo b true true = Ok b' /\ bbo b' = mkBBO pb pa qb qa.
Proof.
  intros Hb Ha. unfold update_bbo. rewrite Hb. cbn [mbind Result_bind].
  change (asks_by_price (set_bbo b _)) with (asks_by_price b).
  assert (He : forall x, best_of (set_bbo b x) (asks_by_price b) = best_of b (asks_by_price b)).
  { intros x. unfold best_of. destruct (asks_by_price b); [|reflexivity].
    change (level (set_bbo b x) n) with (level b n).
    destruct (Level.order_0 (level b n)) as [f|]; [|reflexivity].
    cbn [deref mbind Result_bind].
    change (order (set_bbo b x) f) with (order b f).
    change (order_pool (set_bbo b x)) with (order_pool b).
    assert (Hq : forall fuel cur acc,
               accumulate_qty fuel (set_bbo b x) f cur acc = accumulate_qty fuel b f cur acc).
    { induction fuel as [|fuel IH]; intros cur acc; simpl; [reflexivity|].
      destruct (bool_decide (cur = Some f)); [reflexivity|].
      destruct cur as [o|]; [|reflexivity]. cbn [deref mbind Result_bind].
      apply IH. }
    rewrite Hq. reflexivity. }
  rewrite He, Ha. cbn [mbind Result_bind]. eexists. split; reflexivity.
Qed.

(** An update for a side whose list of levels is empty finds both flags of
    [on_market_update] unset: whatever it does to the book, the BBO is the
    one there was before. *)
Lemma on_market_update_empty_side b u b' :
  (Update.side u = BUY -> bids_by_price b = None) ->
  (Update.side u = SELL -> asks_by_price b = None) ->
  on_market_update b u = Ok b' ->
  Update.type u = Update.ADD ->
  bbo b' = bbo b.
Proof.
  intros Hb Ha H Ht. unfold on_market_update in H. rewrite Ht in H.
  assert (Hf1 : match bids_by_price b with
                | Some l => bool_decide (Update.side u = BUY)
                            && (Level.price (level b l) <=? Update.price u)
                | None => false
                end = false).
  { destruct (bids_by_price b) eqn:E; [|reflexivity].
    destruct (decide (Update.side u = BUY)) as [e|n0].
    - specialize (Hb e). discriminate.
    - rewrite bool_decide_eq_false_2 by assumption. reflexivity. }
  assert (Hf2 : match asks_by_price b with
                | Some l => bool_decide (Update.side u = SELL)
                            && (Update.price u <=? Level.price (level b l))
                | None => false
                end = false).
  { destruct (asks_by_price b) eqn:E; [|reflexivity].
    destruct (decide (Update.side u = SELL)) as [e|n0].
    - specialize (Ha e). discriminate.
    - rewrite bool_decide_eq_false_2 by assumption. reflexivity. }
  rewrite Hf1, Hf2 in H. clear Hf1 Hf2.
  run_step H; destruct_pair. run_step H.
  rewrite update_bbo_false_false in H. injection H as <-.
  (* [add_order] does not assign the BBO *)
  match goal with E : add_order ?x ?p = _ |- _ =>
    rename E into Ead; assert (Hb0 : bbo x = bbo b) by reflexivity; revert Ead Hb0;
    generalize x; generalize p; intros o b0 Ead Hb0 end.
  unfold add_order in Ead.
  destruct (get_level_for_price b0 (TEOrder.price (order b0 o))) as [pl|].
  - do 2 run_step Ead. unfold set_order_at in Ead.
    destruct (_ && _); [|discriminate]. injection Ead as <-. exact Hb0.
  - run_step Ead; destruct_pair. run_step Ead.
    unfold set_order_at in Ead.
    destruct (_ && _); [|discriminate]. injection Ead as <-.
    match goal with E : add_price_level ?x _ = _ |- _ =>
      rename E into Eapl; assert (Hx : bbo x = bbo b) by exact Hb0; revert Eapl Hx;
      generalize x; intros b3 Eapl Hb3 end.
    unfold add_price_level in Eapl.
    match type of Eapl with
    | context [side_head ?x ?y] => destruct (side_head x y) as [best|]
    end.
    + run_step Eapl; destruct_pair. run_step Eapl; destruct_pair.
      match type of Eapl with (if ?c then _ else _) = _ => destruct c end.
      * do 2 run_step Eapl. injection Eapl as <-. exact Hb3.
      * run_step Eapl.
        match type of Eapl with (if ?c then _ else _) = _ => destruct c end;
          injection Eapl as <-; [|exact Hb3].
        unfold set_side_head. destruct (decide _); exact Hb3.
    + injection Eapl as <-. unfold set_side_head. destruct (decide _); exact Hb3.
Qed.

(** The update [ADD(order_id, BUY/SELL, price, qty, priority)]. *)
Definition add_update (id : OrderID) (s : Side) (price : Price) (qty : Qty)
    (priority : Priority) : Update.OMEMarketUpdate :=
  Update.mkUpdate Update.ADD id 3 s price qty priority.

(** The updates a list of [ADD]s is applied with. *)
Definition apply_updates (us : list Update.OMEMarketUpdate) (b : TEOrderBook)
  : Result TEOrderBook :=
  foldl (fun acc u => b ← acc; on_market_update b u) (Ok b) us.

(** S4: five asks of 50 at 105, 55, 105, 55, 105. *)
Definition five_asks : list Update.OMEMarketUpdate :=
  [add_update 0 SELL 105 50 1; add_update 1 SELL 55 50 1; add_update 2 SELL 105 50 2;
   add_update 3 SELL 55 50 2; add_update 4 SELL 105 50 3].

Lemma S4_bbo_after_five_asks :
  exists b, apply_updates five_asks (TEOrderBook_new 3) = Ok b
            /\ best_of b (asks_by_price b) = Ok (55, 100)
            /\ ask (bbo b) = 55 /\ ask_qty (bbo b) = 100.
Proof.
  eexists. split; [vm_compute; reflexivity|].
  split; [vm_compute; reflexivity|]. split; reflexivity.
Qed.

(** C5.  An [ADD] into an empty replica: the bid side then has a head level,
    at the price of the order and with its quantity, which is the pair
    [update_bbo] would store; yet the BBO of the book is left invalid, since
    [on_market_update] computed its flags on the empty side, before the
    order was added. *)
Theorem C5_add_into_empty_side_leaves_bbo_invalid :
  exists b, on_market_update (TEOrderBook_new 3) (add_update 0 BUY 100 50 1) = Ok b
            /\ (exists l, bids_by_price b = Some l /\ Level.price (level b l) = 100)
            /\ best_of b (bids_by_price b) = Ok (100, 50)
            /\ bid (bbo b) = Price_INVALID /\ bid_qty (bbo b) = Qty_INVALID.
Proof.
  eexists. split; [vm_compute; reflexivity|].
  split; [eexists; split; vm_compute; reflexivity|].
  split; [vm_compute; reflexivity|]. split; reflexivity.
Qed.

End ReplicaProofs.

(** * The exchange order book *)

(** ** Running the book's member functions

    [wpx E m Q]: the computation [m] either returns a value that satisfies
    [Q], or stops for a reason that [E] allows.  With [E] empty this is
    total correctness. *)

Definition wpx {A} (E : Run.Stop -> Prop) (m : Run.Result A) (Q : A -> Prop) : Prop :=
  match m with
  | Run.Ok a => Q a
  | Run.Stopped s => E s
  end.

Lemma wpx_bind {A B} E (m : Run.Result A) (k : A -> Run.Result B) Q :
  wpx E m (fun a => wpx E (k a) Q) -> wpx E (m ≫= k) Q.
Proof. by destruct m. Qed.

Lemma wpx_mono {A} (E E' : Run.Stop -> Prop) (m : Run.Result A) (Q Q' : A -> Prop) :
  wpx E m Q -> (forall s, E s -> E' s) -> (forall a, Q a -> Q' a) -> wpx E' m Q'.
Proof. destruct m; simpl; auto. Qed.

Lemma wpx_ok {A} E (m : Run.Result A) Q a : m = Run.Ok a -> Q a -> wpx E m Q.
Proof. by intros ->. Qed.

Lemma wpx_returns {A} (m : Run.Result A) Q :
  wpx (fun _ => False) m Q -> exists a, m = Run.Ok a /\ Q a.
Proof. destruct m; simpl; [eauto|done]. Qed.

Lemma wpx_result {A} E (m : Run.Result A) Q a : wpx E m Q -> m = Run.Ok a -> Q a.
Proof. by intros H ->. Qed.

(** The views of the two pools that the invariant is stated on, under the
    assignments the code makes through pointers. *)
Section PoolViews.
Import Common Run LL Exchange.
Implicit Types (OP : MemPool Order.OMEOrder) (LP : MemPool Level.OMEOrdersAtPrice).
Implicit Types (p q : N) (v : option N).

(** An order without its links, a level without its links. *)
Definition odata OP p : Order.OMEOrder :=
  Order.with_next (Order.with_prev (read OP p) None) None.
Definition ldata LP p : Level.OMEOrdersAtPrice :=
  Level.with_next (Level.with_prev (read LP p) None) None.

Lemma onext_with_next OP p v q :
  onext (write OP p (Order.with_next (read OP p) v)) q
  = if decide (p = q) then v else onext OP q.
Proof. unfold onext. rewrite read_write. by destruct (decide (p = q)). Qed.

Lemma oprev_with_next OP p v q :
  oprev (write OP p (Order.with_next (read OP p) v)) q = oprev OP q.
Proof. unfold oprev. rewrite read_write. by destruct (decide (p = q)) as [->|]. Qed.

Lemma odata_with_next OP p v q :
  odata (write OP p (Order.with_next (read OP p) v)) q = odata OP q.
Proof. unfold odata. rewrite read_write. by destruct (decide (p = q)) as [->|]. Qed.

Lemma onext_with_prev OP p v q :
  onext (write OP p (Order.with_prev (read OP p) v)) q = onext OP q.
Proof. unfold onext. rewrite read_write. by destruct (decide (p = q)) as [->|]. Qed.

Lemma oprev_with_prev OP p v q :
  oprev (write OP p (Order.with_prev (read OP p) v)) q
  = if decide (p = q) then v else oprev OP q.
Proof. unfold oprev. rewrite read_write. by destruct (decide (p = q)). Qed.

Lemma odata_with_prev OP p v q :
  odata (write OP p (Order.with_prev (read OP p) v)) q = odata OP q.
Proof. unfold odata. rewrite read_write. by destruct (decide (p = q)) as [->|]. Qed.

Lemma onext_with_qty OP p x q :
  onext (write OP p (Order.with_qty (read OP p) x)) q = onext OP q.
Proof. unfold onext. rewrite read_write. by destruct (decide (p = q)) as [->|]. Qed.

Lemma oprev_with_qty OP p x q :
  oprev (write OP p (Order.with_qty (read OP p) x)) q = oprev OP q.
Proof. unfold oprev. rewrite read_write. by destruct (decide (p = q)) as [->|]. Qed.

Lemma odata_with_qty OP p x q :
  odata (write OP p (Order.with_qty (read OP p) x)) q
  = if decide (p = q) then Order.with_qty (odata OP q) x else odata OP q.
Proof. unfold odata. rewrite read_write. by destruct (decide (p = q)) as [->|]. Qed.

Lemma lnext_with_next LP p v q :
  lnext (write LP p (Level.with_next (read LP p) v)) q
  = if decide (p = q) then v else lnext LP q.
Proof. unfold lnext. rewrite read_write. by destruct (decide (p = q)). Qed.

Lemma lprev_with_next LP p v q :
  lprev (write LP p (Level.with_next (read LP p) v)) q = lprev LP q.
Proof. unfold lprev. rewrite read_write. by destruct (decide (p = q)) as [->|]. Qed.

Lemma ldata_with_next LP p v q :
  ldata (write LP p (Level.with_next (read LP p) v)) q = ldata LP q.
Proof. unfold ldata. rewrite read_write. by destruct (decide (p = q)) as [->|]. Qed.

Lemma lnext_with_prev LP p v q :
  lnext (write LP p (Level.with_prev (read LP p) v)) q = lnext LP q.
Proof. unfold lnext. rewrite read_write. by destruct (decide (p = q)) as [->|]. Qed.

Lemma lprev_with_prev LP p v q :
  lprev (write LP p (Level.with_prev (read LP p) v)) q
  = if decide (p = q) then v else lprev LP q.
Proof. unfold lprev. rewrite read_write. by destruct (decide (p = q)). Qed.

Lemma ldata_with_prev LP p v q :
  ldata (write LP p (Level.with_prev (read LP p) v)) q = ldata LP q.
Proof. unfold ldata. rewrite read_write. by destruct (decide (p = q)) as [->|]. Qed.

Lemma lnext_with_order_0 LP p v q :
  lnext (write LP p (Level.with_order_0 (read LP p) v)) q = lnext LP q.
Proof. unfold lnext. rewrite read_write. by destruct (decide (p = q)) as [->|]. Qed.

Lemma lprev_with_order_0 LP p v q :
  lprev (write LP p (Level.with_order_0 (read LP p) v)) q = lprev LP q.
Proof. unfold lprev. rewrite read_write. by destruct (decide (p = q)) as [->|]. Qed.

Lemma ldata_with_order_0 LP p v q :
  ldata (write LP p (Level.with_order_0 (read LP p) v)) q
  = if decide (p = q) then Level.with_order_0 (ldata LP q) v else ldata LP q.
Proof. unfold ldata. rewrite read_write. by destruct (decide (p = q)) as [->|]. Qed.

Lemma lnext_with_next_same LP p q :
  lnext (write LP p (Level.with_next (read LP p) (lnext LP p))) q = lnext LP q.
Proof. rewrite lnext_with_next. by destruct (decide (p = q)) as [->|]. Qed.

Lemma ldata_eq_fields LP LP' p :
  ldata LP' p = ldata LP p ->
  Level.side (read LP' p) = Level.side (read LP p)
  /\ Level.price (read LP' p) = Level.price (read LP p)
  /\ Level.order_0 (read LP' p) = Level.order_0 (read LP p).
Proof.
  intros H. split_and!.
  - exact (f_equal Level.side H).
  - exact (f_equal Level.price H).
  - exact (f_equal Level.order_0 H).
Qed.

(** The fields of an object in terms of the views. *)
Lemma order_fields OP p :
  Order.next (read OP p) = onext OP p /\ Order.prev (read OP p) = oprev OP p
  /\ Order.ticker_id (read OP p) = Order.ticker_id (odata OP p)
  /\ Order.client_id (read OP p) = Order.client_id (odata OP p)
  /\ Order.client_order_id (read OP p) = Order.client_order_id (odata OP p)
  /\ Order.market_order_id (read OP p) = Order.market_order_id (odata OP p)
  /\ Order.side (read OP p) = Order.side (odata OP p)
  /\ Order.price (read OP p) = Order.price (odata OP p)
  /\ Order.qty (read OP p) = Order.qty (odata OP p)
  /\ Order.priority (read OP p) = Order.priority (odata OP p).
Proof. done. Qed.

Lemma level_fields LP p :
  Level.next (read LP p) = lnext LP p /\ Level.prev (read LP p) = lprev LP p
  /\ Level.side (read LP p) = Level.side (ldata LP p)
  /\ Level.price (read LP p) = Level.price (ldata LP p)
  /\ Level.order_0 (read LP p) = Level.order_0 (ldata LP p).
Proof. done. Qed.

(** [deallocate] leaves the objects where they are. *)
Lemma onext_deallocated OP OP' i p :
  stored OP' = <[i := mkBlock (read OP i) true]> (stored OP) -> onext OP' p = onext OP p.
Proof. intros H. unfold onext. by rewrite (read_deallocated _ _ _ _ H). Qed.
Lemma oprev_deallocated OP OP' i p :
  stored OP' = <[i := mkBlock (read OP i) true]> (stored OP) -> oprev OP' p = oprev OP p.
Proof. intros H. unfold oprev. by rewrite (read_deallocated _ _ _ _ H). Qed.
Lemma odata_deallocated OP OP' i p :
  stored OP' = <[i := mkBlock (read OP i) true]> (stored OP) -> odata OP' p = odata OP p.
Proof. intros H. unfold odata. by rewrite (read_deallocated _ _ _ _ H). Qed.
Lemma lnext_deallocated LP LP' i p :
  stored LP' = <[i := mkBlock (read LP i) true]> (stored LP) -> lnext LP' p = lnext LP p.
Proof. intros H. unfold lnext. by rewrite (read_deallocated _ _ _ _ H). Qed.
Lemma lprev_deallocated LP LP' i p :
  stored LP' = <[i := mkBlock (read LP i) true]> (stored LP) -> lprev LP' p = lprev LP p.
Proof. intros H. unfold lprev. by rewrite (read_deallocated _ _ _ _ H). Qed.
Lemma ldata_deallocated LP LP' i p :
  stored LP' = <[i := mkBlock (read LP i) true]> (stored LP) -> ldata LP' p = ldata LP p.
Proof. intros H. unfold ldata. by rewrite (read_deallocated _ _ _ _ H). Qed.

Lemma busy_write {T} `{!DefaultInit T} (P : MemPool T) i x j : busy (write P i x) j <-> busy P j.
Proof. unfold busy. by rewrite is_free_write. Qed.

End PoolViews.

(** ** Symbolic execution *)

Section SideHeads.
Import Common Exchange.

Lemma set_side_head_eq t cm LP bids asks pm OP cr mu noid txr txu s x :
  set_side_head (mkBook t cm LP bids asks pm OP cr mu noid txr txu) s x
  = mkBook t cm LP (if decide (s = BUY) then x else bids)
           (if decide (s = BUY) then asks else x) pm OP cr mu noid txr txu.
Proof. unfold set_side_head. by destruct (decide (s = BUY)). Qed.

End SideHeads.

Ltac side_simpl := rewrite ?set_side_head_eq.

(** Goals on the heads of the two sides, by cases on the side. *)
Ltac side_cases :=
  unfold Exchange.side_head, opposite in *;
  cbn beta iota delta [Exchange.bids_by_price Exchange.asks_by_price] in *;
  repeat case_decide; try done; try congruence.

Ltac book_eval v :=
  eval cbv beta iota delta
       [Exchange.order Exchange.level Exchange.get_level_for_price
        Exchange.assigned_ticker Exchange.map_client_id_to_order
        Exchange.orders_at_price_pool Exchange.bids_by_price Exchange.asks_by_price
        Exchange.map_price_to_price_level Exchange.order_pool Exchange.client_response
        Exchange.market_update Exchange.next_market_oid Exchange.tx_responses
        Exchange.tx_market_updates
        Exchange.set_order_prev Exchange.set_order_next Exchange.set_order_qty
        Exchange.set_level_prev Exchange.set_level_next Exchange.set_level_order_0
        Exchange.set_order Exchange.set_level Exchange.set_level_for_price
        Exchange.set_client_map Exchange.set_level_pool Exchange.set_bids
        Exchange.set_asks Exchange.set_price_map Exchange.set_order_pool
        Exchange.set_next_market_oid Exchange.send_client_response
        Exchange.set_market_update Exchange.send_market_update] in v.

Ltac book_simpl :=
  side_simpl;
  cbv beta delta [Exchange.order Exchange.level Exchange.get_level_for_price] in *;
  cbn beta iota delta [Exchange.assigned_ticker Exchange.map_client_id_to_order
       Exchange.orders_at_price_pool Exchange.bids_by_price Exchange.asks_by_price
       Exchange.map_price_to_price_level Exchange.order_pool Exchange.client_response
       Exchange.market_update Exchange.next_market_oid Exchange.tx_responses
       Exchange.tx_market_updates
       Exchange.set_order_prev Exchange.set_order_next Exchange.set_order_qty
       Exchange.set_level_prev Exchange.set_level_next Exchange.set_level_order_0
       Exchange.set_order Exchange.set_level Exchange.set_level_for_price
       Exchange.set_client_map Exchange.set_level_pool Exchange.set_bids
       Exchange.set_asks Exchange.set_price_map Exchange.set_order_pool
       Exchange.set_next_market_oid Exchange.send_client_response
       Exchange.set_market_update Exchange.send_market_update
       Run.deref mbind mret Run.Result_bind Run.Result_ret wpx] in *.

(** The pool that a step has written to is given a name. *)
Ltac name_pool P X :=
  lazymatch P with
  | LL.write _ _ _ => set (X := P) in *
  | _ => idtac
  end.

Ltac name_pools v X :=
  lazymatch v with
  | Exchange.mkBook _ _ ?lp _ _ _ ?op _ _ _ _ _ => name_pool lp X; name_pool op X
  | _ => idtac
  end.

(** [let x := v in k] under [wpx]: the state [v] is brought to the form
    [mkBook ...] and passed on. *)
Ltac wpx_let_with X :=
  side_simpl;
  lazymatch goal with
  | |- wpx ?E (let x := ?v in @?k x) ?Q =>
      let v' := book_eval v in
      change (wpx E (k v') Q); cbv beta; name_pools v' X
  end.

Tactic Notation "wpx_let" := let X := fresh "pool" in wpx_let_with X.
Tactic Notation "wpx_let" "as" ident(X) := wpx_let_with X.

(** [Ok v] under [wpx]. *)
Ltac wpx_ret_with X :=
  side_simpl;
  lazymatch goal with
  | |- wpx ?E (Run.Ok ?v) ?Q =>
      let v' := book_eval v in
      change (Q v'); cbv beta; name_pools v' X
  end.

Tactic Notation "wpx_ret" := let X := fresh "pool" in wpx_ret_with X.
Tactic Notation "wpx_ret" "as" ident(X) := wpx_ret_with X.

(** A test of the code that is known to hold, or not to. *)
Ltac wpx_true := rewrite bool_decide_eq_true_2 by (try done; congruence); cbv beta iota.
Ltac wpx_false := rewrite bool_decide_eq_false_2 by (try done; congruence); cbv beta iota.

Ltac wpx_bind := apply wpx_bind.

(** Rewriting with a fact stated on the views, where the code reads the
    field. *)
Ltac rewrite_view H :=
  let H' := fresh in
  pose proof H as H';
  cbv beta delta [onext oprev lnext lprev Exchange.order Exchange.level
                  Exchange.get_level_for_price] in H';
  cbn beta iota delta [Exchange.order_pool Exchange.orders_at_price_pool
                       Exchange.map_price_to_price_level fst snd] in H';
  rewrite !H'; clear H'.

(** [deref p] where [p] is known to be [Some x]. *)
Ltac wpx_deref H :=
  rewrite_view H; cbn beta iota delta [Run.deref mbind Run.Result_bind wpx].

(** The fields of pool objects, as views. *)
Ltac fold_views :=
  repeat match goal with
    | |- context [Level.next (LL.read ?P ?p)] =>
        change (Level.next (LL.read P p)) with (lnext P p)
    | |- context [Level.prev (LL.read ?P ?p)] =>
        change (Level.prev (LL.read P p)) with (lprev P p)
    | |- context [Order.next (LL.read ?P ?p)] =>
        change (Order.next (LL.read P p)) with (onext P p)
    | |- context [Order.prev (LL.read ?P ?p)] =>
        change (Order.prev (LL.read P p)) with (oprev P p)
    end.

(** Two pointers differ when one is in a list and the other is not. *)
Ltac elem_of_list :=
  first [done
        |repeat (rewrite elem_of_app || rewrite elem_of_cons);
         first [tauto|intuition congruence]
        |repeat (rewrite elem_of_app in * || rewrite elem_of_cons in * );
         first [tauto|intuition congruence]].

Ltac ptr_neq :=
  first [done
        |congruence
        |let H := fresh in
         intros H;
         match goal with
         | Hn : ?x ∉ ?l |- _ =>
             apply Hn; first [rewrite H; elem_of_list|rewrite <- H; elem_of_list]
         end].

(** Tests on pointers that the context settles. *)
Ltac decide_ptrs :=
  repeat match goal with
    | |- context [decide (?a = ?b)] =>
        first [rewrite (decide_True (P := a = b)) by (try done; congruence)
              |rewrite (decide_False (P := a = b)) by ptr_neq]
    end.

(** The views of a pool that is a sequence of assignments. *)
Ltac pool_views :=
  repeat progress
    (fold_views;
     rewrite ?onext_with_next, ?oprev_with_next, ?odata_with_next,
       ?onext_with_prev, ?oprev_with_prev, ?odata_with_prev,
       ?onext_with_qty, ?oprev_with_qty, ?odata_with_qty,
       ?lnext_with_next_same,
       ?lnext_with_next, ?lprev_with_next, ?ldata_with_next,
       ?lnext_with_prev, ?lprev_with_prev, ?ldata_with_prev,
       ?lnext_with_order_0, ?lprev_with_order_0, ?ldata_with_order_0;
     decide_ptrs).

(** The names of the pools are unfolded. *)
Ltac subst_pools :=
  repeat match goal with P := LL.write _ _ _ |- _ => subst P end.

(** The parts of a postcondition that follow from the form of the final
    state. *)
Ltac post_frame :=
  book_simpl;
  try done;
  try (by side_cases);
  try (by intros; subst_pools; repeat apply pool_wf_write);
  try (by subst_pools; rewrite ?used_write);
  try (by intros; subst_pools; pool_views);
  try (by intros; subst_pools; pool_views; split; pool_views).

(** ** The invariant under changes of the pools *)

Section BookFrames.
Import Common Run LL Exchange.
Implicit Types (LP : MemPool Level.OMEOrdersAtPrice) (OP : MemPool Order.OMEOrder).
Implicit Types (s : Side) (g : Levels) (o l a e h : N) (q : list N).

Lemma read_order_eq OP OP' o :
  onext OP' o = onext OP o -> oprev OP' o = oprev OP o -> odata OP' o = odata OP o ->
  read OP' o = read OP o.
Proof.
  unfold onext, oprev, odata. destruct (read OP' o), (read OP o). simpl.
  intros -> -> [= -> -> -> -> -> -> -> ->]. done.
Qed.

Lemma read_level_eq LP LP' l :
  lnext LP' l = lnext LP l -> lprev LP' l = lprev LP l -> ldata LP' l = ldata LP l ->
  read LP' l = read LP l.
Proof.
  unfold lnext, lprev, ldata. destruct (read LP' l), (read LP l). simpl.
  intros -> -> [= -> -> ->]. done.
Qed.

Lemma ring_ext (nxt prv nxt' prv' : N -> option N) (l : list N) :
  (forall p, p ∈ l -> nxt' p = nxt p) -> (forall p, p ∈ l -> prv' p = prv p) ->
  ring nxt prv l -> ring nxt' prv' l.
Proof.
  destruct l as [|x t]; [done|]. intros Hn Hp. simpl. apply chain_ext.
  - done.
  - intros p Hin. apply Hp. set_solver.
Qed.

Lemma order_ok_ext OP OP' s pr o :
  odata OP' o = odata OP o -> order_ok OP s pr o -> order_ok OP' s pr o.
Proof.
  intros H. unfold order_ok.
  pose proof (f_equal Order.side H) as H1. pose proof (f_equal Order.price H) as H2.
  pose proof (f_equal Order.qty H) as H3. pose proof (f_equal Order.client_id H) as H4.
  pose proof (f_equal Order.client_order_id H) as H5. simpl in *.
  by rewrite H1, H2, H3, H4, H5.
Qed.

Lemma level_ok_ext LP OP LP' OP' s lv :
  ldata LP' lv.1 = ldata LP lv.1 ->
  (forall o, o ∈ lv.2 -> read OP' o = read OP o) ->
  level_ok LP OP s lv -> level_ok LP' OP' s lv.
Proof.
  intros Hl Ho (H1 & H2 & H3 & H4).
  pose proof (f_equal Level.side Hl) as E1. pose proof (f_equal Level.price Hl) as E2.
  pose proof (f_equal Level.order_0 Hl) as E3. simpl in E1, E2, E3.
  unfold level_ok. rewrite E1, E2, E3. repeat split; try done.
  - revert H3. apply ring_ext; intros p Hp; unfold onext, oprev; by rewrite Ho.
  - rewrite Forall_forall in H4 |- *. intros o Hin. specialize (H4 o Hin).
    revert H4. apply order_ok_ext. unfold odata. by rewrite Ho.
Qed.

Lemma prices_ext LP LP' g :
  (forall l, l ∈ level_ptrs g -> ldata LP' l = ldata LP l) -> prices LP' g = prices LP g.
Proof.
  intros H. unfold prices. apply Forall_fmap_ext_1, Forall_forall. intros lv Hin.
  assert (lv.1 ∈ level_ptrs g) as Hl by (unfold level_ptrs; by apply list_elem_of_fmap_2).
  exact (f_equal Level.price (H _ Hl)).
Qed.

Lemma elem_of_order_ptrs g o : o ∈ order_ptrs g <-> exists lv, lv ∈ g /\ o ∈ lv.2.
Proof.
  induction g as [|lv g IH].
  - split; [by intros ?%elem_of_nil|]. by intros (lv & ?%elem_of_nil & _).
  - rewrite order_ptrs_cons, elem_of_app, IH. split.
    + intros [H|(lv' & H1 & H2)]; [exists lv|exists lv']; set_solver.
    + intros (lv' & [->|H1]%elem_of_cons & H2); [by left|right; eauto].
Qed.

Lemma elem_of_level_ptrs g l : l ∈ level_ptrs g <-> exists lv, lv ∈ g /\ lv.1 = l.
Proof.
  unfold level_ptrs. rewrite list_elem_of_fmap. split; intros (lv & ? & ?); eauto.
Qed.

Lemma Forall_level_ok_ext LP OP LP' OP' s g :
  (forall l, l ∈ level_ptrs g -> ldata LP' l = ldata LP l) ->
  (forall o, o ∈ order_ptrs g -> read OP' o = read OP o) ->
  Forall (level_ok LP OP s) g -> Forall (level_ok LP' OP' s) g.
Proof.
  intros Hl Ho. rewrite !Forall_forall. intros H lv Hin. specialize (H lv Hin).
  revert H. apply level_ok_ext.
  - apply Hl. apply elem_of_level_ptrs. eauto.
  - intros o Hino. apply Ho. apply elem_of_order_ptrs. eauto.
Qed.

Lemma side_ok_ext LP OP LP' OP' s hd g :
  (forall l, l ∈ level_ptrs g -> read LP' l = read LP l) ->
  (forall o, o ∈ order_ptrs g -> read OP' o = read OP o) ->
  side_ok LP OP s hd g -> side_ok LP' OP' s hd g.
Proof.
  intros Hl Ho (H1 & H2 & H3 & H4).
  assert (forall l, l ∈ level_ptrs g -> ldata LP' l = ldata LP l) as Hd.
  { intros l Hin. unfold ldata. by rewrite Hl. }
  repeat split; try done.
  - intros Hg. specialize (H2 Hg). revert H2.
    apply ring_ext; intros p Hp; unfold lnext, lprev; by rewrite Hl.
  - revert H3. by apply Forall_level_ok_ext.
  - by rewrite (prices_ext LP LP').
Qed.

End BookFrames.

(** ** Taking an order out of a level, and a level out of a side *)

Section BookRemoval.
Import Common Run LL Exchange.
Implicit Types (LP : MemPool Level.OMEOrdersAtPrice) (OP : MemPool Order.OMEOrder).
Implicit Types (s : Side) (g : Levels) (o l a e h : N) (q : list N).

Lemma head_elem_of {A} (l : list A) x : head l = Some x -> x ∈ l.
Proof. destruct l; [done|]. intros [= ->]. set_solver. Qed.

Lemma last_elem_of {A} (l : list A) x : last l = Some x -> x ∈ l.
Proof.
  intros H. apply last_Some in H as (l' & ->). set_solver.
Qed.

Lemma level_ok_remove LP OP s l q1 o q2 :
  NoDup (q1 ++ o :: q2) -> q1 ++ q2 <> [] -> level_ok LP OP s (l, q1 ++ o :: q2) ->
  exists a e,
    onext OP o = Some a /\ oprev OP o = Some e /\ a <> o /\ e <> o
    /\ a ∈ q1 ++ q2 /\ e ∈ q1 ++ q2
    /\ (Level.order_0 (read LP l) = Some o <-> q1 = [])
    /\ forall LP' OP',
         onext OP' e = Some a -> oprev OP' a = Some e ->
         (forall p, p <> e -> p <> o -> onext OP' p = onext OP p) ->
         (forall p, p <> a -> p <> o -> oprev OP' p = oprev OP p) ->
         (forall p, p <> o -> odata OP' p = odata OP p) ->
         Level.side (read LP' l) = Level.side (read LP l) ->
         Level.price (read LP' l) = Level.price (read LP l) ->
         Level.order_0 (read LP' l)
         = (if decide (q1 = []) then Some a else Level.order_0 (read LP l)) ->
         level_ok LP' OP' s (l, q1 ++ q2).
Proof.
  intros Hnd Hne (Hs & Hh & Hr & Hf). simpl in *.
  destruct (ring_remove _ _ _ _ _ Hnd Hne Hr) as (a & e & Ha & He & Hna & Hpe & Hk).
  assert (o ∉ q1 ++ q2) as Hno.
  { apply NoDup_app in Hnd as (_ & Hd & Hnd2). apply NoDup_cons in Hnd2 as [Hx _].
    rewrite elem_of_app. intros [Hi|Hi]; [|done]. apply (Hd _ Hi). set_solver. }
  assert (a ∈ q1 ++ q2) as Hain.
  { apply head_elem_of in Ha. set_solver. }
  assert (e ∈ q1 ++ q2) as Hein.
  { apply last_elem_of in He. set_solver. }
  exists a, e. split_and!; try done; try (by intros ->).
  - split.
    + rewrite Hh. destruct q1 as [|x q1]; [done|]. simpl. intros [= ->]. set_solver.
    + intros ->. by rewrite Hh.
  - intros LP' OP' N1 N2 N3 N4 N5 L1 L2 L3. split_and!; simpl.
    + by rewrite L1.
    + rewrite L3. destruct q1 as [|x q1]; simpl.
      * simpl in Ha. by rewrite app_nil_r in Ha.
      * by rewrite Hh.
    + by apply Hk.
    + rewrite L2. apply Forall_forall. intros p Hp.
      assert (p <> o) as Hpo by (by intros ->).
      apply (order_ok_ext OP); [by apply N5|].
      rewrite Forall_forall in Hf. apply Hf. set_solver.
Qed.

Lemma StronglySorted_cons_iff {A} (R : A -> A -> Prop) (l : list A) x :
  StronglySorted R (x :: l) <-> Forall (R x) l /\ StronglySorted R l.
Proof.
  split.
  - intros H. apply StronglySorted_inv in H as [H1 H2]. done.
  - intros [H1 H2]. by constructor.
Qed.

Lemma StronglySorted_app_iff {A} (R : A -> A -> Prop) (l1 l2 : list A) :
  StronglySorted R (l1 ++ l2)
  <-> (forall x1 x2, x1 ∈ l1 -> x2 ∈ l2 -> R x1 x2)
      /\ StronglySorted R l1 /\ StronglySorted R l2.
Proof.
  induction l1 as [|a l1 IH]; simpl.
  - split; [intros H|by intros (_ & _ & H)].
    split_and!; [|constructor|done]. by intros x1 x2 ?%elem_of_nil.
  - rewrite !StronglySorted_cons_iff, IH, Forall_app, !Forall_forall. split.
    + intros ((F1 & F2) & H1 & H2 & H3). split_and!; try done.
      intros x1 x2 [->|Hx1]%elem_of_cons Hx2; [by apply F2|by apply H1].
    + intros (H1 & (F1 & H2) & H3). split_and!; try done.
      * intros x Hx. apply H1; set_solver.
      * intros x1 x2 Hx1 Hx2. apply H1; set_solver.
Qed.

Lemma StronglySorted_remove_middle {A} (R : A -> A -> Prop) (l1 l2 : list A) x :
  StronglySorted R (l1 ++ x :: l2) -> StronglySorted R (l1 ++ l2).
Proof.
  rewrite !StronglySorted_app_iff, StronglySorted_cons_iff. intros (H1 & H2 & H3 & H4).
  split_and!; try done. intros x1 x2 Hx1 Hx2. apply H1; set_solver.
Qed.

Lemma side_ok_nil LP OP s : side_ok LP OP s None [].
Proof. split_and!; try done; constructor. Qed.

Lemma side_ok_remove_level LP OP s hd g1 lv g2 :
  NoDup (level_ptrs (g1 ++ lv :: g2)) -> side_ok LP OP s hd (g1 ++ lv :: g2) ->
  (g1 ++ g2 = [] /\ lnext LP lv.1 = Some lv.1)
  \/ (g1 ++ g2 <> []
      /\ exists a e,
          lnext LP lv.1 = Some a /\ lprev LP lv.1 = Some e /\ a <> lv.1 /\ e <> lv.1
          /\ a ∈ level_ptrs (g1 ++ g2) /\ e ∈ level_ptrs (g1 ++ g2)
          /\ (hd = Some lv.1 <-> g1 = [])
          /\ forall LP' OP',
               lnext LP' e = Some a -> lprev LP' a = Some e ->
               (forall p, p <> e -> p <> lv.1 -> lnext LP' p = lnext LP p) ->
               (forall p, p <> a -> p <> lv.1 -> lprev LP' p = lprev LP p) ->
               (forall p, p <> lv.1 -> ldata LP' p = ldata LP p) ->
               (forall o, o ∈ order_ptrs (g1 ++ g2) -> read OP' o = read OP o) ->
               side_ok LP' OP' s (if decide (g1 = []) then Some a else hd) (g1 ++ g2)).
Proof.
  intros Hnd (Hh & Hr & Hf & Hs).
  rewrite level_ptrs_app, level_ptrs_cons in Hnd, Hh, Hr.
  specialize (Hr ltac:(by destruct g1)).
  destruct (decide (g1 ++ g2 = [])) as [He|Hne].
  - left. split; [done|]. apply app_eq_nil in He as [-> ->]. simpl in Hr.
    by destruct Hr.
  - right. split; [done|].
    assert (level_ptrs g1 ++ level_ptrs g2 <> []) as Hne'.
    { rewrite <- level_ptrs_app. unfold level_ptrs. by destruct (g1 ++ g2). }
    destruct (ring_remove _ _ _ _ _ Hnd Hne' Hr) as (a & e & Ha & He & Hna & Hpe & Hk).
    assert (lv.1 ∉ level_ptrs g1 ++ level_ptrs g2) as Hno.
    { apply NoDup_app in Hnd as (_ & Hd & Hnd2). apply NoDup_cons in Hnd2 as [Hx _].
      rewrite elem_of_app. intros [Hi|Hi]; [|done]. apply (Hd _ Hi). set_solver. }
    assert (a ∈ level_ptrs g1 ++ level_ptrs g2) as Hain.
    { apply head_elem_of in Ha. set_solver. }
    assert (e ∈ level_ptrs g1 ++ level_ptrs g2) as Hein.
    { apply last_elem_of in He. set_solver. }
    exists a, e. rewrite level_ptrs_app. split_and!; try done; try (by intros ->).
    + split.
      * rewrite Hh. destruct g1 as [|x g1]; [done|]. simpl. intros [= Hx].
        exfalso. apply Hno. rewrite <- Hx. set_solver.
      * intros ->. by rewrite Hh.
    + intros LP' OP' N1 N2 N3 N4 N5 N6.
      assert (forall l, l ∈ level_ptrs (g1 ++ g2) -> ldata LP' l = ldata LP l) as Hd.
      { intros l Hl. apply N5. intros ->. by rewrite level_ptrs_app in Hl. }
      split_and!.
      * rewrite level_ptrs_app. destruct g1 as [|x g1]; simpl.
        -- simpl in Ha. by rewrite app_nil_r in Ha.
        -- by rewrite Hh.
      * intros _. rewrite level_ptrs_app. by apply Hk.
      * rewrite Forall_app, Forall_cons in Hf. destruct Hf as (F1 & _ & F2).
        apply (Forall_level_ok_ext LP OP); [done|done|]. by apply Forall_app.
      * rewrite (prices_ext LP LP') by done.
        unfold prices in *. rewrite fmap_app in *. rewrite fmap_cons in Hs.
        by apply StronglySorted_remove_middle in Hs.
Qed.

End BookRemoval.

(** ** The operations of the book on the invariant *)

Section BookOps.
Import Common Run LL Exchange.
Implicit Types (b : OMEOrderBook) (s : Side) (o l : N) (g mine theirs : Levels).

(** What the operations on the lists leave alone: the messages and the
    counter of market order ids. *)
Definition same_messages b b' : Prop :=
  assigned_ticker b' = assigned_ticker b /\ client_response b' = client_response b
  /\ market_update b' = market_update b /\ next_market_oid b' = next_market_oid b
  /\ tx_responses b' = tx_responses b /\ tx_market_updates b' = tx_market_updates b.

Lemma same_messages_refl b : same_messages b b.
Proof. by repeat split. Qed.

Lemma same_messages_trans b1 b2 b3 :
  same_messages b1 b2 -> same_messages b2 b3 -> same_messages b1 b3.
Proof.
  intros (H1 & H2 & H3 & H4 & H5 & H6) (G1 & G2 & G3 & G4 & G5 & G6).
  repeat split; congruence.
Qed.

Lemma NoDup_app_remove_middle {A} (l1 l2 l3 : list A) :
  NoDup (l1 ++ l2 ++ l3) -> NoDup (l1 ++ l3).
Proof.
  rewrite !NoDup_app. intros (H1 & H2 & H3 & H4 & H5). split_and!; try done.
  intros x Hx Hx3. apply (H2 x Hx). set_solver.
Qed.

Lemma elem_of_NoDup_middle {A} (l1 l2 : list A) x :
  NoDup (l1 ++ x :: l2) -> x ∉ l1 ++ l2.
Proof.
  intros Hnd. apply NoDup_app in Hnd as (_ & Hd & Hnd2). apply NoDup_cons in Hnd2 as [Hx _].
  rewrite elem_of_app. intros [Hi|Hi]; [|done]. apply (Hd _ Hi). set_solver.
Qed.

Lemma Permutation_move_middle {A} (l1 q l2 x : list A) :
  (l1 ++ q ++ l2) ++ x ≡ₚ (l1 ++ l2) ++ q ++ x.
Proof.
  rewrite <- !app_assoc. apply Permutation_app_head.
  rewrite (app_assoc q l2 x), (app_assoc l2 q x). apply Permutation_app_tail.
  apply Permutation_app_comm.
Qed.

Lemma order_ptrs_remove_level g1 (lv : N * list N) g2 theirs (xo : list N) :
  order_ptrs ((g1 ++ lv :: g2) ++ theirs) ++ xo
  ≡ₚ order_ptrs ((g1 ++ g2) ++ theirs) ++ lv.2 ++ xo.
Proof.
  rewrite <- !app_assoc, <- app_comm_cons, !order_ptrs_app, order_ptrs_cons, !order_ptrs_app.
  rewrite <- (Permutation_move_middle (order_ptrs g1) lv.2).
  by rewrite <- !app_assoc.
Qed.

Lemma prices_elem_of LP g p :
  p ∈ prices LP g <-> exists lv, lv ∈ g /\ Level.price (read LP lv.1) = p.
Proof.
  unfold prices. rewrite list_elem_of_fmap. split; intros (lv & ? & ?); eauto.
Qed.

(** A level leaves side [s]; its orders stay allocated. *)
Lemma Sided_remove_level b b' s g1 l qs g2 theirs xo :
  Sided b s (g1 ++ (l, qs) :: g2) theirs xo ->
  order_pool b' = order_pool b ->
  map_client_id_to_order b' = map_client_id_to_order b ->
  map_price_to_price_level b'
  = delete (price_to_index (Level.price (level b l))) (map_price_to_price_level b) ->
  side_head b' (opposite s) = side_head b (opposite s) ->
  pool_wf (orders_at_price_pool b') ->
  used (orders_at_price_pool b') = used (orders_at_price_pool b) ∖ {[l]} ->
  (forall p, p <> l -> ldata (orders_at_price_pool b') p = ldata (orders_at_price_pool b) p) ->
  ((g1 ++ g2 = [] /\ side_head b' s = None
    /\ forall p, p <> l -> lnext (orders_at_price_pool b') p = lnext (orders_at_price_pool b) p
                          /\ lprev (orders_at_price_pool b') p
                             = lprev (orders_at_price_pool b) p)
   \/ exists a e,
       lnext (orders_at_price_pool b) l = Some a /\ lprev (orders_at_price_pool b) l = Some e
       /\ a <> l
       /\ side_head b' s = (if decide (g1 = []) then Some a else side_head b s)
       /\ lnext (orders_at_price_pool b') e = Some a
       /\ lprev (orders_at_price_pool b') a = Some e
       /\ (forall p, p <> e -> p <> l ->
             lnext (orders_at_price_pool b') p = lnext (orders_at_price_pool b) p)
       /\ (forall p, p <> a -> p <> l ->
             lprev (orders_at_price_pool b') p = lprev (orders_at_price_pool b) p)) ->
  Sided b' s (g1 ++ g2) theirs (qs ++ xo).
Proof.
  intros [Hm Ht Hnl Hno Hpm Hlp Hop Hcm Hux] EOP Ecm Epm Ehd Hwf' Hus' Hld Hcase.
  unfold level in Epm.
  assert (NoDup (level_ptrs (g1 ++ (l, qs) :: g2))) as Hnd.
  { rewrite level_ptrs_app in Hnl. by apply NoDup_app in Hnl as (? & _ & _). }
  assert (level_ptrs ((g1 ++ (l, qs) :: g2) ++ theirs)
          ≡ₚ l :: level_ptrs ((g1 ++ g2) ++ theirs)) as Hperm.
  { rewrite <- !app_assoc, <- app_comm_cons.
    repeat (rewrite level_ptrs_app || rewrite level_ptrs_cons).
    simpl. symmetry. apply Permutation_middle. }
  assert (l ∉ level_ptrs ((g1 ++ g2) ++ theirs)) as Hlout.
  { rewrite Hperm in Hnl. by apply NoDup_cons in Hnl as [? _]. }
  pose proof (order_ptrs_remove_level g1 (l, qs) g2 theirs xo) as Hoperm. simpl in Hoperm.
  assert (NoDup (level_ptrs ((g1 ++ g2) ++ theirs))) as Hnl'.
  { rewrite Hperm in Hnl. by apply NoDup_cons in Hnl as [_ ?]. }
  assert (forall p, p ∈ level_ptrs ((g1 ++ g2) ++ theirs) -> p <> l) as Hnel.
  { intros p Hp ->. done. }
  assert (forall p, p ∈ level_ptrs theirs -> read (orders_at_price_pool b') p = read (orders_at_price_pool b) p) as Hth.
  { intros p Hp. assert (p <> l) as Hpl.
    { apply Hnel. rewrite level_ptrs_app. apply elem_of_app. by right. }
    destruct Hcase as [(_ & _ & Hsame)|(a & e & Hna & Hpe & Hal & _ & _ & _ & N3 & N4)].
    - apply read_level_eq; [apply Hsame|apply Hsame|apply Hld]; done.
    - destruct (side_ok_remove_level _ _ _ _ _ _ _ Hnd Hm)
        as [[Hnil Hself]|(Hne & a' & e' & Hna' & Hpe' & _ & _ & Hain & Hein & _)];
        cbn [fst snd] in *; [congruence|].
      assert (a' = a) as -> by congruence. assert (e' = e) as -> by congruence.
      assert (p ∉ level_ptrs (g1 ++ g2)) as Hpn.
      { intros Hin. rewrite level_ptrs_app in Hnl'.
        apply NoDup_app in Hnl' as (_ & Hd & _). by apply (Hd p). }
      apply read_level_eq; [apply N3|apply N4|apply Hld]; try done; by intros ->. }
  split.
  - destruct (side_ok_remove_level _ _ _ _ _ _ _ Hnd Hm)
      as [[Hnil Hself]|(Hne & a & e & Hna & Hpe & Hal & Hel & Hain & Hein & Hhd & Hk)];
      cbn [fst snd] in *.
    + destruct Hcase as [(_ & Hnone & Hsame)|(a & e & Hna & _ & Hal & _)]; [|congruence].
      rewrite Hnil, Hnone. apply side_ok_nil.
    + destruct Hcase as [(? & _)|(a' & e' & Hna' & Hpe' & _ & -> & N1 & N2 & N3 & N4)];
        [done|].
      assert (a' = a) as -> by congruence. assert (e' = e) as -> by congruence.
      rewrite EOP. by apply Hk.
  - rewrite EOP, Ehd. revert Ht. by apply side_ok_ext.
  - done.
  - by rewrite <- Hoperm.
  - intros idx l'. rewrite Epm, lookup_delete_Some, Hpm. split.
    + intros (Hi & Hl' & Hidx). rewrite Hperm in Hl'. apply elem_of_cons in Hl' as [->|Hl'].
      * done.
      * split; [done|]. rewrite <- Hidx.
        f_equal. exact (f_equal Level.price (Hld _ (Hnel _ Hl'))).
    + intros (Hl' & Hidx).
      assert (Level.price (read (orders_at_price_pool b') l') = Level.price (read (orders_at_price_pool b) l')) as Hp.
      { exact (f_equal Level.price (Hld _ (Hnel _ Hl'))). }
      rewrite Hp in Hidx. split_and!.
      * intros Hi. rewrite <- Hi in Hidx.
        assert (map_price_to_price_level b !! price_to_index (Level.price (read (orders_at_price_pool b) l))
                = Some l') as H1.
        { apply Hpm. split; [|done]. rewrite Hperm. apply elem_of_cons. by right. }
        assert (map_price_to_price_level b !! price_to_index (Level.price (read (orders_at_price_pool b) l))
                = Some l) as H2.
        { apply Hpm. split; [|done]. rewrite Hperm. apply elem_of_cons. by left. }
        apply (Hnel _ Hl'). congruence.
      * rewrite Hperm. apply elem_of_cons. by right.
      * done.
  - split; [done|]. rewrite Hus'. destruct Hlp as [_ ->]. apply set_eq. intros x.
    rewrite elem_of_difference, !elem_of_list_to_set, Hperm, elem_of_cons.
    rewrite elem_of_singleton. split; [intros [[?|?] ?]; done|]. intros Hx.
    split; [by right|]. by apply Hnel.
  - rewrite EOP. destruct Hop as [? ->]. split; [done|]. apply set_eq. intros x.
    by rewrite !elem_of_list_to_set, Hoperm.
  - intros c oid o. rewrite Ecm, EOP, <- Hoperm. apply Hcm.
  - intros p q Hp Hq. apply Hux.
    + apply prices_elem_of in Hp as (lv & Hlv & <-). apply prices_elem_of.
      exists lv. split; [rewrite elem_of_app in Hlv; rewrite elem_of_app, elem_of_cons; tauto|].
      symmetry. refine (f_equal Level.price (Hld _ _)). apply Hnel.
      rewrite level_ptrs_app. apply elem_of_app. left. apply elem_of_level_ptrs. eauto.
    + apply prices_elem_of in Hq as (lv & Hlv & <-). apply prices_elem_of.
      exists lv. split; [done|]. rewrite Hth; [done|]. apply elem_of_level_ptrs. eauto.
Qed.

End BookOps.

Section BookOps2.
Import Common Run LL Exchange.
Implicit Types (b : OMEOrderBook) (s : Side) (o l : N) (g mine theirs : Levels).

Lemma remove_price_level_spec E b s g1 l qs g2 theirs xo price :
  Sided b s (g1 ++ (l, qs) :: g2) theirs xo ->
  price = Level.price (level b l) ->
  wpx E (remove_price_level b s price) (fun b' =>
    Sided b' s (g1 ++ g2) theirs (qs ++ xo)
    /\ order_pool b' = order_pool b
    /\ map_client_id_to_order b' = map_client_id_to_order b
    /\ (forall p, Level.price (level b' p) = Level.price (level b p))
    /\ same_messages b b').
Proof.
  intros HS ->. pose proof HS as [Hm Ht Hnl Hno Hpm Hlp Hop Hcm Hux].
  assert (l ∈ level_ptrs ((g1 ++ (l, qs) :: g2) ++ theirs)) as Hl.
  { rewrite !level_ptrs_app, level_ptrs_cons. simpl. rewrite !elem_of_app, elem_of_cons. tauto. }
  pose proof (proj2 (Hpm _ l) (conj Hl eq_refl)) as Hpl.
  assert (NoDup (level_ptrs (g1 ++ (l, qs) :: g2))) as Hnd.
  { rewrite level_ptrs_app in Hnl. by apply NoDup_app in Hnl as (? & _ & _). }
  destruct Hlp as [Hwf Hused].
  assert (busy (orders_at_price_pool b) l) as Hbusy.
  { apply elem_of_used. rewrite Hused. by apply elem_of_list_to_set. }
  pose proof (side_ok_remove_level _ _ _ _ _ _ _ Hnd Hm) as Hcase.
  cbn [fst snd] in Hcase.
  clear Hm Ht Hnl Hno Hpm Hop Hcm Hux Hused Hl.
  revert HS Hpl Hwf Hbusy Hcase.
  destruct b as [t cm LP bids asks pm OP cr mu noid txr txu].
  intros HS Hpl Hwf Hbusy Hcase. book_simpl.
  cbv beta delta [remove_price_level]. wpx_let. book_simpl. wpx_deref Hpl.
  wpx_bind.
  destruct Hcase
    as [[Hnil Hself]|(Hne & a & e & Hna & Hpe & Hal & Hel & Hain & Hein & Hhd & Hk)].
  - rewrite_view Hself. wpx_true.
    wpx_ret. wpx_let. book_simpl.
    destruct (deallocate_spec LP l Hwf) as [(_ & LP' & Hde & Hwf' & Hnb' & _ & Hst' & Hus')|[? _]];
      [|done].
    rewrite Hde. book_simpl. split; [|split_and!; try done].
    + eapply (Sided_remove_level _ _ _ _ _ _ _ _ _ HS); book_simpl; try done.
      * side_cases.
      * intros p _. by eapply ldata_deallocated.
      * left. split_and!; try done; [side_cases|]. intros p _.
        split; [by eapply lnext_deallocated|by eapply lprev_deallocated].
    + intros p. exact (f_equal Level.price (ldata_deallocated _ _ _ p Hst')).
  - rewrite_view Hna. wpx_false. wpx_deref Hpe. wpx_let as LP1. book_simpl.
    assert (lnext LP1 l = Some a) as Hna1 by (subst LP1; by pool_views).
    wpx_deref Hna1. wpx_let as LP2. book_simpl.
    assert (lnext LP2 l = Some a) as Hna2 by (subst LP2 LP1; by pool_views).
    rewrite_view Hna2.
    set (B := mkBook t cm LP bids asks pm OP cr mu noid txr txu) in Hhd |- *.
    destruct (decide (g1 = [])) as [Hg|Hg];
      [rewrite (proj2 Hhd Hg); wpx_true
      |assert (Some l <> side_head B s) as Hnb by (intros Heq; by apply Hg, Hhd); wpx_false].
    all: subst B.
    all: wpx_let; wpx_let as LP3; wpx_ret as LP4; wpx_let; book_simpl.
    all: assert (pool_wf LP4) as Hwf4 by (subst LP4 LP3 LP2 LP1; by repeat apply pool_wf_write).
    all: assert (busy LP4 l) as Hbusy4
      by (subst LP4 LP3 LP2 LP1; by rewrite !busy_write).
    all: destruct (deallocate_spec LP4 l Hwf4)
      as [(_ & LP' & Hde & Hwf' & Hnb' & _ & Hst' & Hus')|[? _]]; [|done].
    all: rewrite Hde; book_simpl.
    all: assert (forall p, ldata LP' p = ldata LP p) as Hld
      by (intros p; rewrite (ldata_deallocated _ _ _ p Hst'); subst LP4 LP3 LP2 LP1;
          by pool_views).
    all: split; [|split_and!; try done; intros p; exact (f_equal Level.price (Hld p))].
    all: eapply (Sided_remove_level _ _ _ _ _ _ _ _ _ HS); book_simpl; try done.
    all: try (subst LP4 LP3 LP2 LP1; by rewrite Hus', !used_write).
    all: try (by side_cases).
    all: right; exists a, e; split_and!; try done.
    all: try (by side_cases).
    all: intros; rewrite ?(lnext_deallocated _ _ _ _ Hst'), ?(lprev_deallocated _ _ _ _ Hst');
      subst LP4 LP3 LP2 LP1; pool_views; try done.
Qed.

End BookOps2.

Section BookOps3.
Import Common Run LL Exchange.
Implicit Types (b : OMEOrderBook) (s : Side) (o l : N) (g mine theirs : Levels).

Lemma side_ok_level_ok LP OP s hd g lv : side_ok LP OP s hd g -> lv ∈ g -> level_ok LP OP s lv.
Proof. intros (_ & _ & Hf & _) Hin. rewrite Forall_forall in Hf. by apply Hf. Qed.

(** An order leaves its level, which keeps other orders; the order stays
    allocated. *)
Lemma Sided_unlink b b' s g1 l q1 o q2 g2 theirs xo a e :
  Sided b s (g1 ++ (l, q1 ++ o :: q2) :: g2) theirs xo ->
  q1 ++ q2 <> [] ->
  onext (order_pool b) o = Some a -> oprev (order_pool b) o = Some e ->
  bids_by_price b' = bids_by_price b -> asks_by_price b' = asks_by_price b ->
  map_price_to_price_level b' = map_price_to_price_level b ->
  map_client_id_to_order b' = map_client_id_to_order b ->
  pool_wf (orders_at_price_pool b') ->
  used (orders_at_price_pool b') = used (orders_at_price_pool b) ->
  pool_wf (order_pool b') ->
  used (order_pool b') = used (order_pool b) ->
  (forall p, lnext (orders_at_price_pool b') p = lnext (orders_at_price_pool b) p) ->
  (forall p, lprev (orders_at_price_pool b') p = lprev (orders_at_price_pool b) p) ->
  (forall p, ldata (orders_at_price_pool b') p
             = if decide (p = l /\ q1 = [])
               then Level.with_order_0 (ldata (orders_at_price_pool b) p) (Some a)
               else ldata (orders_at_price_pool b) p) ->
  onext (order_pool b') e = Some a -> oprev (order_pool b') a = Some e ->
  (forall p, p <> e -> p <> o -> onext (order_pool b') p = onext (order_pool b) p) ->
  (forall p, p <> a -> p <> o -> oprev (order_pool b') p = oprev (order_pool b) p) ->
  (forall p, odata (order_pool b') p = odata (order_pool b) p) ->
  Sided b' s (g1 ++ (l, q1 ++ q2) :: g2) theirs (o :: xo).
Proof.
  intros [Hm Ht Hnl Hno Hpm Hlp Hop Hcm Hux] Hne Hna Hpe Eb Ea Epm Ecm Hwf Hus Hwfo Huso
    Hln Hlpv Hld N1 N2 N3 N4 Hod.
  assert (side_head b' s = side_head b s) as Ehs by (unfold side_head; by rewrite Eb, Ea).
  assert (side_head b' (opposite s) = side_head b (opposite s)) as Eho
    by (unfold side_head; by rewrite Eb, Ea).
  assert (level_ptrs ((g1 ++ (l, q1 ++ q2) :: g2) ++ theirs)
          = level_ptrs ((g1 ++ (l, q1 ++ o :: q2) :: g2) ++ theirs)) as Elp.
  { by rewrite !level_ptrs_app, !level_ptrs_cons. }
  assert (order_ptrs ((g1 ++ (l, q1 ++ o :: q2) :: g2) ++ theirs) ++ xo
          ≡ₚ order_ptrs ((g1 ++ (l, q1 ++ q2) :: g2) ++ theirs) ++ o :: xo) as Eop.
  { repeat (rewrite order_ptrs_app || rewrite order_ptrs_cons). cbn [fst snd].
    rewrite <- !app_assoc. do 2 apply Permutation_app_head.
    rewrite <- app_comm_cons.
    rewrite (app_assoc q2 (order_ptrs g2)), (app_assoc (q2 ++ order_ptrs g2)).
    rewrite (app_assoc q2 (order_ptrs g2) (_ ++ o :: xo)).
    rewrite (app_assoc (q2 ++ order_ptrs g2) (order_ptrs theirs) (o :: xo)).
    apply Permutation_middle. }
  assert (forall p, Level.price (read (orders_at_price_pool b') p)
                    = Level.price (read (orders_at_price_pool b) p)) as Hpr.
  { intros p. pose proof (f_equal Level.price (Hld p)) as H. by case_decide. }
  assert (forall g, prices (orders_at_price_pool b') g = prices (orders_at_price_pool b) g)
    as Hprs.
  { intros g. unfold prices. apply Forall_fmap_ext_1, Forall_forall. intros lv _. apply Hpr. }
  assert (NoDup (q1 ++ o :: q2)) as Hndq.
  { apply NoDup_app in Hno as (Hno & _ & _).
    rewrite !order_ptrs_app, order_ptrs_cons in Hno. cbn [fst snd] in Hno.
    apply NoDup_app in Hno as (Hno & _ & _). apply NoDup_app in Hno as (_ & _ & Hno).
    by apply NoDup_app in Hno as (Hno & _ & _). }
  assert (level_ok (orders_at_price_pool b) (order_pool b) s (l, q1 ++ o :: q2)) as Hlv.
  { eapply side_ok_level_ok; [exact Hm|]. rewrite elem_of_app, elem_of_cons. tauto. }
  destruct (level_ok_remove _ _ _ _ _ _ _ Hndq Hne Hlv)
    as (a' & e' & Hna' & Hpe' & Hao & Heo & Hain & Hein & Hhd & Hk).
  assert (a' = a) as -> by congruence. assert (e' = e) as -> by congruence.
  (* orders outside of the level are as they were *)
  assert (forall p, p ∈ order_ptrs ((g1 ++ g2) ++ theirs) ->
                    read (order_pool b') p = read (order_pool b) p) as Hrd.
  { intros p Hp.
    assert (p ∉ q1 ++ o :: q2) as Hpq.
    { intros Hin. rewrite order_ptrs_remove_level in Hno. cbn [fst snd] in Hno.
      apply NoDup_app in Hno as (_ & Hd & _). apply (Hd p Hp).
      rewrite elem_of_app. by left. }
    assert (p <> o) by (intros ->; apply Hpq; rewrite elem_of_app, elem_of_cons; tauto).
    assert (p <> a).
    { intros ->. apply Hpq. rewrite elem_of_app in Hain.
      rewrite elem_of_app, elem_of_cons. tauto. }
    assert (p <> e).
    { intros ->. apply Hpq. rewrite elem_of_app in Hein.
      rewrite elem_of_app, elem_of_cons. tauto. }
    apply read_order_eq; auto. }
  assert (forall lv, lv ∈ g1 ++ g2 ++ theirs -> lv.1 <> l) as Hnel.
  { intros lv Hin Heq. rewrite <- app_assoc, <- app_comm_cons in Hnl.
    rewrite level_ptrs_app, level_ptrs_cons in Hnl. apply elem_of_NoDup_middle in Hnl.
    apply Hnl. rewrite <- level_ptrs_app. apply elem_of_level_ptrs. by exists lv. }
  assert (forall s' lv, lv ∈ g1 ++ g2 ++ theirs ->
            level_ok (orders_at_price_pool b) (order_pool b) s' lv ->
            level_ok (orders_at_price_pool b') (order_pool b') s' lv) as Hlvs.
  { intros s' lv Hin. apply level_ok_ext.
    - rewrite Hld, decide_False; [done|]. intros [? _]. by apply (Hnel lv).
    - intros p Hp. apply Hrd. rewrite app_assoc in Hin. apply elem_of_order_ptrs. eauto. }
  split.
  - destruct Hm as (M1 & M2 & M3 & M4). split_and!.
    + rewrite Ehs, M1. by rewrite !level_ptrs_app, !level_ptrs_cons.
    + intros _.
      assert (g1 ++ (l, q1 ++ o :: q2) :: g2 <> []) as Hne3 by (by destruct g1).
      specialize (M2 Hne3).
      rewrite level_ptrs_app, level_ptrs_cons in M2 |- *. cbn [fst] in *.
      revert M2. apply ring_ext; intros p _; [apply Hln|apply Hlpv].
    + rewrite Forall_app, Forall_cons in M3 |- *. destruct M3 as (F1 & F2 & F3).
      split_and!.
      * rewrite Forall_forall in F1 |- *. intros lv Hin. apply Hlvs; [|by apply F1].
        rewrite elem_of_app. tauto.
      * apply Hk; try done.
        -- pose proof (f_equal Level.side (Hld l)) as H. by case_decide.
        -- pose proof (f_equal Level.order_0 (Hld l)) as H. cbn in H.
           destruct (decide (q1 = [])); [rewrite decide_True in H by done
                                        |rewrite decide_False in H by tauto]; done.
      * rewrite Forall_forall in F3 |- *. intros lv Hin. apply Hlvs; [|by apply F3].
        rewrite !elem_of_app. tauto.
    + rewrite Hprs. unfold prices in *. by rewrite fmap_app, fmap_cons in M4 |- *.
  - rewrite Eho. destruct Ht as (M1 & M2 & M3 & M4). split_and!; try done.
    + intros Hg. specialize (M2 Hg). revert M2.
      apply ring_ext; intros p _; [apply Hln|apply Hlpv].
    + rewrite Forall_forall in M3 |- *. intros lv Hin. apply Hlvs; [|by apply M3].
      rewrite !elem_of_app. tauto.
    + by rewrite Hprs.
  - by rewrite Elp.
  - by rewrite <- Eop.
  - intros idx l'. rewrite Epm, Hpm, Elp, Hpr. done.
  - split; [done|]. rewrite Hus, Elp. by destruct Hlp.
  - split; [done|]. rewrite Huso. destruct Hop as [_ ->]. apply set_eq. intros x.
    by rewrite !elem_of_list_to_set, Eop.
  - intros c oid o'. rewrite Ecm. intros Hc. destruct (Hcm c oid o' Hc) as (H1 & H2 & H3).
    rewrite <- Eop. split; [done|].
    pose proof (f_equal Order.client_id (Hod o')) as E1.
    pose proof (f_equal Order.client_order_id (Hod o')) as E2. cbn in E1, E2.
    by rewrite E1, E2.
  - intros p q. rewrite !Hprs. intros Hp Hq. apply Hux; [|done].
    unfold prices in *. by rewrite fmap_app, fmap_cons in Hp |- *.
Qed.

(** The order taken out is dropped from the client table and its block is
    freed. *)
Lemma Sided_release b b' s mine theirs o xo :
  Sided b s mine theirs (o :: xo) ->
  orders_at_price_pool b' = orders_at_price_pool b ->
  bids_by_price b' = bids_by_price b -> asks_by_price b' = asks_by_price b ->
  map_price_to_price_level b' = map_price_to_price_level b ->
  map_client_id_to_order b'
  = delete (Order.client_id (order b o), Order.client_order_id (order b o))
           (map_client_id_to_order b) ->
  pool_wf (order_pool b') ->
  used (order_pool b') = used (order_pool b) ∖ {[o]} ->
  (forall p, read (order_pool b') p = read (order_pool b) p) ->
  Sided b' s mine theirs xo.
Proof.
  intros [Hm Ht Hnl Hno Hpm Hlp Hop Hcm Hux] ELP Eb Ea Epm Ecm Hwf Hus Hrd.
  assert (side_head b' s = side_head b s) as Ehs by (unfold side_head; by rewrite Eb, Ea).
  assert (side_head b' (opposite s) = side_head b (opposite s)) as Eho
    by (unfold side_head; by rewrite Eb, Ea).
  assert (o ∉ order_ptrs (mine ++ theirs) ++ xo) as Hout.
  { by apply elem_of_NoDup_middle in Hno. }
  split; rewrite ?ELP, ?Ehs, ?Eho, ?Epm; try done.
  - revert Hm. by apply side_ok_ext.
  - revert Ht. by apply side_ok_ext.
  - by apply NoDup_app_remove_middle with (l2 := [o]) in Hno.
  - split; [done|]. rewrite Hus. destruct Hop as [_ ->]. apply set_eq. intros x.
    rewrite elem_of_difference, !elem_of_list_to_set, elem_of_singleton.
    rewrite !elem_of_app, elem_of_cons. rewrite elem_of_app in Hout.
    split; [tauto|]. intros Hx. split; [tauto|]. intros ->. tauto.
  - intros c oid o'. rewrite Ecm, lookup_delete_Some. intros [Hk Hc].
    destruct (Hcm c oid o' Hc) as (H1 & H2 & H3). rewrite !Hrd. split_and!; try done.
    rewrite elem_of_app, elem_of_cons in H1. rewrite elem_of_app.
    destruct H1 as [?|[->|?]]; [tauto| |tauto].
    exfalso. apply Hk. unfold order. by rewrite H2, H3.
Qed.

End BookOps3.

Section BookOps4.
Import Common Run LL Exchange.
Implicit Types (b : OMEOrderBook) (s : Side) (o l : N) (g mine theirs : Levels).

(** The end of [remove_order_from_book]. *)
Lemma release_order_spec E b s mine theirs o xo :
  Sided b s mine theirs (o :: xo) ->
  client_order_in_range (Order.client_id (order b o)) (Order.client_order_id (order b o))
  = true ->
  wpx E (b1 ← set_client_order_at b (Order.client_id (order b o))
                                  (Order.client_order_id (order b o)) None;
         pool ← deallocate (order_pool b1) o;
         Ok (set_order_pool b1 pool))
      (fun b' =>
         Sided b' s mine theirs xo
         /\ (forall p, read (order_pool b') p = read (order_pool b) p)
         /\ orders_at_price_pool b' = orders_at_price_pool b
         /\ map_client_id_to_order b'
            = delete (Order.client_id (order b o), Order.client_order_id (order b o))
                     (map_client_id_to_order b)
         /\ same_messages b b').
Proof.
  intros HS Hr. pose proof (sd_order_pool _ _ _ _ _ HS) as [Hwf Hus].
  assert (busy (order_pool b) o) as Hbusy.
  { apply elem_of_used. rewrite Hus. apply elem_of_list_to_set.
    rewrite elem_of_app, elem_of_cons. tauto. }
  revert HS Hr Hwf Hbusy. clear Hus.
  destruct b as [t cm LP bids asks pm OP cr mu noid txr txu]. intros HS Hr Hwf Hbusy.
  book_simpl. unfold set_client_order_at. rewrite Hr. book_simpl.
  destruct (deallocate_spec OP o Hwf) as [(_ & OP' & Hde & Hwf' & Hnb' & _ & Hst' & Hus')|[? _]];
    [|done].
  rewrite Hde. book_simpl.
  assert (forall p, read OP' p = read OP p) as Hrd.
  { intros p. by eapply read_deallocated. }
  split_and!; try done.
  eapply (Sided_release _ _ _ _ _ _ _ HS); book_simpl; done.
Qed.

Definition drop_empty (lv : N * list N) (g : Levels) : Levels :=
  match lv.2 with
  | [] => g
  | _ => lv :: g
  end.

Lemma drop_empty_cons (lv : N * list N) g : lv.2 <> [] -> drop_empty lv g = lv :: g.
Proof. unfold drop_empty. by destruct lv.2. Qed.

Lemma drop_empty_nil l g : drop_empty (l, []) g = g.
Proof. done. Qed.

Lemma odata_eq_fields OP OP' p :
  odata OP' p = odata OP p ->
  Order.client_id (read OP' p) = Order.client_id (read OP p)
  /\ Order.client_order_id (read OP' p) = Order.client_order_id (read OP p)
  /\ Order.market_order_id (read OP' p) = Order.market_order_id (read OP p)
  /\ Order.side (read OP' p) = Order.side (read OP p)
  /\ Order.price (read OP' p) = Order.price (read OP p)
  /\ Order.qty (read OP' p) = Order.qty (read OP p)
  /\ Order.priority (read OP' p) = Order.priority (read OP p)
  /\ Order.ticker_id (read OP' p) = Order.ticker_id (read OP p).
Proof.
  intros H. split_and!.
  - exact (f_equal Order.client_id H).
  - exact (f_equal Order.client_order_id H).
  - exact (f_equal Order.market_order_id H).
  - exact (f_equal Order.side H).
  - exact (f_equal Order.price H).
  - exact (f_equal Order.qty H).
  - exact (f_equal Order.priority H).
  - exact (f_equal Order.ticker_id H).
Qed.

Lemma odata_read_eq OP OP' p :
  read OP' p = read OP p -> odata OP' p = odata OP p.
Proof. unfold odata. by intros ->. Qed.

(** [remove_order_from_book] of an order of side [s]. *)
Lemma remove_order_from_book_spec E b s g1 l q1 o q2 g2 theirs xo :
  Sided b s (g1 ++ (l, q1 ++ o :: q2) :: g2) theirs xo ->
  wpx E (remove_order_from_book b o) (fun b' =>
    Sided b' s (g1 ++ drop_empty (l, q1 ++ q2) g2) theirs xo
    /\ (forall p, odata (order_pool b') p = odata (order_pool b) p)
    /\ (forall p, Level.price (level b' p) = Level.price (level b p))
    /\ map_client_id_to_order b'
       = delete (Order.client_id (order b o), Order.client_order_id (order b o))
                (map_client_id_to_order b)
    /\ same_messages b b').
Proof.
  intros HS. pose proof HS as [Hm Ht Hnl Hno Hpm Hlp Hop Hcm Hux].
  assert (level_ok (orders_at_price_pool b) (order_pool b) s (l, q1 ++ o :: q2)) as Hlv.
  { eapply side_ok_level_ok; [exact Hm|]. rewrite elem_of_app, elem_of_cons. tauto. }
  pose proof Hlv as (Hls & Hlh & Hlr & Hlf). cbn [fst snd] in *.
  assert (order_ok (order_pool b) s (Level.price (read (orders_at_price_pool b) l)) o)
    as (Hos & Hop' & Hoq & Hor).
  { rewrite Forall_forall in Hlf. apply Hlf. rewrite elem_of_app, elem_of_cons. tauto. }
  assert (l ∈ level_ptrs ((g1 ++ (l, q1 ++ o :: q2) :: g2) ++ theirs)) as Hl.
  { rewrite !level_ptrs_app, level_ptrs_cons. simpl. rewrite !elem_of_app, elem_of_cons. tauto. }
  pose proof (proj2 (Hpm _ l) (conj Hl eq_refl)) as Hpl. rewrite <- Hop' in Hpl.
  assert (NoDup (q1 ++ o :: q2)) as Hndq.
  { apply NoDup_app in Hno as (Hno & _ & _).
    rewrite !order_ptrs_app, order_ptrs_cons in Hno. cbn [fst snd] in Hno.
    apply NoDup_app in Hno as (Hno & _ & _). apply NoDup_app in Hno as (_ & _ & Hno).
    by apply NoDup_app in Hno as (Hno & _ & _). }
  destruct Hlp as [Hwfl _]. destruct Hop as [Hwfo _].
  clear Hm Ht Hnl Hno Hpm Hcm Hux Hl.
  revert HS Hlv Hls Hlh Hlr Hlf Hos Hop' Hoq Hor Hpl Hwfl Hwfo.
  destruct b as [t cm LP bids asks pm OP cr mu noid txr txu].
  intros HS Hlv Hls Hlh Hlr Hlf Hos Hop' Hoq Hor Hpl Hwfl Hwfo. book_simpl.
  cbv beta delta [remove_order_from_book]. wpx_let. wpx_bind. book_simpl.
  destruct (decide (q1 ++ q2 = [])) as [Hnil|Hne].
  - (* the only order of its level *)
    apply app_eq_nil in Hnil as [-> ->]. cbn [app] in *.
    apply ring_singleton in Hlr as [Hn Hp]. rewrite_view Hp. wpx_true.
    rewrite Hos, Hop'.
    eapply wpx_mono; [eapply (remove_price_level_spec E _ s g1 l [o] g2 theirs xo);
                      [exact HS|done]|done|].
    intros b1 (HS1 & EOP & Ecm & Hpr & Hmsg). cbv beta. book_simpl.
    eapply wpx_mono; [eapply (release_order_spec E b1 s (g1 ++ g2) theirs o xo);
                      [exact HS1|unfold order; by rewrite EOP]|done|].
    intros b2 (HS2 & Hrd & ELP & Ecm2 & Hmsg2). cbv beta.
    split_and!.
    + exact HS2.
    + intros p. rewrite <- EOP. by apply odata_read_eq.
    + intros p. rewrite ELP. apply Hpr.
    + rewrite Ecm2, Ecm. unfold order. by rewrite EOP.
    + by eapply same_messages_trans.
  - (* other orders stay at the level *)
    destruct (level_ok_remove _ _ _ _ _ _ _ Hndq Hne Hlv)
      as (a & e & Hna & Hpe & Hao & Heo & Hain & Hein & Hhd & Hk).
    rewrite_view Hpe. rewrite_view Hna. wpx_false.
    wpx_let. wpx_let. book_simpl. wpx_let as OP1. book_simpl. wpx_let as OP2.
    wpx_deref Hpl. book_simpl.
    destruct (decide (q1 = [])) as [Hq1|Hq1];
      [rewrite (proj2 Hhd Hq1); wpx_true
      |assert (Level.order_0 (read LP l) <> Some o) as Hno0 by (by rewrite Hhd); wpx_false].
    all: wpx_let as LP1; wpx_let as OP3; wpx_ret as OP4.
    all: assert (forall p, odata OP4 p = odata OP p) as Hod4
      by (intros p; subst OP4 OP3 OP2 OP1; by pool_views).
    all: eapply wpx_mono;
      [eapply (release_order_spec E _ s (g1 ++ (l, q1 ++ q2) :: g2) theirs o xo)|done|].
    1,4: eapply (Sided_unlink _ _ _ _ _ _ _ _ _ _ _ a e HS); book_simpl; try done.
    all: try (by (try subst LP1); repeat apply pool_wf_write).
    all: try (by (try subst LP1); subst OP4 OP3 OP2 OP1; rewrite ?used_write).
    all: try (by intros; try subst LP1; subst OP4 OP3 OP2 OP1; pool_views).
    1: { intros p. subst LP1. rewrite ldata_with_order_0.
         destruct (decide (l = p)) as [->|];
           [rewrite decide_True by done|rewrite decide_False by (intros [? _]; congruence)];
           done. }
    1: { intros p. by rewrite decide_False by (by intros [_ ?]). }
    all: destruct (odata_eq_fields _ _ _ (Hod4 o)) as (E1 & E2 & _).
    1,3: book_simpl; by rewrite E1, E2.
    all: intros b2 (HS2 & Hrd & ELP & Ecm2 & Hmsg2); book_simpl.
    all: rewrite drop_empty_cons by done.
    all: split_and!; try done.
    all: try (intros p; rewrite (odata_read_eq _ _ _ (Hrd p)); apply Hod4).
    all: try (by rewrite Ecm2, E1, E2).
    all: intros p; rewrite ELP; try done; subst LP1;
      change (Level.price (ldata (write LP l (Level.with_order_0 (read LP l) (Some a))) p)
              = Level.price (ldata LP p)); pool_views; by case_decide.
Qed.

End BookOps4.

Section BookOps5.
Import Common Run LL Exchange.
Implicit Types (b : OMEOrderBook) (s : Side) (o l : N) (g mine theirs : Levels).

(** A block of the order pool is taken for a new order. *)
Lemma Sided_allocate b b' s mine theirs xo o :
  Sided b s mine theirs xo ->
  orders_at_price_pool b' = orders_at_price_pool b ->
  bids_by_price b' = bids_by_price b -> asks_by_price b' = asks_by_price b ->
  map_price_to_price_level b' = map_price_to_price_level b ->
  map_client_id_to_order b' = map_client_id_to_order b ->
  pool_wf (order_pool b') ->
  o ∉ used (order_pool b) ->
  used (order_pool b') = used (order_pool b) ∪ {[o]} ->
  (forall p, p <> o -> read (order_pool b') p = read (order_pool b) p) ->
  Sided b' s mine theirs (o :: xo).
Proof.
  intros [Hm Ht Hnl Hno Hpm Hlp Hop Hcm Hux] ELP Eb Ea Epm Ecm Hwf Hfresh Hus Hrd.
  assert (side_head b' s = side_head b s) as Ehs by (unfold side_head; by rewrite Eb, Ea).
  assert (side_head b' (opposite s) = side_head b (opposite s)) as Eho
    by (unfold side_head; by rewrite Eb, Ea).
  destruct Hop as [Hwfo Huo].
  assert (o ∉ order_ptrs (mine ++ theirs) ++ xo) as Hout.
  { intros Hin. apply Hfresh. rewrite Huo. by apply elem_of_list_to_set. }
  assert (forall p, p ∈ order_ptrs (mine ++ theirs) ++ xo -> read (order_pool b') p
                                                             = read (order_pool b) p) as Hrd'.
  { intros p Hp. apply Hrd. by intros ->. }
  split; rewrite ?ELP, ?Ehs, ?Eho, ?Epm, ?Ecm; try done.
  - revert Hm. apply side_ok_ext; [done|]. intros p Hp. apply Hrd'.
    rewrite order_ptrs_app, !elem_of_app. tauto.
  - revert Ht. apply side_ok_ext; [done|]. intros p Hp. apply Hrd'.
    rewrite order_ptrs_app, !elem_of_app. tauto.
  - rewrite <- Permutation_middle. by apply NoDup_cons.
  - split; [done|]. rewrite Hus, Huo. apply set_eq. intros x.
    rewrite elem_of_union, !elem_of_list_to_set, elem_of_singleton.
    rewrite !elem_of_app, elem_of_cons. tauto.
  - intros c oid o' Hc. destruct (Hcm c oid o' Hc) as (H1 & H2 & H3).
    rewrite (Hrd' _ H1). split; [|done].
    rewrite elem_of_app, elem_of_cons. rewrite elem_of_app in H1. tauto.
Qed.

(** The new order is entered in the client table. *)
Lemma Sided_register b b' s mine theirs xo o :
  Sided b s mine theirs xo ->
  o ∈ order_ptrs (mine ++ theirs) ->
  orders_at_price_pool b' = orders_at_price_pool b ->
  order_pool b' = order_pool b ->
  bids_by_price b' = bids_by_price b -> asks_by_price b' = asks_by_price b ->
  map_price_to_price_level b' = map_price_to_price_level b ->
  map_client_id_to_order b'
  = <[(Order.client_id (order b o), Order.client_order_id (order b o)) := o]>
      (map_client_id_to_order b) ->
  Sided b' s mine theirs xo.
Proof.
  intros [Hm Ht Hnl Hno Hpm Hlp Hop Hcm Hux] Hin ELP EOP Eb Ea Epm Ecm.
  assert (side_head b' s = side_head b s) as Ehs by (unfold side_head; by rewrite Eb, Ea).
  assert (side_head b' (opposite s) = side_head b (opposite s)) as Eho
    by (unfold side_head; by rewrite Eb, Ea).
  split; rewrite ?ELP, ?EOP, ?Ehs, ?Eho, ?Epm; try done.
  intros c oid o'. rewrite Ecm. intros Hc. apply lookup_insert_Some in Hc as [[Hk <-]|[Hk Hc]].
  - injection Hk as <- <-. split_and!; try done. rewrite elem_of_app. by left.
  - by apply Hcm.
Qed.

(** The order in [xo] joins the queue of a level of side [s]. *)
Lemma Sided_append b b' s g1 l q g2 theirs o xo :
  Sided b s (g1 ++ (l, q) :: g2) theirs (o :: xo) ->
  orders_at_price_pool b' = orders_at_price_pool b ->
  bids_by_price b' = bids_by_price b -> asks_by_price b' = asks_by_price b ->
  map_price_to_price_level b' = map_price_to_price_level b ->
  map_client_id_to_order b' = map_client_id_to_order b ->
  pool_wf (order_pool b') ->
  used (order_pool b') = used (order_pool b) ->
  (forall p, odata (order_pool b') p = odata (order_pool b) p) ->
  order_ok (order_pool b) s (Level.price (level b l)) o ->
  (forall h e, head q = Some h -> last q = Some e ->
     onext (order_pool b') e = Some o /\ oprev (order_pool b') o = Some e
     /\ onext (order_pool b') o = Some h /\ oprev (order_pool b') h = Some o
     /\ (forall p, p <> e -> p <> o -> onext (order_pool b') p = onext (order_pool b) p)
     /\ (forall p, p <> h -> p <> o -> oprev (order_pool b') p = oprev (order_pool b) p)) ->
  Sided b' s (g1 ++ (l, q ++ [o]) :: g2) theirs xo.
Proof.
  intros [Hm Ht Hnl Hno Hpm Hlp Hop Hcm Hux] ELP Eb Ea Epm Ecm Hwf Hus Hod Hok Hring.
  assert (side_head b' s = side_head b s) as Ehs by (unfold side_head; by rewrite Eb, Ea).
  assert (side_head b' (opposite s) = side_head b (opposite s)) as Eho
    by (unfold side_head; by rewrite Eb, Ea).
  assert (level_ptrs ((g1 ++ (l, q ++ [o]) :: g2) ++ theirs)
          = level_ptrs ((g1 ++ (l, q) :: g2) ++ theirs)) as Elp.
  { by rewrite !level_ptrs_app, !level_ptrs_cons. }
  assert (order_ptrs ((g1 ++ (l, q) :: g2) ++ theirs) ++ o :: xo
          ≡ₚ order_ptrs ((g1 ++ (l, q ++ [o]) :: g2) ++ theirs) ++ xo) as Eop.
  { repeat (rewrite order_ptrs_app || rewrite order_ptrs_cons). cbn [fst snd].
    rewrite <- !app_assoc. do 2 apply Permutation_app_head. cbn [app].
    rewrite (app_assoc (order_ptrs g2)), (app_assoc (order_ptrs g2) _ xo).
    symmetry. apply Permutation_middle. }
  assert (level_ok (orders_at_price_pool b) (order_pool b) s (l, q)) as Hlv.
  { eapply side_ok_level_ok; [exact Hm|]. rewrite elem_of_app, elem_of_cons. tauto. }
  destruct Hlv as (Hls & Hlh & Hlr & Hlf). cbn [fst snd] in *.
  destruct q as [|h t]; [done|].
  destruct (last_is_Some (h :: t)) as [_ [e He]]; [done|].
  destruct (Hring h e eq_refl He) as (N1 & N2 & N3 & N4 & N5 & N6).
  assert (List.last t h = e) as Hlast.
  { clear -He. rewrite last_cons in He. destruct (last t) eqn:E.
    - injection He as <-. apply last_Some in E as [t' ->]. by rewrite List.last_last.
    - injection He as <-. apply last_None in E as ->. done. }
  assert (NoDup (order_ptrs ((g1 ++ (l, h :: t) :: g2) ++ theirs) ++ o :: xo)) as Hno' by done.
  rewrite order_ptrs_remove_level in Hno'. cbn [fst snd] in Hno'.
  assert (NoDup (h :: t) /\ (o ∉ h :: t)
          /\ forall p, p ∈ order_ptrs ((g1 ++ g2) ++ theirs) -> p ∉ (h :: t) ++ [o]) as (Hndq & Hoq & Hdis).
  { apply NoDup_app in Hno' as (_ & Hd & Hno'). apply NoDup_app in Hno' as (H1 & H2 & H3).
    split_and!; [done| |].
    - intros Hin. apply (H2 _ Hin). rewrite elem_of_cons. by left.
    - intros p Hp Hin. apply (Hd p Hp). rewrite elem_of_app in Hin. rewrite elem_of_app.
      destruct Hin as [Hin|Hin]; [by left|]. apply list_elem_of_singleton in Hin.
      right. rewrite elem_of_cons. by left. }
  assert (forall p, p ∈ order_ptrs ((g1 ++ g2) ++ theirs) ->
                    read (order_pool b') p = read (order_pool b) p) as Hrd.
  { intros p Hp. specialize (Hdis p Hp).
    assert (p <> o) by (intros ->; apply Hdis; rewrite elem_of_app, list_elem_of_singleton; by right).
    assert (p <> h) by (intros ->; apply Hdis; rewrite elem_of_app, elem_of_cons; tauto).
    assert (p <> e).
    { intros ->. apply Hdis. apply last_elem_of in He. rewrite elem_of_app. tauto. }
    apply read_order_eq; auto. }
  assert (forall s' lv, lv ∈ g1 ++ g2 ++ theirs ->
            level_ok (orders_at_price_pool b) (order_pool b) s' lv ->
            level_ok (orders_at_price_pool b') (order_pool b') s' lv) as Hlvs.
  { intros s' lv Hin. rewrite ELP. apply level_ok_ext; [done|].
    intros p Hp. apply Hrd. rewrite app_assoc in Hin. apply elem_of_order_ptrs. eauto. }
  split; rewrite ?Ehs, ?Eho, ?Epm, ?Ecm.
  - destruct Hm as (M1 & M2 & M3 & M4). split_and!.
    + rewrite M1. by rewrite !level_ptrs_app, !level_ptrs_cons.
    + intros _. assert (g1 ++ (l, h :: t) :: g2 <> []) as Hne3 by (by destruct g1).
      specialize (M2 Hne3). rewrite ELP.
      by rewrite level_ptrs_app, level_ptrs_cons in M2 |- *.
    + rewrite Forall_app, Forall_cons in M3 |- *. destruct M3 as (F1 & F2 & F3).
      split_and!.
      * rewrite Forall_forall in F1 |- *. intros lv Hin. apply Hlvs; [|by apply F1].
        rewrite elem_of_app. tauto.
      * rewrite ELP. split_and!; cbn [fst snd]; try done.
        -- rewrite <- app_comm_cons. rewrite <- Hlast in N1, N2.
           apply (ring_append (onext (order_pool b)) (oprev (order_pool b))); try done.
           ++ intros p. rewrite Hlast. apply N5.
        -- apply Forall_app. split.
           ++ rewrite Forall_forall in Hlf |- *. intros p Hp.
              apply (order_ok_ext (order_pool b)); [apply Hod|by apply Hlf].
           ++ apply Forall_singleton. apply (order_ok_ext (order_pool b)); [apply Hod|done].
      * rewrite Forall_forall in F3 |- *. intros lv Hin. apply Hlvs; [|by apply F3].
        rewrite !elem_of_app. tauto.
    + rewrite ELP. unfold prices in *. by rewrite fmap_app, fmap_cons in M4 |- *.
  - destruct Ht as (M1 & M2 & M3 & M4). rewrite ELP. split_and!; try done.
    rewrite Forall_forall in M3 |- *. intros lv Hin. rewrite <- ELP. apply Hlvs; [|by apply M3].
    rewrite !elem_of_app. tauto.
  - by rewrite Elp.
  - by rewrite <- Eop.
  - intros idx l'. by rewrite Hpm, Elp, ELP.
  - rewrite ELP, Elp. done.
  - split; [done|]. rewrite Hus. destruct Hop as [_ ->]. apply set_eq. intros x.
    by rewrite !elem_of_list_to_set, Eop.
  - intros c oid o' Hc. destruct (Hcm c oid o' Hc) as (H1 & H2 & H3).
    rewrite <- Eop. split; [done|].
    destruct (odata_eq_fields _ _ _ (Hod o')) as (E1 & E2 & _). by rewrite E1, E2.
  - rewrite ELP. intros p q' Hp Hq. apply Hux; [|done].
    unfold prices in *. by rewrite fmap_app, fmap_cons in Hp |- *.
Qed.

End BookOps5.

Section BookOps6.
Import Common Run LL Exchange.
Implicit Types (b : OMEOrderBook) (s : Side) (o l : N) (g mine theirs : Levels).

Lemma prices_app LP g1 g2 : prices LP (g1 ++ g2) = prices LP g1 ++ prices LP g2.
Proof. unfold prices. apply fmap_app. Qed.

Lemma prices_cons LP (lv : N * list N) g :
  prices LP (lv :: g) = Level.price (read LP lv.1) :: prices LP g.
Proof. done. Qed.

(** The order in [xo] becomes the only order of a new level, which enters
    side [s] between [g1] and [g2]. *)
Lemma Sided_insert_level b b' s g1 g2 theirs o xo lnew price :
  Sided b s (g1 ++ g2) theirs (o :: xo) ->
  (* the order *)
  pool_wf (order_pool b') ->
  used (order_pool b') = used (order_pool b) ->
  onext (order_pool b') o = Some o -> oprev (order_pool b') o = Some o ->
  (forall p, p <> o -> read (order_pool b') p = read (order_pool b) p) ->
  odata (order_pool b') o = odata (order_pool b) o ->
  order_ok (order_pool b) s price o ->
  (* the level *)
  pool_wf (orders_at_price_pool b') ->
  lnew ∉ used (orders_at_price_pool b) ->
  used (orders_at_price_pool b') = used (orders_at_price_pool b) ∪ {[lnew]} ->
  Level.side (read (orders_at_price_pool b') lnew) = s ->
  Level.price (read (orders_at_price_pool b') lnew) = price ->
  Level.order_0 (read (orders_at_price_pool b') lnew) = Some o ->
  (forall p, p <> lnew ->
     ldata (orders_at_price_pool b') p = ldata (orders_at_price_pool b) p) ->
  ring (lnext (orders_at_price_pool b')) (lprev (orders_at_price_pool b'))
       (level_ptrs g1 ++ lnew :: level_ptrs g2) ->
  (forall p, p ∈ level_ptrs theirs ->
     lnext (orders_at_price_pool b') p = lnext (orders_at_price_pool b) p
     /\ lprev (orders_at_price_pool b') p = lprev (orders_at_price_pool b) p) ->
  (* the heads and the tables *)
  side_head b' s = (if decide (g1 = []) then Some lnew else side_head b s) ->
  side_head b' (opposite s) = side_head b (opposite s) ->
  map_price_to_price_level b'
  = <[price_to_index price := lnew]> (map_price_to_price_level b) ->
  map_price_to_price_level b !! price_to_index price = None ->
  map_client_id_to_order b' = map_client_id_to_order b ->
  (* the place of the price *)
  (forall p, p ∈ prices (orders_at_price_pool b) g1 -> before s p price) ->
  (forall p, p ∈ prices (orders_at_price_pool b) g2 -> before s price p) ->
  (forall q, q ∈ prices (orders_at_price_pool b) theirs -> before s q price) ->
  Sided b' s (g1 ++ (lnew, [o]) :: g2) theirs xo.
Proof.
  intros [Hm Ht Hnl Hno Hpm Hlp Hop Hcm Hux] Hwfo Huso Hon Hop' Hrd Hod Hok
    Hwfl Hfresh Husl Hls Hlpr Hl0 Hld Hring Hth Ehs Eho Epm Hpnone Ecm Hb1 Hb2 Hbt.
  destruct Hlp as [Hwfl0 Hul]. destruct Hop as [Hwfo0 Huo].
  assert (lnew ∉ level_ptrs ((g1 ++ g2) ++ theirs)) as Hlout.
  { intros Hin. apply Hfresh. rewrite Hul. by apply elem_of_list_to_set. }
  assert (level_ptrs ((g1 ++ (lnew, [o]) :: g2) ++ theirs)
          ≡ₚ lnew :: level_ptrs ((g1 ++ g2) ++ theirs)) as Hperm.
  { rewrite <- !app_assoc, <- app_comm_cons.
    repeat (rewrite level_ptrs_app || rewrite level_ptrs_cons).
    simpl. symmetry. apply Permutation_middle. }
  assert (order_ptrs ((g1 ++ (lnew, [o]) :: g2) ++ theirs) ++ xo
          ≡ₚ order_ptrs ((g1 ++ g2) ++ theirs) ++ o :: xo) as Hoperm.
  { by rewrite order_ptrs_remove_level. }
  assert (o ∉ order_ptrs ((g1 ++ g2) ++ theirs)) as Hoout.
  { apply elem_of_NoDup_middle in Hno. rewrite elem_of_app in Hno. tauto. }
  assert (forall p, p ∈ level_ptrs ((g1 ++ g2) ++ theirs) -> p <> lnew) as Hnel.
  { by intros p Hp ->. }
  assert (forall p, p ∈ order_ptrs ((g1 ++ g2) ++ theirs) ->
                    read (order_pool b') p = read (order_pool b) p) as Hrd'.
  { intros p Hp. apply Hrd. by intros ->. }
  assert (forall p, p ∈ level_ptrs ((g1 ++ g2) ++ theirs) ->
            Level.price (read (orders_at_price_pool b') p)
            = Level.price (read (orders_at_price_pool b) p)) as Hpr.
  { intros p Hp. exact (f_equal Level.price (Hld p (Hnel p Hp))). }
  assert (forall g, (forall lv, lv ∈ g -> lv ∈ (g1 ++ g2) ++ theirs) ->
            prices (orders_at_price_pool b') g = prices (orders_at_price_pool b) g) as Hprs.
  { intros g Hg. apply prices_ext. intros p Hp. apply Hld, Hnel.
    apply elem_of_level_ptrs in Hp as (lv & Hlv & <-). apply elem_of_level_ptrs.
    exists lv. split; [by apply Hg|done]. }
  assert (forall s' lv, lv ∈ (g1 ++ g2) ++ theirs ->
            level_ok (orders_at_price_pool b) (order_pool b) s' lv ->
            level_ok (orders_at_price_pool b') (order_pool b') s' lv) as Hlvs.
  { intros s' lv Hin. apply level_ok_ext.
    - apply Hld, Hnel. apply elem_of_level_ptrs. eauto.
    - intros p Hp. apply Hrd'. apply elem_of_order_ptrs. eauto. }
  assert (prices (orders_at_price_pool b') g1 = prices (orders_at_price_pool b) g1) as Hp1.
  { apply Hprs. intros lv Hlv. rewrite !elem_of_app. tauto. }
  assert (prices (orders_at_price_pool b') g2 = prices (orders_at_price_pool b) g2) as Hp2.
  { apply Hprs. intros lv Hlv. rewrite !elem_of_app. tauto. }
  assert (prices (orders_at_price_pool b') theirs = prices (orders_at_price_pool b) theirs)
    as Hp3.
  { apply Hprs. intros lv Hlv. rewrite !elem_of_app. tauto. }
  split.
  - destruct Hm as (M1 & M2 & M3 & M4). split_and!.
    + rewrite Ehs, level_ptrs_app, level_ptrs_cons. destruct g1 as [|x g1]; [done|].
      rewrite decide_False by done. rewrite M1. done.
    + intros _. by rewrite level_ptrs_app, level_ptrs_cons.
    + rewrite Forall_app in M3. destruct M3 as (F1 & F2).
      rewrite Forall_app, Forall_cons. split_and!.
      * rewrite Forall_forall in F1 |- *. intros lv Hin. apply Hlvs; [|by apply F1].
        rewrite !elem_of_app. tauto.
      * split_and!; cbn [fst snd]; try done.
        apply Forall_singleton. rewrite Hlpr. by apply (order_ok_ext (order_pool b)).
      * rewrite Forall_forall in F2 |- *. intros lv Hin. apply Hlvs; [|by apply F2].
        rewrite !elem_of_app. tauto.
    + rewrite prices_app, prices_cons. cbn [fst]. rewrite Hlpr.
      rewrite prices_app in M4. apply StronglySorted_app_iff in M4 as (S1 & S2 & S3).
      rewrite Hp1, Hp2. apply StronglySorted_app_iff. split_and!; try done.
      * intros x1 x2 Hx1 [->|Hx2]%elem_of_cons; [by apply Hb1|by apply S1].
      * apply StronglySorted_cons_iff. split; [|done]. apply Forall_forall. apply Hb2.
  - rewrite Eho. destruct Ht as (M1 & M2 & M3 & M4). split_and!; try done.
    + intros Hg. specialize (M2 Hg). revert M2.
      apply ring_ext; intros p Hp; by apply Hth.
    + rewrite Forall_forall in M3 |- *. intros lv Hin. apply Hlvs; [|by apply M3].
      rewrite !elem_of_app. tauto.
    + by rewrite Hp3.
  - rewrite Hperm. by apply NoDup_cons.
  - by rewrite Hoperm.
  - intros idx l'. rewrite Epm, Hperm, elem_of_cons. split.
    + intros [[<- <-]|[Hi Hl']]%lookup_insert_Some.
      * split; [by left|]. by rewrite Hlpr.
      * apply Hpm in Hl' as [Hl' Hidx]. split; [by right|]. by rewrite Hpr.
    + intros ([->|Hl'] & Hidx).
      * rewrite Hlpr in Hidx. rewrite <- Hidx. by rewrite lookup_insert_eq.
      * rewrite Hpr in Hidx by done.
        assert (map_price_to_price_level b !! idx = Some l') as Hl by (by apply Hpm).
        rewrite lookup_insert_ne; [done|]. intros <-. congruence.
  - split; [done|]. rewrite Husl, Hul. apply set_eq. intros x.
    rewrite elem_of_union, !elem_of_list_to_set, elem_of_singleton, Hperm, elem_of_cons. tauto.
  - split; [done|]. rewrite Huso, Huo. apply set_eq. intros x.
    by rewrite !elem_of_list_to_set, Hoperm.
  - intros c oid o' Hc. rewrite Ecm in Hc. destruct (Hcm c oid o' Hc) as (H1 & H2 & H3).
    rewrite Hoperm. split; [done|].
    destruct (decide (o' = o)) as [->|Hne].
    + destruct (odata_eq_fields _ _ _ Hod) as (E1 & E2 & _). by rewrite E1, E2.
    + by rewrite Hrd.
  - intros p q. rewrite Hp3, prices_app, prices_cons. cbn [fst].
    rewrite Hlpr, Hp1, Hp2.
    intros Hp Hq. apply elem_of_app in Hp as [Hp|[->|Hp]%elem_of_cons].
    + apply Hux; [|done]. rewrite prices_app, elem_of_app. by left.
    + by apply Hbt.
    + apply Hux; [|done]. rewrite prices_app, elem_of_app. by right.
Qed.

End BookOps6.

Section BookOps7.
Import Common Run LL Exchange.
Implicit Types (b : OMEOrderBook) (s : Side) (o l : N) (g mine theirs : Levels).

Lemma less_aggressive_before s (new target : Level.OMEOrdersAtPrice) :
  s = BUY \/ s = SELL -> Level.side new = s ->
  less_aggressive new target = true <-> before s (Level.price target) (Level.price new).
Proof.
  intros [-> | ->] Hs; unfold less_aggressive, before; rewrite Hs;
    repeat case_bool_decide; try done; case_decide; try done;
    cbn [andb orb]; rewrite ?orb_false_r; apply Z.ltb_lt.
Qed.

Lemma less_aggressive_not_before s (new target : Level.OMEOrdersAtPrice) :
  s = BUY \/ s = SELL -> Level.side new = s ->
  before s (Level.price new) (Level.price target) -> less_aggressive new target = false.
Proof.
  intros Hs Hn Hb. apply not_true_is_false. rewrite (less_aggressive_before s) by done.
  revert Hb. unfold before. destruct (decide (s = BUY)); lia.
Qed.

(** The loop of [add_price_level], entered after a level that comes before
    the new one: it walks over the levels [r1] that come before the new
    one too, and stops at the first of the others, [r2], or back at the
    head of the list. *)
Lemma find_insertion_spec fuel b new best prev (r1 r2 : list N) :
  chain (lnext (orders_at_price_pool b)) (lprev (orders_at_price_pool b)) prev (r1 ++ r2) best ->
  best ∉ r1 ++ r2 ->
  (forall x, x ∈ r1 -> less_aggressive new (level b x) = true) ->
  (forall x, head r2 = Some x -> less_aggressive new (level b x) = false) ->
  (length r1 < fuel)%nat ->
  find_insertion fuel b new best (List.hd best (r1 ++ r2)) true
  = Ok (List.hd best r2, bool_decide (r2 = [])).
Proof.
  revert fuel prev. induction r1 as [|x r1 IH]; intros fuel prev Hch Hb H1 H2 Hf.
  - destruct fuel as [|fuel]; [lia|]. destruct r2 as [|x r2]; simpl.
    + by rewrite bool_decide_eq_true_2.
    + rewrite bool_decide_eq_false_2 by (intros ->; apply Hb; simpl; by left).
      simpl. rewrite (H2 x eq_refl). destruct fuel; done.
  - destruct fuel as [|fuel]; [simpl in Hf; lia|]. cbn [app List.hd find_insertion].
    rewrite bool_decide_eq_false_2 by (intros ->; apply Hb; simpl; by left).
    cbn [andb negb]. rewrite H1 by (by left).
    simpl in Hch. destruct Hch as (_ & _ & Hch).
    assert (lnext (orders_at_price_pool b) x = Some (List.hd best (r1 ++ r2))) as Hn.
    { destruct (r1 ++ r2); simpl in *; by destruct Hch. }
    unfold lnext in Hn. unfold level at 1. rewrite Hn. cbn [deref mbind Result_bind].
    apply (IH fuel x); try done.
    + intros Hin. apply Hb. simpl. by right.
    + intros y Hy. apply H1. by right.
    + simpl in Hf. lia.
Qed.

Lemma last_default_elem_of (l : list N) (d : N) : List.last l d ∈ d :: l.
Proof.
  revert d. induction l as [|x r IH]; intros d; [by left|].
  rewrite last_cons_default. right. apply IH.
Qed.

Lemma last_List_last (l : list N) (d : N) : last (d :: l) = Some (List.last l d).
Proof.
  revert d. induction l as [|x r IH]; intros d; [done|].
  rewrite last_cons, IH. by rewrite last_cons_default.
Qed.

Lemma chain_prev_last (nxt prv : N -> option N) x (l : list N) z :
  chain nxt prv x l z -> prv z = Some (List.last l x) /\ nxt (List.last l x) = Some z.
Proof.
  revert x. induction l as [|y l IH]; intros x; cbn [chain].
  - by intros [? ?].
  - intros (_ & _ & H). rewrite last_cons_default. by apply IH.
Qed.

(** The test of [add_price_level] for a new head of the list. *)
Lemma head_test_true s (p q : Price) :
  s = BUY \/ s = SELL -> before s p q ->
  bool_decide (s = BUY) && (q <? p) || bool_decide (s = SELL) && (p <? q) = true.
Proof.
  intros [-> | ->]; unfold before; repeat case_bool_decide; try done; case_decide; try done;
    cbn [andb orb]; rewrite ?orb_false_r; apply Z.ltb_lt.
Qed.

Lemma head_test_false s (p q : Price) :
  s = BUY \/ s = SELL -> before s q p ->
  bool_decide (s = BUY) && (q <? p) || bool_decide (s = SELL) && (p <? q) = false.
Proof.
  intros [-> | ->]; unfold before; repeat case_bool_decide; try done; case_decide; try done;
    cbn [andb orb]; rewrite ?orb_false_r; intros Hlt; apply Z.ltb_ge; lia.
Qed.

Lemma find_insertion_false fuel b new best target :
  find_insertion fuel b new best target false = Ok (target, false).
Proof. by destruct fuel. Qed.

(** The search of [add_price_level] when the head of the list comes before
    the new level. *)
Lemma find_insertion_from_head fuel b new best (r1 r2 : list N) :
  ring (lnext (orders_at_price_pool b)) (lprev (orders_at_price_pool b)) (best :: r1 ++ r2) ->
  best ∉ r1 ++ r2 ->
  (forall x, x ∈ r1 -> less_aggressive new (level b x) = true) ->
  (forall x, head r2 = Some x -> less_aggressive new (level b x) = false) ->
  less_aggressive new (level b best) = true ->
  (length r1 < fuel)%nat ->
  find_insertion fuel b new best (List.hd best (r1 ++ r2))
                 (less_aggressive new (level b (List.hd best (r1 ++ r2))))
  = Ok (List.hd best r2, bool_decide (r2 = [])).
Proof.
  intros Hr Hb H1 H2 H0 Hf. destruct r1 as [|x r1].
  - destruct r2 as [|x r2]; cbn [app List.hd].
    + rewrite H0. by apply (find_insertion_spec fuel b new best best [] []).
    + rewrite (H2 x eq_refl). by rewrite find_insertion_false.
  - cbn [app List.hd]. rewrite H1 by (by left).
    by apply (find_insertion_spec fuel b new best best (x :: r1) r2).
Qed.

(** [add_price_level] on the list of levels of side [s]: the new level
    goes between the levels [lp1], which come before it, and the levels
    [lp2], which come after it. *)
Lemma add_price_level_exec E b s lnew (lp1 lp2 : list N) price :
  s = BUY \/ s = SELL ->
  Level.side (level b lnew) = s -> Level.price (level b lnew) = price ->
  side_head b s = head (lp1 ++ lp2) ->
  (lp1 ++ lp2 <> [] ->
   ring (lnext (orders_at_price_pool b)) (lprev (orders_at_price_pool b)) (lp1 ++ lp2)) ->
  NoDup (lp1 ++ lp2) -> lnew ∉ lp1 ++ lp2 ->
  (forall x, x ∈ lp1 -> before s (Level.price (level b x)) price) ->
  (forall x, x ∈ lp2 -> before s price (Level.price (level b x))) ->
  (length (lp1 ++ lp2) <= size (stored (orders_at_price_pool b)))%nat ->
  wpx E (add_price_level b lnew) (fun b' =>
    order_pool b' = order_pool b
    /\ map_client_id_to_order b' = map_client_id_to_order b
    /\ same_messages b b'
    /\ map_price_to_price_level b'
       = <[price_to_index price := lnew]> (map_price_to_price_level b)
    /\ side_head b' s = (if decide (lp1 = []) then Some lnew else side_head b s)
    /\ side_head b' (opposite s) = side_head b (opposite s)
    /\ (pool_wf (orders_at_price_pool b) -> pool_wf (orders_at_price_pool b'))
    /\ used (orders_at_price_pool b') = used (orders_at_price_pool b)
    /\ (forall p, ldata (orders_at_price_pool b') p = ldata (orders_at_price_pool b) p)
    /\ ring (lnext (orders_at_price_pool b')) (lprev (orders_at_price_pool b'))
            (lp1 ++ lnew :: lp2)
    /\ (forall p, p ∉ lp1 ++ lp2 -> p <> lnew ->
          lnext (orders_at_price_pool b') p = lnext (orders_at_price_pool b) p
          /\ lprev (orders_at_price_pool b') p = lprev (orders_at_price_pool b) p)).
Proof.
  intros Hs Hsd Hpr Hhd Hring Hnd Hfresh Hb1 Hb2 Hfuel.
  destruct b as [t cm LP bids asks pm OP cr mu noid txr txu].
  unfold side_head in Hhd. book_simpl.
  cbv beta delta [add_price_level]. wpx_let. wpx_let. wpx_let. book_simpl.
  rewrite Hsd, Hpr. cbv beta delta [side_head]. book_simpl. rewrite Hhd.
  destruct lp1 as [|h1 r1].
  - destruct lp2 as [|h2 r2]; cbn beta iota delta [app head].
    + (* the side is empty *)
      wpx_let. wpx_let as LP1. wpx_ret as LP2.
      split_and!; post_frame.
    + (* the new level comes first *)
      specialize (Hring ltac:(done)). cbn beta iota delta [app] in *.
      pose proof (ring_prev_first _ _ _ _ Hring) as Hpe. set (e := List.last r2 h2) in *.
      pose proof (ring_next_first _ _ _ _ Hring) as Hnx.
      assert (e ∈ h2 :: r2) as Hein.
      { apply last_default_elem_of. }
      assert (h2 <> lnew /\ e <> lnew) as [Hh2 He].
      { split; intros Heq; apply Hfresh; rewrite <- Heq; [by left|done]. }
      rewrite (less_aggressive_not_before s) by (try done; rewrite Hpr; apply Hb2; by left).
      cbv beta iota. book_simpl. rewrite find_insertion_false. book_simpl.
      rewrite_view Hpe. wpx_let as LP1. wpx_let as LP2. book_simpl.
      assert (lprev LP2 h2 = Some e) as Hpe2 by (subst_pools; by pool_views).
      wpx_deref Hpe2. wpx_let as LP3. wpx_let as LP4. wpx_let. book_simpl.
      assert (forall p, ldata LP4 p = ldata LP p) as Hld4 by (intros p; subst_pools; by pool_views).
      destruct (ldata_eq_fields _ _ _ (Hld4 lnew)) as (Es & Ep & _).
      destruct (ldata_eq_fields _ _ _ (Hld4 h2)) as (_ & Ep2 & _).
      rewrite Es, Ep, Ep2, Hsd, Hpr.
      rewrite (head_test_true s) by (try done; apply Hb2; by left). cbv beta iota.
      assert (lnext LP4 h2 <> Some h2) as Hnh.
      { subst_pools. pool_views. destruct (decide (e = h2)) as [Heq|Hne]; cbv beta iota.
        - congruence.
        - rewrite Hnx. intros [= Hx].
          apply NoDup_cons in Hnd as [Hnin _]. destruct r2 as [|y r2'].
          + by apply Hne.
          + apply Hnin. simpl in Hx. rewrite <- Hx. by left. }
      fold_views. wpx_false. wpx_let as LP5. wpx_ret.
      split_and!; post_frame.
      apply (ring_insert (lnext LP) (lprev LP) _ _ [] (h2 :: r2) lnew h2 e); try done.
      all: rewrite ?app_nil_r; try apply last_List_last.
      all: intros; subst_pools; by pool_views.
  - (* the head of the list comes before the new level *)
    specialize (Hring ltac:(done)). cbn beta iota delta [app head] in *.
    pose proof (ring_next_first _ _ _ _ Hring) as Hnx.
    assert (h1 <> lnew) as Hh1 by (intros Heq; apply Hfresh; rewrite <- Heq; by left).
    assert (less_aggressive (read LP lnew) (read LP h1) = true) as Hla.
    { apply (less_aggressive_before s); [done|done|]. rewrite Hpr. apply Hb1. by left. }
    rewrite Hla. cbv beta iota. wpx_deref Hnx.
    pose proof (find_insertion_from_head (S (size (stored LP)))
                  (mkBook t cm LP bids asks (<[price_to_index price:=lnew]> pm) OP cr mu
                          noid txr txu) (read LP lnew) h1 r1 lp2) as Hfi.
    book_simpl. rewrite Hfi; clear Hfi.
    2: exact Hring.
    2: { apply NoDup_cons in Hnd as [? _]. done. }
    2: { intros x Hx. apply (less_aggressive_before s); [done|done|]. rewrite Hpr.
         apply Hb1. by right. }
    2: { intros x Hx. apply (less_aggressive_not_before s); [done|done|]. rewrite Hpr.
         apply Hb2. by apply head_elem_of. }
    2: exact Hla.
    2: { simpl in Hfuel. rewrite length_app in Hfuel. lia. }
    book_simpl.
    set (e := List.last r1 h1).
    assert (e ∈ h1 :: r1) as Hein by apply last_default_elem_of.
    assert (e <> lnew) as He.
    { intros Heq. apply Hfresh. rewrite <- Heq. rewrite app_comm_cons, elem_of_app. by left. }
    destruct lp2 as [|t0 r2].
    + (* and so do all the others: the new level goes last *)
      rewrite app_nil_r in *. cbn beta iota delta [List.hd].
      pose proof (ring_prev_first _ _ _ _ Hring) as Hpe. fold e in Hpe.
      pose proof (ring_next_last _ _ _ _ Hring) as Hne. fold e in Hne.
      rewrite bool_decide_eq_true_2 by done. cbv beta iota.
      rewrite bool_decide_eq_true_2 by done. cbv beta iota.
      wpx_deref Hpe. wpx_let as LP1. book_simpl.
      assert (lnext LP1 e = Some h1) as Hne1 by (subst_pools; by pool_views).
      wpx_deref Hne1. wpx_let as LP2. book_simpl.
      assert (lnext LP2 e = Some h1) as Hne2 by (subst_pools; by pool_views).
      rewrite_view Hne2. wpx_let as LP3. wpx_ret as LP4.
      split_and!; post_frame.
      apply (ring_insert (lnext LP) (lprev LP) _ _ (h1 :: r1) [] lnew h1 e);
        rewrite ?app_nil_r; try done.
      all: try apply last_List_last.
      all: intros; subst_pools; by pool_views.
    + (* the new level goes before [t0] *)
      cbn beta iota delta [List.hd].
      assert (t0 <> lnew) as Ht0.
      { intros Heq. apply Hfresh. rewrite <- Heq. rewrite app_comm_cons, elem_of_app.
        right. by left. }
      assert (lprev LP t0 = Some e) as Hpe.
      { simpl in Hring. apply chain_app in Hring as [Hc _]. by apply chain_prev_last in Hc as [? _]. }
      rewrite bool_decide_eq_false_2 by done. cbv beta iota.
      rewrite_view Hpe. wpx_let as LP1. wpx_let as LP2. book_simpl.
      assert (lprev LP2 t0 = Some e) as Hpe2 by (subst_pools; by pool_views).
      wpx_deref Hpe2. wpx_let as LP3. wpx_let as LP4. wpx_let. book_simpl.
      assert (forall p, ldata LP4 p = ldata LP p) as Hld4 by (intros p; subst_pools; by pool_views).
      destruct (ldata_eq_fields _ _ _ (Hld4 lnew)) as (Es & Ep & _).
      destruct (ldata_eq_fields _ _ _ (Hld4 h1)) as (_ & Ep2 & _).
      rewrite Es, Ep, Ep2, Hsd, Hpr.
      rewrite (head_test_false s) by (try done; apply Hb1; by left). cbv beta iota.
      wpx_ret.
      split_and!; post_frame.
      apply (ring_insert (lnext LP) (lprev LP) _ _ (h1 :: r1) (t0 :: r2) lnew t0 e); try done.
      all: try (rewrite <- app_comm_cons, last_cons, last_app; by rewrite last_List_last).
      all: intros; subst_pools; by pool_views.
Qed.

End BookOps7.

Section BookOps8.
Import Common Run LL Exchange.
Implicit Types (b : OMEOrderBook) (s : Side) (o l : N) (g mine theirs : Levels).

Lemma before_trans s (p q r : Price) : before s p q -> before s q r -> before s p r.
Proof. unfold before. destruct (decide (s = BUY)); lia. Qed.

Lemma before_irrefl s (p : Price) : ~ before s p p.
Proof. unfold before. destruct (decide (s = BUY)); lia. Qed.

Lemma before_trichotomy s (p q : Price) : before s p q \/ p = q \/ before s q p.
Proof. unfold before. destruct (decide (s = BUY)); lia. Qed.

(** A sorted side splits at a price that it does not hold. *)
Lemma side_split LP s g (price : Price) :
  StronglySorted (before s) (prices LP g) -> price ∉ prices LP g ->
  exists g1 g2, g = g1 ++ g2
    /\ (forall p, p ∈ prices LP g1 -> before s p price)
    /\ (forall p, p ∈ prices LP g2 -> before s price p).
Proof.
  induction g as [|lv g IH]; intros Hs Hn.
  - exists [], []. split_and!; [done| |]; by intros p ?%elem_of_nil.
  - rewrite prices_cons in Hs, Hn. apply StronglySorted_cons_iff in Hs as [Hf Hs].
    rewrite Forall_forall in Hf.
    destruct (before_trichotomy s (Level.price (read LP lv.1)) price) as [Hb|[He|Hb]].
    + destruct (IH Hs) as (g1 & g2 & -> & H1 & H2).
      { intros Hin. apply Hn. by right. }
      exists (lv :: g1), g2. split_and!; [done| |done].
      intros p. rewrite prices_cons. intros [->|Hp]%elem_of_cons; [done|by apply H1].
    + exfalso. apply Hn. rewrite He. by left.
    + exists [], (lv :: g). split_and!; [done|by intros p ?%elem_of_nil|].
      intros p. rewrite prices_cons. intros [->|Hp]%elem_of_cons; [done|].
      eapply before_trans; [exact Hb|by apply Hf].
Qed.

Lemma elem_of_level_ptrs_split g l :
  l ∈ level_ptrs g -> exists g1 q g2, g = g1 ++ (l, q) :: g2.
Proof.
  intros (lv & Hin & <-)%elem_of_level_ptrs.
  apply list_elem_of_split in Hin as (g1 & g2 & ->). exists g1, lv.2, g2. by destruct lv.
Qed.

Lemma elem_of_order_ptrs_split g o :
  o ∈ order_ptrs g -> exists g1 l q1 q2 g2, g = g1 ++ (l, q1 ++ o :: q2) :: g2.
Proof.
  intros (lv & Hin & Ho)%elem_of_order_ptrs.
  apply list_elem_of_split in Hin as (g1 & g2 & ->).
  apply list_elem_of_split in Ho as (q1 & q2 & Hq).
  exists g1, lv.1, q1, q2, g2. rewrite <- Hq. by destruct lv.
Qed.

Lemma cursor_not_used {T} `{!DefaultInit T} (p : MemPool T) :
  pool_wf p -> i_next_free p ∉ used p.
Proof. intros Hwf. rewrite elem_of_used. unfold busy. by rewrite (wf_cursor_free p Hwf). Qed.

Lemma length_le_stored {T} `{!DefaultInit T} (p : MemPool T) (l1 l2 : list N) :
  NoDup (l1 ++ l2) -> used p = list_to_set (l1 ++ l2) ->
  (length l1 <= size (stored p))%nat.
Proof.
  intros Hnd Hu. etrans; [|apply size_used_le_stored]. rewrite Hu.
  rewrite size_list_to_set by done. rewrite length_app. lia.
Qed.

End BookOps8.

Section BookOps9.
Import Common Run LL Exchange.
Implicit Types (b : OMEOrderBook) (s : Side) (o l : N) (g mine theirs : Levels).

(** The two ways [add_order_to_book] can end the process: the ids of the
    order are outside the client table, or the order needs a level and the
    level pool hands out its last free block. *)
Definition add_order_stops b o (st : Stop) : Prop :=
  (st = Terminate_out_of_range
   /\ client_order_in_range (Order.client_id (order b o))
                            (Order.client_order_id (order b o)) = false)
  \/ (st = Exit_pool_overrun
      /\ get_level_for_price b (Order.price (order b o)) = None
      /\ (size (used (orders_at_price_pool b)) + 1
          = N.to_nat (n_blocks (orders_at_price_pool b)))%nat).

(** Where the order went: to the end of the queue of the level at its
    price, or into a new level at the place of its price. *)
Definition placed b b' o (mine mine' : Levels) : Prop :=
  (exists g1 l q g2,
     mine = g1 ++ (l, q) :: g2 /\ mine' = g1 ++ (l, q ++ [o]) :: g2
     /\ Level.price (level b l) = Order.price (order b o))
  \/ (exists g1 g2 lnew,
        mine = g1 ++ g2 /\ mine' = g1 ++ (lnew, [o]) :: g2
        /\ (Order.price (order b o) ∉ prices (orders_at_price_pool b) mine)
        /\ Level.price (level b' lnew) = Order.price (order b o)).

Lemma prices_level_ptrs LP g x :
  x ∈ level_ptrs g -> Level.price (read LP x) ∈ prices LP g.
Proof.
  intros (lv & Hin & <-)%elem_of_level_ptrs. unfold prices.
  apply list_elem_of_fmap. by exists lv.
Qed.

Lemma add_order_to_book_spec b s mine theirs o xo :
  s = BUY \/ s = SELL ->
  Sided b s mine theirs (o :: xo) ->
  Order.side (order b o) = s ->
  0 <= Order.qty (order b o) < 2 ^ 32 ->
  (forall l, l ∈ level_ptrs (mine ++ theirs) ->
     price_to_index (Level.price (level b l)) = price_to_index (Order.price (order b o)) ->
     Level.price (level b l) = Order.price (order b o)) ->
  (forall q, q ∈ prices (orders_at_price_pool b) theirs ->
     before s q (Order.price (order b o))) ->
  wpx (add_order_stops b o) (add_order_to_book b o) (fun b' =>
    exists mine',
      Sided b' s mine' theirs xo
      /\ placed b b' o mine mine'
      /\ (forall p, odata (order_pool b') p = odata (order_pool b) p)
      /\ (forall p, p ∈ level_ptrs (mine ++ theirs) ->
            ldata (orders_at_price_pool b') p = ldata (orders_at_price_pool b) p)
      /\ map_client_id_to_order b'
         = <[(Order.client_id (order b o), Order.client_order_id (order b o)) := o]>
             (map_client_id_to_order b)
      /\ same_messages b b').
Proof.
  intros Hs HS Hsd Hqty Hcol Hnx.
  pose proof HS as [Hm Ht Hnl Hno Hpm Hlp Hop Hcm Hux].
  destruct Hlp as [Hwfl Hul]. destruct Hop as [Hwfo Huo].
  assert (o ∉ order_ptrs (mine ++ theirs)) as Hout.
  { apply NoDup_app in Hno as (_ & Hd & _). intros Hin. apply (Hd _ Hin). by left. }
  destruct (get_level_for_price b (Order.price (order b o))) as [l|] eqn:Hgl.
  - (* a level at this price exists *)
    pose proof Hgl as Hgl'. apply Hpm in Hgl' as [Hl Hidx]. specialize (Hcol l Hl Hidx).
    assert (l ∈ level_ptrs mine) as Hlm.
    { rewrite level_ptrs_app, elem_of_app in Hl. destruct Hl as [Hl|Hl]; [done|exfalso].
      apply (before_irrefl s (Order.price (order b o))). apply Hnx.
      rewrite <- Hcol. unfold prices, level_ptrs in *. apply list_elem_of_fmap in Hl as (lv & -> & Hin).
      apply list_elem_of_fmap. by exists lv. }
    apply elem_of_level_ptrs_split in Hlm as (g1 & q & g2 & ->).
    assert (level_ok (orders_at_price_pool b) (order_pool b) s (l, q)) as Hlv.
    { eapply side_ok_level_ok; [exact Hm|]. rewrite elem_of_app, elem_of_cons. tauto. }
    pose proof Hlv as (Hls & Hlh & Hlr & Hlf). cbn [fst snd] in *.
    destruct q as [|h t]; [done|]. cbn [head] in Hlh.
    pose proof (ring_prev_first _ _ _ _ Hlr) as Hpe. set (e := List.last t h) in *.
    assert (o ∉ h :: t) as Hoq.
    { intros Hin. apply Hout. rewrite !order_ptrs_app, order_ptrs_cons. cbn [fst snd].
      rewrite !elem_of_app. tauto. }
    assert (e ∈ h :: t) as Hein by apply last_default_elem_of.
    assert (h <> o /\ e <> o) as [Hho Heo].
    { split; intros Heq; apply Hoq; rewrite <- Heq; [by left|done]. }
    clear Hm Ht Hnl Hno Hpm Hcm Hux Hl Hul Huo Hout.
    revert HS Hsd Hqty Hcol Hnx Hgl Hidx Hlv Hls Hlh Hlr Hlf Hpe Hwfl Hwfo.
    destruct b as [tk cm LP bids asks pm OP cr mu noid txr txu].
    intros HS Hsd Hqty Hcol Hnx Hgl Hidx Hlv Hls Hlh Hlr Hlf Hpe Hwfl Hwfo. book_simpl.
    set (E := add_order_stops _ _).
    cbv beta delta [add_order_to_book]. wpx_bind. book_simpl. rewrite_view Hgl. cbv beta iota.
    wpx_deref Hlh. book_simpl. wpx_deref Hpe. wpx_let as OP1. book_simpl.
    wpx_let as OP2. wpx_let as OP3. wpx_ret as OP4.
    book_simpl.
    assert (forall p, odata OP4 p = odata OP p) as Hod4 by (intros p; subst_pools; by pool_views).
    destruct (odata_eq_fields _ _ _ (Hod4 o)) as (E1 & E2 & _). rewrite E1, E2.
    unfold set_client_order_at.
    destruct (client_order_in_range _ _) eqn:Hr; book_simpl; [|by left].
    exists (g1 ++ (l, (h :: t) ++ [o]) :: g2). split_and!; try done.
    + eapply (Sided_register (mkBook tk cm LP bids asks pm OP4 cr mu noid txr txu)
                _ _ _ _ _ o);
        [eapply (Sided_append _ _ _ _ _ _ _ _ _ _ HS)|..]; book_simpl; try done.
      * subst_pools. by repeat apply pool_wf_write.
      * subst_pools. by rewrite !used_write.
      * intros h0 e0 [= <-] He0. rewrite last_List_last in He0. injection He0 as <-. fold e.
        split_and!; intros; subst_pools; by pool_views.
      * rewrite !order_ptrs_app, order_ptrs_cons. cbn [fst snd]. rewrite !elem_of_app.
        left. right. left. right. by apply list_elem_of_singleton.
      * by rewrite E1, E2.
    + left. exists g1, l, (h :: t), g2. done.
  - (* no level at this price: a new one *)
    assert (Order.price (order b o) ∉ prices (orders_at_price_pool b) (mine ++ theirs)) as Hnp.
    { intros Hin. unfold prices in Hin. apply list_elem_of_fmap in Hin as (lv & Hp & Hin).
      assert (map_price_to_price_level b !! price_to_index (Order.price (order b o))
              = Some lv.1) as Hsome.
      { apply Hpm. split; [unfold level_ptrs; by apply list_elem_of_fmap_2|by rewrite Hp]. }
      unfold get_level_for_price in Hgl. congruence. }
    rewrite prices_app, elem_of_app in Hnp.
    destruct (side_split (orders_at_price_pool b) s mine (Order.price (order b o)))
      as (g1 & g2 & -> & Hb1 & Hb2); [apply Hm|tauto|].
    pose proof (cursor_not_used _ Hwfl) as Hfresh.
    assert (i_next_free (orders_at_price_pool b) ∉ level_ptrs ((g1 ++ g2) ++ theirs)) as Hlout.
    { intros Hin. apply Hfresh. rewrite Hul. by apply elem_of_list_to_set. }
    assert (length (level_ptrs (g1 ++ g2)) <= size (stored (orders_at_price_pool b)))%nat
      as Hfuel.
    { apply (length_le_stored _ _ (level_ptrs theirs)); by rewrite <- level_ptrs_app. }
    destruct Hm as (Hhd & Hring & Hlvs & Hsort).
    clear Ht Hno Hcm Hux Hout.
    revert HS Hsd Hqty Hcol Hnx Hgl Hnp Hb1 Hb2 Hfresh Hlout Hfuel Hhd Hring Hwfl Hwfo Hul Hnl.
    destruct b as [tk cm LP bids asks pm OP cr mu noid txr txu].
    intros HS Hsd Hqty Hcol Hnx Hgl Hnp Hb1 Hb2 Hfresh Hlout Hfuel Hhd Hring Hwfl Hwfo Hul Hnl.
    book_simpl.
    set (E := add_order_stops _ _).
    cbv beta delta [add_order_to_book]. wpx_bind. book_simpl. rewrite_view Hgl. cbv beta iota.
    wpx_let as OP1. book_simpl. wpx_let as OP2. book_simpl.
    assert (forall p, odata OP2 p = odata OP p) as Hod2 by (intros p; subst_pools; by pool_views).
    destruct (odata_eq_fields _ _ _ (Hod2 o)) as (E1 & E2 & _ & E4 & E5 & _).
    rewrite E4, E5, Hsd.
    set (obj := Level.mk s (Order.price (read OP o)) (Some o) None None).
    set (lnew := i_next_free LP) in *.
    destruct (allocate_spec LP obj Hwfl) as [(LP' & Hal & Hwf' & Hnb & Hst & Hus & _)|[Hal Hfull]];
      rewrite Hal; book_simpl; [|by right].
    pose proof (fun j => read_allocated LP LP' obj j Hst) as Hrd. fold lnew in Hrd.
    lazymatch goal with
    | |- context [set_level_pool ?b0 ?p0] =>
        let v := book_eval (set_level_pool b0 p0) in change (set_level_pool b0 p0) with v
    end.
    eapply wpx_mono;
      [eapply (add_price_level_exec E _ s lnew (level_ptrs g1) (level_ptrs g2)
                 (Order.price (read OP o)))|done|]; book_simpl.
    1: done.
    1,2: by rewrite Hrd, decide_True.
    1: { rewrite <- level_ptrs_app. apply Hhd. }
    1: { rewrite <- level_ptrs_app. intros Hne. 
         assert (g1 ++ g2 <> []) as Hne' by (by intros Heq; rewrite Heq in Hne).
         generalize (Hring Hne'). apply ring_ext; intros p Hp; unfold lnext, lprev; rewrite Hrd;
           rewrite decide_False; try done; intros <-; apply Hlout;
           rewrite level_ptrs_app, elem_of_app; by left. }
    1: { rewrite <- level_ptrs_app. rewrite (level_ptrs_app (g1 ++ g2)) in Hnl.
         by apply NoDup_app in Hnl as (Hnl & _). }
    1: { rewrite <- level_ptrs_app. intros Hin. apply Hlout. rewrite level_ptrs_app, elem_of_app.
         by left. }
    1,2: intros x Hx; rewrite Hrd, decide_False;
      [first [by apply Hb1, prices_level_ptrs|by apply Hb2, prices_level_ptrs]
      |intros <-; apply Hlout; rewrite !level_ptrs_app, !elem_of_app; tauto].
    1: { rewrite <- level_ptrs_app. etrans; [exact Hfuel|]. rewrite Hst, <- !size_dom, dom_insert_L.
         apply subseteq_size. set_solver. }
    intros [tk3 cm3 LP3 bids3 asks3 pm3 OP3 cr3 mu3 noid3 txr3 txu3].
    intros (EOP & Ecm & Hmsg & Epm & Ehs & Eho & Hwf3 & Hus3 & Hld3 & Hring3 & Hfr3).
    book_simpl. subst OP3 cm3 pm3.
    rewrite E1, E2. unfold set_client_order_at.
    destruct (client_order_in_range _ _) eqn:Hr; book_simpl; [|by left].
    exists (g1 ++ (lnew, [o]) :: g2). split_and!.
    + eapply (Sided_register
                (mkBook tk3 cm LP3 bids3 asks3
                        (<[price_to_index (Order.price (read OP o)):=lnew]> pm) OP2 cr3 mu3
                        noid3 txr3 txu3) _ _ _ _ _ o);
        [eapply (Sided_insert_level _ _ _ _ _ _ _ _ lnew (Order.price (read OP o)) HS)|..];
        book_simpl; try done.
      * subst_pools. by repeat apply pool_wf_write.
      * subst_pools. by rewrite !used_write.
      * subst_pools. by pool_views.
      * subst_pools. by pool_views.
      * intros p Hp. apply read_order_eq; subst_pools; by pool_views.
      * by apply Hwf3.
      * by rewrite Hus3, Hus.
      * pose proof (f_equal Level.side (Hld3 lnew)) as Hp3. simpl in Hp3.
        rewrite Hp3. by rewrite Hrd, decide_True.
      * pose proof (f_equal Level.price (Hld3 lnew)) as Hp3. simpl in Hp3.
        rewrite Hp3. by rewrite Hrd, decide_True.
      * pose proof (f_equal Level.order_0 (Hld3 lnew)) as Hp3. simpl in Hp3.
        rewrite Hp3. by rewrite Hrd, decide_True.
      * intros p Hp. rewrite Hld3. unfold ldata. by rewrite Hrd, decide_False.
      * intros p Hp. destruct (Hfr3 p) as [-> ->].
        -- rewrite <- level_ptrs_app. rewrite level_ptrs_app in Hnl.
           apply NoDup_app in Hnl as (_ & Hd & _). intros Hin. by apply (Hd p).
        -- intros ->. apply Hlout. rewrite level_ptrs_app, elem_of_app. by right.
        -- unfold lnext, lprev. rewrite Hrd, decide_False; [done|].
           intros <-. apply Hlout. rewrite level_ptrs_app, elem_of_app. by right.
      * rewrite Ehs. by destruct g1.
      * rewrite !order_ptrs_app, order_ptrs_cons. cbn [fst snd]. rewrite !elem_of_app.
        left. right. left. by apply list_elem_of_singleton.
      * by rewrite E1, E2.
    + right. exists g1, g2, lnew. split_and!; try done.
      * intros Hin. apply Hnp. by left.
      * book_simpl. pose proof (f_equal Level.price (Hld3 lnew)) as Hp3. simpl in Hp3.
        rewrite Hp3. by rewrite Hrd, decide_True.
    + done.
    + intros p Hp. rewrite Hld3. unfold ldata. rewrite Hrd, decide_False; [done|].
      by intros <-.
    + done.
    + exact Hmsg.
Qed.

End BookOps9.

Section BookOps10.
Import Common Run LL Exchange.
Implicit Types (b : OMEOrderBook) (s : Side) (o l : N) (g mine theirs : Levels).

Lemma level_ok_requantify LP OP OP' s lv :
  (forall p, onext OP' p = onext OP p) -> (forall p, oprev OP' p = oprev OP p) ->
  (forall p s' pr, order_ok OP s' pr p -> order_ok OP' s' pr p) ->
  level_ok LP OP s lv -> level_ok LP OP' s lv.
Proof.
  intros Hn Hp Hok (H1 & H2 & H3 & H4). split_and!; try done.
  - revert H3. apply ring_ext; intros; [apply Hn|apply Hp].
  - rewrite Forall_forall in H4 |- *. intros p Hin. by apply Hok, H4.
Qed.

Lemma side_ok_requantify LP OP OP' s hd g :
  (forall p, onext OP' p = onext OP p) -> (forall p, oprev OP' p = oprev OP p) ->
  (forall p s' pr, order_ok OP s' pr p -> order_ok OP' s' pr p) ->
  side_ok LP OP s hd g -> side_ok LP OP' s hd g.
Proof.
  intros Hn Hp Hok (H1 & H2 & H3 & H4). split_and!; try done.
  rewrite Forall_forall in H3 |- *. intros lv Hin.
  by apply (level_ok_requantify LP OP), H3.
Qed.

(** The quantities of orders change and nothing else does. *)
Lemma Sided_requantify b b' s mine theirs xo :
  Sided b s mine theirs xo ->
  orders_at_price_pool b' = orders_at_price_pool b ->
  bids_by_price b' = bids_by_price b -> asks_by_price b' = asks_by_price b ->
  map_price_to_price_level b' = map_price_to_price_level b ->
  map_client_id_to_order b' = map_client_id_to_order b ->
  pool_wf (order_pool b') ->
  used (order_pool b') = used (order_pool b) ->
  (forall p, onext (order_pool b') p = onext (order_pool b) p) ->
  (forall p, oprev (order_pool b') p = oprev (order_pool b) p) ->
  (forall p s' pr, order_ok (order_pool b) s' pr p -> order_ok (order_pool b') s' pr p) ->
  (forall p, Order.client_id (read (order_pool b') p) = Order.client_id (read (order_pool b) p)
             /\ Order.client_order_id (read (order_pool b') p)
                = Order.client_order_id (read (order_pool b) p)) ->
  Sided b' s mine theirs xo.
Proof.
  intros [Hm Ht Hnl Hno Hpm Hlp Hop Hcm Hux] ELP Eb Ea Epm Ecm Hwf Hus Hn Hp Hok Hid.
  assert (side_head b' s = side_head b s) as Ehs by (unfold side_head; by rewrite Eb, Ea).
  assert (side_head b' (opposite s) = side_head b (opposite s)) as Eho
    by (unfold side_head; by rewrite Eb, Ea).
  split; rewrite ?ELP, ?Ehs, ?Eho, ?Epm, ?Ecm; try done.
  - by apply (side_ok_requantify _ (order_pool b)).
  - by apply (side_ok_requantify _ (order_pool b)).
  - split; [done|]. rewrite Hus. apply Hop.
  - intros c oid o' Hc. destruct (Hcm c oid o' Hc) as (H1 & H2 & H3).
    destruct (Hid o') as [-> ->]. done.
Qed.

Lemma wrap_u32_small (z : Z) : 0 <= z < 2 ^ 32 -> wrap_u32 z = z.
Proof. intros H. unfold wrap_u32. by apply Z.mod_small. Qed.

Lemma wrap_u64_small (z : Z) : 0 <= z < 2 ^ 64 -> wrap_u64 z = z.
Proof. intros H. unfold wrap_u64. by apply Z.mod_small. Qed.

(** What one match sends: the two fills, the trade, and the cancellation of
    the resting order when it is filled in full, or else its new quantity. *)
Definition fill_responses (od : Order.OMEOrder) (tk : TickerID) (cid : ClientID) (sd : Side)
    (coid moid : OrderID) (qr : Qty) : list Response.OMEClientResponse :=
  let fill := Z.min qr (Order.qty od) in
  [Response.mkResponse Response.FILLED cid tk coid moid sd (Order.price od) fill (qr - fill);
   Response.mkResponse Response.FILLED (Order.client_id od) tk (Order.client_order_id od)
     (Order.market_order_id od) (Order.side od) (Order.price od) fill (Order.qty od - fill)].

Definition fill_updates (od : Order.OMEOrder) (tk : TickerID) (sd : Side) (qr : Qty)
  : list Update.OMEMarketUpdate :=
  let fill := Z.min qr (Order.qty od) in
  [Update.mkUpdate Update.TRADE OrderID_INVALID tk sd (Order.price od) fill Priority_INVALID;
   if Order.qty od <=? qr
   then Update.mkUpdate Update.CANCEL (Order.market_order_id od) tk (Order.side od)
          (Order.price od) (Order.qty od) Priority_INVALID
   else Update.mkUpdate Update.MODIFY (Order.market_order_id od) tk (Order.side od)
          (Order.price od) (Order.qty od - qr) (Order.priority od)].

(** [match] against the resting order [o] of side [s]. *)
Lemma match_spec E b s g1 l q1 o q2 g2 theirs xo tk cid sd coid moid qr :
  Sided b s (g1 ++ (l, q1 ++ o :: q2) :: g2) theirs xo ->
  0 <= qr < 2 ^ 32 ->
  wpx E (match_ b tk cid sd coid moid o qr) (fun r =>
    r.1 = qr - Z.min qr (Order.qty (order b o))
    /\ tx_responses r.2 = tx_responses b ++ fill_responses (order b o) tk cid sd coid moid qr
    /\ tx_market_updates r.2 = tx_market_updates b ++ fill_updates (order b o) tk sd qr
    /\ next_market_oid r.2 = next_market_oid b
    /\ assigned_ticker r.2 = assigned_ticker b
    /\ (forall p, Level.price (level r.2 p) = Level.price (level b p))
    /\ (forall p, p <> o -> odata (order_pool r.2) p = odata (order_pool b) p)
    /\ if Order.qty (order b o) <=? qr
       then Sided r.2 s (g1 ++ drop_empty (l, q1 ++ q2) g2) theirs xo
            /\ map_client_id_to_order r.2
               = delete (Order.client_id (order b o), Order.client_order_id (order b o))
                        (map_client_id_to_order b)
       else Sided r.2 s (g1 ++ (l, q1 ++ o :: q2) :: g2) theirs xo
            /\ map_client_id_to_order r.2 = map_client_id_to_order b
            /\ odata (order_pool r.2) o
               = Order.with_qty (odata (order_pool b) o) (Order.qty (order b o) - qr)).
Proof.
  intros HS Hqr. pose proof HS as [Hm Ht Hnl Hno Hpm Hlp Hop Hcm Hux].
  assert (level_ok (orders_at_price_pool b) (order_pool b) s (l, q1 ++ o :: q2)) as Hlv.
  { eapply side_ok_level_ok; [exact Hm|]. rewrite elem_of_app, elem_of_cons. tauto. }
  pose proof Hlv as (Hls & Hlh & Hlr & Hlf). cbn [fst snd] in *.
  assert (order_ok (order_pool b) s (Level.price (read (orders_at_price_pool b) l)) o)
    as (Hos & Hop' & Hoq & Hor).
  { rewrite Forall_forall in Hlf. apply Hlf. rewrite elem_of_app, elem_of_cons. tauto. }
  destruct Hop as [Hwfo _].
  clear Hm Ht Hnl Hno Hpm Hcm Hux Hlp Hlv Hls Hlh Hlr Hlf.
  revert HS Hos Hop' Hoq Hor Hwfo.
  destruct b as [t cm LP bids asks pm OP cr mu noid txr txu].
  intros HS Hos Hop' Hoq Hor Hwfo. book_simpl.
  cbv beta delta [match_]. wpx_let. wpx_let. wpx_let. wpx_let. book_simpl.
  rewrite !wrap_u32_small by lia.
  wpx_let as OP1.
  assert (read OP1 o = Order.with_qty (read OP o) (Order.qty (read OP o) - Z.min qr (Order.qty (read OP o))))
    as Hr1 by (subst OP1; by rewrite read_write, decide_True).
  wpx_let. wpx_let. wpx_let. book_simpl. rewrite !Hr1.
  cbn beta iota delta [Order.with_qty Order.qty Order.price Order.side Order.client_id
                       Order.client_order_id Order.market_order_id Order.priority].
  assert (forall p, onext OP1 p = onext OP p) as Hn1 by (intros p; subst OP1; by pool_views).
  assert (forall p, oprev OP1 p = oprev OP p) as Hp1 by (intros p; subst OP1; by pool_views).
  assert (forall p, p <> o -> odata OP1 p = odata OP p) as Hod1.
  { intros p Hp. subst OP1. rewrite odata_with_qty. by rewrite decide_False. }
  assert (Sided (mkBook t cm LP bids asks pm OP1 cr mu noid txr txu) s
                (g1 ++ (l, q1 ++ o :: q2) :: g2) theirs xo) as HS1.
  { eapply (Sided_requantify _ _ _ _ _ _ HS); book_simpl; try done.
    - subst OP1. by apply pool_wf_write.
    - subst OP1. by rewrite used_write.
    - intros p s' pr. unfold order_ok. subst OP1. rewrite read_write.
      destruct (decide (o = p)) as [<-|]; [|done]. cbn. intros (? & ? & ? & ?).
      split_and!; try done; lia.
    - intros p. subst OP1. rewrite read_write. by destruct (decide (o = p)) as [<-|]. }
  destruct (Z.leb_spec (Order.qty (read OP o)) qr) as [Hle|Hlt].
  - rewrite Z.min_r by done. rewrite Z.sub_diag. cbn beta iota delta [Z.eqb].
    wpx_let. wpx_bind.
    eapply wpx_mono; [eapply (remove_order_from_book_spec E _ s g1 l q1 o q2 g2 theirs xo)|done|].
    { eapply (Sided_requantify _ _ _ _ _ _ HS1); book_simpl; try done.
      subst OP1. by apply pool_wf_write. }
    intros b' (HS' & Hod & Hpr & Ecm & (M1 & M2 & M3 & M4 & M5 & M6)). book_simpl.
    cbn [fst snd]. unfold fill_responses, fill_updates.
    rewrite (proj2 (Z.leb_le _ _)) by done. rewrite Z.min_r by done. rewrite Z.sub_diag.
    split_and!; try done.
    + rewrite M5. by rewrite <- app_assoc.
    + rewrite M6. by rewrite <- app_assoc.
    + intros p Hp. rewrite Hod. by apply Hod1.
    + rewrite Ecm. book_simpl. rewrite Hr1. done.
  - rewrite Z.min_l by lia. rewrite (proj2 (Z.eqb_neq _ _)) by lia.
    wpx_ret. cbn [fst snd]. book_simpl. unfold fill_responses, fill_updates.
    rewrite (proj2 (Z.leb_gt _ _)) by done. rewrite Z.min_l by lia.
    split_and!; try done.
    + by rewrite <- app_assoc.
    + by rewrite <- app_assoc.
    + eapply (Sided_requantify _ _ _ _ _ _ HS1); book_simpl; try done.
      subst OP1. by apply pool_wf_write.
    + subst OP1. rewrite odata_with_qty, decide_True by done. by rewrite Z.min_l by lia.
Qed.

End BookOps10.

(** ** Matching in price-time priority *)

Section Sweeping.
Import Common Run LL Exchange.
Implicit Types (b : OMEOrderBook) (s : Side) (o l : N) (g mine theirs : Levels).

(** The resting orders of a side in the order of their priority, without
    their links. *)
Definition oview b (g : Levels) : list Order.OMEOrder :=
  odata (order_pool b) <$> order_ptrs g.

(** The outcome of matching an incoming order against a list of resting
    orders taken in priority order: what is left of the incoming quantity,
    what is sent, and what is left of the list. *)
Record Sweep := mkSweep {
  sw_qty : Qty;
  sw_responses : list Response.OMEClientResponse;
  sw_updates : list Update.OMEMarketUpdate;
  sw_rest : list Order.OMEOrder
}.

(** The limit price of the incoming order does not reach the resting
    order. *)
Definition out_of_reach (side : Side) (price : Price) (od : Order.OMEOrder) : bool :=
  if decide (side = BUY) then price <? Order.price od else Order.price od <? price.

Fixpoint sweep (side : Side) (price : Price) (tk : TickerID) (cid : ClientID)
    (coid moid : OrderID) (ods : list Order.OMEOrder) (qr : Qty) : Sweep :=
  match ods with
  | [] => mkSweep qr [] [] []
  | od :: tl =>
      if (qr =? 0) || out_of_reach side price od then mkSweep qr [] [] ods
      else if Order.qty od <=? qr then
        let r := sweep side price tk cid coid moid tl (qr - Order.qty od) in
        mkSweep (sw_qty r)
                (fill_responses od tk cid side coid moid qr ++ sw_responses r)
                (fill_updates od tk side qr ++ sw_updates r)
                (sw_rest r)
      else
        mkSweep 0 (fill_responses od tk cid side coid moid qr) (fill_updates od tk side qr)
                (Order.with_qty od (Order.qty od - qr) :: tl)
  end.

Lemma sweep_zero side price tk cid coid moid ods :
  sweep side price tk cid coid moid ods 0 = mkSweep 0 [] [] ods.
Proof. by destruct ods. Qed.

Lemma opposite_head b side :
  side = BUY \/ side = SELL ->
  (if decide (side = BUY) then asks_by_price b else bids_by_price b)
  = side_head b (opposite side).
Proof. intros [->| ->]; done. Qed.

Lemma oview_cons b l o q g :
  oview b ((l, o :: q) :: g) = odata (order_pool b) o :: oview b ((l, q) :: g).
Proof. done. Qed.

Lemma oview_ext b b' g :
  (forall p, p ∈ order_ptrs g -> odata (order_pool b') p = odata (order_pool b) p) ->
  oview b' g = oview b g.
Proof. intros H. unfold oview. by apply Forall_fmap_ext_1, Forall_forall. Qed.

Lemma order_ptrs_drop_empty l q g : order_ptrs (drop_empty (l, q) g) = q ++ order_ptrs g.
Proof. by destruct q. Qed.

Lemma level_ptrs_drop_empty l q g : level_ptrs (drop_empty (l, q) g) ⊆ l :: level_ptrs g.
Proof. destruct q; [rewrite drop_empty_nil|rewrite drop_empty_cons by done]; set_solver. Qed.

(** The loop of [find_match] for an incoming order of side [side], run on
    the resting orders [rest] of the other side. *)
Lemma find_match_loop_spec E fuel : forall b side rest mine xo cid coid tk price moid qr,
  side = BUY \/ side = SELL ->
  Sided b (opposite side) rest mine xo ->
  0 <= qr < 2 ^ 32 ->
  (length (order_ptrs rest) < fuel)%nat ->
  wpx E (find_match_loop fuel b cid coid tk side price moid qr) (fun r =>
    exists rest',
      Sided r.2 (opposite side) rest' mine xo
      /\ r.1 = sw_qty (sweep side price tk cid coid moid (oview b rest) qr)
      /\ tx_responses r.2
         = tx_responses b ++ sw_responses (sweep side price tk cid coid moid (oview b rest) qr)
      /\ tx_market_updates r.2
         = tx_market_updates b ++ sw_updates (sweep side price tk cid coid moid (oview b rest) qr)
      /\ oview r.2 rest' = sw_rest (sweep side price tk cid coid moid (oview b rest) qr)
      /\ next_market_oid r.2 = next_market_oid b
      /\ assigned_ticker r.2 = assigned_ticker b
      /\ (forall p, Level.price (level r.2 p) = Level.price (level b p))
      /\ (forall p, p ∉ order_ptrs rest -> odata (order_pool r.2) p = odata (order_pool b) p)
      /\ level_ptrs rest' ⊆ level_ptrs rest
      /\ order_ptrs rest' ⊆ order_ptrs rest
      /\ map_client_id_to_order r.2 ⊆ map_client_id_to_order b).
Proof.
  induction fuel as [|fuel IH]; intros b side rest mine xo cid coid tk price moid qr
    Hside HS Hqr Hfuel; [lia|].
  cbn [find_match_loop].
  destruct (Z.eqb_spec qr 0) as [->|Hq0].
  { cbn [wpx fst snd]. exists rest. rewrite sweep_zero. cbn [sw_qty sw_responses sw_updates sw_rest].
    rewrite !app_nil_r. split_and!; done. }
  rewrite (opposite_head b side Hside).
  pose proof (sd_mine _ _ _ _ _ HS) as (Hhd & Hring & Hlvs & Hsort).
  rewrite Hhd.
  destruct rest as [|[l q] g]; cbn [head level_ptrs fmap list_fmap fst].
  { cbn [wpx fst snd]. exists []. cbn. rewrite !app_nil_r. split_and!; done. }
  apply Forall_cons in Hlvs as [(Hls & Hlh & Hlr & Hlf) _]. cbn [fst snd] in *.
  destruct q as [|h q2]; [done|]. cbn [head] in Hlh.
  unfold level. rewrite Hlh. cbn [deref mbind Result_bind].
  apply Forall_cons in Hlf as [(Hos & Hop & Hoq & Hor) _].
  rewrite oview_cons. cbn [sweep]. rewrite (proj2 (Z.eqb_neq _ _) Hq0). cbn [orb].
  unfold out_of_reach.
  assert (Order.price (odata (order_pool b) h) = Order.price (order b h)) as -> by done.
  assert (Order.qty (odata (order_pool b) h) = Order.qty (order b h)) as -> by done.
  destruct (if decide (side = BUY) then price <? Order.price (order b h)
            else Order.price (order b h) <? price) eqn:Hreach.
  { cbn [wpx fst snd]. exists ((l, h :: q2) :: g).
    cbn [sw_qty sw_responses sw_updates sw_rest]. rewrite !app_nil_r. split_and!; done. }
  apply wpx_bind.
  eapply wpx_mono;
    [eapply (match_spec E b (opposite side) [] l [] h q2 g mine xo tk cid side coid moid qr);
     [exact HS|done]|done|].
  intros [qr1 b1]. cbn [fst snd app].
  intros (Eq & Etxr & Etxu & Enoid & Etk & Hpr & Hod & Hcase).
  fold (order b h) in *.
  assert (fill_responses (odata (order_pool b) h) tk cid side coid moid qr
          = fill_responses (order b h) tk cid side coid moid qr) as -> by done.
  assert (fill_updates (odata (order_pool b) h) tk side qr
          = fill_updates (order b h) tk side qr) as -> by done.
  assert (h ∉ q2 ++ order_ptrs g) as Hh.
  { pose proof (sd_orders_nodup _ _ _ _ _ HS) as Hnd.
    rewrite order_ptrs_app, order_ptrs_cons in Hnd. cbn [fst snd] in Hnd.
    rewrite <- !app_assoc in Hnd. cbn [app] in Hnd. apply NoDup_cons in Hnd as [Hnin _].
    intros Hin. apply Hnin. rewrite !elem_of_app in *. tauto. }
  destruct (Z.leb_spec (Order.qty (order b h)) qr) as [Hle|Hlt].
  - (* the resting order is filled in full and leaves the book *)
    destruct Hcase as [HS1 Ecm]. rewrite Z.min_r in Eq by done. subst qr1.
    cbn [sw_qty sw_responses sw_updates sw_rest].
    assert (oview b1 (drop_empty (l, q2) g) = oview b ((l, q2) :: g)) as Hview.
    { unfold oview. rewrite order_ptrs_drop_empty, order_ptrs_cons. cbn [fst snd].
      apply Forall_fmap_ext_1, Forall_forall. intros p Hp. apply Hod. by intros ->. }
    eapply wpx_mono; [eapply (IH b1 side (drop_empty (l, q2) g) mine xo cid coid tk price moid
                                 (qr - Order.qty (order b h)))|done|]; try done.
    { unfold order in *. lia. }
    { rewrite order_ptrs_drop_empty. rewrite order_ptrs_cons in Hfuel. cbn [fst snd length app] in Hfuel.
      lia. }
    intros [qr2 b2]. cbn [fst snd].
    intros (rest' & HS2 & Eq2 & Etxr2 & Etxu2 & Ev2 & Enoid2 & Etk2 & Hpr2 & Hod2 & Hl2 & Ho2 & Hcm2).
    rewrite Hview in *. exists rest'. split_and!; try done.
    + rewrite Etxr2, Etxr. by rewrite <- app_assoc.
    + rewrite Etxu2, Etxu. by rewrite <- app_assoc.
    + congruence.
    + congruence.
    + intros p. etrans; [apply Hpr2|apply Hpr].
    + intros p Hp. rewrite order_ptrs_cons in Hp. cbn [fst snd] in Hp.
      rewrite Hod2, Hod; [done| |].
      * intros ->. apply Hp. rewrite elem_of_app. left. by left.
      * rewrite order_ptrs_drop_empty. intros Hin. apply Hp.
        rewrite elem_of_app, elem_of_cons. rewrite elem_of_app in Hin. tauto.
    + etrans; [exact Hl2|]. apply level_ptrs_drop_empty.
    + etrans; [exact Ho2|]. rewrite order_ptrs_drop_empty, order_ptrs_cons. cbn [fst snd].
      set_solver.
    + etrans; [exact Hcm2|]. rewrite Ecm. apply delete_subseteq.
  - (* the incoming order is used up *)
    destruct Hcase as (HS1 & Ecm & Hod1). rewrite Z.min_l in Eq by lia.
    assert (qr1 = 0) as -> by lia.
    destruct fuel as [|fuel]; [rewrite order_ptrs_cons in Hfuel; cbn in Hfuel; lia|].
    cbn [find_match_loop Z.eqb wpx fst snd sw_qty sw_responses sw_updates sw_rest].
    exists ((l, h :: q2) :: g). split_and!; try done.
    + rewrite oview_cons. f_equal; [done|].
      unfold oview. apply Forall_fmap_ext_1, Forall_forall. intros p Hp. apply Hod.
      intros ->. by apply Hh.
    + intros p Hp. apply Hod. intros ->. apply Hp. rewrite order_ptrs_cons. cbn [fst snd].
      rewrite elem_of_app. left. by left.
    + by rewrite Ecm.
Qed.

End Sweeping.

Section SweepFacts.
Import Common Run LL Exchange.
Implicit Types (b : OMEOrderBook) (s : Side) (o l : N) (g mine theirs : Levels).

Lemma before_opposite s (p q : Price) :
  s = BUY \/ s = SELL -> before (opposite s) p q <-> before s q p.
Proof. by intros [->| ->]. Qed.

(** What is left after a sweep: the incoming quantity is used up, or no
    resting order is within reach of the price. *)
Lemma sweep_qty_bounds side price tk cid coid moid ods : forall qr,
  0 <= qr -> Forall (fun od => 0 <= Order.qty od) ods ->
  0 <= sw_qty (sweep side price tk cid coid moid ods qr) <= qr.
Proof.
  induction ods as [|od tl IH]; intros qr Hqr Hf; cbn [sweep sw_qty]; [lia|].
  apply Forall_cons in Hf as [Hq Hf].
  destruct ((qr =? 0) || out_of_reach side price od); cbn [sw_qty]; [lia|].
  destruct (Z.leb_spec (Order.qty od) qr); cbn [sw_qty]; [|lia].
  specialize (IH (qr - Order.qty od) ltac:(lia) Hf). lia.
Qed.

Lemma sweep_stops side price tk cid coid moid ods : forall qr,
  sw_qty (sweep side price tk cid coid moid ods qr) = 0
  \/ match sw_rest (sweep side price tk cid coid moid ods qr) with
     | [] => True
     | od :: _ => out_of_reach side price od = true
     end.
Proof.
  induction ods as [|od tl IH]; intros qr; cbn [sweep sw_qty sw_rest]; [by right|].
  destruct (Z.eqb_spec qr 0) as [->|Hq]; cbn [orb sw_qty sw_rest]; [by left|].
  destruct (out_of_reach side price od) eqn:Hr; cbn [sw_qty sw_rest]; [by right|].
  destruct (Order.qty od <=? qr); cbn [sw_qty sw_rest]; [apply IH|by left].
Qed.

End SweepFacts.

(** ** The sizes of the pools do not change *)

Section PoolSizes.
Import Common Run LL Exchange.
Implicit Types (b : OMEOrderBook) (s : Side) (o l : N).

Definition same_sizes b b' : Prop :=
  n_blocks (order_pool b') = n_blocks (order_pool b)
  /\ n_blocks (orders_at_price_pool b') = n_blocks (orders_at_price_pool b).

Lemma same_sizes_trans b1 b2 b3 : same_sizes b1 b2 -> same_sizes b2 b3 -> same_sizes b1 b3.
Proof. unfold same_sizes. intros [-> ->] [-> ->]. done. Qed.

Lemma bind_Ok {A B} (m : Result A) (k : A -> Result B) r :
  m ≫= k = Ok r -> exists a, m = Ok a /\ k a = Ok r.
Proof. destruct m as [a|st]; [|done]. intros H. by exists a. Qed.

Lemma deallocate_n_blocks {T} `{!DefaultInit T} (p p' : MemPool T) i :
  deallocate p i = Ok p' -> n_blocks p' = n_blocks p.
Proof. unfold deallocate. repeat case_match; try done. by intros [= <-]. Qed.

Lemma allocate_n_blocks {T} `{!DefaultInit T} (p p' : MemPool T) x i :
  allocate p x = Ok (i, p') -> n_blocks p' = n_blocks p.
Proof.
  unfold allocate. case_match; [|done]. intros (q & Hq & [= <- <-])%bind_Ok.
  unfold update_next_free_index in Hq. apply bind_Ok in Hq as (j & _ & [= <-]). done.
Qed.

Lemma set_side_head_sizes b s x : same_sizes b (set_side_head b s x).
Proof. unfold set_side_head. by case_decide. Qed.

Ltac bind_inv H :=
  repeat match type of H with
    | _ ≫= _ = Ok _ =>
        let a := fresh "a" in let Ha := fresh "Ha" in
        apply bind_Ok in H as (a & Ha & H)
    end.

Lemma remove_price_level_sizes b s price b' :
  remove_price_level b s price = Ok b' -> same_sizes b b'.
Proof.
  unfold remove_price_level. cbv zeta. intros H.
  apply bind_Ok in H as (lv & _ & H). apply bind_Ok in H as (b1 & H1 & H).
  apply bind_Ok in H as (pool & Hd & [= <-]). apply deallocate_n_blocks in Hd.
  cbn in Hd. apply (same_sizes_trans _ b1); [|by split].
  clear Hd. case_bool_decide.
  - injection H1 as <-. apply set_side_head_sizes.
  - apply bind_Ok in H1 as (x & _ & H1). apply bind_Ok in H1 as (y & _ & [= <-]).
    case_bool_decide; [|by split].
    unfold same_sizes. cbn. unfold set_side_head. by case_decide.
Qed.

Lemma remove_order_from_book_sizes b o b' :
  remove_order_from_book b o = Ok b' -> same_sizes b b'.
Proof.
  unfold remove_order_from_book. cbv zeta. intros H.
  apply bind_Ok in H as (b1 & H1 & H). apply bind_Ok in H as (b2 & H2 & H).
  apply bind_Ok in H as (pool & Hd & [= <-]). apply deallocate_n_blocks in Hd.
  unfold set_client_order_at in H2. case_match; [|done]. injection H2 as <-. cbn in Hd.
  apply (same_sizes_trans _ b1); [|by split]. clear Hd.
  case_bool_decide.
  - by apply remove_price_level_sizes in H1.
  - apply bind_Ok in H1 as (x & _ & H1). apply bind_Ok in H1 as (y & _ & H1).
    apply bind_Ok in H1 as (z & _ & [= <-]). case_bool_decide; by split.
Qed.

Lemma match_sizes b tk cid sd coid moid o qr r :
  match_ b tk cid sd coid moid o qr = Ok r -> same_sizes b r.2.
Proof.
  unfold match_. cbv zeta. case_match.
  - intros (b1 & H1 & [= <-])%bind_Ok. apply remove_order_from_book_sizes in H1.
    cbn [snd]. revert H1. apply same_sizes_trans. by split.
  - intros [= <-]. by split.
Qed.

Lemma find_match_loop_sizes fuel : forall b cid coid tk side price moid qr r,
  find_match_loop fuel b cid coid tk side price moid qr = Ok r -> same_sizes b r.2.
Proof.
  induction fuel as [|fuel IH]; intros b cid coid tk side price moid qr r; [done|].
  cbn [find_match_loop]. case_match; [by intros [= <-]|].
  case_match; [|by intros [= <-]].
  intros (h & _ & Hm)%bind_Ok. case_match; [by injection Hm as <-|].
  apply bind_Ok in Hm as ([qr1 b1] & Hm1 & Hm). apply match_sizes in Hm1. apply IH in Hm.
  by eapply same_sizes_trans.
Qed.

End PoolSizes.

(** ** The queue of a side, and the place of a new order in it *)

Section Queueing.
Import Common Run LL Exchange.
Implicit Types (b : OMEOrderBook) (s : Side) (o l : N) (g mine theirs : Levels).

(** An order at [price] goes before the resting order [x] of its side. *)
Definition comes_before (side : Side) (price : Price) (x : Order.OMEOrder) : bool :=
  if decide (side = BUY) then Order.price x <? price else price <? Order.price x.

(** Price-time priority: a new order goes behind the orders at its price
    and at better prices. *)
Fixpoint enqueue (side : Side) (od : Order.OMEOrder) (ods : list Order.OMEOrder)
  : list Order.OMEOrder :=
  match ods with
  | [] => [od]
  | x :: tl =>
      if comes_before side (Order.price od) x then od :: ods
      else x :: enqueue side od tl
  end.

(** The priority of a new order: one more than that of the last order at
    its price, or 1. *)
Definition next_priority (price : Price) (ods : list Order.OMEOrder) : Priority :=
  match last (filter (fun x => Order.price x = price) ods) with
  | Some x => wrap_u64 (Order.priority x + 1)
  | None => 1
  end.

Lemma comes_before_true s (p : Price) x :
  comes_before s p x = true <-> before s p (Order.price x).
Proof.
  unfold comes_before, before. destruct (decide (s = BUY)); apply Z.ltb_lt.
Qed.

Lemma comes_before_false s (p : Price) x :
  comes_before s p x = false <-> ~ before s p (Order.price x).
Proof. rewrite <- comes_before_true. by destruct (comes_before s p x). Qed.

Lemma enqueue_app s od pre post :
  Forall (fun x => comes_before s (Order.price od) x = false) pre ->
  match post with
  | [] => True
  | x :: _ => comes_before s (Order.price od) x = true
  end ->
  enqueue s od (pre ++ post) = pre ++ od :: post.
Proof.
  induction pre as [|x pre IH]; intros Hpre Hpost; cbn [app enqueue].
  - destruct post as [|y post]; [done|]. cbn [enqueue]. by rewrite Hpost.
  - apply Forall_cons in Hpre as [-> Hpre]. by rewrite IH.
Qed.

Lemma oview_app b g1 g2 : oview b (g1 ++ g2) = oview b g1 ++ oview b g2.
Proof. unfold oview. by rewrite order_ptrs_app, fmap_app. Qed.

Lemma oview_level b l q g : oview b ((l, q) :: g) = (odata (order_pool b) <$> q) ++ oview b g.
Proof. unfold oview. by rewrite order_ptrs_cons, fmap_app. Qed.

(** The orders of a level are at the price of the level. *)
Lemma level_ok_prices LP OP s (lv : N * list N) o :
  level_ok LP OP s lv -> o ∈ lv.2 -> Order.price (odata OP o) = Level.price (read LP lv.1).
Proof.
  intros (_ & _ & _ & Hf) Hin. rewrite Forall_forall in Hf.
  by destruct (Hf o Hin) as (_ & ? & _).
Qed.

Lemma oview_prices b s g x :
  Forall (level_ok (orders_at_price_pool b) (order_pool b) s) g ->
  x ∈ oview b g -> Order.price x ∈ prices (orders_at_price_pool b) g.
Proof.
  intros Hf. unfold oview. intros (o & -> & Ho)%list_elem_of_fmap.
  apply elem_of_order_ptrs in Ho as (lv & Hin & Ho).
  rewrite Forall_forall in Hf. rewrite (level_ok_prices _ _ s lv) by auto.
  unfold prices. apply list_elem_of_fmap. by exists lv.
Qed.

End Queueing.

Section Queueing2.
Import Common Run LL Exchange.
Implicit Types (b : OMEOrderBook) (s : Side) (o l : N) (g mine theirs : Levels).

(** The levels around a level of a sorted side are at other prices, before
    it and behind it. *)
Lemma side_ok_around LP OP s hd g1 (lv : N * list N) g2 :
  side_ok LP OP s hd (g1 ++ lv :: g2) ->
  (forall p, p ∈ prices LP g1 -> before s p (Level.price (read LP lv.1)))
  /\ (forall p, p ∈ prices LP g2 -> before s (Level.price (read LP lv.1)) p).
Proof.
  intros (_ & _ & _ & Hs). rewrite prices_app, prices_cons in Hs.
  apply StronglySorted_app_iff in Hs as (H1 & _ & Hs).
  apply StronglySorted_cons_iff in Hs as (H2 & _). rewrite Forall_forall in H2.
  split; [|done]. intros p Hp. apply H1; [done|]. by left.
Qed.

(** The queue of a side whose level [l] has [o] as its last order is the
    queue without [o] with [o] put in. *)
Lemma side_ok_enqueue LP OP s hd g1 l q o g2 :
  s = BUY \/ s = SELL ->
  side_ok LP OP s hd (g1 ++ (l, q ++ [o]) :: g2) ->
  odata OP <$> order_ptrs (g1 ++ (l, q ++ [o]) :: g2)
  = enqueue s (odata OP o) (odata OP <$> (order_ptrs g1 ++ q ++ order_ptrs g2)).
Proof.
  intros Hs Hok. pose proof (side_ok_around _ _ _ _ _ _ _ Hok) as [Hb1 Hb2].
  destruct Hok as (_ & _ & Hf & _). cbn [fst snd] in *.
  apply Forall_app in Hf as [Hf1 Hf]. apply Forall_cons in Hf as [Hlv Hf2].
  assert (forall x, x ∈ q ++ [o] -> Order.price (odata OP x) = Level.price (read LP l)) as Hq.
  { intros x Hx. by apply (level_ok_prices LP OP s (l, q ++ [o])). }
  assert (odata OP <$> (order_ptrs g1 ++ q ++ order_ptrs g2)
          = ((odata OP <$> order_ptrs g1) ++ (odata OP <$> q)) ++ (odata OP <$> order_ptrs g2))
    as -> by (by rewrite !fmap_app, app_assoc).
  rewrite enqueue_app.
  - rewrite order_ptrs_app, order_ptrs_cons. cbn [fst snd].
    rewrite !fmap_app, <- !app_assoc. done.
  - rewrite Hq by set_solver. apply Forall_app. split.
    + apply Forall_forall. intros x (p & -> & Hp)%list_elem_of_fmap.
      apply comes_before_false. intros Hb.
      apply elem_of_order_ptrs in Hp as (lv & Hin & Hp).
      rewrite (level_ok_prices LP OP s lv) in Hb; [|by apply (proj1 (Forall_forall _ _) Hf1)|done].
      apply (before_irrefl s (Level.price (read LP l))).
      eapply before_trans; [exact Hb|]. apply Hb1. apply prices_elem_of. eauto.
    + apply Forall_forall. intros x (p & -> & Hp)%list_elem_of_fmap.
      apply comes_before_false. rewrite Hq by set_solver. apply before_irrefl.
  - destruct (odata OP <$> order_ptrs g2) as [|x tl] eqn:Hg2; [done|].
    assert (x ∈ odata OP <$> order_ptrs g2) as Hx by (rewrite Hg2; by left).
    apply list_elem_of_fmap in Hx as (p & -> & Hp).
    apply elem_of_order_ptrs in Hp as (lv & Hin & Hp).
    apply comes_before_true. rewrite Hq by set_solver.
    rewrite (level_ok_prices LP OP s lv); [|by apply (proj1 (Forall_forall _ _) Hf2)|done].
    apply Hb2. apply prices_elem_of. eauto.
Qed.

Lemma filter_none {A} (P : A -> Prop) `{!forall x, Decision (P x)} (l : list A) :
  Forall (fun x => ~ P x) l -> filter P l = [].
Proof.
  induction l as [|x l IH]; [done|]. intros [Hx Hl]%Forall_cons.
  rewrite filter_cons_False by done. by apply IH.
Qed.

Lemma filter_all {A} (P : A -> Prop) `{!forall x, Decision (P x)} (l : list A) :
  Forall P l -> filter P l = l.
Proof.
  induction l as [|x l IH]; [done|]. intros [Hx Hl]%Forall_cons.
  rewrite filter_cons_True by done. by rewrite IH.
Qed.

(** The orders of a side at a price that none of its levels has. *)
Lemma filter_oview_other b s g (price : Price) :
  Forall (level_ok (orders_at_price_pool b) (order_pool b) s) g ->
  price ∉ prices (orders_at_price_pool b) g ->
  filter (fun x => Order.price x = price) (oview b g) = [].
Proof.
  intros Hf Hn. apply filter_none, Forall_forall. intros x Hx Hp.
  apply Hn. rewrite <- Hp. by eapply oview_prices.
Qed.

Lemma filter_level_orders LP OP s (lv : N * list N) :
  level_ok LP OP s lv ->
  filter (fun x => Order.price x = Level.price (read LP lv.1)) (odata OP <$> lv.2)
  = odata OP <$> lv.2.
Proof.
  intros Hlv. apply filter_all, Forall_forall. intros x (p & -> & Hp)%list_elem_of_fmap.
  by apply (level_ok_prices LP OP s lv).
Qed.

(** The level that the table has for a price is a level of side [s] when
    no level of the other side is within reach of the price. *)
Lemma level_for_price_mine b s mine theirs xo (price : Price) l :
  Sided b s mine theirs xo ->
  (forall l, l ∈ level_ptrs (mine ++ theirs) ->
     price_to_index (Level.price (level b l)) = price_to_index price ->
     Level.price (level b l) = price) ->
  (forall q, q ∈ prices (orders_at_price_pool b) theirs -> before s q price) ->
  get_level_for_price b price = Some l ->
  Level.price (level b l) = price /\ exists g1 q g2, mine = g1 ++ (l, q) :: g2.
Proof.
  intros HS Hcol Hnx Hgl. apply (sd_price_map _ _ _ _ _ HS) in Hgl as [Hl Hidx].
  specialize (Hcol l Hl Hidx). split; [done|].
  apply elem_of_level_ptrs_split.
  rewrite level_ptrs_app, elem_of_app in Hl. destruct Hl as [Hl|Hl]; [done|exfalso].
  apply (before_irrefl s price). apply Hnx. rewrite <- Hcol. by apply prices_level_ptrs.
Qed.

Lemma no_level_for_price b s mine theirs xo (price : Price) :
  Sided b s mine theirs xo ->
  get_level_for_price b price = None ->
  price ∉ prices (orders_at_price_pool b) (mine ++ theirs).
Proof.
  intros HS Hgl Hin. apply prices_elem_of in Hin as (lv & Hin & Hp).
  assert (map_price_to_price_level b !! price_to_index price = Some lv.1) as Hsome.
  { apply (sd_price_map _ _ _ _ _ HS). split; [|by rewrite Hp].
    unfold level_ptrs. by apply list_elem_of_fmap_2. }
  unfold get_level_for_price in Hgl. congruence.
Qed.

(** [get_next_priority] before a new order of side [s] is put in. *)
Lemma get_next_priority_spec b s mine theirs xo (price : Price) :
  s = BUY \/ s = SELL ->
  Sided b s mine theirs xo ->
  (forall l, l ∈ level_ptrs (mine ++ theirs) ->
     price_to_index (Level.price (level b l)) = price_to_index price ->
     Level.price (level b l) = price) ->
  (forall q, q ∈ prices (orders_at_price_pool b) theirs -> before s q price) ->
  get_next_priority b price = Ok (next_priority price (oview b mine)).
Proof.
  intros Hs HS Hcol Hnx. unfold get_next_priority, next_priority.
  destruct (get_level_for_price b price) as [l|] eqn:Hgl.
  - destruct (level_for_price_mine _ _ _ _ _ _ _ HS Hcol Hnx Hgl) as (Hp & g1 & q & g2 & ->).
    pose proof (sd_mine _ _ _ _ _ HS) as Hm.
    pose proof (side_ok_around _ _ _ _ _ _ _ Hm) as [Hb1 Hb2].
    destruct Hm as (_ & _ & Hf & _). cbn [fst snd] in *.
    apply Forall_app in Hf as [Hf1 Hf]. apply Forall_cons in Hf as [Hlv Hf2].
    pose proof Hlv as (_ & Hlh & Hlr & _). cbn [fst snd] in *.
    destruct q as [|h t]; [done|]. cbn [head] in Hlh.
    pose proof (ring_prev_first _ _ _ _ Hlr) as Hpe.
    unfold level, order. rewrite Hlh. cbn [deref mbind Result_bind].
    unfold oprev in Hpe. rewrite Hpe. cbn [deref mbind Result_bind].
    rewrite oview_app, oview_level, !filter_app.
    rewrite (filter_oview_other _ s g1), (filter_oview_other _ s g2); try done.
    + unfold level in Hp. rewrite <- Hp.
      rewrite (filter_level_orders _ _ s (l, h :: t)) by done. cbn [fst snd app].
      rewrite app_nil_r, fmap_last, last_List_last. done.
    + intros Hin. apply (before_irrefl s price). unfold level in Hp. rewrite <- Hp at 1.
      by apply Hb2.
    + intros Hin. apply (before_irrefl s price). unfold level in Hp. rewrite <- Hp at 2.
      by apply Hb1.
  - pose proof (no_level_for_price _ _ _ _ _ _ HS Hgl) as Hn.
    rewrite prices_app, elem_of_app in Hn.
    rewrite (filter_oview_other _ s); [done| |tauto].
    apply (sd_mine _ _ _ _ _ HS).
Qed.

End Queueing2.

Section AddFacts.
Import Common Run LL Exchange.
Implicit Types (b : OMEOrderBook) (s : Side) (o l : N) (g mine theirs : Levels).

Lemma wpx_with_eq {A} E (m : Result A) Q : wpx E m Q -> wpx E m (fun a => m = Ok a /\ Q a).
Proof. by destruct m. Qed.

Lemma add_price_level_sizes b l b' : add_price_level b l = Ok b' -> same_sizes b b'.
Proof.
  unfold add_price_level. cbv zeta. case_match.
  - intros ([tg af] & _ & Hr)%bind_Ok. apply bind_Ok in Hr as ([tg' af'] & _ & Hr).
    destruct af'.
    + apply bind_Ok in Hr as (x & _ & Hr). apply bind_Ok in Hr as (y & _ & [= <-]). by split.
    + apply bind_Ok in Hr as (x & _ & Hr). case_match; injection Hr as <-; [|by split].
      unfold same_sizes. cbn. unfold set_side_head. by case_decide.
  - intros [= <-]. unfold same_sizes. cbn. unfold set_side_head. by case_decide.
Qed.

Lemma add_order_to_book_sizes b o b' : add_order_to_book b o = Ok b' -> same_sizes b b'.
Proof.
  unfold add_order_to_book. cbv zeta. intros (b1 & H1 & H2)%bind_Ok.
  unfold set_client_order_at in H2. case_match; [|done]. injection H2 as <-.
  apply (same_sizes_trans _ b1); [|by split].
  case_match.
  - apply bind_Ok in H1 as (x & _ & H1). apply bind_Ok in H1 as (y & _ & [= <-]). by split.
  - apply bind_Ok in H1 as ([lv pool] & Ha & H1). apply allocate_n_blocks in Ha.
    apply add_price_level_sizes in H1. revert H1. apply same_sizes_trans. by split.
Qed.

(** When the first resting order of a side is out of reach of a price, so
    are all its levels. *)
Lemma out_of_reach_before side (price : Price) x :
  out_of_reach side price x = true <-> before side (Order.price x) price.
Proof. unfold out_of_reach, before. destruct (decide (side = BUY)); apply Z.ltb_lt. Qed.

Lemma unreachable_levels b side rest hd (price : Price) :
  side = BUY \/ side = SELL ->
  side_ok (orders_at_price_pool b) (order_pool b) (opposite side) hd rest ->
  match oview b rest with
  | [] => True
  | x :: _ => out_of_reach side price x = true
  end ->
  forall q, q ∈ prices (orders_at_price_pool b) rest -> before side q price.
Proof.
  intros Hs (_ & _ & Hf & Hsort) Hx q Hq.
  destruct rest as [|[l ql] g]; [by apply elem_of_nil in Hq|].
  apply Forall_cons in Hf as [Hlv Hf]. pose proof Hlv as (_ & _ & Hr & _).
  cbn [fst snd] in *. destruct ql as [|h t]; [done|].
  rewrite oview_cons in Hx. apply out_of_reach_before in Hx.
  rewrite (level_ok_prices (orders_at_price_pool b) (order_pool b) (opposite side)
             (l, h :: t) h) in Hx; [|done|by left].
  cbn [fst] in Hx.
  rewrite prices_cons in Hq, Hsort. cbn [fst] in *.
  apply elem_of_cons in Hq as [->|Hq]; [done|].
  apply StronglySorted_cons_iff in Hsort as [Hall _]. rewrite Forall_forall in Hall.
  eapply before_trans; [|exact Hx]. apply before_opposite; [done|]. by apply Hall.
Qed.

Lemma size_list_to_set_le (l1 l2 : list N) :
  l1 ⊆ l2 -> (size (list_to_set (C := gset N) l1) <= size (list_to_set (C := gset N) l2))%nat.
Proof. intros H. apply subseteq_size. set_solver. Qed.

End AddFacts.

(** ** [add] *)

Section Adding.
Import Common Run LL Exchange.
Implicit Types (b : OMEOrderBook) (s : Side) (o l : N) (g mine theirs : Levels).

(** The two ways [add] can end the process: what is left of the order is
    to rest and its ids are outside the client table, or a pool hands out
    its last free block. *)
Definition add_stops b (cid : ClientID) (coid : OrderID) (st : Stop) : Prop :=
  (st = Terminate_out_of_range /\ client_order_in_range cid coid = false)
  \/ (st = Exit_pool_overrun
      /\ ((N.to_nat (n_blocks (order_pool b)) <= size (used (order_pool b)) + 1)%nat
          \/ (N.to_nat (n_blocks (orders_at_price_pool b))
              <= size (used (orders_at_price_pool b)) + 1)%nat)).

Lemma Sided_messages b b' s mine theirs xo :
  Sided b s mine theirs xo ->
  orders_at_price_pool b' = orders_at_price_pool b ->
  order_pool b' = order_pool b ->
  bids_by_price b' = bids_by_price b -> asks_by_price b' = asks_by_price b ->
  map_price_to_price_level b' = map_price_to_price_level b ->
  map_client_id_to_order b' = map_client_id_to_order b ->
  Sided b' s mine theirs xo.
Proof.
  intros HS ELP EOP Eb Ea Epm Ecm.
  eapply (Sided_requantify _ _ _ _ _ _ HS); rewrite ?EOP; try done.
  apply (sd_order_pool _ _ _ _ _ HS).
Qed.

Lemma opposite_side s : opposite s = BUY \/ opposite s = SELL.
Proof. unfold opposite. case_decide; auto. Qed.

Lemma side_ok_qtys b s hd g :
  side_ok (orders_at_price_pool b) (order_pool b) s hd g ->
  Forall (fun od => 0 <= Order.qty od) (oview b g).
Proof.
  intros (_ & _ & Hf & _). apply Forall_forall. intros x (o & -> & Ho)%list_elem_of_fmap.
  apply elem_of_order_ptrs in Ho as (lv & Hin & Ho). rewrite Forall_forall in Hf.
  destruct (Hf lv Hin) as (_ & _ & _ & Hq). rewrite Forall_forall in Hq.
  destruct (Hq o Ho) as (_ & _ & ? & _). cbn. lia.
Qed.

Lemma add_spec b side mine theirs cid coid tk price qty :
  side = BUY \/ side = SELL ->
  Sided b side mine theirs [] ->
  0 <= qty < 2 ^ 32 ->
  (forall l, l ∈ level_ptrs (mine ++ theirs) ->
     price_to_index (Level.price (level b l)) = price_to_index price ->
     Level.price (level b l) = price) ->
  wpx (add_stops b cid coid) (add b cid coid tk side price qty) (fun b' =>
    let moid := next_market_oid b in
    let sw := sweep side price tk cid coid moid (oview b theirs) qty in
    let prio := next_priority price (oview b mine) in
    exists mine' theirs',
      Sided b' side mine' theirs' []
      /\ oview b' theirs' = sw_rest sw
      /\ oview b' mine'
         = (if sw_qty sw =? 0 then oview b mine
            else enqueue side (Order.mk tk cid coid moid side price (sw_qty sw) prio None None)
                         (oview b mine))
      /\ tx_responses b'
         = tx_responses b
           ++ Response.mkResponse Response.ACCEPTED cid tk coid moid side price 0 qty
              :: sw_responses sw
      /\ tx_market_updates b'
         = tx_market_updates b ++ sw_updates sw
           ++ (if sw_qty sw =? 0 then []
               else [Update.mkUpdate Update.ADD moid tk side price (sw_qty sw) prio])
      /\ next_market_oid b' = wrap_u64 (moid + 1)
      /\ assigned_ticker b' = assigned_ticker b
      /\ same_sizes b b').
Proof.
  intros Hs HS Hqty Hcol.
  unfold add, get_new_market_order_id. cbv beta iota zeta.
  set (b0 := send_client_response _ _).
  assert (Sided b0 side mine theirs []) as HS0.
  { by eapply (Sided_messages _ _ _ _ _ _ HS). }
  pose proof (Sided_swap _ _ _ _ _ Hs HS0) as HS0'.
  apply wpx_bind. unfold find_match. rewrite decide_True by done.
  eapply wpx_mono;
    [apply wpx_with_eq;
     eapply (find_match_loop_spec _ _ b0 side theirs mine [] cid coid tk price
               (next_market_oid b) qty Hs HS0' Hqty)|done|].
  { destruct (sd_order_pool _ _ _ _ _ HS0') as [_ Hus].
    pose proof (sd_orders_nodup _ _ _ _ _ HS0') as Hnd. rewrite app_nil_r in Hus, Hnd.
    rewrite order_ptrs_app in Hus, Hnd.
    pose proof (length_le_stored _ _ _ Hnd Hus). lia. }
  intros [qr1 b1] (Hrun & rest' & HS1 & Eq & Etxr & Etxu & Ev & Enoid & Etk & Hpr & Hod & Hl & Ho
                   & Hcm).
  apply find_match_loop_sizes in Hrun. cbn [fst snd] in *.
  change (oview b0 theirs) with (oview b theirs) in *.
  set (sw := sweep side price tk cid coid (next_market_oid b) (oview b theirs) qty) in *.
  assert (same_sizes b b1) as Hsz by exact Hrun.
  pose proof (Sided_swap _ _ _ _ _ (opposite_side side) HS1) as HS1'.
  rewrite opposite_involutive in HS1' by done.
  pose proof (sd_orders_nodup _ _ _ _ _ HS0') as Hnd. rewrite app_nil_r, order_ptrs_app in Hnd.
  assert (forall p, p ∈ order_ptrs mine -> odata (order_pool b1) p = odata (order_pool b) p)
    as Hodm.
  { intros p Hp. apply Hod. apply NoDup_app in Hnd as (_ & Hd & _). intros Hin.
    by apply (Hd p). }
  assert (oview b1 mine = oview b mine) as Hvm by (by apply oview_ext).
  assert (0 <= qr1 <= qty) as Hqr1.
  { rewrite Eq. apply sweep_qty_bounds; [lia|]. apply (side_ok_qtys b _ _ _ (sd_theirs _ _ _ _ _ HS)). }
  assert (tx_responses b1
          = tx_responses b
            ++ Response.mkResponse Response.ACCEPTED cid tk coid (next_market_oid b) side price
                                   0 qty :: sw_responses sw) as Etxr'.
  { rewrite Etxr. subst b0. cbn. by rewrite <- app_assoc. }
  destruct (Z.eqb_spec qr1 0) as [Hz|Hnz].
  - cbn [wpx]. exists mine, rest'. rewrite <- Eq, Hz. cbn [Z.eqb].
    rewrite app_nil_r. split_and!; try done.
  - assert (forall l, l ∈ level_ptrs (mine ++ rest') ->
              price_to_index (Level.price (level b1 l)) = price_to_index price ->
              Level.price (level b1 l) = price) as Hcol1.
    { intros l Hin. rewrite Hpr. apply Hcol. rewrite level_ptrs_app, elem_of_app in *.
      destruct Hin as [Hin|Hin]; [by left|right]. by apply Hl. }
    assert (forall q, q ∈ prices (orders_at_price_pool b1) rest' -> before side q price) as Hnx1.
    { apply (unreachable_levels b1 side rest' _ price Hs (sd_mine _ _ _ _ _ HS1)).
      rewrite Ev. destruct (sweep_stops side price tk cid coid (next_market_oid b)
                              (oview b theirs) qty) as [Hq|Hq]; [|exact Hq].
      fold sw in Hq. lia. }
    rewrite (get_next_priority_spec b1 side mine rest' [] price Hs HS1' Hcol1 Hnx1).
    cbn [mbind Result_bind]. rewrite Hvm.
    set (prio := next_priority price (oview b mine)).
    set (obj := Order.mk tk cid coid (next_market_oid b) side price qr1 prio None None).
    destruct (sd_order_pool _ _ _ _ _ HS1') as [Hwf1 Hus1].
    destruct (sd_level_pool _ _ _ _ _ HS1') as [Hwfl1 Husl1].
    destruct (sd_order_pool _ _ _ _ _ HS) as [_ Hus]. destruct (sd_level_pool _ _ _ _ _ HS) as [_ Husl].
    destruct Hsz as [Hsz1 Hsz2].
    destruct (allocate_spec (order_pool b1) obj Hwf1)
      as [(OP2 & Hal & Hwf2 & Hnb2 & Hst2 & Hus2 & _)|[Hal Hfull]];
      rewrite Hal; cbn [mbind Result_bind wpx].
    2: { right. split; [done|left]. rewrite <- Hsz1, <- Hfull.
         assert (size (used (order_pool b1)) <= size (used (order_pool b)))%nat; [|lia].
         rewrite Hus1, Hus. apply size_list_to_set_le. rewrite !app_nil_r, !order_ptrs_app.
         intros x. rewrite !elem_of_app. intros [Hx|Hx]; [by left|right; by apply Ho]. }
    set (o := i_next_free (order_pool b1)) in *. set (b2 := set_order_pool b1 OP2).
    pose proof (cursor_not_used _ Hwf1) as Hfresh. fold o in Hfresh.
    pose proof (fun j => read_allocated (order_pool b1) OP2 obj j Hst2) as Hrd. fold o in Hrd.
    assert (read OP2 o = obj) as Hro by (by rewrite Hrd, decide_True).
    assert (Sided b2 side mine rest' [o]) as HS2.
    { apply (Sided_allocate b1 b2 _ _ _ _ _ HS1'); try done.
      intros p Hp. by rewrite Hrd, decide_False. }
    assert (order b2 o = obj) as Hobj by exact Hro.
    apply wpx_bind.
    eapply wpx_mono;
      [apply wpx_with_eq; eapply (add_order_to_book_spec b2 side mine rest' o [] Hs HS2)| |];
      rewrite ?Hobj; cbn [Order.side Order.price Order.qty Order.client_id Order.client_order_id obj];
      try done.
    { lia. }
    { intros st [[-> Hr]|[-> (Hgl & Hfull)]]; [left; by rewrite Hobj in Hr|right].
      split; [done|right].
      change (orders_at_price_pool b2) with (orders_at_price_pool b1) in Hfull.
      rewrite <- Hsz2, <- Hfull.
      assert (size (used (orders_at_price_pool b1)) <= size (used (orders_at_price_pool b)))%nat;
        [|lia].
      rewrite Husl1, Husl. apply size_list_to_set_le. rewrite !level_ptrs_app.
      intros x. rewrite !elem_of_app. intros [Hx|Hx]; [by left|right; by apply Hl]. }
    intros b3 (Hrun3 & mine' & HS3 & Hpl & Hod3 & Hld3 & Ecm3 & Hmsg3).
    apply add_order_to_book_sizes in Hrun3. cbn [wpx].
    exists mine', rest'.
    set (b4 := send_market_update _).
    destruct Hmsg3 as (M1 & M2 & M3 & M4 & M5 & M6).
    assert (forall p, p <> o -> odata (order_pool b3) p = odata (order_pool b1) p) as Hod31.
    { intros p Hp. rewrite Hod3. unfold odata. change (order_pool b2) with OP2.
      by rewrite Hrd, decide_False. }
    assert (forall p, p ∈ order_ptrs (mine ++ rest') -> p <> o) as Hno.
    { intros p Hp ->. apply Hfresh. rewrite Hus1. apply elem_of_list_to_set.
      by rewrite app_nil_r. }
    assert (odata (order_pool b3) <$> order_ptrs mine = oview b mine) as Hmine3.
    { rewrite <- Hvm. apply Forall_fmap_ext_1, Forall_forall. intros p Hp. apply Hod31, Hno.
      rewrite order_ptrs_app, elem_of_app. by left. }
    assert (odata (order_pool b3) o = obj) as Ho3.
    { rewrite Hod3. unfold odata. change (order_pool b2) with OP2. by rewrite Hro. }
    rewrite <- Eq. rewrite (proj2 (Z.eqb_neq _ _) Hnz).
    split_and!.
    + by eapply (Sided_messages _ _ _ _ _ _ HS3).
    + change (oview b4 rest') with (oview b3 rest'). rewrite <- Ev. apply oview_ext.
      intros p Hp. apply Hod31, Hno. rewrite order_ptrs_app, elem_of_app. by right.
    + change (oview b4 mine') with (odata (order_pool b3) <$> order_ptrs mine').
      fold obj. rewrite <- Hmine3, <- Ho3.
      destruct Hpl as [(g1 & l & q & g2 & -> & -> & Hp)|(g1 & g2 & lnew & -> & -> & Hnp & Hp)].
      * rewrite (side_ok_enqueue _ _ side _ g1 l q o g2 Hs (sd_mine _ _ _ _ _ HS3)).
        by rewrite order_ptrs_app, order_ptrs_cons.
      * change [o] with ([] ++ [o]).
        rewrite (side_ok_enqueue _ _ side _ g1 lnew [] o g2 Hs (sd_mine _ _ _ _ _ HS3)).
        by rewrite order_ptrs_app.
    + change (tx_responses b4) with (tx_responses b3). by rewrite M5.
    + change (tx_market_updates b4)
        with (tx_market_updates b3
              ++ [Update.mkUpdate Update.ADD (next_market_oid b) tk side price qr1 prio]).
      rewrite M6. change (tx_market_updates b2) with (tx_market_updates b1).
      rewrite Etxu. by rewrite <- app_assoc.
    + change (next_market_oid b4) with (next_market_oid b3). by rewrite M4.
    + change (assigned_ticker b4) with (assigned_ticker b3). by rewrite M1.
    + destruct Hrun3 as [S1 S2]. split.
      * change (order_pool b4) with (order_pool b3). rewrite S1.
        change (order_pool b2) with OP2. by rewrite Hnb2.
      * change (orders_at_price_pool b4) with (orders_at_price_pool b3). by rewrite S2.
Qed.

End Adding.

(** ** [cancel] *)

Section Cancelling.
Import Common Run LL Exchange.
Implicit Types (b : OMEOrderBook) (s : Side) (o l : N) (g mine theirs : Levels).

Lemma remove_order_view b b' g1 l q1 o q2 g2 :
  (forall p, odata (order_pool b') p = odata (order_pool b) p) ->
  oview b (g1 ++ (l, q1 ++ o :: q2) :: g2)
  = oview b g1 ++ (odata (order_pool b) <$> q1) ++ odata (order_pool b) o
    :: (odata (order_pool b) <$> q2) ++ oview b g2
  /\ oview b' (g1 ++ drop_empty (l, q1 ++ q2) g2)
     = oview b g1 ++ (odata (order_pool b) <$> q1) ++ (odata (order_pool b) <$> q2)
       ++ oview b g2.
Proof.
  intros Hod. split.
  - rewrite oview_app, oview_level, fmap_app, fmap_cons. by rewrite <- !app_assoc.
  - rewrite (oview_ext b b') by (intros; apply Hod).
    unfold oview. rewrite order_ptrs_app, order_ptrs_drop_empty, !fmap_app.
    by rewrite <- !app_assoc.
Qed.

(** [cancel] of an order that rests on side [s]. *)
Lemma cancel_spec E b s g1 l q1 o q2 g2 theirs cid oid tk :
  Sided b s (g1 ++ (l, q1 ++ o :: q2) :: g2) theirs [] ->
  map_client_id_to_order b !! (cid, oid) = Some o ->
  wpx E (cancel b cid oid tk) (fun b' =>
    Sided b' s (g1 ++ drop_empty (l, q1 ++ q2) g2) theirs []
    /\ tx_responses b'
       = tx_responses b
         ++ [Response.mkResponse Response.CANCELLED cid tk oid
               (Order.market_order_id (order b o)) (Order.side (order b o))
               (Order.price (order b o)) Qty_INVALID (Order.qty (order b o))]
    /\ tx_market_updates b'
       = tx_market_updates b
         ++ [Update.mkUpdate Update.CANCEL (Order.market_order_id (order b o)) tk
               (Order.side (order b o)) (Order.price (order b o)) 0
               (Order.priority (order b o))]
    /\ (forall p, odata (order_pool b') p = odata (order_pool b) p)
    /\ (forall p, Level.price (level b' p) = Level.price (level b p))
    /\ map_client_id_to_order b' = delete (cid, oid) (map_client_id_to_order b)
    /\ next_market_oid b' = next_market_oid b
    /\ assigned_ticker b' = assigned_ticker b
    /\ same_sizes b b').
Proof.
  intros HS Hcm.
  destruct (sd_client_map _ _ _ _ _ HS _ _ _ Hcm) as (_ & Hc & Ho).
  assert (order_ok (order_pool b) s (Level.price (read (orders_at_price_pool b) l)) o)
    as (_ & _ & _ & Hr).
  { assert (level_ok (orders_at_price_pool b) (order_pool b) s (l, q1 ++ o :: q2))
      as (_ & _ & _ & Hf).
    { eapply side_ok_level_ok; [exact (sd_mine _ _ _ _ _ HS)|].
      rewrite elem_of_app, elem_of_cons. tauto. }
    rewrite Forall_forall in Hf. apply Hf. cbn [snd]. rewrite elem_of_app, elem_of_cons. tauto. }
  rewrite Hc, Ho in Hr.
  unfold cancel, client_order_at. rewrite Hr.
  assert ((cid <? MAX_N_CLIENTS) = true) as ->.
  { unfold client_order_in_range in Hr. by repeat (apply andb_prop in Hr as [Hr ?]). }
  rewrite Hcm. cbn [mbind Result_bind]. cbv zeta.
  set (b0 := set_market_update b _).
  apply wpx_bind.
  eapply wpx_mono;
    [apply wpx_with_eq; eapply (remove_order_from_book_spec E b0 s g1 l q1 o q2 g2 theirs [])
    |done|].
  { by eapply (Sided_messages _ _ _ _ _ _ HS). }
  intros b1 (Hrun & HS1 & Hod & Hpr & Ecm & (M1 & M2 & M3 & M4 & M5 & M6)).
  apply remove_order_from_book_sizes in Hrun. cbn [wpx].
  split_and!; try done.
  - by eapply (Sided_messages _ _ _ _ _ _ HS1).
  - cbn. by rewrite M5.
  - cbn. by rewrite M6, M3.
  - rewrite <- Hc, <- Ho. exact Ecm.
Qed.

(** [cancel] of an order that the client table does not have. *)
Lemma cancel_unknown b (cid : ClientID) (oid : OrderID) tk :
  (cid < MAX_N_CLIENTS -> client_order_in_range cid oid = true
                          /\ map_client_id_to_order b !! (cid, oid) = None) ->
  cancel b cid oid tk
  = Ok (send_client_response b
          (Response.mkResponse Response.CANCEL_REJECTED cid tk oid OrderID_INVALID
             Side_INVALID Price_INVALID Qty_INVALID Qty_INVALID)).
Proof.
  intros H. unfold cancel, client_order_at.
  destruct (Z.ltb_spec cid MAX_N_CLIENTS) as [Hlt|Hge]; [|done].
  destruct (H Hlt) as [Hr Hn]. by rewrite Hr, Hn.
Qed.

End Cancelling.

(** ** The book as its two queues *)

Section BookQueues.
Import Common Run LL Exchange.
Implicit Types (b : OMEOrderBook) (s : Side) (o l : N) (bids asks : Levels).

(** The part of the book for side [side]: [pick side x y] is [x] when
    [x] is for the bids and [y] for the asks. *)
Definition pick {A} (side : Side) (x y : A) : A := if decide (side = BUY) then x else y.

Lemma Shape_pick b side bids asks :
  side = BUY \/ side = SELL ->
  Shape b bids asks <-> Sided b side (pick side bids asks) (pick side asks bids) [].
Proof.
  intros [->| ->]; unfold pick; cbn.
  - apply Shape_Sided.
  - rewrite Shape_Sided. split; intros H.
    + by apply (Sided_swap b BUY bids asks []); [left|].
    + by apply (Sided_swap b SELL asks bids []); [right|].
Qed.

Lemma pick_app side (x y : Levels) :
  level_ptrs (pick side x y ++ pick side y x) ≡ₚ level_ptrs (x ++ y).
Proof.
  unfold pick. case_decide; [done|]. rewrite !level_ptrs_app. apply Permutation_app_comm.
Qed.

(** The result of [add] on a book in its invariant. *)
Lemma add_shape b bids asks cid coid tk side price qty :
  Shape b bids asks ->
  side = BUY \/ side = SELL ->
  0 <= qty < 2 ^ 32 ->
  (forall l, l ∈ level_ptrs (bids ++ asks) ->
     price_to_index (Level.price (level b l)) = price_to_index price ->
     Level.price (level b l) = price) ->
  wpx (add_stops b cid coid) (add b cid coid tk side price qty) (fun b' =>
    let moid := next_market_oid b in
    let sw := sweep side price tk cid coid moid (oview b (pick side asks bids)) qty in
    let prio := next_priority price (oview b (pick side bids asks)) in
    exists bids' asks',
      Shape b' bids' asks'
      /\ oview b' (pick side asks' bids') = sw_rest sw
      /\ oview b' (pick side bids' asks')
         = (if sw_qty sw =? 0 then oview b (pick side bids asks)
            else enqueue side (Order.mk tk cid coid moid side price (sw_qty sw) prio None None)
                         (oview b (pick side bids asks)))
      /\ tx_responses b'
         = tx_responses b
           ++ Response.mkResponse Response.ACCEPTED cid tk coid moid side price 0 qty
              :: sw_responses sw
      /\ tx_market_updates b'
         = tx_market_updates b ++ sw_updates sw
           ++ (if sw_qty sw =? 0 then []
               else [Update.mkUpdate Update.ADD moid tk side price (sw_qty sw) prio])
      /\ next_market_oid b' = wrap_u64 (moid + 1)
      /\ assigned_ticker b' = assigned_ticker b
      /\ same_sizes b b').
Proof.
  intros HS Hs Hqty Hcol. apply (Shape_pick b side bids asks Hs) in HS.
  eapply wpx_mono;
    [eapply (add_spec b side _ _ cid coid tk price qty Hs HS Hqty)|done|].
  { intros l Hl. apply Hcol. by rewrite <- (pick_app side). }
  cbv zeta. intros b' (mine' & theirs' & HS' & H1 & H2 & H3 & H4 & H5 & H6 & H7).
  exists (pick side mine' theirs'), (pick side theirs' mine').
  assert (pick side (pick side mine' theirs') (pick side theirs' mine') = mine') as E1
    by (unfold pick; by case_decide).
  assert (pick side (pick side theirs' mine') (pick side mine' theirs') = theirs') as E2
    by (unfold pick; by case_decide).
  rewrite E1, E2. split_and!; try done.
  apply (Shape_pick b' side _ _ Hs). by rewrite E1, E2.
Qed.

Lemma pick_pick {A} side (x y : A) :
  pick side (pick side x y) (pick side y x) = x /\ pick side (pick side y x) (pick side x y) = y.
Proof. unfold pick. by case_decide. Qed.

(** A resting order is in a level of its side. *)
Lemma Shape_resting b bids asks o :
  Shape b bids asks -> o ∈ order_ptrs (bids ++ asks) ->
  exists s g1 l q1 q2 g2,
    (s = BUY \/ s = SELL)
    /\ Order.side (order b o) = s
    /\ pick s bids asks = g1 ++ (l, q1 ++ o :: q2) :: g2.
Proof.
  intros HS Hin. rewrite order_ptrs_app, elem_of_app in Hin.
  destruct Hin as [Hin|Hin]; apply elem_of_order_ptrs_split in Hin as (g1 & l & q1 & q2 & g2 & E).
  - exists BUY, g1, l, q1, q2, g2. split_and!; [by left| |done].
    destruct (sh_bids _ _ _ HS) as (_ & _ & Hf & _). rewrite E in Hf.
    apply Forall_app in Hf as [_ Hf]. apply Forall_cons in Hf as [(_ & _ & _ & Hq) _].
    cbn [snd] in Hq. apply Forall_app in Hq as [_ Hq]. by apply Forall_cons in Hq as [(? & _) _].
  - exists SELL, g1, l, q1, q2, g2. split_and!; [by right| |done].
    destruct (sh_asks _ _ _ HS) as (_ & _ & Hf & _). rewrite E in Hf.
    apply Forall_app in Hf as [_ Hf]. apply Forall_cons in Hf as [(_ & _ & _ & Hq) _].
    cbn [snd] in Hq. apply Forall_app in Hq as [_ Hq]. by apply Forall_cons in Hq as [(? & _) _].
Qed.

(** The result of [cancel] of a resting order on a book in its
    invariant. *)
Lemma cancel_shape E b bids asks cid oid tk o :
  Shape b bids asks ->
  map_client_id_to_order b !! (cid, oid) = Some o ->
  wpx E (cancel b cid oid tk) (fun b' =>
    let s := Order.side (order b o) in
    exists bids' asks' before_o behind_o,
      Shape b' bids' asks'
      /\ oview b (pick s bids asks) = before_o ++ odata (order_pool b) o :: behind_o
      /\ oview b' (pick s bids' asks') = before_o ++ behind_o
      /\ oview b' (pick s asks' bids') = oview b (pick s asks bids)
      /\ tx_responses b'
         = tx_responses b
           ++ [Response.mkResponse Response.CANCELLED cid tk oid
                 (Order.market_order_id (order b o)) (Order.side (order b o))
                 (Order.price (order b o)) Qty_INVALID (Order.qty (order b o))]
      /\ tx_market_updates b'
         = tx_market_updates b
           ++ [Update.mkUpdate Update.CANCEL (Order.market_order_id (order b o)) tk
                 (Order.side (order b o)) (Order.price (order b o)) 0
                 (Order.priority (order b o))]
      /\ map_client_id_to_order b' = delete (cid, oid) (map_client_id_to_order b)
      /\ next_market_oid b' = next_market_oid b
      /\ assigned_ticker b' = assigned_ticker b
      /\ same_sizes b b').
Proof.
  intros HS Hcm. destruct (sh_client_map _ _ _ HS _ _ _ Hcm) as (Hin & _).
  destruct (Shape_resting _ _ _ _ HS Hin) as (s & g1 & l & q1 & q2 & g2 & Hs & Eside & Epick).
  rewrite Eside. cbv zeta.
  apply (Shape_pick b s bids asks Hs) in HS. rewrite Epick in HS.
  eapply wpx_mono; [eapply (cancel_spec E b s g1 l q1 o q2 g2 _ cid oid tk HS Hcm)|done|].
  intros b' (HS' & Htxr & Htxu & Hod & Hpr & Ecm & Enoid & Etk & Hsz).
  destruct (remove_order_view b b' g1 l q1 o q2 g2 Hod) as [V1 V2].
  set (mine' := g1 ++ drop_empty (l, q1 ++ q2) g2) in *.
  exists (@pick Levels s mine' (pick s asks bids)), (@pick Levels s (pick s asks bids) mine').
  exists (oview b g1 ++ (odata (order_pool b) <$> q1)),
         ((odata (order_pool b) <$> q2) ++ oview b g2).
  assert (@pick Levels s (@pick Levels s mine' (pick s asks bids))
                (@pick Levels s (pick s asks bids) mine') = mine')
    as P1 by (unfold pick; by case_decide).
  assert (@pick Levels s (@pick Levels s (pick s asks bids) mine')
                (@pick Levels s mine' (pick s asks bids))
          = pick s asks bids) as P2 by (unfold pick; by case_decide).
  rewrite P1, P2.
  rewrite Epick. split_and!; try done.
  - apply (Shape_pick b' s _ _ Hs). by rewrite P1, P2.
  - rewrite V1. by rewrite <- !app_assoc.
  - rewrite V2. by rewrite <- !app_assoc.
  - apply oview_ext. intros p _. apply Hod.
  - by rewrite Htxr, Eside.
  - by rewrite Htxu, Eside.
Qed.

End BookQueues.

(** ** Consequences for the users of the exchange order book *)

Section BookFacts.
Import Common Run LL Exchange.
Implicit Types (b : OMEOrderBook) (s : Side) (o l : N) (bids asks : Levels).

(** Both pools have a free block besides the one under the cursor. *)
Definition has_room b : Prop :=
  (size (used (order_pool b)) + 1 < N.to_nat (n_blocks (order_pool b)))%nat
  /\ (size (used (orders_at_price_pool b)) + 1
      < N.to_nat (n_blocks (orders_at_price_pool b)))%nat.

(** The first resting order of the other side, if there is one, is out of
    reach of the price. *)
Definition passive (side : Side) (price : Price) (ods : list Order.OMEOrder) : Prop :=
  match ods with
  | [] => True
  | x :: _ => out_of_reach side price x = true
  end.

Lemma sweep_passive side price tk cid coid moid ods qr :
  passive side price ods ->
  sweep side price tk cid coid moid ods qr = mkSweep qr [] [] ods.
Proof.
  destruct ods as [|x tl]; [done|]. cbn [passive sweep]. intros ->.
  by rewrite orb_true_r.
Qed.

Lemma enqueue_elem side od ods : od ∈ enqueue side od ods.
Proof.
  induction ods as [|x tl IH]; cbn [enqueue]; [by left|].
  destruct (comes_before side (Order.price od) x); [by left|by right].
Qed.

Lemma Shape_in_range b bids asks x :
  Shape b bids asks -> x ∈ oview b (bids ++ asks) ->
  client_order_in_range (Order.client_id x) (Order.client_order_id x) = true.
Proof.
  intros HS (o & -> & Ho)%list_elem_of_fmap.
  rewrite order_ptrs_app, elem_of_app in Ho.
  destruct Ho as [Ho|Ho]; apply elem_of_order_ptrs in Ho as (lv & Hin & Ho).
  - destruct (sh_bids _ _ _ HS) as (_ & _ & Hf & _). rewrite Forall_forall in Hf.
    destruct (Hf lv Hin) as (_ & _ & _ & Hq). rewrite Forall_forall in Hq.
    by destruct (Hq o Ho) as (_ & _ & _ & ?).
  - destruct (sh_asks _ _ _ HS) as (_ & _ & Hf & _). rewrite Forall_forall in Hf.
    destruct (Hf lv Hin) as (_ & _ & _ & Hq). rewrite Forall_forall in Hq.
    by destruct (Hq o Ho) as (_ & _ & _ & ?).
Qed.

Lemma oview_pick_elem b side bids asks x :
  x ∈ oview b (pick side bids asks) -> x ∈ oview b (bids ++ asks).
Proof.
  rewrite oview_app, elem_of_app. unfold pick. case_decide; tauto.
Qed.

Lemma add_stops_excluded b cid coid st :
  has_room b -> client_order_in_range cid coid = true -> ~ add_stops b cid coid st.
Proof. intros [H1 H2] Hr [[_ Hr']|[_ [Hf|Hf]]]; [congruence|lia|lia]. Qed.

End BookFacts.

(** ** [add]: what a user of the book can rely on *)

Section AddTheorems.
Import Common Run LL Exchange.
Implicit Types (b : OMEOrderBook) (bids asks : Levels).

Lemma new_book_has_room ticker : has_room (OMEOrderBook_new ticker).
Proof.
  unfold has_room, OMEOrderBook_new. cbn [order_pool orders_at_price_pool].
  rewrite !used_MemPool_new, size_empty. cbn [n_blocks MemPool_new].
  unfold MAX_ORDER_IDS, MAX_PRICE_LEVELS, OME_SIZE. lia.
Qed.



(** X2: price-time priority.  On a book in its invariant, for a price
    that shares its index in the price table with no level at another
    price, and unless the process ends with an out-of-range access to the
    client table or with a pool that hands out its last free block: after
    [add] the queue of the other side is what [sweep] leaves of it, orders
    being filled from the front, and what is left of the incoming order, if
    anything, is in the queue of its own side behind the orders at its
    price and at better prices, with the priority after the last order at
    its price. *)
Theorem add_price_time_priority b bids asks cid coid tk side price qty :
  Shape b bids asks ->
  side = BUY \/ side = SELL ->
  0 <= qty < 2 ^ 32 ->
  (forall l, l ∈ level_ptrs (bids ++ asks) ->
     price_to_index (Level.price (level b l)) = price_to_index price ->
     Level.price (level b l) = price) ->
  wpx (add_stops b cid coid) (add b cid coid tk side price qty) (fun b' =>
    let moid := next_market_oid b in
    let sw := sweep side price tk cid coid moid (oview b (pick side asks bids)) qty in
    let prio := next_priority price (oview b (pick side bids asks)) in
    exists bids' asks',
      Shape b' bids' asks'
      /\ oview b' (pick side asks' bids') = sw_rest sw
      /\ oview b' (pick side bids' asks')
         = (if sw_qty sw =? 0 then oview b (pick side bids asks)
            else enqueue side (Order.mk tk cid coid moid side price (sw_qty sw) prio None None)
                         (oview b (pick side bids asks)))).
Proof.
  intros HS Hs Hq Hcol. eapply wpx_mono; [by eapply add_shape|done|].
  cbv zeta. intros b' (bids' & asks' & HS' & H1 & H2 & _). eauto.
Qed.

(** X3: what [add] sends.  On a book in its invariant, for a price that
    shares its index in the price table with no level at another price,
    and unless the process ends with an out-of-range access to the client
    table or with a pool that hands out its last free block: the client
    gets ACCEPTED, with the new market order id and the full quantity as
    remaining, and then two FILLED per match; the market gets TRADE and
    CANCEL or MODIFY per match and, when something is left to rest, one ADD
    with what is left and its priority. *)
Theorem add_messages b bids asks cid coid tk side price qty :
  Shape b bids asks ->
  side = BUY \/ side = SELL ->
  0 <= qty < 2 ^ 32 ->
  (forall l, l ∈ level_ptrs (bids ++ asks) ->
     price_to_index (Level.price (level b l)) = price_to_index price ->
     Level.price (level b l) = price) ->
  wpx (add_stops b cid coid) (add b cid coid tk side price qty) (fun b' =>
    let moid := next_market_oid b in
    let sw := sweep side price tk cid coid moid (oview b (pick side asks bids)) qty in
    let prio := next_priority price (oview b (pick side bids asks)) in
    tx_responses b'
    = tx_responses b
      ++ Response.mkResponse Response.ACCEPTED cid tk coid moid side price 0 qty
         :: sw_responses sw
    /\ tx_market_updates b'
       = tx_market_updates b ++ sw_updates sw
         ++ (if sw_qty sw =? 0 then []
             else [Update.mkUpdate Update.ADD moid tk side price (sw_qty sw) prio])
    /\ next_market_oid b' = wrap_u64 (moid + 1)).
Proof.
  intros HS Hs Hq Hcol. eapply wpx_mono; [by eapply add_shape|done|].
  cbv zeta. intros b' (bids' & asks' & HS' & H1 & H2 & H3 & H4 & H5 & _). eauto.
Qed.

(** X4: an order that reaches no resting order rests in full.  On a book
    in its invariant, for a price that shares its index in the price table
    with no level at another price, and unless the process ends with an
    out-of-range access to the client table or with a pool that hands out
    its last free block: the other side is as it was, the order is in the
    queue of its side at the place of its price and time, the client gets
    ACCEPTED and nothing else, and the market gets one ADD with the full
    quantity. *)
Theorem add_passive b bids asks cid coid tk side price qty :
  Shape b bids asks ->
  side = BUY \/ side = SELL ->
  0 < qty < 2 ^ 32 ->
  (forall l, l ∈ level_ptrs (bids ++ asks) ->
     price_to_index (Level.price (level b l)) = price_to_index price ->
     Level.price (level b l) = price) ->
  passive side price (oview b (pick side asks bids)) ->
  wpx (add_stops b cid coid) (add b cid coid tk side price qty) (fun b' =>
    let moid := next_market_oid b in
    let prio := next_priority price (oview b (pick side bids asks)) in
    exists bids' asks',
      Shape b' bids' asks'
      /\ oview b' (pick side asks' bids') = oview b (pick side asks bids)
      /\ oview b' (pick side bids' asks')
         = enqueue side (Order.mk tk cid coid moid side price qty prio None None)
                   (oview b (pick side bids asks))
      /\ tx_responses b'
         = tx_responses b
           ++ [Response.mkResponse Response.ACCEPTED cid tk coid moid side price 0 qty]
      /\ tx_market_updates b'
         = tx_market_updates b ++ [Update.mkUpdate Update.ADD moid tk side price qty prio]).
Proof.
  intros HS Hs Hq Hcol Hp. eapply wpx_mono; [eapply add_shape; try done; lia|done|].
  cbv zeta. rewrite (sweep_passive _ _ _ _ _ _ _ _ Hp). cbn [sw_qty sw_responses sw_updates sw_rest].
  rewrite (proj2 (Z.eqb_neq qty 0)) by lia.
  intros b' (bids' & asks' & HS' & H1 & H2 & H3 & H4 & _). exists bids', asks'. done.
Qed.

(** X5: on a book in its invariant, for a price that shares its index in
    the price table with no level at another price, [add] returns when the
    ids of the order are within the client table and each pool has a free
    block besides the one under its cursor; the book it returns is in its
    invariant and the pools keep their sizes. *)
Theorem add_returns b bids asks cid coid tk side price qty :
  Shape b bids asks ->
  side = BUY \/ side = SELL ->
  0 <= qty < 2 ^ 32 ->
  (forall l, l ∈ level_ptrs (bids ++ asks) ->
     price_to_index (Level.price (level b l)) = price_to_index price ->
     Level.price (level b l) = price) ->
  client_order_in_range cid coid = true ->
  has_room b ->
  exists b', add b cid coid tk side price qty = Ok b'
             /\ same_sizes b b' /\ exists bids' asks', Shape b' bids' asks'.
Proof.
  intros HS Hs Hq Hcol Hr Hroom. apply wpx_returns.
  eapply wpx_mono; [by eapply add_shape| |].
  - intros st Hst. by apply (add_stops_excluded b cid coid st Hroom Hr).
  - cbv zeta. intros b' (bids' & asks' & HS' & _ & _ & _ & _ & _ & _ & Hsz). eauto.
Qed.

(** X6: on a book in its invariant whose pools each have a free block
    besides the one under the cursor, for a price that shares its index in
    the price table with no level at another price: an order that reaches
    no resting order, of which all is to rest, and whose ids are outside the
    client table ends the process: [add_order_to_book] indexes the table
    with [at] in a function declared [noexcept]. *)
Theorem add_ids_out_of_range b bids asks cid coid tk side price qty :
  Shape b bids asks ->
  side = BUY \/ side = SELL ->
  0 < qty < 2 ^ 32 ->
  (forall l, l ∈ level_ptrs (bids ++ asks) ->
     price_to_index (Level.price (level b l)) = price_to_index price ->
     Level.price (level b l) = price) ->
  passive side price (oview b (pick side asks bids)) ->
  has_room b ->
  client_order_in_range cid coid = false ->
  add b cid coid tk side price qty = Stopped Terminate_out_of_range.
Proof.
  intros HS Hs Hq Hcol Hp [R1 R2] Hr.
  assert (H : wpx (add_stops b cid coid) (add b cid coid tk side price qty) (fun b' =>
            exists bids' asks',
              Shape b' bids' asks'
              /\ oview b' (pick side bids' asks')
                 = enqueue side
                     (Order.mk tk cid coid (next_market_oid b) side price qty
                        (next_priority price (oview b (pick side bids asks))) None None)
                     (oview b (pick side bids asks)))).
  { eapply wpx_mono; [eapply add_shape; try done; lia|done|].
    cbv zeta. rewrite (sweep_passive _ _ _ _ _ _ _ _ Hp). cbn [sw_qty].
    rewrite (proj2 (Z.eqb_neq qty 0)) by lia.
    intros b' (bids' & asks' & HS' & _ & H2 & _). exists bids', asks'. done. }
  destruct (add b cid coid tk side price qty) as [b'|st]; cbn [wpx] in H.
  - exfalso. destruct H as (bids' & asks' & HS' & Hown).
    assert (client_order_in_range cid coid = true); [|congruence].
    apply (Shape_in_range b' bids' asks'
             (Order.mk tk cid coid (next_market_oid b) side price qty
                (next_priority price (oview b (pick side bids asks))) None None) HS').
    apply (oview_pick_elem b' side). rewrite Hown. apply enqueue_elem.
  - destruct H as [[-> _]|[_ [Hf|Hf]]]; [done|lia|lia].
Qed.

End AddTheorems.

(** ** [cancel] and [match]: what a user of the book can rely on *)

Section CancelTheorems.
Import Common Run LL Exchange.
Implicit Types (b : OMEOrderBook) (bids asks : Levels).

(** A book with one bid, as [add] leaves it. *)
Lemma one_bid_book :
  exists b bids asks o,
    add (OMEOrderBook_new 0) 1 1 0 BUY 100 10 = Ok b
    /\ Shape b bids asks
    /\ map_client_id_to_order b !! (1, 1) = Some o
    /\ odata (order_pool b) o = Order.mk 0 1 1 1 BUY 100 10 1 None None
    /\ oview b bids = [odata (order_pool b) o] /\ oview b asks = [].
Proof.
  pose proof (add_shape (OMEOrderBook_new 0) [] [] 1 1 0 BUY 100 10 (Shape_new 0)
                (or_introl eq_refl)) as H.
  destruct (add (OMEOrderBook_new 0) 1 1 0 BUY 100 10) as [b|st] eqn:Hadd; [|done].
  cbn [wpx] in H. destruct H as (bids & asks & HS & Ha & Hb & _); [lia| |].
  { intros l Hl. by apply elem_of_nil in Hl. }
  cbv in Hb, Ha. change (oview b bids = [Order.mk 0 1 1 1 BUY 100 10 1 None None]) in Hb.
  change (oview b asks = []) in Ha.
  assert (exists o, map_client_id_to_order b !! (1, 1) = Some o) as [o Ho].
  { revert Hadd. vm_compute. intros [= <-]. eauto. }
  exists b, bids, asks, o. split_and!; try done.
  - destruct (sh_client_map _ _ _ HS _ _ _ Ho) as (Hin & _).
    assert (odata (order_pool b) o ∈ oview b (bids ++ asks)) as Hel.
    { unfold oview. by apply list_elem_of_fmap_2. }
    rewrite oview_app, Ha, Hb, app_nil_r in Hel. by apply list_elem_of_singleton in Hel.
  - destruct (sh_client_map _ _ _ HS _ _ _ Ho) as (Hin & _).
    assert (odata (order_pool b) o ∈ oview b (bids ++ asks)) as Hel.
    { unfold oview. by apply list_elem_of_fmap_2. }
    rewrite oview_app, Ha, Hb, app_nil_r in Hel. apply list_elem_of_singleton in Hel.
    by rewrite Hel.
Qed.

(** X7: [cancel] of a resting order returns; the book stays in its
    invariant, the order leaves the queue of its side and nothing else in
    the two queues changes, its entry in the client table is emptied, the
    market gets one CANCEL with quantity 0 and the priority of the order,
    and the client gets CANCELLED with the quantity that was left. *)
Theorem cancel_resting b bids asks cid oid tk o :
  Shape b bids asks ->
  map_client_id_to_order b !! (cid, oid) = Some o ->
  exists b',
    cancel b cid oid tk = Ok b'
    /\ exists bids' asks' before_o behind_o,
         Shape b' bids' asks'
         /\ oview b (pick (Order.side (order b o)) bids asks)
            = before_o ++ odata (order_pool b) o :: behind_o
         /\ oview b' (pick (Order.side (order b o)) bids' asks') = before_o ++ behind_o
         /\ oview b' (pick (Order.side (order b o)) asks' bids')
            = oview b (pick (Order.side (order b o)) asks bids)
         /\ map_client_id_to_order b' = delete (cid, oid) (map_client_id_to_order b)
         /\ tx_responses b'
            = tx_responses b
              ++ [Response.mkResponse Response.CANCELLED cid tk oid
                    (Order.market_order_id (order b o)) (Order.side (order b o))
                    (Order.price (order b o)) Qty_INVALID (Order.qty (order b o))]
         /\ tx_market_updates b'
            = tx_market_updates b
              ++ [Update.mkUpdate Update.CANCEL (Order.market_order_id (order b o)) tk
                    (Order.side (order b o)) (Order.price (order b o)) 0
                    (Order.priority (order b o))].
Proof.
  intros HS Hcm. apply wpx_returns.
  eapply wpx_mono; [by eapply (cancel_shape (fun _ => False))|done|].
  cbv zeta. intros b' (bids' & asks' & v1 & v2 & H1 & H2 & H3 & H4 & H5 & H6 & H7 & _).
  exists bids', asks', v1, v2. done.
Qed.

Lemma cancel_resting_witness :
  exists b o,
    add (OMEOrderBook_new 0) 1 1 0 BUY 100 10 = Ok b
    /\ map_client_id_to_order b !! (1, 1) = Some o
    /\ exists b',
         cancel b 1 1 0 = Ok b'
         /\ exists bids' asks',
              Shape b' bids' asks' /\ oview b' bids' = [] /\ oview b' asks' = []
              /\ map_client_id_to_order b' = delete (1, 1) (map_client_id_to_order b)
              /\ tx_market_updates b'
                 = tx_market_updates b ++ [Update.mkUpdate Update.CANCEL 1 0 BUY 100 0 1].
Proof.
  destruct one_bid_book as (b & bids & asks & o & Hadd & HS & Ho & Hod & Hb & Ha).
  exists b, o. split_and!; [done|done|].
  destruct (cancel_resting b bids asks 1 1 0 o HS Ho)
    as (b' & Hc & bids' & asks' & v1 & v2 & HS' & H1 & H2 & H3 & H4 & H5 & H6).
  exists b'. split; [done|]. exists bids', asks'.
  assert (Order.side (order b o) = BUY) as Hside by exact (f_equal Order.side Hod).
  rewrite Hside in *. change (oview b bids = v1 ++ odata (order_pool b) o :: v2) in H1.
  change (oview b' bids' = v1 ++ v2) in H2. change (oview b' asks' = oview b asks) in H3.
  rewrite Hb in H1. destruct v1 as [|x v1]; [|by destruct v1]. injection H1 as <-.
  split_and!; try done.
  - congruence.
  - rewrite H6. do 2 f_equal.
    by rewrite (f_equal Order.market_order_id Hod : Order.market_order_id (order b o) = 1),
               (f_equal Order.price Hod : Order.price (order b o) = 100),
               (f_equal Order.priority Hod : Order.priority (order b o) = 1).
Defined.

(** X8: [cancel] of an order that the client table does not have, or of
    a client beyond the table, sends the client one CANCEL_REJECTED with
    invalid market order id, side, price and quantities, and changes
    nothing else: no market update, the book as it was. *)
Theorem cancel_rejected b (cid : ClientID) (oid : OrderID) tk :
  (cid < MAX_N_CLIENTS ->
   client_order_in_range cid oid = true /\ map_client_id_to_order b !! (cid, oid) = None) ->
  cancel b cid oid tk
  = Ok (send_client_response b
          (Response.mkResponse Response.CANCEL_REJECTED cid tk oid OrderID_INVALID
             Side_INVALID Price_INVALID Qty_INVALID Qty_INVALID)).
Proof. apply cancel_unknown. Qed.

Lemma cancel_rejected_witness :
  cancel (OMEOrderBook_new 0) 3 42 0
  = Ok (send_client_response (OMEOrderBook_new 0)
          (Response.mkResponse Response.CANCEL_REJECTED 3 0 42 OrderID_INVALID
             Side_INVALID Price_INVALID Qty_INVALID Qty_INVALID))
  /\ cancel (OMEOrderBook_new 0) 16 42 0
     = Ok (send_client_response (OMEOrderBook_new 0)
             (Response.mkResponse Response.CANCEL_REJECTED 16 0 42 OrderID_INVALID
                Side_INVALID Price_INVALID Qty_INVALID Qty_INVALID)).
Proof.
  split; apply cancel_rejected.
  - intros _. by split.
  - intros H. by compute in H.
Defined.

(** X9: [cancel] for a client of the table with an order id outside
    [0, MAX_ORDER_IDS) ends the process: the table is indexed with [at] in
    a function declared [noexcept]. *)
Theorem cancel_order_id_out_of_range b (cid : ClientID) (oid : OrderID) tk :
  0 <= cid < MAX_N_CLIENTS -> ~ (0 <= oid < MAX_ORDER_IDS) ->
  cancel b cid oid tk = Stopped Terminate_out_of_range.
Proof.
  intros Hc Ho. unfold cancel, client_order_at, client_order_in_range.
  rewrite (proj2 (Z.ltb_lt _ _)) by lia.
  destruct (Z.leb_spec 0 oid), (Z.ltb_spec oid MAX_ORDER_IDS);
    rewrite ?andb_false_r; try done. lia.
Qed.

Lemma cancel_order_id_out_of_range_witness :
  cancel (OMEOrderBook_new 0) 3 (1024 * 1024) 0 = Stopped Terminate_out_of_range.
Proof. apply cancel_order_id_out_of_range; [by compute|]. unfold MAX_ORDER_IDS. lia. Defined.

(** An order of a side in the invariant is in its queue once. *)
Lemma resting_once (A C D q1 q2 : list N) (o : N) :
  NoDup ((A ++ (q1 ++ o :: q2) ++ C) ++ D) ->
  (o ∉ A) /\ (o ∉ q1) /\ (o ∉ q2) /\ (o ∉ C) /\ (o ∉ D).
Proof.
  intros H. apply NoDup_app in H as (H & HD & _).
  apply NoDup_app in H as (_ & HA & H).
  apply NoDup_app in H as (H & HC & _).
  apply NoDup_app in H as (_ & Hq1 & H).
  apply NoDup_cons in H as [Hq2 _].
  assert (o ∈ q1 ++ o :: q2) as Ho by (apply elem_of_app; right; left).
  split_and!; try done.
  - intros Hin. apply (HA o Hin). apply elem_of_app. by left.
  - intros Hin. apply (Hq1 o Hin). left.
  - by apply HC.
  - apply HD. apply elem_of_app. right. apply elem_of_app. by left.
Qed.

(** X10: one match against a resting order of a book in its invariant
    returns and keeps the invariant.  The fill is the smaller of the two
    quantities; both clients get FILLED with it and with what they have
    left; the market gets TRADE without order id and priority and then,
    when the resting order is used up, CANCEL with the quantity the order
    had before the fill and no priority, or else MODIFY with the quantity
    left and the priority of the order.  A used-up order leaves the book:
    it is taken out of the queue of its side, which is otherwise as it was,
    its block goes back to the pool and its entry in the client table is
    emptied.  An order with quantity left stays at its place in the queue
    with that quantity.  The other side is not touched. *)
Theorem match_fill b bids asks o tk cid sd coid moid qr :
  Shape b bids asks ->
  o ∈ order_ptrs (bids ++ asks) ->
  0 <= qr < 2 ^ 32 ->
  exists b',
    match_ b tk cid sd coid moid o qr = Ok (qr - Z.min qr (Order.qty (order b o)), b')
    /\ tx_responses b' = tx_responses b ++ fill_responses (order b o) tk cid sd coid moid qr
    /\ tx_market_updates b' = tx_market_updates b ++ fill_updates (order b o) tk sd qr
    /\ exists bids' asks' before_o behind_o,
         Shape b' bids' asks'
         /\ oview b (pick (Order.side (order b o)) bids asks)
            = before_o ++ odata (order_pool b) o :: behind_o
         /\ oview b' (pick (Order.side (order b o)) asks' bids')
            = oview b (pick (Order.side (order b o)) asks bids)
         /\ if Order.qty (order b o) <=? qr
            then oview b' (pick (Order.side (order b o)) bids' asks') = before_o ++ behind_o
                 /\ (o ∉ order_ptrs (bids' ++ asks'))
                 /\ (o ∉ used (order_pool b'))
                 /\ map_client_id_to_order b'
                    = delete (Order.client_id (order b o), Order.client_order_id (order b o))
                             (map_client_id_to_order b)
            else oview b' (pick (Order.side (order b o)) bids' asks')
                 = before_o
                   ++ Order.with_qty (odata (order_pool b) o) (Order.qty (order b o) - qr)
                   :: behind_o
                 /\ map_client_id_to_order b' = map_client_id_to_order b.
Proof.
  intros HS Hin Hqr.
  destruct (Shape_resting _ _ _ _ HS Hin) as (s & g1 & l & q1 & q2 & g2 & Hs & Eside & Epick).
  rewrite Eside.
  apply (Shape_pick b s bids asks Hs) in HS. rewrite Epick in HS.
  pose proof (match_spec (fun _ => False) b s g1 l q1 o q2 g2 _ [] tk cid sd coid moid qr HS Hqr)
    as H.
  destruct (match_ b tk cid sd coid moid o qr) as [[qr' b']|st]; [|done]. cbn [wpx fst snd] in H.
  destruct H as (-> & H1 & H2 & _ & _ & _ & Hod & H3). exists b'. split_and!; try done.
  pose proof (sd_orders_nodup _ _ _ _ _ HS) as Hnd.
  rewrite app_nil_r, !order_ptrs_app, order_ptrs_cons in Hnd. cbn [snd] in Hnd.
  destruct (resting_once (order_ptrs g1) (order_ptrs g2) (order_ptrs (pick s asks bids))
              q1 q2 o Hnd) as (Ng1 & Nq1 & Nq2 & Ng2 & Nth).
  assert (forall q : list N, o ∉ q -> odata (order_pool b') <$> q = odata (order_pool b) <$> q) as Hext.
  { intros q Hq. apply Forall_fmap_ext_1, Forall_forall. intros p Hp. apply Hod.
    intros ->. done. }
  assert (oview b' (pick s asks bids) = oview b (pick s asks bids)) as Hth
    by (apply Hext, Nth).
  assert (oview b' g1 = oview b g1) as Hg1 by (apply Hext, Ng1).
  assert (oview b' g2 = oview b g2) as Hg2 by (apply Hext, Ng2).
  set (before_o := oview b g1 ++ (odata (order_pool b) <$> q1)).
  set (behind_o := (odata (order_pool b) <$> q2) ++ oview b g2).
  assert (oview b (g1 ++ (l, q1 ++ o :: q2) :: g2)
          = before_o ++ odata (order_pool b) o :: behind_o) as V.
  { rewrite oview_app, oview_level, fmap_app, fmap_cons. unfold before_o, behind_o.
    by rewrite <- !app_assoc. }
  destruct (Order.qty (order b o) <=? qr).
  - destruct H3 as [HS' Hcm].
    set (mine' := g1 ++ drop_empty (l, q1 ++ q2) g2) in *.
    exists (@pick Levels s mine' (pick s asks bids)), (@pick Levels s (pick s asks bids) mine').
    exists before_o, behind_o.
    assert (@pick Levels s (@pick Levels s mine' (pick s asks bids))
                  (@pick Levels s (pick s asks bids) mine') = mine')
      as P1 by (unfold pick; by case_decide).
    assert (@pick Levels s (@pick Levels s (pick s asks bids) mine')
                  (@pick Levels s mine' (pick s asks bids))
            = pick s asks bids) as P2 by (unfold pick; by case_decide).
    rewrite P1, P2, Epick.
    assert (Shape b' (@pick Levels s mine' (pick s asks bids))
                     (@pick Levels s (pick s asks bids) mine')) as HSh.
    { apply (Shape_pick b' s _ _ Hs). by rewrite P1, P2. }
    assert (o ∉ order_ptrs (@pick Levels s mine' (pick s asks bids)
                             ++ @pick Levels s (pick s asks bids) mine')) as Hout.
    { assert (o ∉ order_ptrs mine') as Hm.
      { unfold mine'. rewrite order_ptrs_app, order_ptrs_drop_empty. cbn [snd].
        rewrite !elem_of_app. tauto. }
      rewrite order_ptrs_app, elem_of_app. clear -Hm Nth. unfold pick in *. case_decide; tauto. }
    split_and!; try done.
    + unfold oview, mine'. rewrite order_ptrs_app, order_ptrs_drop_empty, !fmap_app.
      fold (oview b' g1) (oview b' g2). rewrite Hg1, Hg2, (Hext q1 Nq1), (Hext q2 Nq2).
      unfold before_o, behind_o. by rewrite <- !app_assoc.
    + destruct (sh_order_pool _ _ _ HSh) as [_ ->]. by rewrite elem_of_list_to_set.
  - destruct H3 as (HS' & Hcm & Hq).
    exists bids, asks, before_o, behind_o. rewrite Epick. split_and!; try done.
    + apply (Shape_pick b' s _ _ Hs). by rewrite Epick.
    + rewrite oview_app, oview_level, fmap_app, fmap_cons.
      rewrite Hg1, Hg2, (Hext q1 Nq1), (Hext q2 Nq2), Hq.
      unfold before_o, behind_o. by rewrite <- !app_assoc.
Qed.

End CancelTheorems.

(** ** [add] and [match] on a book with a resting order *)

Section AddWitnesses.
Import Common Run LL Exchange.
Implicit Types (b : OMEOrderBook) (bids asks : Levels).

(** The book with one bid of 10 at 100, as [add] leaves it: its only
    level is at 100, and both pools have room. *)
Lemma resting_bid_book :
  exists b bids asks o,
    add (OMEOrderBook_new 0) 1 1 0 BUY 100 10 = Ok b
    /\ Shape b bids asks
    /\ map_client_id_to_order b !! (1, 1) = Some o
    /\ odata (order_pool b) o = Order.mk 0 1 1 1 BUY 100 10 1 None None
    /\ oview b bids = [Order.mk 0 1 1 1 BUY 100 10 1 None None]
    /\ oview b asks = []
    /\ (forall l, l ∈ level_ptrs (bids ++ asks) -> Level.price (level b l) = 100)
    /\ has_room b
    /\ next_market_oid b = 2
    /\ tx_responses b = [Response.mkResponse Response.ACCEPTED 1 0 1 1 BUY 100 0 10]
    /\ tx_market_updates b = [Update.mkUpdate Update.ADD 1 0 BUY 100 10 1].
Proof.
  destruct one_bid_book as (b & bids & asks & o & Hadd & HS & Ho & Hod & Hb & Ha).
  exists b, bids, asks, o. rewrite Hod in Hb.
  assert (map_price_to_price_level b = {[4 := 0%N]}) as Hm.
  { revert Hadd. vm_compute. by intros [= <-]. }
  assert (Level.price (level b 0%N) = 100) as Hp0.
  { revert Hadd. vm_compute. by intros [= <-]. }
  assert (size (used (order_pool b)) = 1%nat /\ n_blocks (order_pool b) = 1048576%N
          /\ size (used (orders_at_price_pool b)) = 1%nat
          /\ n_blocks (orders_at_price_pool b) = 16%N) as (U1 & U2 & U3 & U4).
  { revert Hadd. vm_compute. by intros [= <-]. }
  split_and!; try done.
  - intros l Hl.
    pose proof (proj2 (sh_price_map _ _ _ HS _ l) (conj Hl eq_refl)) as Hl'.
    rewrite Hm in Hl'. apply lookup_singleton_Some in Hl' as [_ <-]. exact Hp0.
  - unfold has_room. rewrite U1, U2, U3, U4. lia.
  - revert Hadd. vm_compute. by intros [= <-].
  - revert Hadd. vm_compute. by intros [= <-].
  - revert Hadd. vm_compute. by intros [= <-].
Qed.


Lemma pick_BUY {A} (x y : A) : pick BUY x y = x.
Proof. reflexivity. Qed.

Lemma pick_SELL {A} (x y : A) : pick SELL x y = y.
Proof. reflexivity. Qed.

(** A sell of 15 at 100 into the book with the bid of 10 at 100: the bid
    is filled in full and leaves, and 5 rest as the first ask at 100. *)
Lemma add_price_time_priority_witness :
  exists b b',
    add (OMEOrderBook_new 0) 1 1 0 BUY 100 10 = Ok b
    /\ add b 2 7 0 SELL 100 15 = Ok b'
    /\ exists bids' asks',
         Shape b' bids' asks'
         /\ oview b' bids' = []
         /\ oview b' asks' = [Order.mk 0 2 7 2 SELL 100 5 1 None None].
Proof.
  destruct resting_bid_book
    as (b & bids & asks & o & Hadd & HS & Ho & Hod & Hb & Ha & Hpr & Hroom & Hn & Hr & Hu).
  pose proof (add_price_time_priority b bids asks 2 7 0 SELL 100 15 HS (or_intror eq_refl)
                ltac:(lia) (fun l Hl _ => Hpr l Hl)) as H.
  destruct (add b 2 7 0 SELL 100 15) as [b'|st] eqn:E.
  2:{ exfalso. by apply (add_stops_excluded b 2 7 st Hroom). }
  exists b, b'. split_and!; [done|done|].
  cbn [wpx] in H. cbv zeta in H. destruct H as (bids' & asks' & HS' & H1 & H2).
  rewrite !pick_SELL in H1. rewrite !pick_SELL in H2.
  rewrite Hb, Hn in H1. rewrite Hb, Ha, Hn in H2.
  exists bids', asks'. split_and!; [done|by rewrite H1|by rewrite H2].
Defined.

(** The same order: what the clients and the market are sent. *)
Lemma add_messages_witness :
  exists b b',
    add (OMEOrderBook_new 0) 1 1 0 BUY 100 10 = Ok b
    /\ add b 2 7 0 SELL 100 15 = Ok b'
    /\ tx_responses b'
       = [Response.mkResponse Response.ACCEPTED 1 0 1 1 BUY 100 0 10;
          Response.mkResponse Response.ACCEPTED 2 0 7 2 SELL 100 0 15;
          Response.mkResponse Response.FILLED 2 0 7 2 SELL 100 10 5;
          Response.mkResponse Response.FILLED 1 0 1 1 BUY 100 10 0]
    /\ tx_market_updates b'
       = [Update.mkUpdate Update.ADD 1 0 BUY 100 10 1;
          Update.mkUpdate Update.TRADE OrderID_INVALID 0 SELL 100 10 Priority_INVALID;
          Update.mkUpdate Update.CANCEL 1 0 BUY 100 10 Priority_INVALID;
          Update.mkUpdate Update.ADD 2 0 SELL 100 5 1]
    /\ next_market_oid b' = 3.
Proof.
  destruct resting_bid_book
    as (b & bids & asks & o & Hadd & HS & Ho & Hod & Hb & Ha & Hpr & Hroom & Hn & Hr & Hu).
  pose proof (add_messages b bids asks 2 7 0 SELL 100 15 HS (or_intror eq_refl)
                ltac:(lia) (fun l Hl _ => Hpr l Hl)) as H.
  destruct (add b 2 7 0 SELL 100 15) as [b'|st] eqn:E.
  2:{ exfalso. by apply (add_stops_excluded b 2 7 st Hroom). }
  exists b, b'. split_and!; [done|done| | |].
  all: cbn [wpx] in H; cbv zeta in H; destruct H as (H1 & H2 & H3).
  all: rewrite ?pick_SELL, ?Hb, ?Ha, ?Hn, ?Hr, ?Hu in H1.
  all: rewrite ?pick_SELL, ?Hb, ?Ha, ?Hn, ?Hr, ?Hu in H2.
  all: rewrite ?pick_SELL, ?Hb, ?Ha, ?Hn, ?Hr, ?Hu in H3.
  - by rewrite H1.
  - by rewrite H2.
  - by rewrite H3.
Defined.

(** A second bid at 100 into the book with the bid of 10 at 100: no ask is
    within reach, and the order is queued behind the first, with priority
    2. *)
Lemma add_passive_witness :
  exists b b',
    add (OMEOrderBook_new 0) 1 1 0 BUY 100 10 = Ok b
    /\ add b 2 7 0 BUY 100 5 = Ok b'
    /\ exists bids' asks',
         Shape b' bids' asks'
         /\ oview b' asks' = []
         /\ oview b' bids'
            = [Order.mk 0 1 1 1 BUY 100 10 1 None None; Order.mk 0 2 7 2 BUY 100 5 2 None None]
         /\ tx_responses b'
            = [Response.mkResponse Response.ACCEPTED 1 0 1 1 BUY 100 0 10;
               Response.mkResponse Response.ACCEPTED 2 0 7 2 BUY 100 0 5]
         /\ tx_market_updates b'
            = [Update.mkUpdate Update.ADD 1 0 BUY 100 10 1;
               Update.mkUpdate Update.ADD 2 0 BUY 100 5 2].
Proof.
  destruct resting_bid_book
    as (b & bids & asks & o & Hadd & HS & Ho & Hod & Hb & Ha & Hpr & Hroom & Hn & Hr & Hu).
  assert (passive BUY 100 (oview b (pick BUY asks bids))) as Hp.
  { rewrite pick_BUY, Ha. exact I. }
  pose proof (add_passive b bids asks 2 7 0 BUY 100 5 HS (or_introl eq_refl)
                ltac:(lia) (fun l Hl _ => Hpr l Hl) Hp) as H.
  destruct (add b 2 7 0 BUY 100 5) as [b'|st] eqn:E.
  2:{ exfalso. by apply (add_stops_excluded b 2 7 st Hroom). }
  exists b, b'. split_and!; [done|done|].
  cbn [wpx] in H. cbv zeta in H. destruct H as (bids' & asks' & HS' & H1 & H2 & H3 & H4).
  rewrite ?pick_BUY, ?Hb, ?Ha, ?Hn, ?Hr, ?Hu in H1.
  rewrite ?pick_BUY, ?Hb, ?Ha, ?Hn, ?Hr, ?Hu in H2.
  rewrite ?pick_BUY, ?Hb, ?Ha, ?Hn, ?Hr, ?Hu in H3.
  rewrite ?pick_BUY, ?Hb, ?Ha, ?Hn, ?Hr, ?Hu in H4.
  exists bids', asks'. split_and!; [done|by rewrite H1|by rewrite H2|by rewrite H3|by rewrite H4].
Defined.

(** The sell of 15 at 100 into the book with the bid of 10 at 100
    returns. *)
Lemma add_returns_witness :
  exists b b',
    add (OMEOrderBook_new 0) 1 1 0 BUY 100 10 = Ok b
    /\ add b 2 7 0 SELL 100 15 = Ok b'
    /\ same_sizes b b' /\ exists bids' asks', Shape b' bids' asks'.
Proof.
  destruct resting_bid_book
    as (b & bids & asks & o & Hadd & HS & Ho & Hod & Hb & Ha & Hpr & Hroom & Hn & Hr & Hu).
  destruct (add_returns b bids asks 2 7 0 SELL 100 15 HS (or_intror eq_refl)
              ltac:(lia) (fun l Hl _ => Hpr l Hl) eq_refl Hroom) as (b' & H1 & H2 & H3).
  exists b, b'. done.
Defined.

(** A second bid into that book from a client beyond the client table. *)
Lemma add_ids_out_of_range_witness :
  exists b,
    add (OMEOrderBook_new 0) 1 1 0 BUY 100 10 = Ok b
    /\ add b 16 7 0 BUY 100 5 = Stopped Terminate_out_of_range.
Proof.
  destruct resting_bid_book
    as (b & bids & asks & o & Hadd & HS & Ho & Hod & Hb & Ha & Hpr & Hroom & Hn & Hr & Hu).
  assert (passive BUY 100 (oview b (pick BUY asks bids))) as Hp.
  { rewrite pick_BUY, Ha. exact I. }
  exists b. split; [done|].
  exact (add_ids_out_of_range b bids asks 16 7 0 BUY 100 5 HS (or_introl eq_refl)
           ltac:(lia) (fun l Hl _ => Hpr l Hl) Hp Hroom eq_refl).
Defined.

(** A sell of 15 matched against the bid of 10 at 100: the bid is used up
    and leaves the book. *)
Lemma match_fill_witness :
  exists b o b',
    add (OMEOrderBook_new 0) 1 1 0 BUY 100 10 = Ok b
    /\ map_client_id_to_order b !! (1, 1) = Some o
    /\ match_ b 0 2 SELL 7 2 o 15 = Ok (5, b')
    /\ tx_responses b'
       = tx_responses b
         ++ [Response.mkResponse Response.FILLED 2 0 7 2 SELL 100 10 5;
             Response.mkResponse Response.FILLED 1 0 1 1 BUY 100 10 0]
    /\ tx_market_updates b'
       = tx_market_updates b
         ++ [Update.mkUpdate Update.TRADE OrderID_INVALID 0 SELL 100 10 Priority_INVALID;
             Update.mkUpdate Update.CANCEL 1 0 BUY 100 10 Priority_INVALID]
    /\ exists bids' asks',
         Shape b' bids' asks' /\ oview b' bids' = [] /\ oview b' asks' = []
         /\ (o ∉ used (order_pool b'))
         /\ map_client_id_to_order b' = delete (1, 1) (map_client_id_to_order b).
Proof.
  destruct resting_bid_book
    as (b & bids & asks & o & Hadd & HS & Ho & Hod & Hb & Ha & Hpr & Hroom & Hn & Hr & Hu).
  destruct (sh_client_map _ _ _ HS _ _ _ Ho) as (Hin & _).
  destruct (match_fill b bids asks o 0 2 SELL 7 2 15 HS Hin ltac:(lia))
    as (b' & Hm & H1 & H2 & bids' & asks' & v1 & v2 & HS' & V & Vo & H3).
  assert (order b o = Order.mk 0 1 1 1 BUY 100 10 1 (Order.prev (order b o))
                               (Order.next (order b o))) as Hord.
  { unfold odata in Hod. unfold order. destruct (read (order_pool b) o). cbn in Hod.
    by injection Hod as -> -> -> -> -> -> -> ->. }
  rewrite Hord in Hm, H1, H2, V, Vo, H3. cbn [Order.side Order.qty Order.client_id
    Order.client_order_id] in V, Vo, H3.
  rewrite ?pick_BUY in V. rewrite ?pick_BUY in Vo. rewrite ?pick_BUY in H3.
  rewrite Hb, Hod in V. rewrite Ha in Vo.
  destruct v1 as [|x v1]; [|by destruct v1]. injection V as <-.
  change (10 <=? 15) with true in H3. cbv iota in H3.
  destruct H3 as (H3 & _ & H4 & H5).
  exists b, o, b'. split_and!; try done.
  exists bids', asks'. done.
Defined.

End AddWitnesses.

(** ** The memory pool: what a user can rely on *)

Section PoolTheorems.
Import Common Run LL.
Context {T : Type} `{!DefaultInit T}.
Implicit Types (p : MemPool T) (i j : N) (obj : T).

(** X11: [allocate] on a pool in its invariant hands out the block under
    the cursor, which was free; the object can be read back from it, every
    other block reads as before, and the pool stays in its invariant with
    one more block in use. *)
Theorem allocate_stores p obj i p' :
  pool_wf p ->
  allocate p obj = Ok (i, p') ->
  i = i_next_free p /\ (i ∉ used p)
  /\ used p' = used p ∪ {[i]}
  /\ read p' i = obj
  /\ (forall j, j <> i -> read p' j = read p j)
  /\ pool_wf p'
  /\ get_n_blocks_used p' = (get_n_blocks_used p + 1)%N.
Proof.
  intros Hwf Hal.
  destruct (allocate_spec p obj Hwf) as [(q & Hq & Hwf' & Hnb & Hst & Hus & _)|[Hq _]];
    [|congruence].
  rewrite Hq in Hal. injection Hal as <- <-.
  pose proof (cursor_not_used p Hwf) as Hfresh.
  split_and!; try done.
  - by rewrite (read_allocated p q obj _ Hst), decide_True.
  - intros j Hj. by rewrite (read_allocated p q obj _ Hst), decide_False.
  - unfold get_n_blocks_used. rewrite Hus, size_union, size_singleton by set_solver. lia.
Qed.

(** X12: [deallocate] of a block in use returns; the block is free
    afterwards, the objects of all blocks, the freed one included, read as
    before, and the cursor stays where it was. *)
Theorem deallocate_frees p i :
  pool_wf p -> i ∈ used p ->
  exists p',
    deallocate p i = Ok p'
    /\ used p' = used p ∖ {[i]}
    /\ (forall j, read p' j = read p j)
    /\ i_next_free p' = i_next_free p
    /\ pool_wf p'.
Proof.
  intros Hwf Hin. apply elem_of_used in Hin.
  destruct (deallocate_spec p i Hwf) as [(_ & p' & Hd & Hwf' & Hnb & Hc & Hst & Hus)|[Hn _]];
    [|done].
  exists p'. split_and!; try done. intros j. by apply (read_deallocated p p' i).
Qed.

(** X13: freeing a block twice ends the process with the message for a
    block that is not in use. *)
Theorem deallocate_twice p i p' :
  pool_wf p ->
  deallocate p i = Ok p' ->
  deallocate p' i = Stopped Exit_pool_not_in_use.
Proof.
  intros Hwf Hd. unfold deallocate in *.
  destruct (i <? n_blocks p)%N eqn:Hlt; [|done].
  destruct (is_free (block_at p i)) eqn:Hf; [done|]. injection Hd as <-.
  cbn [n_blocks set_block]. rewrite Hlt, block_at_set_block, decide_True by done. done.
Qed.

(** X14: [allocate] followed by [deallocate] of the block handed out
    leaves the same blocks in use as before, in a pool in its invariant. *)
Theorem allocate_deallocate p obj i p' :
  pool_wf p ->
  allocate p obj = Ok (i, p') ->
  exists p'', deallocate p' i = Ok p'' /\ used p'' = used p /\ pool_wf p''.
Proof.
  intros Hwf Hal.
  destruct (allocate_spec p obj Hwf) as [(q & Hq & Hwf' & Hnb & Hst & Hus & _)|[Hq _]];
    [|congruence].
  rewrite Hq in Hal. injection Hal as <- <-.
  pose proof (cursor_not_used p Hwf) as Hfresh.
  destruct (deallocate_spec q (i_next_free p) Hwf')
    as [(_ & p'' & Hd & Hwf'' & _ & _ & _ & Hus'')|[Hn _]].
  - exists p''. split_and!; try done. rewrite Hus'', Hus. set_solver.
  - exfalso. apply Hn, elem_of_used. rewrite Hus. set_solver.
Qed.

End PoolTheorems.

Section PoolWitnesses.
Import Common Run LL.

(** A pool of four blocks after its first allocation. *)
Lemma one_block_pool :
  exists p : MemPool Z,
    allocate (MemPool_new 4) 7 = Ok (0%N, p) /\ pool_wf p /\ used p = {[0%N]}.
Proof.
  destruct (allocate_spec (MemPool_new 4 : MemPool Z) 7 (MemPool_new_wf 4 ltac:(lia)))
    as [(p & Hal & Hwf & _ & _ & Hus & _)|[Hal _]]; [|by vm_compute in Hal].
  exists p. split_and!; try done. all: rewrite Hus, used_MemPool_new; set_solver.
Qed.

Lemma allocate_stores_witness :
  exists p' : MemPool Z,
    allocate (MemPool_new 4) 7 = Ok (0%N, p')
    /\ read p' 0%N = 7 /\ used p' = {[0%N]} /\ pool_wf p'.
Proof.
  destruct one_block_pool as (p' & Hal & _).
  destruct (allocate_stores (MemPool_new 4) 7 0%N p' (MemPool_new_wf 4 ltac:(lia)) Hal)
    as (_ & _ & Hus & Hr & _ & Hwf & _).
  exists p'. split_and!; try done.
  all: rewrite Hus, used_MemPool_new; set_solver.
Defined.

Lemma deallocate_frees_witness :
  exists p p' : MemPool Z,
    allocate (MemPool_new 4) 7 = Ok (0%N, p)
    /\ deallocate p 0%N = Ok p' /\ used p' = ∅.
Proof.
  destruct one_block_pool as (p & Hal & Hwf & Hus).
  destruct (deallocate_frees p 0%N Hwf) as (p' & Hd & Hus' & Hrd & _).
  { rewrite Hus. set_solver. }
  exists p, p'. split_and!; try done.
  rewrite Hus', Hus. set_solver.
Defined.

Lemma deallocate_twice_witness :
  exists p p' : MemPool Z,
    allocate (MemPool_new 4) 7 = Ok (0%N, p)
    /\ deallocate p 0%N = Ok p'
    /\ deallocate p' 0%N = Stopped Exit_pool_not_in_use.
Proof.
  destruct one_block_pool as (p & Hal & Hwf & Hus).
  destruct (deallocate_spec p 0%N Hwf) as [(_ & p' & Hd & _)|[Hn _]].
  - exists p, p'. split_and!; try done. by apply (deallocate_twice p 0%N p').
  - exfalso. apply Hn, elem_of_used. rewrite Hus. set_solver.
Defined.

Lemma allocate_deallocate_witness :
  exists p p'' : MemPool Z,
    allocate (MemPool_new 4) 7 = Ok (0%N, p)
    /\ deallocate p 0%N = Ok p'' /\ used p'' = used (MemPool_new 4 : MemPool Z).
Proof.
  destruct one_block_pool as (p & Hal & _).
  destruct (allocate_deallocate (MemPool_new 4) 7 0%N p (MemPool_new_wf 4 ltac:(lia)) Hal)
    as (p'' & Hd & Hus & _).
  by exists p, p''.
Defined.

End PoolWitnesses.

(** ** The queue: what a user can rely on *)

Section QueueTheorems.
Import Common Run LL.
Context {T : Type} `{!DefaultInit T}.
Implicit Types (q : LFQueue T) (x : T) (items : list T).

(** The queue holds [items], oldest first: they are the [n_blocks] values
    from the read cursor on, and the write cursor is behind them. *)
Definition holds q items : Prop :=
  0 < q_size q < 2 ^ 64
  /\ 0 <= i_read q < q_size q
  /\ Z.of_nat (length items) <= q_size q
  /\ q_n_blocks q = Z.of_nat (length items)
  /\ i_write q = (i_read q + Z.of_nat (length items)) mod q_size q
  /\ forall k x, items !! k = Some x ->
                 slot_at q ((i_read q + Z.of_nat k) mod q_size q) = x.

(** A reader that takes up to [n] values: [get_next_to_read] and, when
    there is a value, [increment_read_index]. *)
Fixpoint drain (n : nat) q : list T :=
  match n with
  | O => []
  | S n' =>
      match get_next_to_read q with
      | None => []
      | Some x =>
          x :: match increment_read_index q with
               | Some q' => drain n' q'
               | None => []
               end
      end
  end.

Lemma holds_new (n : Z) : 0 < n < 2 ^ 64 -> holds (LFQueue_new n) [].
Proof.
  intros Hn. unfold holds. cbn. split_and!; try done; try lia.
Qed.

Lemma ring_distinct (size i j k : Z) :
  0 <= i < size -> 0 <= j < size -> 0 <= k < size -> j <> k ->
  (i + j) mod size <> (i + k) mod size.
Proof.
  intros Hi Hj Hk Hne. rewrite !ring_step by lia.
  destruct (Z.ltb_spec (i + j) size), (Z.ltb_spec (i + k) size); lia.
Qed.

Lemma holds_push q items x :
  holds q items -> Z.of_nat (length items) < q_size q -> holds (push q x) (items ++ [x]).
Proof.
  intros (Hs & Hr & Hl & Hn & Hw & Hsl) Hlt. unfold holds. cbn [push q_size i_read q_n_blocks i_write].
  rewrite length_app. cbn [length]. split_and!; try done; try lia.
  - rewrite Hn. unfold wrap_u64. rewrite Z.mod_small; lia.
  - rewrite Hw, Zplus_mod_idemp_l. f_equal. lia.
  - intros k y Hk. unfold slot_at, push. cbn [slots].
    destruct (decide (k = length items)) as [->|Hne].
    + rewrite list_lookup_middle in Hk by done. injection Hk as <-.
      by rewrite <- Hw, lookup_insert_eq.
    + assert (k < length items)%nat as Hkl.
      { apply lookup_lt_Some in Hk. rewrite length_app in Hk. cbn in Hk. lia. }
      rewrite lookup_app_l in Hk by done.
      rewrite lookup_insert_ne; [by apply Hsl|].
      rewrite Hw. apply ring_distinct; lia.
Qed.

Lemma holds_read q x items :
  holds q (x :: items) ->
  get_next_to_read q = Some x
  /\ exists q', increment_read_index q = Some q' /\ holds q' items.
Proof.
  intros (Hs & Hr & Hl & Hn & Hw & Hsl). cbn [length] in *.
  unfold get_next_to_read, increment_read_index.
  rewrite (proj2 (Z.eqb_neq _ _)) by lia. split.
  - f_equal. specialize (Hsl 0%nat x eq_refl). by rewrite Z.add_0_r, Z.mod_small in Hsl.
  - eexists. split; [done|]. unfold holds. cbn [q_size i_read q_n_blocks i_write].
    split_and!; try done; try lia.
    + apply Z.mod_pos_bound. lia.
    + apply Z.mod_pos_bound. lia.
    + rewrite Hw, Zplus_mod_idemp_l. f_equal. lia.
    + intros k y Hk. unfold slot_at in *. cbn [slots].
      rewrite Zplus_mod_idemp_l. specialize (Hsl (S k) y Hk).
      by replace (i_read q + 1 + Z.of_nat k) with (i_read q + Z.of_nat (S k)) by lia.
Qed.

Lemma holds_empty q : holds q [] -> get_next_to_read q = None.
Proof. intros (_ & _ & _ & Hn & _). unfold get_next_to_read. by rewrite Hn. Qed.

Lemma holds_pushes q items : forall new,
  holds q items -> Z.of_nat (length items + length new) <= q_size q ->
  holds (foldl push q new) (items ++ new).
Proof.
  intros new. revert q items. induction new as [|x new IH]; intros q items Hq Hlen.
  - by rewrite app_nil_r.
  - cbn [foldl]. rewrite (cons_middle x items new), app_assoc. apply IH.
    + apply holds_push; [done|]. rewrite length_cons in Hlen. lia.
    + rewrite length_app. rewrite length_cons in Hlen. cbn [length q_size push]. lia.
Qed.

Lemma holds_drain n : forall q items, holds q items -> drain n q = take n items.
Proof.
  induction n as [|n IH]; intros q items Hq; [done|]. cbn [drain].
  destruct items as [|x items].
  - by rewrite (holds_empty q Hq).
  - destruct (holds_read q x items Hq) as (-> & q' & -> & Hq'). cbn [take]. f_equal.
    by apply IH.
Qed.

(** X15: first in, first out.  Values pushed onto a queue that has room
    for them come out of it behind the values it held and in the order
    they went in, and a reader that asks for more gets nothing more. *)
Theorem queue_fifo q items new n :
  holds q items ->
  Z.of_nat (length items + length new) <= q_size q ->
  drain n (foldl push q new) = take n (items ++ new).
Proof. intros Hq Hlen. apply holds_drain. by apply holds_pushes. Qed.

(** X16: the queue has no check for being full.  A push onto a queue
    whose slots are all taken overwrites the oldest value, which is lost
    to the reader: the next value read is the one just pushed. *)
Theorem queue_push_when_full q x0 items x :
  holds q (x0 :: items) ->
  Z.of_nat (length (x0 :: items)) = q_size q ->
  q_size q + 1 < 2 ^ 64 ->
  get_next_to_read q = Some x0
  /\ get_next_to_read (push q x) = Some x
  /\ q_n_blocks (push q x) = q_size q + 1.
Proof.
  intros Hq Hfull Hsz. destruct (holds_read q x0 items Hq) as [Hrd _].
  destruct Hq as (Hs & Hr & Hl & Hn & Hw & Hsl). split; [done|].
  unfold get_next_to_read. cbn [push q_n_blocks i_read].
  rewrite Hn, Hfull. unfold wrap_u64. rewrite Z.mod_small by lia.
  rewrite (proj2 (Z.eqb_neq _ _)) by lia. split; [|done]. f_equal.
  unfold slot_at, push. cbn [slots]. rewrite Hw, Hfull.
  replace (i_read q + q_size q) with (i_read q + 1 * q_size q) by lia.
  rewrite Z.mod_add, Z.mod_small by lia. by rewrite lookup_insert_eq.
Qed.

End QueueTheorems.

Section QueueWitnesses.
Import Common Run LL.

Lemma queue_fifo_witness :
  drain 5 (foldl push (LFQueue_new 4 : LFQueue Z) [10; 20; 30]) = [10; 20; 30].
Proof.
  apply (queue_fifo (LFQueue_new 4) [] [10; 20; 30] 5); [by apply holds_new|cbn; lia].
Defined.

Lemma queue_push_when_full_witness :
  get_next_to_read (foldl push (LFQueue_new 2 : LFQueue Z) [10; 20]) = Some 10
  /\ get_next_to_read (push (foldl push (LFQueue_new 2 : LFQueue Z) [10; 20]) 30) = Some 30
  /\ q_n_blocks (push (foldl push (LFQueue_new 2 : LFQueue Z) [10; 20]) 30) = 3.
Proof.
  apply (queue_push_when_full (foldl push (LFQueue_new 2) [10; 20]) 10 [20] 30);
    [|done|done].
  apply (holds_pushes (LFQueue_new 2) [] [10; 20]); [by apply holds_new|cbn; lia].
Defined.

End QueueWitnesses.

(** ** The sequencer: its capacity *)

Section SequencerTheorems.
Import Common Run LL Sequencer.

(** The gateway hands the requests it has received to the sequencer, one
    call of [push_client_request] each. *)
Definition push_all (fs : FIFOSequencer) (reqs : list (Request.OMEClientRequest * Z))
  : Result FIFOSequencer :=
  foldl (fun acc rt => fs ← acc; push_client_request fs rt.1 rt.2) (Ok fs) reqs.

Lemma push_all_stopped st reqs :
  foldl (fun acc rt => fs ← acc; push_client_request fs rt.1 rt.2) (Stopped st) reqs
  = Stopped st.
Proof. induction reqs as [|rt reqs IH]; [done|]. apply IH. Qed.

Lemma push_all_fits reqs : forall fs,
  sequencer_wf fs ->
  n_pending_requests fs + Z.of_nat (length reqs) <= Z.of_nat (length (pending_requests fs)) ->
  exists fs',
    push_all fs reqs = Ok fs'
    /\ pending fs' = pending fs ++ ((fun rt => mkPending rt.2 rt.1) <$> reqs)
    /\ rx_requests fs' = rx_requests fs
    /\ n_pending_requests fs' = n_pending_requests fs + Z.of_nat (length reqs)
    /\ length (pending_requests fs') = length (pending_requests fs).
Proof.
  induction reqs as [|rt reqs IH]; intros fs Hwf Hlen.
  - exists fs. cbn. rewrite app_nil_r, Z.add_0_r. done.
  - rewrite length_cons in Hlen. unfold push_all. cbn [foldl mbind Result_bind].
    unfold push_client_request at 2. unfold sequencer_wf in Hwf.
    rewrite (proj2 (Z.leb_gt _ _)) by lia.
    set (fs1 := mkSequencer _ _ _).
    destruct (IH fs1) as (fs' & Hrun & Hp & Hq & Hn & Hl).
    { unfold sequencer_wf, fs1. cbn. rewrite length_insert. lia. }
    { unfold fs1. cbn. rewrite length_insert. lia. }
    exists fs'. split; [exact Hrun|]. rewrite Hp, Hq, Hn, Hl. unfold fs1, pending. cbn.
    rewrite length_insert. split_and!; try done; try lia.
    rewrite cons_middle, app_assoc. f_equal.
    replace (Z.to_nat (n_pending_requests fs + 1)) with (S (Z.to_nat (n_pending_requests fs)))
      by lia.
    assert (Z.to_nat (n_pending_requests fs) < length (pending_requests fs))%nat as Hlt by lia.
    rewrite (take_S_r _ _ (mkPending rt.2 rt.1)).
    + f_equal. by rewrite take_insert_ge by lia.
    + by rewrite list_lookup_insert_eq.
Qed.

(** X17: the sequencer takes requests up to the size of its array and
    keeps them in the order of arrival; one request more ends the
    process. *)
Theorem push_all_capacity fs reqs :
  sequencer_wf fs ->
  (n_pending_requests fs + Z.of_nat (length reqs) <= Z.of_nat (length (pending_requests fs)) ->
   exists fs',
     push_all fs reqs = Ok fs'
     /\ pending fs' = pending fs ++ ((fun rt => mkPending rt.2 rt.1) <$> reqs)
     /\ rx_requests fs' = rx_requests fs)
  /\ (Z.of_nat (length (pending_requests fs)) < n_pending_requests fs + Z.of_nat (length reqs) ->
      push_all fs reqs = Stopped Exit_too_many_pending).
Proof.
  intros Hwf. split.
  - intros Hlen. destruct (push_all_fits reqs fs Hwf Hlen) as (fs' & H1 & H2 & H3 & _). eauto.
  - intros Hlen.
    set (room := Z.to_nat (Z.of_nat (length (pending_requests fs)) - n_pending_requests fs)).
    unfold sequencer_wf in Hwf.
    rewrite <- (take_drop room reqs). unfold push_all. rewrite foldl_app.
    destruct (push_all_fits (take room reqs) fs Hwf) as (fs' & Hrun & _ & _ & Hn & Hl).
    { rewrite length_take. lia. }
    unfold push_all in Hrun. rewrite Hrun.
    destruct (drop room reqs) as [|rt rest] eqn:Hd.
    { apply (f_equal length) in Hd. rewrite length_drop in Hd. cbn in Hd. lia. }
    cbn [foldl mbind Result_bind]. unfold push_client_request.
    rewrite length_take in Hn.
    rewrite (proj2 (Z.leb_le _ _)) by lia. apply push_all_stopped.
Qed.

Lemma new_sequencer_length q :
  length (pending_requests (FIFOSequencer_new q)) = 1024%nat
  /\ n_pending_requests (FIFOSequencer_new q) = 0.
Proof. cbn [FIFOSequencer_new pending_requests n_pending_requests]. by rewrite length_replicate. Qed.

Lemma push_all_capacity_witness :
  (exists fs',
     push_all (FIFOSequencer_new (LFQueue_new 8))
              [(Request.default, 5); (Request.default, 3)] = Ok fs'
     /\ pending fs' = [mkPending 5 Request.default; mkPending 3 Request.default]
     /\ rx_requests fs' = LFQueue_new 8)
  /\ push_all (FIFOSequencer_new (LFQueue_new 8))
              (replicate 1025 (Request.default, 0)) = Stopped Exit_too_many_pending.
Proof.
  destruct (new_sequencer_length (LFQueue_new 8)) as [Hl Hn].
  assert (sequencer_wf (FIFOSequencer_new (LFQueue_new 8))) as Hwf.
  { unfold sequencer_wf. rewrite Hl, Hn. lia. }
  split.
  - apply (push_all_capacity (FIFOSequencer_new (LFQueue_new 8))
             [(Request.default, 5); (Request.default, 3)] Hwf).
    rewrite Hl, Hn. cbn [length]. lia.
  - apply (push_all_capacity (FIFOSequencer_new (LFQueue_new 8))
             (replicate 1025 (Request.default, 0)) Hwf).
    rewrite Hl, Hn, length_replicate. lia.
Defined.

End SequencerTheorems.

(** ** The market data consumer: the incremental stream *)

Section ConsumerTheorems.
Import Common Consumer.

(** The messages carry consecutive sequence numbers from [n] on. *)
Definition in_sequence (n : Z) (msgs : list Update.MDPMarketUpdate) : Prop :=
  forall k m, msgs !! k = Some m -> Update.n_seq m = n + Z.of_nat k.

(** The messages put into a queue of updates, each under its sequence
    number. *)
Definition queue_all (m : QueuedMarketUpdates) (msgs : list Update.MDPMarketUpdate)
  : QueuedMarketUpdates :=
  foldl (fun m x => assign m (Update.n_seq x) (Update.ome_update x)) m msgs.

Lemma in_sequence_cons n m msgs :
  in_sequence n (m :: msgs) <-> Update.n_seq m = n /\ in_sequence (n + 1) msgs.
Proof.
  unfold in_sequence. split.
  - intros H. split.
    + rewrite (H 0%nat m eq_refl). lia.
    + intros k x Hk. rewrite (H (S k) x Hk). lia.
  - intros [H0 H] k x Hk. destruct k as [|k].
    + injection Hk as <-. lia.
    + rewrite (H k x Hk). lia.
Qed.

Lemma rx_live msgs : forall c,
  is_in_recovery c = false ->
  in_sequence (n_seq_inc_next c) msgs ->
  0 <= n_seq_inc_next c -> n_seq_inc_next c + Z.of_nat (length msgs) < 2 ^ 64 ->
  foldl (rx_message false) c msgs
  = mkConsumer (n_seq_inc_next c + Z.of_nat (length msgs))
               (tx_updates c ++ (Update.ome_update <$> msgs))
               false (snapshot_joined c)
               (queued_incremental_updates c) (queued_snapshot_updates c).
Proof.
  induction msgs as [|m msgs IH]; intros c Hr Hs H0 Hb.
  - cbn. rewrite Z.add_0_r, app_nil_r. destruct c. cbn in *. by rewrite Hr.
  - apply in_sequence_cons in Hs as [Hm Hs]. rewrite length_cons in Hb. cbn [foldl].
    assert (rx_message false c m
            = mkConsumer (n_seq_inc_next c + 1) (tx_updates c ++ [Update.ome_update m]) false
                         (snapshot_joined c) (queued_incremental_updates c)
                         (queued_snapshot_updates c)) as ->.
    { unfold rx_message. rewrite Hr, Hm, Z.eqb_refl. cbn [orb negb].
      unfold wrap_u64. by rewrite Z.mod_small by lia. }
    rewrite IH; cbn [n_seq_inc_next tx_updates is_in_recovery snapshot_joined
                     queued_incremental_updates queued_snapshot_updates]; try done; try lia.
    rewrite length_cons. f_equal; [lia|by rewrite <- app_assoc].
Qed.

Lemma rx_recovering msgs : forall c,
  is_in_recovery c = true -> queued_snapshot_updates c = [] ->
  foldl (rx_message false) c msgs
  = mkConsumer (n_seq_inc_next c) (tx_updates c) true (snapshot_joined c)
               (queue_all (queued_incremental_updates c) msgs) [].
Proof.
  induction msgs as [|m msgs IH]; intros c Hr Hq.
  - cbn. destruct c. cbn in *. by rewrite Hr, Hq.
  - cbn [foldl queue_all].
    assert (rx_message false c m
            = mkConsumer (n_seq_inc_next c) (tx_updates c) true (snapshot_joined c)
                         (assign (queued_incremental_updates c) (Update.n_seq m)
                                 (Update.ome_update m)) []) as ->.
    { unfold rx_message. rewrite Hr. cbn. unfold queue_update, snapshot_sync_check. cbn.
      by rewrite Hq. }
    by rewrite IH.
Qed.

(** X18: in live mode the consumer forwards the incremental updates that
    arrive in sequence, in their order, and counts them; it does not enter
    recovery and leaves both queues alone. *)
Theorem rx_in_sequence c msgs :
  is_in_recovery c = false ->
  in_sequence (n_seq_inc_next c) msgs ->
  0 <= n_seq_inc_next c -> n_seq_inc_next c + Z.of_nat (length msgs) < 2 ^ 64 ->
  rx_callback c false msgs
  = mkConsumer (n_seq_inc_next c + Z.of_nat (length msgs))
               (tx_updates c ++ (Update.ome_update <$> msgs))
               false (snapshot_joined c)
               (queued_incremental_updates c) (queued_snapshot_updates c).
Proof. intros Hr Hs H0 Hb. unfold rx_callback. cbn. by apply rx_live. Qed.

(** X19: a gap in the incremental stream.  The updates before the gap
    are forwarded; from the first message whose sequence number is not the
    next one on, nothing is forwarded: the consumer is in recovery, has
    joined the snapshot stream with both queues emptied, and keeps the
    message at the gap and all later ones in the incremental queue under
    their sequence numbers. *)
Theorem rx_gap c before_gap gap rest :
  is_in_recovery c = false ->
  in_sequence (n_seq_inc_next c) before_gap ->
  0 <= n_seq_inc_next c -> n_seq_inc_next c + Z.of_nat (length before_gap) < 2 ^ 64 ->
  Update.n_seq gap <> n_seq_inc_next c + Z.of_nat (length before_gap) ->
  rx_callback c false (before_gap ++ gap :: rest)
  = mkConsumer (n_seq_inc_next c + Z.of_nat (length before_gap))
               (tx_updates c ++ (Update.ome_update <$> before_gap))
               true true (queue_all [] (gap :: rest)) [].
Proof.
  intros Hr Hs H0 Hb Hgap. unfold rx_callback. cbn [andb]. rewrite foldl_app, (rx_live before_gap c Hr Hs H0 Hb).
  cbn [foldl]. set (c1 := mkConsumer _ _ _ _ _ _).
  assert (rx_message false c1 gap
          = mkConsumer (n_seq_inc_next c1) (tx_updates c1) true true
                       (assign [] (Update.n_seq gap) (Update.ome_update gap)) []) as ->.
  { unfold rx_message. cbn [is_in_recovery c1 orb n_seq_inc_next].
    rewrite (proj2 (Z.eqb_neq _ _)) by done. cbn. done. }
  by rewrite rx_recovering.
Qed.

Lemma rx_in_sequence_witness :
  rx_callback MarketDataConsumer_new false
    [Update.mkMDP 1 Update.default; Update.mkMDP 2 Update.default]
  = mkConsumer 3 [Update.default; Update.default] false false [] [].
Proof.
  apply (rx_in_sequence MarketDataConsumer_new
           [Update.mkMDP 1 Update.default; Update.mkMDP 2 Update.default]);
    [done| |done|done].
  intros [|[|k]] m; cbn; intros [= <-]; done.
Defined.

Lemma rx_gap_witness :
  rx_callback MarketDataConsumer_new false
    [Update.mkMDP 1 Update.default; Update.mkMDP 3 Update.default;
     Update.mkMDP 2 Update.default]
  = mkConsumer 2 [Update.default] true true
               [(2, Update.default); (3, Update.default)] [].
Proof.
  apply (rx_gap MarketDataConsumer_new [Update.mkMDP 1 Update.default]
           (Update.mkMDP 3 Update.default) [Update.mkMDP 2 Update.default]);
    [done| |done|done|done].
  intros [|k] m; cbn; intros [= <-]; done.
Defined.

End ConsumerTheorems.

(** * The replica book: what leaves the BBO alone, and unknown orders *)

Section ReplicaTheorems.
Import Common Run LL Replica.

(** None of the list operations of the replica assigns the BBO. *)
Lemma add_price_level_bbo b l b' : add_price_level b l = Ok b' -> bbo b' = bbo b.
Proof.
  intros H. unfold add_price_level in H.
  match type of H with
  | context [side_head ?x ?y] => destruct (side_head x y) as [best|]
  end.
  - run_step H; destruct_pair. run_step H; destruct_pair.
    match type of H with (if ?c then _ else _) = _ => destruct c end.
    + do 2 run_step H. by injection H as <-.
    + run_step H.
      match type of H with (if ?c then _ else _) = _ => destruct c end;
        injection H as <-; [|done].
      unfold set_side_head. by destruct (decide _).
  - injection H as <-. unfold set_side_head. by destruct (decide _).
Qed.

Lemma add_order_bbo b o b' : add_order b o = Ok b' -> bbo b' = bbo b.
Proof.
  intros H. unfold add_order in H.
  destruct (get_level_for_price b (TEOrder.price (order b o))) as [pl|].
  - do 2 run_step H. unfold set_order_at in H.
    destruct (_ && _); [|discriminate]. by injection H as <-.
  - run_step H; destruct_pair. run_step H.
    unfold set_order_at in H.
    destruct (_ && _); [|discriminate]. injection H as <-.
    match goal with E : add_price_level _ _ = _ |- _ =>
      apply add_price_level_bbo in E; exact E end.
Qed.

Lemma remove_price_level_bbo b s p b' :
  remove_price_level b s p = Ok b' -> bbo b' = bbo b.
Proof.
  intros H. unfold remove_price_level in H.
  run_step H. run_step H. run_step H. injection H as <-.
  match goal with E : (if ?c then _ else _) = Ok _ |- _ =>
    destruct c; [injection E as <-|do 2 run_step E; injection E as <-] end.
  - unfold set_side_head. by destruct (decide _).
  - match goal with |- context [if ?c then _ else _] => destruct c end; [|done].
    unfold set_side_head. by destruct (decide _).
Qed.

Lemma remove_order_bbo b o b' : remove_order b o = Ok b' -> bbo b' = bbo b.
Proof.
  intros H. unfold remove_order in H.
  run_step H. rename E into Hrm.
  assert (Ha : bbo a = bbo b).
  { destruct (bool_decide (TEOrder.prev (order b o) = Some o)).
    - by apply remove_price_level_bbo in Hrm.
    - do 3 run_step Hrm. injection Hrm as <-.
      by match goal with |- context [if ?c then _ else _] => destruct c end. }
  clear Hrm. run_step H. run_step H. injection H as <-.
  match goal with E : set_order_at _ _ _ = Ok _ |- _ =>
    unfold set_order_at in E; destruct (_ && _); [|discriminate]; injection E as <- end.
  exact Ha.
Qed.

Lemma deallocate_side_bbo b h b' : deallocate_side b h = Ok b' -> bbo b' = bbo b.
Proof.
  intros H. destruct h as [h|]; cbn [deallocate_side] in H.
  - do 2 run_step H. by injection H as <-.
  - by injection H as <-.
Qed.

Lemma clear_entire_book_bbo b b' : clear_entire_book b = Ok b' -> bbo b' = bbo b.
Proof.
  intros H. unfold clear_entire_book in H.
  run_step H. run_step H. run_step H. injection H as <-.
  repeat match goal with E : deallocate_side _ _ = Ok _ |- _ =>
    apply deallocate_side_bbo in E; cbn in E end.
  cbn. congruence.
Qed.

(** The two flags [on_market_update] computes before its [switch]. *)
Definition bid_is_updated (b : TEOrderBook) (u : Update.OMEMarketUpdate) : bool :=
  match bids_by_price b with
  | Some l => bool_decide (Update.side u = BUY) && (Level.price (level b l) <=? Update.price u)
  | None => false
  end.

Definition ask_is_updated (b : TEOrderBook) (u : Update.OMEMarketUpdate) : bool :=
  match asks_by_price b with
  | Some l => bool_decide (Update.side u = SELL) && (Update.price u <=? Level.price (level b l))
  | None => false
  end.

(** With both flags unset, [on_market_update] leaves the BBO as it was. *)
Lemma on_market_update_flags_unset b u b' :
  bid_is_updated b u = false -> ask_is_updated b u = false ->
  on_market_update b u = Ok b' -> bbo b' = bbo b.
Proof.
  intros Hf1 Hf2 H. unfold on_market_update in H.
  fold (bid_is_updated b u) in H. fold (ask_is_updated b u) in H.
  rewrite Hf1, Hf2 in H.
  destruct (Update.type u).
  - (* INVALID *) by injection H as <-.
  - (* CLEAR *) run_step H. rewrite update_bbo_false_false in H. injection H as <-.
    match goal with E : clear_entire_book _ = _ |- _ =>
      apply clear_entire_book_bbo in E; exact E end.
  - (* ADD *) run_step H; destruct_pair. run_step H.
    rewrite update_bbo_false_false in H. injection H as <-.
    match goal with E : add_order _ _ = _ |- _ => apply add_order_bbo in E; exact E end.
  - (* MODIFY *) do 2 run_step H. rewrite update_bbo_false_false in H. by injection H as <-.
  - (* CANCEL *) do 3 run_step H. rewrite update_bbo_false_false in H. injection H as <-.
    match goal with E : remove_order _ _ = _ |- _ => apply remove_order_bbo in E; exact E end.
  - (* TRADE *) by injection H as <-.
  - by injection H as <-.
  - by injection H as <-.
Qed.

(** X20.  An update leaves the replica's BBO exactly as it was whenever its
    side has no price level yet, or its price is strictly worse than the
    best price of its side (a lower bid, a higher ask), whatever the type of
    the update: the two flags are computed from the book as it is before
    the update is applied.  In particular the first order added to a side
    does not reach the BBO. *)
Theorem replica_bbo_unchanged b u b' :
  (forall l, Update.side u = BUY -> bids_by_price b = Some l ->
             Update.price u < Level.price (level b l)) ->
  (forall l, Update.side u = SELL -> asks_by_price b = Some l ->
             Level.price (level b l) < Update.price u) ->
  on_market_update b u = Ok b' ->
  bbo b' = bbo b.
Proof.
  intros Hb Ha H. apply (on_market_update_flags_unset b u b'); [| |exact H].
  - unfold bid_is_updated. destruct (bids_by_price b) as [l|] eqn:E; [|done].
    case_bool_decide as Hs; [|done]. specialize (Hb l Hs eq_refl).
    cbn [andb]. apply Z.leb_gt. exact Hb.
  - unfold ask_is_updated. destruct (asks_by_price b) as [l|] eqn:E; [|done].
    case_bool_decide as Hs; [|done]. specialize (Ha l Hs eq_refl).
    cbn [andb]. apply Z.leb_gt. exact Ha.
Qed.

(** X21.  A [MODIFY] or a [CANCEL] naming an order id the replica does not
    hold: when the id is inside the table, the null entry is dereferenced;
    when it is outside, [id_to_order.at] throws under [noexcept].  Neither
    comes back with a book. *)
Theorem replica_unknown_order b u :
  Update.type u = Update.MODIFY \/ Update.type u = Update.CANCEL ->
  id_to_order b !! Update.order_id u = None ->
  on_market_update b u
  = Stopped (if (0 <=? Update.order_id u) && (Update.order_id u <? MAX_ORDER_IDS)
             then Null_dereference else Terminate_out_of_range).
Proof.
  intros Ht Hn. unfold on_market_update, order_at.
  destruct Ht as [-> | ->]; destruct (_ && _); cbn; rewrite ?Hn; reflexivity.
Qed.

(** The first bid of an empty replica, and the cancel of an order it never
    saw. *)
Lemma replica_bbo_unchanged_witness :
  exists b', on_market_update (TEOrderBook_new 3) (add_update 0 BUY 100 50 1) = Ok b'
             /\ bbo b' = BBO_default /\ bids_by_price b' <> None.
Proof.
  destruct (on_market_update (TEOrderBook_new 3) (add_update 0 BUY 100 50 1))
    as [b'|s] eqn:E; [|vm_compute in E; discriminate E].
  exists b'. split; [reflexivity|]. split.
  - apply (replica_bbo_unchanged (TEOrderBook_new 3) (add_update 0 BUY 100 50 1) b');
      [intros l _ [=]|intros l [=]|exact E].
  - vm_compute in E. injection E as <-. discriminate.
Defined.

Lemma replica_unknown_order_witness :
  on_market_update (TEOrderBook_new 3)
    (Update.mkUpdate Update.CANCEL 7 3 BUY 100 50 1) = Stopped Null_dereference.
Proof.
  apply (replica_unknown_order (TEOrderBook_new 3)
           (Update.mkUpdate Update.CANCEL 7 3 BUY 100 50 1)); [by right|reflexivity].
Defined.

End ReplicaTheorems.

(** * The trading client: risk check, order manager and positions *)

Section TradingTheorems.
Import Common Run Orders.

Lemma wrap_i32_small (z : Z) : - 2 ^ 31 <= z < 2 ^ 31 -> wrap_i32 z = z.
Proof. intros H. unfold wrap_i32. rewrite Z.mod_small; lia. Qed.

Lemma wrap_i32_high (z : Z) : 2 ^ 31 <= z < 2 ^ 32 -> wrap_i32 z = z - 2 ^ 32.
Proof.
  intros H. unfold wrap_i32.
  replace (z + 2 ^ 31) with (z - 2 ^ 31 + 1 * 2 ^ 32) by lia.
  rewrite Z_mod_plus_full, Z.mod_small; lia.
Qed.

Lemma wrap_i32_range (z : Z) : - 2 ^ 31 <= wrap_i32 z < 2 ^ 31.
Proof. unfold wrap_i32. pose proof (Z.mod_pos_bound (z + 2 ^ 31) (2 ^ 32)). lia. Qed.

Lemma abs_i32_small (z : Z) : - 2 ^ 31 < z < 2 ^ 31 -> abs_i32 z = Z.abs z.
Proof. intros H. unfold abs_i32. apply wrap_i32_small. lia. Qed.

(** X22.  A position limit of [2^31] or more is read as a negative
    [int32_t] by the cast in [Risk::get_trade_risk].  An order that passes
    the size check is then refused as [POSITION_TOO_LARGE] whatever the
    position and the side, with one exception: when the position it leads
    to is [INT_MIN], [std::abs] keeps [INT_MIN], which is not above the
    limit, and the position check passes. *)
Theorem risk_position_limit_wraps r side qty :
  2 ^ 31 <= position_max (conf r) < 2 ^ 32 ->
  qty <= size_max (conf r) ->
  Risk_get_trade_risk r side qty = POSITION_TOO_LARGE
  <-> wrap_i32 (Positions.position (risk_position r)
                + wrap_i32 (side_to_value side * wrap_i32 qty)) <> - 2 ^ 31.
Proof.
  intros Hp Hq. unfold Risk_get_trade_risk.
  rewrite (proj2 (Z.ltb_ge _ _)) by lia.
  rewrite (wrap_i32_high _ Hp).
  set (x := wrap_i32 (Positions.position (risk_position r)
                      + wrap_i32 (side_to_value side * wrap_i32 qty))).
  pose proof (wrap_i32_range (Positions.position (risk_position r)
                              + wrap_i32 (side_to_value side * wrap_i32 qty))) as Hx.
  fold x in Hx. destruct (decide (x = - 2 ^ 31)) as [E|E].
  - rewrite E. change (abs_i32 (- 2 ^ 31)) with (- 2 ^ 31).
    rewrite (proj2 (Z.ltb_ge _ _)) by lia.
    split; [|done]. by destruct (_ <? _)%float.
  - rewrite abs_i32_small by lia.
    rewrite (proj2 (Z.ltb_lt _ _)) by lia. done.
Qed.

(** X23.  With a position limit below [2^31] and no overflow of the
    position, an order passes the risk check exactly when its quantity is at
    most [size_max], the position it would lead to is at most
    [position_max] in absolute value, and the total PnL is not below
    [loss_max]. *)
Theorem risk_allowed r side qty :
  side = BUY \/ side = SELL ->
  0 <= qty < 2 ^ 31 ->
  0 <= position_max (conf r) < 2 ^ 31 ->
  - 2 ^ 31 < Positions.position (risk_position r) + side_to_value side * qty < 2 ^ 31 ->
  Risk_get_trade_risk r side qty = ALLOWED
  <-> qty <= size_max (conf r)
      /\ Z.abs (Positions.position (risk_position r) + side_to_value side * qty)
         <= position_max (conf r)
      /\ (Positions.pnl_total (risk_position r) <? loss_max (conf r))%float = false.
Proof.
  intros Hs Hq Hp Hpos. unfold Risk_get_trade_risk.
  rewrite (wrap_i32_small (position_max (conf r))) by lia.
  rewrite (wrap_i32_small qty) by lia.
  rewrite (wrap_i32_small (side_to_value side * qty))
    by (destruct Hs as [-> | ->]; cbn [side_to_value]; lia).
  rewrite (wrap_i32_small (_ + _)) by lia.
  rewrite abs_i32_small by lia.
  destruct (Z.ltb_spec (size_max (conf r)) qty) as [H1|H1].
  { split; [discriminate|]. intros (? & _). lia. }
  destruct (Z.ltb_spec (position_max (conf r))
              (Z.abs (Positions.position (risk_position r) + side_to_value side * qty)))
    as [H2|H2].
  { split; [discriminate|]. intros (_ & ? & _). lia. }
  destruct (Positions.pnl_total (risk_position r) <? loss_max (conf r))%float.
  - split; [discriminate|]. intros (_ & _ & ?). discriminate.
  - split; [|reflexivity]. intros _. split_and!; [lia|lia|reflexivity].
Qed.

(** What one [manage_order] leaves behind: the table, the risk manager and
    the client id as they were, and at most one request more, under the
    client id of the engine. *)
Lemma manage_order_sends om o ticker price side qty o' om' :
  manage_order om o ticker price side qty = Ok (o', om') ->
  ticker_to_order_by_side om' = ticker_to_order_by_side om
  /\ risk_manager om' = risk_manager om
  /\ engine_client_id om' = engine_client_id om
  /\ exists new, tx_requests om' = tx_requests om ++ new
                 /\ (length new <= 1)%nat
                 /\ Forall (fun r => Request.client_id r = engine_client_id om) new.
Proof.
  unfold manage_order. intros H.
  assert (Hsame : forall x, Ok (o, om) = Ok (x, om') ->
            ticker_to_order_by_side om' = ticker_to_order_by_side om
            /\ risk_manager om' = risk_manager om
            /\ engine_client_id om' = engine_client_id om
            /\ exists new, tx_requests om' = tx_requests om ++ new
                 /\ (length new <= 1)%nat
                 /\ Forall (fun r => Request.client_id r = engine_client_id om) new).
  { intros x [= _ <-]. split_and!; try reflexivity.
    exists []. rewrite app_nil_r. split_and!; [reflexivity|cbn; lia|constructor]. }
  assert (Hone : forall x om1 req, Request.client_id req = engine_client_id om ->
            ticker_to_order_by_side om1 = ticker_to_order_by_side om ->
            risk_manager om1 = risk_manager om ->
            engine_client_id om1 = engine_client_id om ->
            tx_requests om1 = tx_requests om ++ [req] ->
            Ok (x, om1) = Ok (o', om') ->
            ticker_to_order_by_side om' = ticker_to_order_by_side om
            /\ risk_manager om' = risk_manager om
            /\ engine_client_id om' = engine_client_id om
            /\ exists new, tx_requests om' = tx_requests om ++ new
                 /\ (length new <= 1)%nat
                 /\ Forall (fun r => Request.client_id r = engine_client_id om) new).
  { intros x om1 req Hc Ht Hr He Hx [= _ <-]. split_and!; try assumption.
    exists [req]. split_and!; [assumption|cbn; lia|by constructor]. }
  destruct (state o).
  - destruct (decide _); [by eapply Hsame|].
    unfold get_trade_risk in H. destruct (_ !! _); [|discriminate].
    cbn [mbind Result_bind] in H. destruct (decide _); [|by eapply Hsame].
    unfold request_new_order in H.
    eapply Hone; cycle 5; [exact H|..]; cycle 4; reflexivity.
  - by eapply Hsame.
  - destruct (decide _); [by eapply Hsame|].
    unfold request_cancel_order in H.
    eapply Hone; cycle 5; [exact H|..]; cycle 4; reflexivity.
  - by eapply Hsame.
  - destruct (decide _); [by eapply Hsame|].
    unfold get_trade_risk in H. destruct (_ !! _); [|discriminate].
    cbn [mbind Result_bind] in H. destruct (decide _); [|by eapply Hsame].
    unfold request_new_order in H.
    eapply Hone; cycle 5; [exact H|..]; cycle 4; reflexivity.
Qed.

(** X24.  [manage_orders] sends at most two requests, each under the
    client id of the engine and after those already sent, and never writes
    the table of tracked orders: the orders it manages are copies, so that
    the state a request moves an order to is lost. *)
Theorem manage_orders_sends om ticker bid ask trade_size om' :
  manage_orders om ticker bid ask trade_size = Ok om' ->
  ticker_to_order_by_side om' = ticker_to_order_by_side om
  /\ risk_manager om' = risk_manager om
  /\ exists new, tx_requests om' = tx_requests om ++ new
                 /\ (length new <= 2)%nat
                 /\ Forall (fun r => Request.client_id r = engine_client_id om) new.
Proof.
  unfold manage_orders. intros H.
  destruct (order_at om ticker (side_to_index BUY)) as [o1|] eqn:E1; [|discriminate].
  cbn [mbind Result_bind] in H.
  destruct (manage_order om o1 ticker bid BUY trade_size) as [[o1' om1]|] eqn:E2;
    [|discriminate].
  cbn [mbind Result_bind] in H.
  destruct (order_at om1 ticker (side_to_index SELL)) as [o2|] eqn:E3; [|discriminate].
  cbn [mbind Result_bind] in H.
  destruct (manage_order om1 o2 ticker ask SELL trade_size) as [[o2' om2]|] eqn:E4;
    [|discriminate].
  cbn [mbind Result_bind] in H. injection H as <-.
  apply manage_order_sends in E2 as (Ht1 & Hr1 & Hc1 & n1 & Hx1 & Hl1 & Hf1).
  apply manage_order_sends in E4 as (Ht2 & Hr2 & Hc2 & n2 & Hx2 & Hl2 & Hf2).
  split_and!; [congruence|congruence|].
  exists (n1 ++ n2). split_and!.
  - rewrite Hx2, Hx1. by rewrite app_assoc.
  - rewrite length_app. lia.
  - apply Forall_app. split; [exact Hf1|]. by rewrite <- Hc1.
Qed.

(** X25.  A fill on the side of the position, or into a flat position, adds
    its quantity to the position (subtracts it for a sell) and to the
    volume, and leaves the realised PnL as it was. *)
Theorem add_fill_opens p r :
  Response.side r = BUY \/ Response.side r = SELL ->
  0 <= Response.qty_exec r < 2 ^ 31 ->
  - 2 ^ 31 < Positions.position p < 2 ^ 31 ->
  0 <= Positions.position p * side_to_value (Response.side r) ->
  - 2 ^ 31 <= Positions.position p + side_to_value (Response.side r) * Response.qty_exec r
    < 2 ^ 31 ->
  Positions.position (Positions.add_fill p r)
  = Positions.position p + side_to_value (Response.side r) * Response.qty_exec r
  /\ Positions.volume (Positions.add_fill p r)
     = wrap_u32 (Positions.volume p + Response.qty_exec r)
  /\ Positions.pnl_real (Positions.add_fill p r) = Positions.pnl_real p.
Proof.
  intros Hs Hq Hp Hd Hn. unfold Positions.add_fill.
  rewrite (wrap_i32_small (Response.qty_exec r)) by lia.
  rewrite (wrap_i32_small (Response.qty_exec r * _))
    by (destruct Hs as [-> | ->]; cbn [side_to_value]; lia).
  rewrite (wrap_i32_small (Positions.position p + _)) by lia.
  rewrite (wrap_i32_small (Positions.position p * _))
    by (destruct Hs as [-> | ->]; cbn [side_to_value]; lia).
  rewrite (proj2 (Z.leb_le _ _)) by lia.
  repeat match goal with |- context [if ?c then _ else _] => destruct c end;
    cbn; split_and!; try reflexivity; lia.
Qed.

Lemma vwap_at_set_eq v i x :
  (Z.to_nat i < length v)%nat -> Positions.vwap_at (Positions.vwap_set v i x) i = x.
Proof.
  intros H. unfold Positions.vwap_at, Positions.vwap_set.
  apply nth_lookup_Some with (d := 0%float). by apply list_lookup_insert_eq.
Qed.

Lemma vwap_at_set_ne v i j x :
  Z.to_nat i <> Z.to_nat j ->
  Positions.vwap_at (Positions.vwap_set v i x) j = Positions.vwap_at v j.
Proof.
  intros H. unfold Positions.vwap_at, Positions.vwap_set.
  rewrite !nth_lookup. by rewrite list_lookup_insert_ne.
Qed.

Lemma vwap_set_length v i x : length (Positions.vwap_set v i x) = length v.
Proof. apply length_insert. Qed.

(** X26.  A fill that closes the position exactly leaves it flat: both open
    VWAPs and the unrealised PnL are reset to zero, and the total PnL is the
    realised one. *)
Theorem add_fill_flat p r :
  Response.side r = BUY \/ Response.side r = SELL ->
  0 <= Response.qty_exec r < 2 ^ 31 ->
  length (Positions.vwap_open p) = 4%nat ->
  Positions.position p + side_to_value (Response.side r) * Response.qty_exec r = 0 ->
  Positions.position (Positions.add_fill p r) = 0
  /\ Positions.pnl_unreal (Positions.add_fill p r) = 0%float
  /\ Positions.vwap_at (Positions.vwap_open (Positions.add_fill p r)) (side_to_index BUY)
     = 0%float
  /\ Positions.vwap_at (Positions.vwap_open (Positions.add_fill p r)) (side_to_index SELL)
     = 0%float
  /\ Positions.pnl_total (Positions.add_fill p r)
     = (0 + Positions.pnl_real (Positions.add_fill p r))%float.
Proof.
  intros Hs Hq Hl Hz. unfold Positions.add_fill.
  rewrite (wrap_i32_small (Response.qty_exec r)) by lia.
  rewrite (wrap_i32_small (Response.qty_exec r * _))
    by (destruct Hs as [-> | ->]; cbn [side_to_value]; lia).
  replace (Positions.position p
           + Response.qty_exec r * side_to_value (Response.side r)) with 0 by lia.
  change (wrap_i32 0) with 0. change (0 =? 0) with true.
  change (side_to_index BUY) with 2. change (side_to_index SELL) with 0.
  repeat match goal with |- context [if ?c then _ else _] => destruct c end;
    cbn [Positions.position Positions.pnl_unreal Positions.vwap_open Positions.pnl_total
         Positions.pnl_real];
    (split_and!; [reflexivity|reflexivity| | |reflexivity]);
    rewrite ?vwap_at_set_eq, ?(vwap_at_set_ne _ 2 0), ?vwap_at_set_eq;
    rewrite ?vwap_set_length, ?Hl; try reflexivity; try (cbn; lia).
Qed.

(** A limit of [2^32 - 1] on a flat position, and a limit of [2^31] on a
    position one sell away from [INT_MIN]. *)
Lemma risk_position_limit_wraps_witness :
  Risk_get_trade_risk
    (mkRisk Positions.Position_default (mkRiskConf 1000 Qty_INVALID (-1000)%float)) BUY 1
  = POSITION_TOO_LARGE
  /\ Risk_get_trade_risk
       (mkRisk (Positions.mkPosition (-2147483647) 0%float 0%float 0%float
                  (replicate 4 0%float) 0)
               (mkRiskConf 1000 (2 ^ 31) (-1000)%float)) SELL 1
     <> POSITION_TOO_LARGE.
Proof.
  split.
  - apply (risk_position_limit_wraps
             (mkRisk Positions.Position_default (mkRiskConf 1000 Qty_INVALID (-1000)%float))
             BUY 1); [cbn; unfold Qty_INVALID; lia|cbn; lia|by vm_compute].
  - intros H.
    apply (risk_position_limit_wraps
             (mkRisk (Positions.mkPosition (-2147483647) 0%float 0%float 0%float
                        (replicate 4 0%float) 0)
                     (mkRiskConf 1000 (2 ^ 31) (-1000)%float)) SELL 1) in H;
      [|cbn; lia|cbn; lia].
    apply H. reflexivity.
Defined.

Lemma risk_allowed_witness :
  Risk_get_trade_risk
    (mkRisk Positions.Position_default (mkRiskConf 1000 1000 (-1000)%float)) SELL 20
  = ALLOWED.
Proof.
  apply (risk_allowed
           (mkRisk Positions.Position_default (mkRiskConf 1000 1000 (-1000)%float))
           SELL 20); [by right|lia|cbn; lia|cbn; lia|].
  split_and!; [cbn; lia|cbn; lia|vm_compute; reflexivity].
Defined.

Lemma manage_orders_sends_witness :
  exists om', manage_orders om0 4 100 110 20 = Ok om'
              /\ ticker_to_order_by_side om' = ticker_to_order_by_side om0.
Proof.
  destruct (manage_orders om0 4 100 110 20) as [om'|s] eqn:E;
    [|vm_compute in E; discriminate E].
  exists om'. split; [reflexivity|].
  exact (proj1 (manage_orders_sends om0 4 100 110 20 om' E)).
Defined.

Lemma add_fill_opens_witness :
  Positions.position (Positions.add_fill Positions.Position_default (Positions.fill SELL 10 92))
  = -10.
Proof.
  apply (add_fill_opens Positions.Position_default (Positions.fill SELL 10 92));
    [by right|cbn; lia|cbn; lia|cbn; lia|cbn; lia].
Defined.

Lemma add_fill_flat_witness :
  Positions.pnl_unreal
    (Positions.add_fill
       (Positions.add_fill Positions.Position_default (Positions.fill BUY 10 100))
       (Positions.fill SELL 10 92))
  = 0%float.
Proof.
  apply (add_fill_flat
           (Positions.add_fill Positions.Position_default (Positions.fill BUY 10 100))
           (Positions.fill SELL 10 92));
    [by right|cbn; lia|reflexivity|vm_compute; reflexivity].
Defined.

End TradingTheorems.

(** ** From the gateway to the matching engine *)

Section SequencerPipeline.
Import Common Run LL Sequencer.

(** X27.  Requests handed to a fresh sequencer and published in one call
    reach the reader of the matching engine's queue behind what the queue
    held, in the order [std::sort] gives them by receive time and not in
    the order of arrival; the sequencer has nothing pending afterwards.
    The requests must fit the pending array and the queue. *)
Theorem sequencer_to_queue std_sort (q : LFQueue Request.OMEClientRequest) items reqs n :
  sorts std_sort ->
  holds q items ->
  Z.of_nat (length reqs) <= MAX_PENDING_ORDER_REQUESTS ->
  Z.of_nat (length items + length reqs) <= q_size q ->
  exists fs fs',
    push_all (FIFOSequencer_new q) reqs = Ok fs
    /\ sequence_and_publish std_sort fs = Ok fs'
    /\ drain n (rx_requests fs')
       = take n (items ++ (request <$> std_sort ((fun rt => mkPending rt.2 rt.1) <$> reqs)))
    /\ pending fs' = [].
Proof.
  intros Hsort Hq Hfit Hroom.
  destruct (new_sequencer_length q) as [Hl Hn].
  assert (sequencer_wf (FIFOSequencer_new q)) as Hwf.
  { unfold sequencer_wf. rewrite Hl, Hn. lia. }
  destruct (push_all_fits reqs (FIFOSequencer_new q) Hwf) as (fs & Hrun & Hp & Hrx & Hn1 & Hl1).
  { rewrite Hl, Hn. unfold MAX_PENDING_ORDER_REQUESTS in Hfit. lia. }
  assert (pending (FIFOSequencer_new q) = []) as Hp0.
  { unfold pending. by rewrite Hn. }
  rewrite Hp0 in Hp. cbn [app] in Hp.
  assert (sequencer_wf fs) as Hwf1.
  { unfold sequencer_wf. rewrite Hn1, Hl1, Hl, Hn.
    unfold MAX_PENDING_ORDER_REQUESTS in Hfit. lia. }
  destruct (sequence_and_publish_spec std_sort fs Hsort Hwf1) as (fs' & Hrun' & Hrx' & Hn' & _).
  exists fs, fs'. split_and!; [exact Hrun|exact Hrun'| |].
  - rewrite Hrx', Hrx, Hp. cbn [FIFOSequencer_new rx_requests].
    apply holds_drain. apply holds_pushes; [exact Hq|].
    destruct (Hsort ((fun rt => mkPending rt.2 rt.1) <$> reqs)) as [Hperm _].
    by rewrite length_fmap, (Permutation_length Hperm), length_fmap.
  - unfold pending. by rewrite Hn'.
Qed.

Lemma sequencer_to_queue_witness :
  exists fs fs',
    push_all (FIFOSequencer_new (LFQueue_new 8))
             [(Request.default, 5);
              (Request.mkRequest Request.NEW 1 2 3 BUY 100 10, 3)] = Ok fs
    /\ sequence_and_publish insertion_sort fs = Ok fs'
    /\ drain 4 (rx_requests fs')
       = [Request.mkRequest Request.NEW 1 2 3 BUY 100 10; Request.default]
    /\ pending fs' = [].
Proof.
  apply (sequencer_to_queue insertion_sort (LFQueue_new 8) []
           [(Request.default, 5); (Request.mkRequest Request.NEW 1 2 3 BUY 100 10, 3)] 4);
    [exact insertion_sort_sorts|by apply holds_new|cbn; unfold MAX_PENDING_ORDER_REQUESTS; lia
    |cbn; lia].
Defined.

End SequencerPipeline.
